(** * MeshShape: a shallow embedding of Jolt's static triangle-mesh shape

    The development follows [Jolt/Physics/Collision/Shape/MeshShape.cpp]:
    the triangle sanitizer, the constructor's validation, the active-edge
    analysis, the sub-shape identifier decoding, the material lookup and the
    query visitors.  Part I holds the model, Part II the properties, Part III
    evaluates both on small concrete meshes. *)

From Stdlib Require Import ZArith Lia Bool.
From stdpp Require Import base decidable option list sorting numbers countable strings gmap sets.

Local Open Scope Z_scope.

(* ===================================================================== *)
(** * Part I: the model                                                    *)
(* ===================================================================== *)

(** ** Machine integers *)

(** The value of a C++ [uint32] expression: arithmetic modulo [2^32]. *)
Definition uint32 (x : Z) : Z := x mod 2 ^ 32.

(** The conversion [(int)x] of an unsigned or wider value to a 32-bit
    two's-complement [int]. *)
Definition to_int (x : Z) : Z :=
  let y := x mod 2 ^ 32 in if y <? 2 ^ 31 then y else y - 2 ^ 32.

(** ** Indexed triangles *)

(** Modelled from the spec: [IndexedTriangle] (Geometry/IndexedTriangle.h is
    not among the sources).  Three vertex indices [mIdx[0..2]] and the flag
    word [mMaterialIndex], all [uint32]. *)
Record IndexedTriangle : Type := mkIndexedTriangle {
  mIdx_0 : Z;
  mIdx_1 : Z;
  mIdx_2 : Z;
  mMaterialIndex : Z
}.

#[export] Instance IndexedTriangle_eq_dec : EqDecision IndexedTriangle.
Proof. solve_decision. Defined.

(** [inTriangle.mIdx[i]] for a position [i] in [0..2]. *)
Definition mIdx (t : IndexedTriangle) (i : Z) : Z :=
  if i =? 0 then mIdx_0 t else if i =? 1 then mIdx_1 t else mIdx_2 t.

(** Modelled from the spec: [IndexedTriangle::IsDegenerate], "two or more
    equal vertex indices". *)
Definition IsDegenerate (t : IndexedTriangle) : bool :=
  (mIdx_0 t =? mIdx_1 t) || (mIdx_1 t =? mIdx_2 t) || (mIdx_2 t =? mIdx_0 t).

(** Modelled from the spec: [IndexedTriangle::GetLowestIndexFirst], "rotate so
    the smallest vertex index is first, keep winding". *)
Definition GetLowestIndexFirst (t : IndexedTriangle) : IndexedTriangle :=
  let '(a, b, c) := (mIdx_0 t, mIdx_1 t, mIdx_2 t) in
  if a <? b then
    if a <? c then mkIndexedTriangle a b c (mMaterialIndex t)
    else mkIndexedTriangle c a b (mMaterialIndex t)
  else
    if b <? c then mkIndexedTriangle b c a (mMaterialIndex t)
    else mkIndexedTriangle c a b (mMaterialIndex t).

(** Modelled from the spec: the key under which the sanitizer's
    [unordered_set<IndexedTriangle>] identifies triangles, "the canonical
    (lowest-index-first) triple". *)
Definition canonical_triple (t : IndexedTriangle) : Z * Z * Z :=
  let c := GetLowestIndexFirst t in (mIdx_0 c, mIdx_1 c, mIdx_2 c).

(** ** MeshShapeSettings::Sanitize *)

(** The loop [for (int t = size - 1; t >= 0; --t)] with [n = t + 1] iterations
    left: [triangles] is the set of canonical triples inserted so far.  The
    test is short-circuit: a degenerate triangle is erased without being
    inserted. *)
Fixpoint Sanitize_loop (n : nat) (triangles : gset (Z * Z * Z))
    (mIndexedTriangles : list IndexedTriangle) : list IndexedTriangle :=
  match n with
  | O => mIndexedTriangles
  | S t =>
      match mIndexedTriangles !! t with
      | Some tri =>
          if IsDegenerate tri then
            Sanitize_loop t triangles (delete t mIndexedTriangles)
          else if bool_decide (canonical_triple tri ∈ triangles) then
            Sanitize_loop t triangles (delete t mIndexedTriangles)
          else
            Sanitize_loop t ({[ canonical_triple tri ]} ∪ triangles) mIndexedTriangles
      | None => mIndexedTriangles
      end
  end.

(** [MeshShapeSettings::Sanitize].  The start index is
    [(int)mIndexedTriangles.size() - 1]; a negative start runs no iteration. *)
Definition Sanitize (mIndexedTriangles : list IndexedTriangle) : list IndexedTriangle :=
  let t := to_int (Z.of_nat (length mIndexedTriangles)) - 1 in
  Sanitize_loop (Z.to_nat (t + 1)) ∅ mIndexedTriangles.

(** *** Reference reading of the sanitizer *)

(** The input position [i] holds the last non-degenerate occurrence of its
    canonical triple. *)
Definition last_occurrence (l : list IndexedTriangle) (i : nat) : Prop :=
  ∃ tri, l !! i = Some tri ∧ IsDegenerate tri = false ∧
    ∀ j tri', (i < j)%nat → l !! j = Some tri' → IsDegenerate tri' = false →
      canonical_triple tri' ≠ canonical_triple tri.

(** The input position [i] holds the first non-degenerate occurrence of its
    canonical triple. *)
Definition first_occurrence (l : list IndexedTriangle) (i : nat) : Prop :=
  ∃ tri, l !! i = Some tri ∧ IsDegenerate tri = false ∧
    ∀ j tri', (j < i)%nat → l !! j = Some tri' → IsDegenerate tri' = false →
      canonical_triple tri' ≠ canonical_triple tri.

(** Right-to-left scan of a list: the triangles kept and the canonical
    triples seen. *)
Fixpoint retain_last (l : list IndexedTriangle) : list IndexedTriangle * gset (Z * Z * Z) :=
  match l with
  | [] => ([], ∅)
  | tri :: rest =>
      let '(kept, seen) := retain_last rest in
      if IsDegenerate tri || bool_decide (canonical_triple tri ∈ seen)
      then (kept, seen)
      else (tri :: kept, {[ canonical_triple tri ]} ∪ seen)
  end.

(** ** External collaborators *)

(** Modelled from the spec: the bit-layout constants of MeshShape.h and the
    width of a sub-shape identifier (SubShapeID.h); neither header is among
    the sources, so the values are left open. *)
Class Constants : Type := {
  FLAGS_MATERIAL_MASK : Z;
  FLAGS_ACTIVE_EGDE_SHIFT : Z;
  FLAGS_ACTIVE_EDGE_MASK : Z;
  NumTriangleBits : Z;
  MaxTrianglesPerLeaf : Z;
  MaxBits : Z
}.

(** The vector-math primitives the mesh shape consumes through fixed
    interfaces (spec §6 and §9); their implementations are not part of the
    shape. [Float] stands for [float], compared with [Float_lt] and
    [Float_le]. *)
Class Geometry : Type := {
  Float : Type;
  Float_lt : Float → Float → bool;
  Float_le : Float → Float → bool;
  Float_zero : Float;
  Float3 : Type;
  Float3_inhabited :: Inhabited Float3;
  Vec3 : Type;
  Vec3_load : Float3 → Vec3;
  Vec3_StoreFloat3 : Vec3 → Float3;
  Vec3_sub : Vec3 → Vec3 → Vec3;
  Vec3_Cross : Vec3 → Vec3 → Vec3;
  Vec3_Dot : Vec3 → Vec3 → Float;
  Plane : Type;
  Plane_sFromPointsCCW : Vec3 → Vec3 → Vec3 → Plane;
  Plane_GetNormal : Plane → Vec3;
  IsEdgeActive : Vec3 → Vec3 → Vec3 → bool;
  Vec3_GetY : Vec3 → Float;
  Vec3_sAxisY : Vec3;
  Vec3_scale : Float → Vec3 → Vec3;
  Float_mul : Float → Float → Float;
  Float_1_1 : Float;
  AABox : Type;
  AABox_Contains : AABox → Vec3 → bool;
  AABox_GetSize : AABox → Vec3;
  RayInvDirection : Type;
  RayInvDirection_Set : Vec3 → RayInvDirection;
  RayAABox : Vec3 → RayInvDirection → AABox → Float;
  RayTriangle : Vec3 → Vec3 → Vec3 → Vec3 → Vec3 → Float;
  Quat : Type;
  Mat44 : Type;
  Mat44_sRotationTranslation : Quat → Vec3 → Mat44;
  Mat44_sInverseRotationTranslation : Quat → Vec3 → Mat44;
  Mat44_sScale : Vec3 → Mat44;
  Mat44_mul : Mat44 → Mat44 → Mat44;
  Mat44_transform : Mat44 → Vec3 → Vec3;
  OrientedBox : Type;
  OrientedBox_new : Mat44 → AABox → OrientedBox;
  AABox_Scale : Vec3 → AABox → AABox;
  AABox_VsBox : OrientedBox → AABox → bool;
  ScaleHelpers_IsInsideOut : Vec3 → bool;
  cInitialEarlyOutFraction : Float;
  cShouldEarlyOutFraction : Float
}.

(** [Float_lt] orders the fractions the queries compare: irreflexive,
    transitive, and so is its complement; [Float_le a b] excludes [b < a]. *)
Class FloatOrder (G : Geometry) : Prop := {
  Float_lt_irrefl : ∀ a, Float_lt a a = false;
  Float_lt_trans : ∀ a b c, Float_lt a b = true → Float_lt b c = true → Float_lt a c = true;
  Float_ge_trans : ∀ a b c, Float_lt a b = false → Float_lt b c = false → Float_lt a c = false;
  Float_le_not_gt : ∀ a b, Float_le a b = true → Float_lt b a = false
}.

(** The engine types the shape only passes around: material references,
    body identifiers and the context a collector carries. *)
Class Engine : Type := {
  PhysicsMaterial : Type;
  PhysicsMaterial_eq_dec :: EqDecision PhysicsMaterial;
  PhysicsMaterial_sDefault : PhysicsMaterial;
  BodyID : Type;
  CollectorContext : Type;
  CollectorContext_null : CollectorContext;
  sGetBodyID : CollectorContext → BodyID
}.

#[export] Instance IndexedTriangle_inhabited : Inhabited IndexedTriangle :=
  populate (mkIndexedTriangle 0 0 0 0).

(** ** MeshShape::FindActiveEdges *)

(** The local [struct Edge]: [mIdx1 = min] and [mIdx2 = max] of the two vertex
    indices, which the constructor receives as [int]. *)
Definition Edge : Type := (Z * Z)%type.

Definition Edge_new (inIdx1 inIdx2 : Z) : Edge :=
  (Z.min (to_int inIdx1) (to_int inIdx2), Z.max (to_int inIdx1) (to_int inIdx2)).

(** [Edge(inTriangle.mIdx[edge_idx], inTriangle.mIdx[(edge_idx + 1) % 3])]. *)
Definition triangle_edge (inTriangle : IndexedTriangle) (edge_idx : Z) : Edge :=
  Edge_new (mIdx inTriangle edge_idx) (mIdx inTriangle ((edge_idx + 1) mod 3)).

(** The assertions of [FindActiveEdges] that can fail. *)
Inductive AssertionFailure : Type :=
| EdgeNotInTriangle (edge : Edge) (triangle : IndexedTriangle)
| EdgeBitAlreadySet (triangle_idx : nat) (mask : Z).

(** [Edge::GetIndexInTriangle]: the first position whose edge equals [this];
    without one, [JPH_ASSERT(false)] and the result is [~uint(0)]. *)
Definition GetIndexInTriangle (this : Edge) (inTriangle : IndexedTriangle) : Z :=
  if bool_decide (this = triangle_edge inTriangle 0) then 0
  else if bool_decide (this = triangle_edge inTriangle 1) then 1
  else if bool_decide (this = triangle_edge inTriangle 2) then 2
  else uint32 (-1).

Definition GetIndexInTriangle_asserts (this : Edge) (inTriangle : IndexedTriangle)
    : list AssertionFailure :=
  if bool_decide (GetIndexInTriangle this inTriangle = uint32 (-1))
  then [EdgeNotInTriangle this inTriangle] else [].

(** One pass of the inner loop of "build a list of edge to triangles":
    [edge_to_triangle[edge].push_back(triangle_idx)] for the three edges. *)
Definition push_triangle_edges (triangle_idx : nat) (triangle : IndexedTriangle)
    (edge_to_triangle : gmap (Z * Z) (list nat)) : gmap (Z * Z) (list nat) :=
  foldl (λ m edge_idx,
           let edge := triangle_edge triangle edge_idx in
           <[ edge := default [] (m !! edge) ++ [triangle_idx] ]> m)
        edge_to_triangle [0; 1; 2].

(** The outer loop, from [triangle_idx] on. *)
Fixpoint build_edge_to_triangle (triangle_idx : nat) (ioIndices : list IndexedTriangle)
    (edge_to_triangle : gmap (Z * Z) (list nat)) : gmap (Z * Z) (list nat) :=
  match ioIndices with
  | [] => edge_to_triangle
  | triangle :: rest =>
      build_edge_to_triangle (S triangle_idx) rest
        (push_triangle_edges triangle_idx triangle edge_to_triangle)
  end.

(** *** Reference reading of the active-edge analysis *)

(** The fields of an [IndexedTriangle] hold [uint32] values. *)
Definition IndexedTriangle_typed (t : IndexedTriangle) : Prop :=
  0 ≤ mIdx_0 t < 2 ^ 32 ∧ 0 ≤ mIdx_1 t < 2 ^ 32 ∧ 0 ≤ mIdx_2 t < 2 ^ 32 ∧
  0 ≤ mMaterialIndex t < 2 ^ 32.

Definition same_indices (t t' : IndexedTriangle) : Prop :=
  mIdx_0 t = mIdx_0 t' ∧ mIdx_1 t = mIdx_1 t' ∧ mIdx_2 t = mIdx_2 t'.

(** The edge at position [p] of the triangle joins the vertices [a] and [b],
    in either direction. *)
Definition has_edge_at (t : IndexedTriangle) (a b p : Z) : bool :=
  ((mIdx t p =? a) && (mIdx t ((p + 1) mod 3) =? b))
  || ((mIdx t p =? b) && (mIdx t ((p + 1) mod 3) =? a)).

Definition has_edge (t : IndexedTriangle) (a b : Z) : bool :=
  has_edge_at t a b 0 || has_edge_at t a b 1 || has_edge_at t a b 2.

(** The positions, in increasing order, of the triangles that contain the
    unordered edge [{a, b}]. *)
Definition incident_triangles (l : list IndexedTriangle) (a b : Z) : list nat :=
  filter (λ k, has_edge (l !!! k) a b = true) (seq 0 (length l)).

(** The list the edge map holds for [edge] once the triangles [l], numbered
    from [triangle_idx], are pushed: one entry per position of the edge. *)
Fixpoint edge_occurrences (triangle_idx : nat) (l : list IndexedTriangle) (edge : Edge)
    : list nat :=
  match l with
  | [] => []
  | t :: rest =>
      (if bool_decide (triangle_edge t 0 = edge) then [triangle_idx] else [])
      ++ (if bool_decide (triangle_edge t 1 = edge) then [triangle_idx] else [])
      ++ (if bool_decide (triangle_edge t 2 = edge) then [triangle_idx] else [])
      ++ edge_occurrences (S triangle_idx) rest edge
  end.

Section MeshShapeModel.
Context {K : Constants} {G : Geometry} {E : Engine}.

(** The flag words of [cur] are those of [orig] with bit
    [FLAGS_ACTIVE_EGDE_SHIFT + p] added to triangle [k] for each position [p]
    whose edge is marked by [M k]. *)
Definition marked (orig cur : list IndexedTriangle) (M : nat → Edge → Prop) : Prop :=
  length cur = length orig ∧
  ∀ k t, orig !! k = Some t →
    ∃ t', cur !! k = Some t' ∧ same_indices t t' ∧ 0 ≤ mMaterialIndex t' ∧
      ∀ i, 0 ≤ i →
        (Z.testbit (mMaterialIndex t') i = true ↔
         Z.testbit (mMaterialIndex t) i = true ∨
         ∃ p, 0 ≤ p ≤ 2 ∧ i = FLAGS_ACTIVE_EGDE_SHIFT + p ∧ M k (triangle_edge t p)).

(** The flag word of a triangle as the constructor's validation leaves it:
    no active-edge bit is set. *)
Definition edge_bits_clear (t : IndexedTriangle) : Prop :=
  ∀ p, 0 ≤ p ≤ 2 → Z.testbit (mMaterialIndex t) (FLAGS_ACTIVE_EGDE_SHIFT + p) = false.

(** [Vec3(inVertices[i])]. *)
Definition vertex (inVertices : list Float3) (i : Z) : Vec3 :=
  Vec3_load (inVertices !!! Z.to_nat i).

(** The plane normal of a triangle seen from its edge [edge_idx]: through
    edge vertex 1, edge vertex 2 and the opposing vertex. *)
Definition edge_plane_normal (inVertices : list Float3) (triangle : IndexedTriangle)
    (edge_idx : Z) : Vec3 :=
  let e1 := vertex inVertices (mIdx triangle edge_idx) in
  let e2 := vertex inVertices (mIdx triangle ((edge_idx + 1) mod 3)) in
  let op := vertex inVertices (mIdx triangle ((edge_idx + 2) mod 3)) in
  Plane_GetNormal (Plane_sFromPointsCCW e1 e2 op).

(** [triangle1_e2 - triangle1_e1]. *)
Definition edge_direction (inVertices : list Float3) (triangle : IndexedTriangle)
    (edge_idx : Z) : Vec3 :=
  Vec3_sub (vertex inVertices (mIdx triangle ((edge_idx + 1) mod 3)))
           (vertex inVertices (mIdx triangle edge_idx)).

(** The classification of one map entry [edge ↦ triangles]. *)
Definition edge_active (inVertices : list Float3) (ioIndices : list IndexedTriangle)
    (edge : Edge) (triangles : list nat) : bool :=
  match triangles with
  | [_] => true
  | [t1; t2] =>
      let triangle1 := ioIndices !!! t1 in
      let triangle2 := ioIndices !!! t2 in
      let edge_idx1 := GetIndexInTriangle edge triangle1 in
      let edge_idx2 := GetIndexInTriangle edge triangle2 in
      IsEdgeActive (edge_plane_normal inVertices triangle1 edge_idx1)
                   (edge_plane_normal inVertices triangle2 edge_idx2)
                   (edge_direction inVertices triangle1 edge_idx1)
  | _ => true
  end.

Definition edge_active_asserts (ioIndices : list IndexedTriangle)
    (edge : Edge) (triangles : list nat) : list AssertionFailure :=
  match triangles with
  | [t1; t2] =>
      GetIndexInTriangle_asserts edge (ioIndices !!! t1)
      ++ GetIndexInTriangle_asserts edge (ioIndices !!! t2)
  | _ => []
  end.

(** [uint32 mask = 1 << (edge_idx + FLAGS_ACTIVE_EGDE_SHIFT)]. *)
Definition edge_mask (edge_idx : Z) : Z :=
  uint32 (Z.shiftl 1 (uint32 (edge_idx + FLAGS_ACTIVE_EGDE_SHIFT))).

(** The state of the marking loops: the triangle list being flagged and the
    assertions that failed so far. *)
Definition MarkState : Type := (list IndexedTriangle * list AssertionFailure)%type.

(** The body of "mark edges of all original triangles active". *)
Definition mark_triangle (edge : Edge) (st : MarkState) (triangle_idx : nat) : MarkState :=
  let '(ioIndices, failed) := st in
  let triangle := ioIndices !!! triangle_idx in
  let edge_idx := GetIndexInTriangle edge triangle in
  let mask := edge_mask edge_idx in
  let failed' :=
    failed ++ GetIndexInTriangle_asserts edge triangle
           ++ (if Z.land (mMaterialIndex triangle) mask =? 0 then []
               else [EdgeBitAlreadySet triangle_idx mask]) in
  (<[ triangle_idx :=
        mkIndexedTriangle (mIdx_0 triangle) (mIdx_1 triangle) (mIdx_2 triangle)
                          (Z.lor (mMaterialIndex triangle) mask) ]> ioIndices,
   failed').

(** The body of "walk over all edges and determine which ones are active". *)
Definition visit_edge (inVertices : list Float3) (st : MarkState)
    (entry : Edge * list nat) : MarkState :=
  let '(edge, triangles) := entry in
  let st' := (st.1, st.2 ++ edge_active_asserts st.1 edge triangles) in
  if edge_active inVertices st.1 edge triangles
  then foldl (mark_triangle edge) st' triangles
  else st'.

(** [FindActiveEdges] with the iteration order of the [unordered_map] made
    explicit: [entries] lists the map's entries in the order the range-for
    visits them. *)
Definition FindActiveEdges_in_order (inVertices : list Float3)
    (entries : list (Edge * list nat)) (ioIndices : list IndexedTriangle) : MarkState :=
  foldl (visit_edge inVertices) (ioIndices, []) entries.

(** [MeshShape::FindActiveEdges], visiting the entries in the order of
    [map_to_list]. *)
Definition FindActiveEdges (inVertices : list Float3) (ioIndices : list IndexedTriangle)
    : MarkState :=
  FindActiveEdges_in_order inVertices
    (map_to_list (build_edge_to_triangle 0 ioIndices ∅)) ioIndices.

(** ** The encoded tree *)

(** A triangle as a leaf block stores it: the three unpacked vertices and
    the flag byte. *)
Record EncodedTriangle : Type := mkEncodedTriangle {
  tri_v0 : Vec3;
  tri_v1 : Vec3;
  tri_v2 : Vec3;
  tri_flags : Z
}.

(** Modelled from the spec: the logical content of the encoded tree (the
    node and triangle codecs are not among the sources).  An inner node holds
    four child bounding boxes and four children; a leaf block holds its block
    id and its triangles; unused child slots hold a padding node. *)
Inductive Node : Type :=
| InnerNode (bounds0 bounds1 bounds2 bounds3 : AABox) (child0 child1 child2 child3 : Node)
| TriangleBlock (block_id : Z) (triangles : list EncodedTriangle)
| PaddingNode.

(** Modelled from the spec: the byte buffer [mTree], read through its header
    (root bounds, number of bits of a block id) and its tree body. *)
Record ByteBuffer : Type := mkByteBuffer {
  mRootBounds : AABox;
  mRoot : Node;
  mTriangleBlockIDBits : Z
}.

(** [NodeCodec::DecodingContext::sTriangleBlockIDBits(mTree)]. *)
Definition sTriangleBlockIDBits (inTree : ByteBuffer) : Z := mTriangleBlockIDBits inTree.

(** [NodeCodec::DecodingContext::sGetTriangleBlockStart]: the leaf block
    with the given id, searched depth first. *)
Fixpoint find_triangle_block (node : Node) (inTriangleBlockID : Z)
    : option (list EncodedTriangle) :=
  match node with
  | InnerNode _ _ _ _ c0 c1 c2 c3 =>
      match find_triangle_block c0 inTriangleBlockID with
      | Some b => Some b
      | None =>
          match find_triangle_block c1 inTriangleBlockID with
          | Some b => Some b
          | None =>
              match find_triangle_block c2 inTriangleBlockID with
              | Some b => Some b
              | None => find_triangle_block c3 inTriangleBlockID
              end
          end
      end
  | TriangleBlock block_id triangles =>
      if block_id =? inTriangleBlockID then Some triangles else None
  | PaddingNode => None
  end.

Definition sGetTriangleBlockStart (inTree : ByteBuffer) (inTriangleBlockID : Z)
    : option (list EncodedTriangle) :=
  find_triangle_block (mRoot inTree) inTriangleBlockID.

(** [TriangleCodec::DecodingContext::sGetFlags(block_start, triangle_idx)]. *)
Definition sGetFlags (inTriangleStart : option (list EncodedTriangle)) (inTriangleIdx : Z)
    : option Z :=
  block ← inTriangleStart; tri_flags <$> block !! Z.to_nat inTriangleIdx.

(** ** MeshShapeSettings and the constructor *)

Record MeshShapeSettings : Type := mkMeshShapeSettings {
  mTriangleVertices : list Float3;
  mIndexedTriangles : list IndexedTriangle;
  settings_mMaterials : list PhysicsMaterial
}.

(** [MeshShapeSettings(inVertices, inTriangles, inMaterials)]: the lists are
    stored and then sanitized. *)
Definition MeshShapeSettings_new (inVertices : list Float3)
    (inTriangles : list IndexedTriangle) (inMaterials : list PhysicsMaterial)
    : MeshShapeSettings :=
  mkMeshShapeSettings inVertices (Sanitize inTriangles) inMaterials.

Record MeshShape : Type := mkMeshShape {
  mTree : ByteBuffer;
  mMaterials : list PhysicsMaterial
}.

(** The errors the constructor reports through [outResult.SetError], one
    constructor per call site, named as in the spec's error taxonomy; the
    arguments are the values the message formats. *)
Inductive ShapeError : Type :=
| EmptyInput
| DegenerateTriangle (t : Z)
| IndexOutOfRange (index size : Z)
| TooManyMaterials (max : Z)
| MaterialOutOfRange (material size : Z)
| MissingMaterialNonZero
| EncodingFailure (error : string)
| MeshTooLarge.

Inductive ShapeResult : Type :=
| ResultError (error : ShapeError)
| ResultValid (shape : MeshShape).

(** The splitter, tree builder and buffer conversion the constructor
    delegates to: an error message or the encoded tree. *)
Class TreeBuilder : Type := {
  Convert : list Float3 → list IndexedTriangle → string + ByteBuffer
}.
Context {B : TreeBuilder}.

(** "Check vertex indices": the first of the three positions whose index is
    beyond the vertex list. *)
Definition check_vertex_indices (triangle : IndexedTriangle) (num_vertices : Z)
    : option ShapeError :=
  (λ i, IndexOutOfRange (mIdx triangle i) (uint32 num_vertices))
    <$> find (λ i, num_vertices <=? mIdx triangle i) [0; 1; 2].

(** "Check triangles": [for (int t = size - 1; t >= 0; --t)] with [n = t + 1]. *)
Fixpoint check_triangles (n : nat) (triangles : list IndexedTriangle) (num_vertices : Z)
    : option ShapeError :=
  match n with
  | O => None
  | S t =>
      match triangles !! t with
      | Some triangle =>
          if IsDegenerate triangle then Some (DegenerateTriangle (Z.of_nat t))
          else match check_vertex_indices triangle num_vertices with
               | Some e => Some e
               | None => check_triangles t triangles num_vertices
               end
      | None => None
      end
  end.

(** "Validate materials" and its [else] branch. *)
Definition check_materials (materials : list PhysicsMaterial)
    (triangles : list IndexedTriangle) : option ShapeError :=
  let size := Z.of_nat (length materials) in
  if bool_decide (materials = []) then
    if forallb (λ t, mMaterialIndex t =? 0) triangles then None
    else Some MissingMaterialNonZero
  else if FLAGS_MATERIAL_MASK <? size then
    Some (TooManyMaterials (FLAGS_ACTIVE_EDGE_MASK + 1))
  else
    (λ t, MaterialOutOfRange (mMaterialIndex t) (uint32 size))
      <$> find (λ t, size <=? mMaterialIndex t) triangles.

(** "Check triangles" from its start index [(int)size - 1]. *)
Definition check_all_triangles (inSettings : MeshShapeSettings) : option ShapeError :=
  let triangles := mIndexedTriangles inSettings in
  let t := to_int (Z.of_nat (length triangles)) - 1 in
  check_triangles (Z.to_nat (t + 1)) triangles
    (Z.of_nat (length (mTriangleVertices inSettings))).

(** The validation the constructor runs before it touches the triangles. *)
Definition validate (inSettings : MeshShapeSettings) : option ShapeError :=
  if bool_decide (mIndexedTriangles inSettings = []) then Some EmptyInput
  else
    match check_all_triangles inSettings with
    | Some e => Some e
    | None => check_materials (settings_mMaterials inSettings) (mIndexedTriangles inSettings)
    end.

(** [MeshShape::MeshShape(inSettings, outResult)]: the result, and the
    assertions of [FindActiveEdges] that failed on the way. *)
Definition MeshShape_new (inSettings : MeshShapeSettings)
    : ShapeResult * list AssertionFailure :=
  match validate inSettings with
  | Some e => (ResultError e, [])
  | None =>
      let '(indexed_triangles, failed) :=
        FindActiveEdges (mTriangleVertices inSettings) (mIndexedTriangles inSettings) in
      match Convert (mTriangleVertices inSettings) indexed_triangles with
      | inl error => (ResultError (EncodingFailure error), failed)
      | inr tree =>
          if MaxBits <? sTriangleBlockIDBits tree + NumTriangleBits
          then (ResultError MeshTooLarge, failed)
          else (ResultValid (mkMeshShape tree (settings_mMaterials inSettings)), failed)
      end
  end.

(** ** Sub-shape identifiers *)

(** Modelled from the spec: [SubShapeID] (SubShapeID.h is not among the
    sources), "a bit field of fixed maximum width" [MaxBits].  The empty
    identifier has every bit set. *)
Record SubShapeID : Type := mkSubShapeID { mValue : Z }.

Definition cEmpty : Z := Z.ones MaxBits.

Definition SubShapeID_empty : SubShapeID := mkSubShapeID cEmpty.

Definition IsEmpty (this : SubShapeID) : bool := mValue this =? cEmpty.

(** Modelled from the spec: "[Pop(width)] returns the low [width] bits and a
    remainder"; the bits vacated at the high end are filled with ones, so
    that a remainder without content is the empty identifier. *)
Definition PopID (this : SubShapeID) (inBits : Z) : Z * SubShapeID :=
  let mask_bits := Z.ones inBits in
  let fill_bits := Z.land (Z.shiftl cEmpty (MaxBits - inBits)) (Z.ones MaxBits) in
  (Z.land (mValue this) mask_bits,
   mkSubShapeID (Z.lor (Z.shiftr (mValue this) inBits) fill_bits)).

(** Modelled from the spec: [SubShapeIDCreator], the identifier built so far
    and the cursor [mCurrentBit] at its most significant end. *)
Record SubShapeIDCreator : Type := mkSubShapeIDCreator {
  mID : SubShapeID;
  mCurrentBit : Z
}.

Definition SubShapeIDCreator_new : SubShapeIDCreator :=
  mkSubShapeIDCreator SubShapeID_empty 0.

(** Modelled from the spec: "[Push(value, width)] appends to the high end":
    the [inBits] bits at the cursor are cleared, then set to [inValue]. *)
Definition PushID (this : SubShapeIDCreator) (inValue inBits : Z) : SubShapeIDCreator :=
  let cleared := Z.ldiff (mValue (mID this)) (Z.shiftl (Z.ones inBits) (mCurrentBit this)) in
  let value := Z.lor cleared (Z.land (Z.shiftl inValue (mCurrentBit this)) (Z.ones MaxBits)) in
  mkSubShapeIDCreator (mkSubShapeID value) (mCurrentBit this + inBits).

Definition GetID (this : SubShapeIDCreator) : SubShapeID := mID this.

(** ** Decoding and material lookup *)

(** What a query does to the encoded tree and which of its invariants it
    found violated. *)
Inductive TreeEvent : Type :=
| ReadTriangleBlock (block_id : Z)
| ReadTriangleFlags (triangle_idx : Z)
| InvalidSubShapeID (remainder : SubShapeID).

(** [MeshShape::DecodeSubShapeID]: the triangle block, the triangle index,
    and the events of the decoding. *)
Definition DecodeSubShapeID (this : MeshShape) (inSubShapeID : SubShapeID)
    : option (list EncodedTriangle) * Z * list TreeEvent :=
  let '(block_id, triangle_idx_subshape_id) :=
    PopID inSubShapeID (sTriangleBlockIDBits (mTree this)) in
  let outTriangleBlock := sGetTriangleBlockStart (mTree this) block_id in
  let '(outTriangleIndex, remainder) := PopID triangle_idx_subshape_id NumTriangleBits in
  (outTriangleBlock, outTriangleIndex,
   ReadTriangleBlock block_id ::
   (if IsEmpty remainder then [] else [InvalidSubShapeID remainder])).

(** [MeshShape::GetMaterial]: the material returned ([None] when the table
    is indexed out of range or the block does not exist) and the events. *)
Definition GetMaterial (this : MeshShape) (inSubShapeID : SubShapeID)
    : option PhysicsMaterial * list TreeEvent :=
  if bool_decide (mMaterials this = []) then (Some PhysicsMaterial_sDefault, [])
  else
    let '(block_start, triangle_idx, events) := DecodeSubShapeID this inSubShapeID in
    let events' := events ++ [ReadTriangleFlags triangle_idx] in
    (flags ← sGetFlags block_start triangle_idx;
     mMaterials this !! Z.to_nat (Z.land flags FLAGS_MATERIAL_MASK),
     events').

(** A creator as the queries receive it: nothing is stored at or above the
    cursor, where the identifier still reads as empty. *)
Definition creator_wf (c : SubShapeIDCreator) : Prop :=
  0 ≤ mCurrentBit c ∧
  ∀ i, mCurrentBit c ≤ i → Z.testbit (mValue (mID c)) i = (i <? MaxBits).

(** The list [l] names, once each, exactly the triangles of [orig] that have
    the edge [e]. *)
Definition entry_ok (orig : list IndexedTriangle) (e : Edge) (l : list nat) : Prop :=
  NoDup l ∧
  (∀ k, k ∈ l → ∃ t p, orig !! k = Some t ∧ 0 ≤ p ≤ 2 ∧ triangle_edge t p = e) ∧
  (∀ k t p, orig !! k = Some t → 0 ≤ p ≤ 2 → triangle_edge t p = e → k ∈ l).

(** ** Rays, hits and collectors *)

Record RayCast : Type := mkRayCast {
  mOrigin : Vec3;
  mDirection : Vec3
}.

Record RayCastResult : Type := mkRayCastResult {
  mBodyID : BodyID;
  mFraction : Float;
  mSubShapeID2 : SubShapeID
}.

Record CollidePointResult : Type := mkCollidePointResult {
  point_mBodyID : BodyID;
  point_mSubShapeID2 : SubShapeID
}.

Inductive EBackFaceMode : Type := IgnoreBackFaces | CollideWithBackFaces.

Record RayCastSettings : Type := mkRayCastSettings {
  mBackFaceMode : EBackFaceMode
}.

(** Modelled from the spec: the collector interface the queries report to
    ([CollisionCollector], not among the sources): [AddHit], the early-out
    fraction it maintains, and the context it carries. *)
Class CollisionCollector (ResultType C : Type) : Type := {
  AddHit : C → ResultType → C;
  GetEarlyOutFraction : C → Float;
  ShouldEarlyOut : C → bool;
  GetContext : C → CollectorContext
}.

(** ** The tree walker *)

(** The visitor contract of the walker (spec §4.5).  [VisitNodes] receives
    the four child bounds and the four child properties and returns the
    visitor, the reordered properties and the number of children to push. *)
Class Visitor (V : Type) : Type := {
  ShouldAbort : V → bool;
  ShouldVisitNode : V → Z → bool;
  VisitNodes : V → list AABox → list Node → Z → V * list Node * Z;
  VisitTriangles : V → list EncodedTriangle → Z → V
}.

(** An array that is written four lanes at a time: [lanes] stored from
    index [top] on.  The arrays are taken large enough for the tree
    ([StackSize], spec §4.5). *)
Definition store_lanes {A : Type} (array : Z → A) (top : Z) (lanes : list A) : Z → A :=
  λ i, if top <=? i then default (array i) (lanes !! Z.to_nat (i - top)) else array i.

(** Modelled from the spec: the resumable state of the walker, its node
    stack and the index [mTop] of the stack top ([mTop < 0]: done). *)
Record DecodingContext : Type := mkDecodingContext {
  mNodeStack : Z → Node;
  mTop : Z
}.

(** [NodeCodec::DecodingContext(header)]: the root is the only entry. *)
Definition DecodingContext_new (inTree : ByteBuffer) : DecodingContext :=
  mkDecodingContext (λ _, mRoot inTree) 0.

Definition IsDoneWalking (ctx : DecodingContext) : bool := mTop ctx <? 0.

(** [do --mTop; while (mTop >= 0 && !ioVisitor.ShouldVisitNode(mTop))],
    started with [mTop = n]. *)
Fixpoint pop_nodes {V : Type} `{Visitor V} (ioVisitor : V) (n : nat) : Z :=
  match n with
  | O => -1
  | S m => if ShouldVisitNode ioVisitor (Z.of_nat m) then Z.of_nat m
           else pop_nodes ioVisitor m
  end.

(** Modelled from the spec: the first half of an iteration of
    [DecodingContext::WalkTree]: the node on top of the stack is shown to the
    visitor; the children an inner node's visitor asks for are stored from the
    old top on and [mTop] is advanced by their number. *)
Definition visit_node {V : Type} `{Visitor V} (ctx : DecodingContext) (ioVisitor : V)
    : DecodingContext * V :=
  let top := mTop ctx in
  match mNodeStack ctx top with
  | InnerNode b0 b1 b2 b3 c0 c1 c2 c3 =>
      let '(visitor, properties, num_results) :=
        VisitNodes ioVisitor [b0; b1; b2; b3] [c0; c1; c2; c3] top in
      (mkDecodingContext (store_lanes (mNodeStack ctx) top properties) (top + num_results),
       visitor)
  | TriangleBlock triangle_block_id triangles =>
      (ctx, VisitTriangles ioVisitor triangles triangle_block_id)
  | PaddingNode => (ctx, ioVisitor)
  end.

(** Modelled from the spec: [DecodingContext::WalkTree], one iteration of
    the outer loop per unit of [fuel]: visit the node on top of the stack,
    stop if the visitor aborts (the top is not popped), otherwise pop down to
    the next node the visitor wants to see. [None]: the fuel ran out. *)
Fixpoint WalkTree {V : Type} `{Visitor V} (fuel : nat) (ctx : DecodingContext)
    (ioVisitor : V) : option (DecodingContext * V) :=
  match fuel with
  | O => None
  | S fuel' =>
      let '(ctx', visitor) := visit_node ctx ioVisitor in
      if ShouldAbort visitor then Some (ctx', visitor)
      else
        let top := pop_nodes visitor (Z.to_nat (mTop ctx')) in
        if 0 <=? top then WalkTree fuel' (mkDecodingContext (mNodeStack ctx') top) visitor
        else Some (mkDecodingContext (mNodeStack ctx') top, visitor)
  end.

(** [MeshShape::WalkTree]: a fresh decoding context on the shape's tree. *)
Definition MeshShape_WalkTree {V : Type} `{Visitor V} (fuel : nat) (this : MeshShape)
    (ioVisitor : V) : option V :=
  snd <$> WalkTree fuel (DecodingContext_new (mTree this)) ioVisitor.

(** The number of nodes of a tree: an upper bound on the iterations of the
    walker. *)
Fixpoint node_size (n : Node) : nat :=
  match n with
  | InnerNode _ _ _ _ c0 c1 c2 c3 =>
      S (node_size c0 + node_size c1 + node_size c2 + node_size c3)
  | TriangleBlock _ _ => 1
  | PaddingNode => 1
  end.

(** ** Lane helpers of the visitors *)

(** Modelled from the spec: [Vec4::sSort4Reverse], "sorts lanes descending by
    t", the properties following their distances (the SIMD helpers are not
    among the sources). *)
Fixpoint insert_lane {A : Type} (x : Float * A) (lanes : list (Float * A))
    : list (Float * A) :=
  match lanes with
  | [] => [x]
  | y :: rest => if Float_lt x.1 y.1 then y :: insert_lane x rest else x :: lanes
  end.

Definition sSort4Reverse {A : Type} (lanes : list (Float * A)) : list (Float * A) :=
  foldr insert_lane [] lanes.

(** Modelled from the spec: [ShiftComponents4Minus(n)], the last [n] lanes
    move to the front and the vacated lanes are filled with [zero]. *)
Definition ShiftComponents4Minus {A : Type} (zero : A) (lanes : list A) (n : nat) : list A :=
  drop (length lanes - n) lanes ++ replicate (length lanes - n) zero.

(** Modelled from the spec: [UVec4::sSort4True], "sort so the colliding ones
    go first": the properties of the true lanes in lane order, the vacated
    lanes filled with the last property. *)
Definition sSort4True (valid : list bool) (properties : list Node) : list Node :=
  let kept := snd <$> filter (λ lane, lane.1 = true) (zip valid properties) in
  kept ++ replicate (length properties - length kept) (default PaddingNode (last properties)).

Definition CountTrues (valid : list bool) : Z :=
  Z.of_nat (length (filter (λ b, b = true) valid)).

(** The body shared by the ray visitors' [VisitNodes]: test the four child
    bounds, sort, keep the children closer than [early_out], and store their
    distances at the stack top. *)
Definition ray_VisitNodes (origin : Vec3) (inv_direction : RayInvDirection)
    (early_out : Float) (distance_stack : Z → Float)
    (bounds : list AABox) (ioProperties : list Node) (inStackTop : Z)
    : (Z → Float) * list Node * Z :=
  let distance := RayAABox origin inv_direction <$> bounds in
  let sorted := sSort4Reverse (zip distance ioProperties) in
  let closer := (λ lane, Float_lt lane.1 early_out) <$> sorted in
  let num_results := length (filter (λ b, b = true) closer) in
  let distance' := ShiftComponents4Minus Float_zero sorted.*1 num_results in
  let properties' := ShiftComponents4Minus PaddingNode sorted.*2 num_results in
  (store_lanes distance_stack inStackTop distance', properties', Z.of_nat num_results).

(** ** Triangle codec *)

(** Modelled from the spec: [TriangleCodec::DecodingContext::Unpack], the
    vertices of a leaf block, three per triangle. *)
Definition Unpack (inTriangles : list EncodedTriangle) : list Vec3 :=
  flat_map (λ t, [tri_v0 t; tri_v1 t; tri_v2 t]) inTriangles.

(** Modelled from the spec: [TriangleCodec::DecodingContext::TestRay], "the
    closest hit among the leaf's triangles" that is closer than [closest],
    scanning from [triangle_idx] on. *)
Fixpoint TestRay_from (inRayOrigin inRayDirection : Vec3) (triangle_idx : Z)
    (inTriangles : list EncodedTriangle) (closest : Float) (closest_triangle_idx : Z)
    : Float * Z :=
  match inTriangles with
  | [] => (closest, closest_triangle_idx)
  | t :: rest =>
      let distance :=
        RayTriangle inRayOrigin inRayDirection (tri_v0 t) (tri_v1 t) (tri_v2 t) in
      if Float_lt distance closest
      then TestRay_from inRayOrigin inRayDirection (triangle_idx + 1) rest
             distance triangle_idx
      else TestRay_from inRayOrigin inRayDirection (triangle_idx + 1) rest
             closest closest_triangle_idx
  end.

Definition TestRay (inRayOrigin inRayDirection : Vec3)
    (inTriangles : list EncodedTriangle) (inClosest : Float) : Float * Z :=
  TestRay_from inRayOrigin inRayDirection 0 inTriangles inClosest 0.

(** ** MeshShape::CastRay, nearest hit *)

(** The local [struct Visitor] of the nearest-hit [CastRay]. *)
Record CastRayVisitor : Type := mkCastRayVisitor {
  ray_mHit : RayCastResult;
  ray_mRayOrigin : Vec3;
  ray_mRayDirection : Vec3;
  ray_mRayInvDirection : RayInvDirection;
  ray_mTriangleBlockIDBits : Z;
  ray_mSubShapeIDCreator : SubShapeIDCreator;
  ray_mReturnValue : bool;
  ray_mDistanceStack : Z → Float
}.

Definition CastRayVisitor_VisitNodes (v : CastRayVisitor) (bounds : list AABox)
    (ioProperties : list Node) (inStackTop : Z) : CastRayVisitor * list Node * Z :=
  let '(stack, properties, num_results) :=
    ray_VisitNodes (ray_mRayOrigin v) (ray_mRayInvDirection v) (mFraction (ray_mHit v))
      (ray_mDistanceStack v) bounds ioProperties inStackTop in
  (mkCastRayVisitor (ray_mHit v) (ray_mRayOrigin v) (ray_mRayDirection v)
     (ray_mRayInvDirection v) (ray_mTriangleBlockIDBits v) (ray_mSubShapeIDCreator v)
     (ray_mReturnValue v) stack,
   properties, num_results).

Definition CastRayVisitor_VisitTriangles (v : CastRayVisitor)
    (inTriangles : list EncodedTriangle) (inTriangleBlockID : Z) : CastRayVisitor :=
  let '(fraction, triangle_idx) :=
    TestRay (ray_mRayOrigin v) (ray_mRayDirection v) inTriangles (mFraction (ray_mHit v)) in
  if Float_lt fraction (mFraction (ray_mHit v)) then
    let id :=
      GetID (PushID (PushID (ray_mSubShapeIDCreator v) inTriangleBlockID
                       (ray_mTriangleBlockIDBits v))
                    triangle_idx NumTriangleBits) in
    mkCastRayVisitor (mkRayCastResult (mBodyID (ray_mHit v)) fraction id)
      (ray_mRayOrigin v) (ray_mRayDirection v) (ray_mRayInvDirection v)
      (ray_mTriangleBlockIDBits v) (ray_mSubShapeIDCreator v) true (ray_mDistanceStack v)
  else v.

#[export] Instance CastRayVisitor_Visitor : Visitor CastRayVisitor := {
  ShouldAbort v := Float_le (mFraction (ray_mHit v)) Float_zero;
  ShouldVisitNode v inStackTop :=
    Float_lt (ray_mDistanceStack v inStackTop) (mFraction (ray_mHit v));
  VisitNodes := CastRayVisitor_VisitNodes;
  VisitTriangles := CastRayVisitor_VisitTriangles
}.

(** [MeshShape::CastRay(inRay, inSubShapeIDCreator, ioHit)]: the return value
    and the hit.  [distance_stack] is the indeterminate initial content of the
    visitor's distance stack. *)
Definition CastRay (fuel : nat) (this : MeshShape) (distance_stack : Z → Float)
    (inRay : RayCast) (inSubShapeIDCreator : SubShapeIDCreator) (ioHit : RayCastResult)
    : option (bool * RayCastResult) :=
  let visitor :=
    mkCastRayVisitor ioHit (mOrigin inRay) (mDirection inRay)
      (RayInvDirection_Set (mDirection inRay)) (sTriangleBlockIDBits (mTree this))
      inSubShapeIDCreator false distance_stack in
  (λ v, (ray_mReturnValue v, ray_mHit v)) <$> MeshShape_WalkTree fuel this visitor.

(** ** MeshShape::CastRay, all hits *)

(** The local [struct Visitor] of the collector [CastRay]. *)
Record CollectVisitor (C : Type) : Type := mkCollectVisitor {
  col_mCollector : C;
  col_mRayOrigin : Vec3;
  col_mRayDirection : Vec3;
  col_mRayInvDirection : RayInvDirection;
  col_mBackFaceMode : EBackFaceMode;
  col_mTriangleBlockIDBits : Z;
  col_mSubShapeIDCreator : SubShapeIDCreator;
  col_mDistanceStack : Z → Float
}.
Arguments mkCollectVisitor {C}.
Arguments col_mCollector {C}.
Arguments col_mRayOrigin {C}.
Arguments col_mRayDirection {C}.
Arguments col_mRayInvDirection {C}.
Arguments col_mBackFaceMode {C}.
Arguments col_mTriangleBlockIDBits {C}.
Arguments col_mSubShapeIDCreator {C}.
Arguments col_mDistanceStack {C}.

Definition set_col_mCollector {C : Type} (v : CollectVisitor C) (c : C) : CollectVisitor C :=
  mkCollectVisitor c (col_mRayOrigin v) (col_mRayDirection v) (col_mRayInvDirection v)
    (col_mBackFaceMode v) (col_mTriangleBlockIDBits v) (col_mSubShapeIDCreator v)
    (col_mDistanceStack v).

(** The back facing check of the collector visitor. *)
Definition is_back_facing (inRayDirection v0 v1 v2 : Vec3) : bool :=
  Float_lt (Vec3_Dot (Vec3_Cross (Vec3_sub v2 v0) (Vec3_sub v1 v0)) inRayDirection)
           Float_zero.

Section Collector.
Context {C : Type} `{CollisionCollector RayCastResult C}.

(** The body of "loop over all triangles" for the triangle [triangle_idx]. *)
Definition collect_triangle (v : CollectVisitor C)
    (block_sub_shape_id : SubShapeIDCreator) (collector : C) (triangle_idx : Z)
    (t : EncodedTriangle) : C :=
  let '(v0, v1, v2) := (tri_v0 t, tri_v1 t, tri_v2 t) in
  if match col_mBackFaceMode v with
     | IgnoreBackFaces => is_back_facing (col_mRayDirection v) v0 v1 v2
     | CollideWithBackFaces => false
     end
  then collector
  else
    let fraction := RayTriangle (col_mRayOrigin v) (col_mRayDirection v) v0 v1 v2 in
    if Float_lt fraction (GetEarlyOutFraction collector) then
      AddHit collector
        (mkRayCastResult (sGetBodyID (GetContext collector)) fraction
           (GetID (PushID block_sub_shape_id triangle_idx NumTriangleBits)))
    else collector.

(** "Loop over all triangles", from [triangle_idx] on. *)
Fixpoint collect_triangles (v : CollectVisitor C)
    (block_sub_shape_id : SubShapeIDCreator) (collector : C) (triangle_idx : Z)
    (inTriangles : list EncodedTriangle) : C :=
  match inTriangles with
  | [] => collector
  | t :: rest =>
      collect_triangles v block_sub_shape_id
        (collect_triangle v block_sub_shape_id collector triangle_idx t)
        (triangle_idx + 1) rest
  end.

Definition CollectVisitor_VisitTriangles (v : CollectVisitor C)
    (inTriangles : list EncodedTriangle) (inTriangleBlockID : Z) : CollectVisitor C :=
  let block_sub_shape_id :=
    PushID (col_mSubShapeIDCreator v) inTriangleBlockID (col_mTriangleBlockIDBits v) in
  set_col_mCollector v
    (collect_triangles v block_sub_shape_id (col_mCollector v) 0 inTriangles).

Definition CollectVisitor_VisitNodes (v : CollectVisitor C) (bounds : list AABox)
    (ioProperties : list Node) (inStackTop : Z) : CollectVisitor C * list Node * Z :=
  let '(stack, properties, num_results) :=
    ray_VisitNodes (col_mRayOrigin v) (col_mRayInvDirection v)
      (GetEarlyOutFraction (col_mCollector v)) (col_mDistanceStack v)
      bounds ioProperties inStackTop in
  (mkCollectVisitor (col_mCollector v) (col_mRayOrigin v) (col_mRayDirection v)
     (col_mRayInvDirection v) (col_mBackFaceMode v) (col_mTriangleBlockIDBits v)
     (col_mSubShapeIDCreator v) stack,
   properties, num_results).

#[export] Instance CollectVisitor_Visitor : Visitor (CollectVisitor C) := {
  ShouldAbort v := ShouldEarlyOut (col_mCollector v);
  ShouldVisitNode v inStackTop :=
    Float_lt (col_mDistanceStack v inStackTop) (GetEarlyOutFraction (col_mCollector v));
  VisitNodes := CollectVisitor_VisitNodes;
  VisitTriangles := CollectVisitor_VisitTriangles
}.

(** [MeshShape::CastRay(inRay, inRayCastSettings, inSubShapeIDCreator,
    ioCollector)]: the collector after the walk. *)
Definition CastRay_collector (fuel : nat) (this : MeshShape) (distance_stack : Z → Float)
    (inRay : RayCast) (inRayCastSettings : RayCastSettings)
    (inSubShapeIDCreator : SubShapeIDCreator) (ioCollector : C) : option C :=
  let visitor :=
    mkCollectVisitor ioCollector (mOrigin inRay) (mDirection inRay)
      (RayInvDirection_Set (mDirection inRay)) (mBackFaceMode inRayCastSettings)
      (sTriangleBlockIDBits (mTree this)) inSubShapeIDCreator distance_stack in
  col_mCollector <$> MeshShape_WalkTree fuel this visitor.

End Collector.

(** ** MeshShape::CollidePoint *)

(** [MeshShape::GetLocalBounds]: the root bounds of the tree header. *)
Definition GetLocalBounds (this : MeshShape) : AABox := mRootBounds (mTree this).

(** The local [class HitCountCollector]: "a collector that just counts the
    number of hits".  The first two fields are those of its base class. *)
Record HitCountCollector : Type := mkHitCountCollector {
  hc_mEarlyOutFraction : Float;
  hc_mContext : CollectorContext;
  mHitCount : Z;
  mSubShapeID : SubShapeID
}.

(** A default-constructed [HitCountCollector]. *)
Definition HitCountCollector_new : HitCountCollector :=
  mkHitCountCollector cInitialEarlyOutFraction CollectorContext_null 0 SubShapeID_empty.

(** [HitCountCollector::AddHit] stores the sub-shape id and increments the
    [int] counter; the other members are those of the base class. *)
#[export] Instance HitCountCollector_Collector
    : CollisionCollector RayCastResult HitCountCollector := {
  AddHit c inResult :=
    mkHitCountCollector (hc_mEarlyOutFraction c) (hc_mContext c)
      (to_int (mHitCount c + 1)) (mSubShapeID2 inResult);
  GetEarlyOutFraction c := hc_mEarlyOutFraction c;
  ShouldEarlyOut c := Float_le (hc_mEarlyOutFraction c) cShouldEarlyOutFraction;
  GetContext c := hc_mContext c
}.

(** The ray of the parity test: from the point, "10% longer than the height
    of our bounding box" along the Y axis. *)
Definition CollidePoint_ray (bounds : AABox) (inPoint : Vec3) : RayCast :=
  mkRayCast inPoint
    (Vec3_scale (Float_mul Float_1_1 (Vec3_GetY (AABox_GetSize bounds))) Vec3_sAxisY).

(** [MeshShape::CollidePoint]: the outer collector after the call. *)
Definition CollidePoint {C : Type} `{CollisionCollector CollidePointResult C}
    (fuel : nat) (this : MeshShape) (distance_stack : Z → Float)
    (inPoint : Vec3) (inSubShapeIDCreator : SubShapeIDCreator) (ioCollector : C)
    : option C :=
  let bounds := GetLocalBounds this in
  if AABox_Contains bounds inPoint then
    let settings := mkRayCastSettings CollideWithBackFaces in
    collector ← CastRay_collector fuel this distance_stack (CollidePoint_ray bounds inPoint)
                  settings inSubShapeIDCreator HitCountCollector_new;
    if Z.land (mHitCount collector) 1 =? 1 then
      Some (AddHit ioCollector
              (mkCollidePointResult (sGetBodyID (GetContext ioCollector))
                                    (mSubShapeID collector)))
    else Some ioCollector
  else Some ioCollector.

(** ** MeshShape::GetTrianglesStart / GetTrianglesNext *)

(** [struct MeshShape::MSGetTrianglesContext].  The output pointers
    [mTriangleVertices] and [mMaterials] are modelled by what the current call
    has written through them ([None]: no material output requested). *)
Record MSGetTrianglesContext : Type := mkMSGetTrianglesContext {
  mDecodeCtx : DecodingContext;
  mShape : MeshShape;
  mLocalBox : OrientedBox;
  mMeshScale : Vec3;
  mLocalToWorld : Mat44;
  mMaxTrianglesRequested : Z;
  ctx_mTriangleVertices : list Float3;
  mNumTrianglesFound : Z;
  ctx_mMaterials : option (list PhysicsMaterial);
  mShouldAbort : bool;
  mIsInsideOut : bool
}.

Definition MSGetTrianglesContext_VisitNodes (c : MSGetTrianglesContext)
    (bounds : list AABox) (ioProperties : list Node) (inStackTop : Z)
    : MSGetTrianglesContext * list Node * Z :=
  let scaled := AABox_Scale (mMeshScale c) <$> bounds in
  let collides := AABox_VsBox (mLocalBox c) <$> scaled in
  (c, sSort4True collides ioProperties, CountTrues collides).

(** "Store vertices as Float3". *)
Definition store_vertices (c : MSGetTrianglesContext) (inTriangles : list EncodedTriangle)
    : list Float3 :=
  let store v := Vec3_StoreFloat3 (Mat44_transform (mLocalToWorld c) v) in
  if mIsInsideOut c then
    flat_map (λ t, [store (tri_v0 t); store (tri_v2 t); store (tri_v1 t)]) inTriangles
  else store <$> Unpack inTriangles.

(** "Store materials", when material output is requested. *)
Definition store_materials (c : MSGetTrianglesContext) (inTriangles : list EncodedTriangle)
    : list PhysicsMaterial :=
  if bool_decide (mMaterials (mShape c) = []) then
    replicate (length inTriangles) PhysicsMaterial_sDefault
  else
    (λ t, default PhysicsMaterial_sDefault
            (mMaterials (mShape c) !! Z.to_nat (Z.land (tri_flags t) FLAGS_MATERIAL_MASK)))
      <$> inTriangles.

Definition MSGetTrianglesContext_VisitTriangles (c : MSGetTrianglesContext)
    (inTriangles : list EncodedTriangle) (inTriangleBlockID : Z) : MSGetTrianglesContext :=
  let inNumTriangles := Z.of_nat (length inTriangles) in
  if mMaxTrianglesRequested c <? to_int (mNumTrianglesFound c + inNumTriangles) then
    mkMSGetTrianglesContext (mDecodeCtx c) (mShape c) (mLocalBox c) (mMeshScale c)
      (mLocalToWorld c) (mMaxTrianglesRequested c) (ctx_mTriangleVertices c)
      (mNumTrianglesFound c) (ctx_mMaterials c) true (mIsInsideOut c)
  else
    mkMSGetTrianglesContext (mDecodeCtx c) (mShape c) (mLocalBox c) (mMeshScale c)
      (mLocalToWorld c) (mMaxTrianglesRequested c)
      (ctx_mTriangleVertices c ++ store_vertices c inTriangles)
      (to_int (mNumTrianglesFound c + inNumTriangles))
      ((λ written, written ++ store_materials c inTriangles) <$> ctx_mMaterials c)
      (mShouldAbort c) (mIsInsideOut c).

#[export] Instance MSGetTrianglesContext_Visitor : Visitor MSGetTrianglesContext := {
  ShouldAbort c := mShouldAbort c;
  ShouldVisitNode c inStackTop := true;
  VisitNodes := MSGetTrianglesContext_VisitNodes;
  VisitTriangles := MSGetTrianglesContext_VisitTriangles
}.

(** [MeshShape::GetTrianglesStart]: the context constructed in place. *)
Definition GetTrianglesStart (this : MeshShape) (inBox : AABox) (inPositionCOM : Vec3)
    (inRotation : Quat) (inScale : Vec3) : MSGetTrianglesContext :=
  mkMSGetTrianglesContext
    (DecodingContext_new (mTree this)) this
    (OrientedBox_new (Mat44_sInverseRotationTranslation inRotation inPositionCOM) inBox)
    inScale
    (Mat44_mul (Mat44_sRotationTranslation inRotation inPositionCOM) (Mat44_sScale inScale))
    0 [] 0 None false
    (ScaleHelpers_IsInsideOut inScale).

(** What one call of [GetTrianglesNext] returns: the count, and the vertices
    and materials written to the output buffers. *)
Record GetTrianglesOutput : Type := mkGetTrianglesOutput {
  out_count : Z;
  out_vertices : list Float3;
  out_materials : option (list PhysicsMaterial)
}.

(** [MeshShape::GetTrianglesNext]; [want_materials] tells whether
    [outMaterials] is non-null. *)
Definition GetTrianglesNext (fuel : nat) (ioContext : MSGetTrianglesContext)
    (inMaxTrianglesRequested : Z) (want_materials : bool)
    : option (MSGetTrianglesContext * GetTrianglesOutput) :=
  if IsDoneWalking (mDecodeCtx ioContext) then
    Some (ioContext, mkGetTrianglesOutput 0 [] (if want_materials then Some [] else None))
  else
    let context :=
      mkMSGetTrianglesContext (mDecodeCtx ioContext) (mShape ioContext)
        (mLocalBox ioContext) (mMeshScale ioContext) (mLocalToWorld ioContext)
        inMaxTrianglesRequested [] 0 (if want_materials then Some [] else None)
        false (mIsInsideOut ioContext) in
    '(decode_ctx, c) ← WalkTree fuel (mDecodeCtx context) context;
    Some (mkMSGetTrianglesContext decode_ctx (mShape c) (mLocalBox c) (mMeshScale c)
            (mLocalToWorld c) (mMaxTrianglesRequested c) (ctx_mTriangleVertices c)
            (mNumTrianglesFound c) (ctx_mMaterials c) (mShouldAbort c) (mIsInsideOut c),
          mkGetTrianglesOutput (mNumTrianglesFound c) (ctx_mTriangleVertices c)
            (ctx_mMaterials c)).

(** *** Reference collector *)

(** A collector that keeps every hit it is given, in order, and never
    lowers its early-out fraction: the trace of the [AddHit] calls of a
    query. *)
Record HitRecorder : Type := mkHitRecorder {
  rec_mEarlyOutFraction : Float;
  rec_mContext : CollectorContext;
  rec_hits : list RayCastResult
}.

#[export] Instance HitRecorder_Collector : CollisionCollector RayCastResult HitRecorder := {
  AddHit c inResult :=
    mkHitRecorder (rec_mEarlyOutFraction c) (rec_mContext c) (rec_hits c ++ [inResult]);
  GetEarlyOutFraction c := rec_mEarlyOutFraction c;
  ShouldEarlyOut c := Float_le (rec_mEarlyOutFraction c) cShouldEarlyOutFraction;
  GetContext c := rec_mContext c
}.

(** The recorder that observes what a default-constructed
    [HitCountCollector] is given. *)
Definition HitRecorder_new : HitRecorder :=
  mkHitRecorder cInitialEarlyOutFraction CollectorContext_null [].

(** *** Reference reading of the walker *)

(** The triangles below a node, each with the id of its block and its index
    in the block. *)
Fixpoint node_triangles (n : Node) : list (Z * Z * EncodedTriangle) :=
  match n with
  | InnerNode _ _ _ _ c0 c1 c2 c3 =>
      node_triangles c0 ++ node_triangles c1 ++ node_triangles c2 ++ node_triangles c3
  | TriangleBlock block_id triangles =>
      imap (λ i t, (block_id, Z.of_nat i, t)) triangles
  | PaddingNode => []
  end.

Definition nodes_size (l : list Node) : nat := sum_list_with node_size l.

(** The first [n] entries of a stack array, bottom first. *)
Definition stack_nodes (stack : Z → Node) (n : nat) : list Node :=
  (λ i, stack (Z.of_nat i)) <$> seq 0 n.

(** The entries of the walker's stack, bottom first; none when it is done. *)
Definition pending_nodes (ctx : DecodingContext) : list Node :=
  stack_nodes (mNodeStack ctx) (Z.to_nat (mTop ctx + 1)).

(** A visitor whose [VisitNodes] asks for no more than the children it was
    shown. *)
Definition visitor_ok (V : Type) `{Visitor V} : Prop :=
  ∀ (v : V) bounds properties top,
    length bounds = length properties →
    let r := VisitNodes v bounds properties top in
    0 ≤ r.2 ∧ (Z.to_nat r.2 ≤ length r.1.2)%nat ∧
    (nodes_size (take (Z.to_nat r.2) r.1.2) ≤ nodes_size properties)%nat.

(** Lanes in descending order of their distances. *)
Definition lanes_sorted {A : Type} (lanes : list (Float * A)) : Prop :=
  StronglySorted (λ a b, Float_lt a.1 b.1 = false) lanes.

(** The counting collector has been given the hits the recorder kept. *)
Definition counts_hits (c : HitCountCollector) (r : HitRecorder) : Prop :=
  hc_mEarlyOutFraction c = rec_mEarlyOutFraction r ∧
  hc_mContext c = rec_mContext r ∧
  mHitCount c = to_int (Z.of_nat (length (rec_hits r))) ∧
  mSubShapeID c = default SubShapeID_empty (mSubShapeID2 <$> last (rec_hits r)).

(** Two collector visitors of the same cast, one counting and one
    recording. *)
Definition same_cast (v1 : CollectVisitor HitCountCollector)
    (v2 : CollectVisitor HitRecorder) : Prop :=
  counts_hits (col_mCollector v1) (col_mCollector v2) ∧
  col_mRayOrigin v1 = col_mRayOrigin v2 ∧
  col_mRayDirection v1 = col_mRayDirection v2 ∧
  col_mRayInvDirection v1 = col_mRayInvDirection v2 ∧
  col_mBackFaceMode v1 = col_mBackFaceMode v2 ∧
  col_mTriangleBlockIDBits v1 = col_mTriangleBlockIDBits v2 ∧
  col_mSubShapeIDCreator v1 = col_mSubShapeIDCreator v2 ∧
  col_mDistanceStack v1 = col_mDistanceStack v2.

(** *** Reference reading of GetTrianglesNext *)

(** Modelled from the spec: the leaves a region query selects below a node:
    those reached through children whose scaled bounds collide with the box
    of the query.  They are listed in the order of the walk, which takes the
    last colliding child first. *)
Fixpoint selected_leaves (box : OrientedBox) (scale : Vec3) (n : Node)
    : list (list EncodedTriangle) :=
  match n with
  | InnerNode b0 b1 b2 b3 c0 c1 c2 c3 =>
      (if AABox_VsBox box (AABox_Scale scale b3) then selected_leaves box scale c3 else [])
      ++ (if AABox_VsBox box (AABox_Scale scale b2) then selected_leaves box scale c2 else [])
      ++ (if AABox_VsBox box (AABox_Scale scale b1) then selected_leaves box scale c1 else [])
      ++ (if AABox_VsBox box (AABox_Scale scale b0) then selected_leaves box scale c0 else [])
  | TriangleBlock _ triangles => [triangles]
  | PaddingNode => []
  end.

(** The selected leaves a context has still to deliver. *)
Definition remaining_leaves (c : MSGetTrianglesContext) : list (list EncodedTriangle) :=
  flat_map (selected_leaves (mLocalBox c) (mMeshScale c))
    (reverse (pending_nodes (mDecodeCtx c))).

(** Modelled from the spec: one call "fills output arrays until either the
    tree is exhausted or the next leaf would overflow the buffer": the leaves
    that are delivered, and those left for the following calls, the first of
    which is the leaf that did not fit. *)
Fixpoint fill_buffer (max found : Z) (leaves : list (list EncodedTriangle))
    : list (list EncodedTriangle) * list (list EncodedTriangle) :=
  match leaves with
  | [] => ([], [])
  | leaf :: rest =>
      if max <? found + Z.of_nat (length leaf) then ([], leaves)
      else
        let '(delivered, remaining) := fill_buffer max (found + Z.of_nat (length leaf)) rest in
        (leaf :: delivered, remaining)
  end.

(** Modelled from the spec: a sequence of calls, each with its own buffer
    size: what each call delivers, and what is left after the last. *)
Fixpoint fill_buffers (requests : list Z) (leaves : list (list EncodedTriangle))
    : list (list (list EncodedTriangle)) * list (list EncodedTriangle) :=
  match requests with
  | [] => ([], leaves)
  | request :: later =>
      let '(delivered, remaining) := fill_buffer request 0 leaves in
      let '(chunks, remaining') := fill_buffers later remaining in
      (delivered :: chunks, remaining')
  end.

(** What a call that delivers [leaves] returns and writes. *)
Definition leaves_output (c : MSGetTrianglesContext) (want_materials : bool)
    (leaves : list (list EncodedTriangle)) : GetTrianglesOutput :=
  mkGetTrianglesOutput (Z.of_nat (length (concat leaves)))
    (store_vertices c (concat leaves))
    (if want_materials then Some (store_materials c (concat leaves)) else None).

(** [GetTrianglesNext] called once for each buffer size of [requests]. *)
Fixpoint GetTriangles_calls (fuel : nat) (ioContext : MSGetTrianglesContext)
    (requests : list Z) (want_materials : bool)
    : option (MSGetTrianglesContext * list GetTrianglesOutput) :=
  match requests with
  | [] => Some (ioContext, [])
  | request :: later =>
      '(context, output) ← GetTrianglesNext fuel ioContext request want_materials;
      '(context', outputs) ← GetTriangles_calls fuel context later want_materials;
      Some (context', output :: outputs)
  end.

(** No leaf below the node has more than [MaxTrianglesPerLeaf] triangles. *)
Fixpoint leaves_bounded (n : Node) : Prop :=
  match n with
  | InnerNode _ _ _ _ c0 c1 c2 c3 =>
      leaves_bounded c0 ∧ leaves_bounded c1 ∧ leaves_bounded c2 ∧ leaves_bounded c3
  | TriangleBlock _ triangles => Z.of_nat (length triangles) ≤ MaxTrianglesPerLeaf
  | PaddingNode => True
  end.

(** A buffer size [GetTrianglesNext] accepts: at least a leaf, and an [int]
    that leaves room for the count of one more leaf. *)
Definition request_ok (request : Z) : Prop :=
  0 ≤ request ∧ MaxTrianglesPerLeaf ≤ request ∧ request + MaxTrianglesPerLeaf < 2 ^ 31.

(** The visitor of a region query after it has stored [leaves]. *)
Definition deliver (c : MSGetTrianglesContext) (leaves : list (list EncodedTriangle))
    (aborted : bool) : MSGetTrianglesContext :=
  mkMSGetTrianglesContext (mDecodeCtx c) (mShape c) (mLocalBox c) (mMeshScale c)
    (mLocalToWorld c) (mMaxTrianglesRequested c)
    (ctx_mTriangleVertices c ++ store_vertices c (concat leaves))
    (mNumTrianglesFound c + Z.of_nat (length (concat leaves)))
    ((λ written, written ++ store_materials c (concat leaves)) <$> ctx_mMaterials c)
    aborted (mIsInsideOut c).

Definition has_leaves (leaves : list (list EncodedTriangle)) : bool :=
  match leaves with [] => false | _ :: _ => true end.

(** What a walk of the region query comes to when it starts at [ctx] with
    the visitor [c]: it delivers what fits of the remaining selected leaves,
    aborts exactly when a leaf is left, and leaves that leaf pending. *)
Definition GetTriangles_walk_spec (ctx : DecodingContext) (c : MSGetTrianglesContext)
    (result : option (DecodingContext * MSGetTrianglesContext)) : Prop :=
  let selected := selected_leaves (mLocalBox c) (mMeshScale c) in
  let r := fill_buffer (mMaxTrianglesRequested c) (mNumTrianglesFound c)
             (flat_map selected (reverse (pending_nodes ctx))) in
  ∃ ctx',
    result = Some (ctx', deliver c r.1 (has_leaves r.2)) ∧
    flat_map selected (reverse (pending_nodes ctx')) = r.2 ∧
    Forall leaves_bounded (pending_nodes ctx') ∧
    (nodes_size (pending_nodes ctx') ≤ nodes_size (pending_nodes ctx))%nat ∧
    -1 ≤ mTop ctx' ∧
    IsDoneWalking ctx' = negb (has_leaves r.2).

(** Two contexts of the same region query. *)
Definition same_query (c1 c2 : MSGetTrianglesContext) : Prop :=
  mShape c1 = mShape c2 ∧ mLocalBox c1 = mLocalBox c2 ∧ mMeshScale c1 = mMeshScale c2 ∧
  mLocalToWorld c1 = mLocalToWorld c2 ∧ mIsInsideOut c1 = mIsInsideOut c2.

(** A leaf of at most [MaxTrianglesPerLeaf] triangles. *)
Definition leaf_ok (leaf : list EncodedTriangle) : Prop :=
  Z.of_nat (length leaf) ≤ MaxTrianglesPerLeaf.

(** What the calls of a sequence deliver: consecutive runs [chunks] of the
    leaves, each as long as its buffer allows, and the leaves [remaining]
    after the last call, none when there are as many calls as leaves. *)
Definition delivery_ok (requests : list Z) (leaves : list (list EncodedTriangle))
    (chunks : list (list (list EncodedTriangle)))
    (remaining : list (list EncodedTriangle)) : Prop :=
  length chunks = length requests ∧
  concat chunks ++ remaining = leaves ∧
  (∀ k request chunk,
     requests !! k = Some request → chunks !! k = Some chunk →
     Z.of_nat (length (concat chunk)) ≤ request ∧
     ∀ leaf, head (concat (drop (S k) chunks) ++ remaining) = Some leaf →
       request < Z.of_nat (length (concat chunk)) + Z.of_nat (length leaf) ∧
       ∀ chunk', chunks !! S k = Some chunk' → head chunk' = Some leaf) ∧
  (∀ k chunk,
     chunks !! k = Some chunk → concat chunk = [] →
     remaining = [] ∧ ∀ j chunk', (k < j)%nat → chunks !! j = Some chunk' → chunk' = []) ∧
  ((length leaves ≤ length requests)%nat → remaining = []).

(** *** Reference reading of the nearest-hit CastRay *)

(** The fraction at which a ray hits a triangle of the tree. *)
Definition triangle_fraction (inRay : RayCast) (x : Z * Z * EncodedTriangle) : Float :=
  RayTriangle (mOrigin inRay) (mDirection inRay) (tri_v0 x.2) (tri_v1 x.2) (tri_v2 x.2).

(** The identifier of a triangle of the tree under a creator. *)
Definition triangle_id (this : MeshShape) (inSubShapeIDCreator : SubShapeIDCreator)
    (x : Z * Z * EncodedTriangle) : SubShapeID :=
  GetID (PushID (PushID inSubShapeIDCreator x.1.1 (sTriangleBlockIDBits (mTree this)))
                x.1.2 NumTriangleBits).

(** The bounds [b] stored for the child [c] are conservative for the ray:
    the ray does not hit a triangle below [c] before it reaches [b]. *)
Definition child_bounds_ok (inRay : RayCast) (b : AABox) (c : Node) : bool :=
  forallb (λ x, negb (Float_lt (triangle_fraction inRay x)
                        (RayAABox (mOrigin inRay) (RayInvDirection_Set (mDirection inRay)) b)))
          (node_triangles c).

(** Modelled from the spec: the contract between the tree and the ray
    primitives that the pruning of the traversal relies on, at every inner
    node below [n]. *)
Fixpoint ray_bounds_ok (inRay : RayCast) (n : Node) : bool :=
  match n with
  | InnerNode b0 b1 b2 b3 c0 c1 c2 c3 =>
      child_bounds_ok inRay b0 c0 && child_bounds_ok inRay b1 c1
      && child_bounds_ok inRay b2 c2 && child_bounds_ok inRay b3 c3
      && ray_bounds_ok inRay c0 && ray_bounds_ok inRay c1
      && ray_bounds_ok inRay c2 && ray_bounds_ok inRay c3
  | TriangleBlock _ _ => true
  | PaddingNode => true
  end.

(** No triangle below [n] is hit at a negative fraction. *)
Definition fractions_nonnegative (inRay : RayCast) (n : Node) : bool :=
  forallb (λ x, negb (Float_lt (triangle_fraction inRay x) Float_zero)) (node_triangles n).

(** The hit of a cast that has returned [returned]: the incoming hit
    untouched, or a triangle of the tree that is closer than the incoming
    hit. *)
Definition CastRay_hit_ok (this : MeshShape) (inRay : RayCast)
    (inSubShapeIDCreator : SubShapeIDCreator) (ioHit : RayCastResult)
    (returned : bool) (hit : RayCastResult) : Prop :=
  if returned then
    mBodyID hit = mBodyID ioHit ∧
    Float_lt (mFraction hit) (mFraction ioHit) = true ∧
    ∃ x, x ∈ node_triangles (mRoot (mTree this)) ∧
         mFraction hit = triangle_fraction inRay x ∧
         mSubShapeID2 hit = triangle_id this inSubShapeIDCreator x
  else hit = ioHit.

(** The members of the visitor that the cast sets once, and its hit. *)
Definition CastRay_static (this : MeshShape) (inRay : RayCast)
    (inSubShapeIDCreator : SubShapeIDCreator) (ioHit : RayCastResult)
    (v : CastRayVisitor) : Prop :=
  ray_mRayOrigin v = mOrigin inRay ∧
  ray_mRayDirection v = mDirection inRay ∧
  ray_mRayInvDirection v = RayInvDirection_Set (mDirection inRay) ∧
  ray_mTriangleBlockIDBits v = sTriangleBlockIDBits (mTree this) ∧
  ray_mSubShapeIDCreator v = inSubShapeIDCreator ∧
  CastRay_hit_ok this inRay inSubShapeIDCreator ioHit (ray_mReturnValue v) (ray_mHit v).

(** A stack entry holds a part of the tree. *)
Definition CastRay_entry_ok (this : MeshShape) (inRay : RayCast) (n : Node) : Prop :=
  (∀ x, x ∈ node_triangles n → x ∈ node_triangles (mRoot (mTree this))) ∧
  ray_bounds_ok inRay n = true.

(** The entries below index [n] hold parts of the tree, with distances
    that are conservative for them. *)
Definition CastRay_entries_ok (this : MeshShape) (inRay : RayCast)
    (ctx : DecodingContext) (v : CastRayVisitor) (n : Z) : Prop :=
  ∀ i, 0 ≤ i < n →
    CastRay_entry_ok this inRay (mNodeStack ctx i) ∧
    ∀ x, x ∈ node_triangles (mNodeStack ctx i) →
         Float_lt (triangle_fraction inRay x) (ray_mDistanceStack v i) = false.

(** Every triangle closer than the current hit is below an entry under
    index [n]. *)
Definition CastRay_covered (this : MeshShape) (inRay : RayCast)
    (ctx : DecodingContext) (v : CastRayVisitor) (n : Z) : Prop :=
  ∀ x, x ∈ node_triangles (mRoot (mTree this)) →
       Float_lt (triangle_fraction inRay x) (mFraction (ray_mHit v)) = true →
       ∃ i, 0 ≤ i < n ∧ x ∈ node_triangles (mNodeStack ctx i).

(** The invariant of the walk of the nearest-hit cast, at the head of the
    walker's loop. *)
Definition CastRay_inv (this : MeshShape) (inRay : RayCast)
    (inSubShapeIDCreator : SubShapeIDCreator) (ioHit : RayCastResult)
    (ctx : DecodingContext) (v : CastRayVisitor) : Prop :=
  CastRay_static this inRay inSubShapeIDCreator ioHit v ∧
  CastRay_entry_ok this inRay (mNodeStack ctx (mTop ctx)) ∧
  CastRay_entries_ok this inRay ctx v (mTop ctx) ∧
  CastRay_covered this inRay ctx v (mTop ctx + 1).

(** What holds when the walk of the nearest-hit cast has ended. *)
Definition CastRay_post (this : MeshShape) (inRay : RayCast)
    (inSubShapeIDCreator : SubShapeIDCreator) (ioHit : RayCastResult)
    (ctx : DecodingContext) (v : CastRayVisitor) : Prop :=
  CastRay_static this inRay inSubShapeIDCreator ioHit v ∧
  ∀ x, x ∈ node_triangles (mRoot (mTree this)) →
       Float_lt (triangle_fraction inRay x) (mFraction (ray_mHit v)) = false.

(** *** Reference reading of the constructor's validation *)

(** A triangle the "check triangles" loop stops at: degenerate, or with a
    vertex index beyond the vertex list. *)
Definition bad_triangle (num_vertices : Z) (t : IndexedTriangle) : bool :=
  IsDegenerate t || (num_vertices <=? mIdx_0 t) || (num_vertices <=? mIdx_1 t)
  || (num_vertices <=? mIdx_2 t).

(** The error the loop reports for the bad triangle at position [k]: the
    degenerate test comes first, then the vertex indices in order. *)
Definition triangle_error (num_vertices : Z) (k : nat) (t : IndexedTriangle) : ShapeError :=
  if IsDegenerate t then DegenerateTriangle (Z.of_nat k)
  else IndexOutOfRange
         (if num_vertices <=? mIdx_0 t then mIdx_0 t
          else if num_vertices <=? mIdx_1 t then mIdx_1 t else mIdx_2 t)
         (uint32 num_vertices).

(** What the validation requires of the materials: without a table every
    triangle uses index 0; with one, the table has at most
    [FLAGS_MATERIAL_MASK] entries and every index is inside it. *)
Definition materials_accepted (materials : list PhysicsMaterial)
    (triangles : list IndexedTriangle) : Prop :=
  (materials = [] → Forall (λ t, mMaterialIndex t = 0) triangles) ∧
  (materials ≠ [] →
     Z.of_nat (length materials) ≤ FLAGS_MATERIAL_MASK ∧
     Forall (λ t, mMaterialIndex t < Z.of_nat (length materials)) triangles).


(** The triangles of [cur] are those of [orig], in place, with flag words
    that have kept every bit they had. *)
Definition flags_grown (orig cur : list IndexedTriangle) : Prop :=
  length cur = length orig ∧
  ∀ k t, orig !! k = Some t →
    ∃ t', cur !! k = Some t' ∧ same_indices t t' ∧
          Z.land (mMaterialIndex t') (mMaterialIndex t) = mMaterialIndex t.


(** ** MeshShape::GetSurfaceNormal *)

(** The one vector operation of the surface normal that the queries above do
    not use. *)
Class Normalizer : Type := {
  Vec3_Normalized : Vec3 → Vec3
}.
Context {N : Normalizer}.

(** Modelled from the spec: [TriangleCodec::DecodingContext::GetTriangle],
    the three vertices of the triangle [inTriangleIdx] of a leaf block. *)
Definition GetTriangle (inTriangleStart : option (list EncodedTriangle)) (inTriangleIdx : Z)
    : option (Vec3 * Vec3 * Vec3) :=
  block ← inTriangleStart;
  (λ t, (tri_v0 t, tri_v1 t, tri_v2 t)) <$> block !! Z.to_nat inTriangleIdx.

(** [MeshShape::GetSurfaceNormal]: the normal ([None] when the block or the
    triangle does not exist) and the events of the decoding.  The surface
    position is not used. *)
Definition GetSurfaceNormal (this : MeshShape) (inSubShapeID : SubShapeID)
    (inLocalSurfacePosition : Vec3) : option Vec3 * list TreeEvent :=
  let '(block_start, triangle_idx, events) := DecodeSubShapeID this inSubShapeID in
  ('(v1, v2, v3) ← GetTriangle block_start triangle_idx;
   Some (Vec3_Normalized (Vec3_Cross (Vec3_sub v3 v2) (Vec3_sub v1 v2))),
   events).

(** *** Reference reading of the identifiers of a tree *)

(** The ids of the leaf blocks below a node. *)
Fixpoint block_ids (n : Node) : list Z :=
  match n with
  | InnerNode _ _ _ _ c0 c1 c2 c3 =>
      block_ids c0 ++ block_ids c1 ++ block_ids c2 ++ block_ids c3
  | TriangleBlock block_id _ => [block_id]
  | PaddingNode => []
  end.

(** The sizes of the leaf blocks below a node. *)
Fixpoint block_sizes (n : Node) : list nat :=
  match n with
  | InnerNode _ _ _ _ c0 c1 c2 c3 =>
      block_sizes c0 ++ block_sizes c1 ++ block_sizes c2 ++ block_sizes c3
  | TriangleBlock _ triangles => [length triangles]
  | PaddingNode => []
  end.

(** Modelled from the spec: what the encoded tree promises about its
    identifiers: every leaf block has its own id, the ids fit
    [sTriangleBlockIDBits] bits and the index of a triangle in its block fits
    [NumTriangleBits] bits. *)
Definition tree_ids_ok (inTree : ByteBuffer) : Prop :=
  NoDup (block_ids (mRoot inTree)) ∧
  Forall (λ b, 0 ≤ b < 2 ^ sTriangleBlockIDBits inTree) (block_ids (mRoot inTree)) ∧
  Forall (λ n, Z.of_nat n ≤ 2 ^ NumTriangleBits) (block_sizes (mRoot inTree)).


(** ** Visitors that visit every child they select *)

(** [size_t] arithmetic. *)
Definition size_t (x : Z) : Z := x mod 2 ^ 64.

(** [uint8] conversion. *)
Definition uint8 (x : Z) : Z := x mod 2 ^ 8.

(** The leaf blocks below a node that are reached through children whose
    bounds satisfy [sel], with their ids, in the order of a walk that takes
    the last selected child first. *)
Fixpoint selected_blocks (sel : AABox → bool) (n : Node)
    : list (Z * list EncodedTriangle) :=
  match n with
  | InnerNode b0 b1 b2 b3 c0 c1 c2 c3 =>
      (if sel b3 then selected_blocks sel c3 else [])
      ++ (if sel b2 then selected_blocks sel c2 else [])
      ++ (if sel b1 then selected_blocks sel c1 else [])
      ++ (if sel b0 then selected_blocks sel c0 else [])
  | TriangleBlock block_id triangles => [(block_id, triangles)]
  | PaddingNode => []
  end.

(** Leaf blocks shown to a visitor one after the other, until it wants to
    abort. *)
Fixpoint visit_blocks {V : Type} `{Visitor V} (v : V)
    (blocks : list (Z * list EncodedTriangle)) : V :=
  match blocks with
  | [] => v
  | (block_id, triangles) :: rest =>
      let v' := VisitTriangles v triangles block_id in
      if ShouldAbort v' then v' else visit_blocks v' rest
  end.

(** The triangles of a list of blocks, each with the id of its block and its
    index in the block. *)
Definition blocks_triangles (blocks : list (Z * list EncodedTriangle))
    : list (Z * Z * EncodedTriangle) :=
  flat_map (λ block, imap (λ i t, (block.1, Z.of_nat i, t)) block.2) blocks.

(** ** MeshShape::GetStats *)

(** The corners of a box, as the visitors that test the validity of child
    bounds read them, and the two coordinates [Geometry] does not name. *)
Class BoxAccess : Type := {
  AABox_mMin : AABox → Vec3;
  AABox_mMax : AABox → Vec3;
  Vec3_GetX : Vec3 → Float;
  Vec3_GetZ : Vec3 → Float
}.
Context {BA : BoxAccess}.

(** The sizes [GetStats] adds up: the size of the shape object, the size of
    a material reference and the number of bytes of the tree buffer. *)
Class Layout : Type := {
  sizeof_MeshShape : Z;
  sizeof_Ref_PhysicsMaterial : Z;
  ByteBuffer_size : ByteBuffer → Z
}.
Context {L : Layout}.

(** One lane of [sOr(sOr(sLess(minX, maxX), sLess(minY, maxY)),
    sLess(minZ, maxZ))]: "visit all valid children". *)
Definition bounds_valid (b : AABox) : bool :=
  Float_lt (Vec3_GetX (AABox_mMin b)) (Vec3_GetX (AABox_mMax b))
  || Float_lt (Vec3_GetY (AABox_mMin b)) (Vec3_GetY (AABox_mMax b))
  || Float_lt (Vec3_GetZ (AABox_mMin b)) (Vec3_GetZ (AABox_mMax b)).

(** The local [struct Visitor] of [GetStats]. *)
Record StatsVisitor : Type := mkStatsVisitor {
  stats_mNumTriangles : Z
}.

#[export] Instance StatsVisitor_Visitor : Visitor StatsVisitor := {
  ShouldAbort v := false;
  ShouldVisitNode v inStackTop := true;
  VisitNodes v bounds ioProperties inStackTop :=
    let valid := bounds_valid <$> bounds in
    (v, sSort4True valid ioProperties, CountTrues valid);
  VisitTriangles v inTriangles inTriangleBlockID :=
    mkStatsVisitor (uint32 (stats_mNumTriangles v + Z.of_nat (length inTriangles)))
}.

(** [Shape::Stats]. *)
Record Stats : Type := mkStats {
  mSizeBytes : Z;
  mNumTriangles : Z
}.

(** [MeshShape::GetStats]. *)
Definition GetStats (fuel : nat) (this : MeshShape) : option Stats :=
  visitor ← MeshShape_WalkTree fuel this (mkStatsVisitor 0);
  Some (mkStats
          (size_t (sizeof_MeshShape
                   + size_t (Z.of_nat (length (mMaterials this)) * sizeof_Ref_PhysicsMaterial)
                   + size_t (ByteBuffer_size (mTree this) * 1)))
          (stats_mNumTriangles visitor)).

(** Every child below [n] that has triangles has valid bounds. *)
Fixpoint populated_children_valid (n : Node) : Prop :=
  match n with
  | InnerNode b0 b1 b2 b3 c0 c1 c2 c3 =>
      (node_triangles c0 = [] ∨ bounds_valid b0 = true) ∧
      (node_triangles c1 = [] ∨ bounds_valid b1 = true) ∧
      (node_triangles c2 = [] ∨ bounds_valid b2 = true) ∧
      (node_triangles c3 = [] ∨ bounds_valid b3 = true) ∧
      populated_children_valid c0 ∧ populated_children_valid c1 ∧
      populated_children_valid c2 ∧ populated_children_valid c3
  | TriangleBlock _ _ => True
  | PaddingNode => True
  end.


(** ** MeshShape::sCollideConvexVsMesh *)

(** The base class [CollideConvexVsTriangles] of the visitor, an engine
    primitive (spec §9): its state, which holds the collector it reports to,
    what [Collide] makes of the state for one triangle, and the members the
    visitor reads. *)
Class ConvexVsTriangles : Type := {
  CollideConvexVsTriangles : Type;
  Collide : CollideConvexVsTriangles → Vec3 → Vec3 → Vec3 → Z → SubShapeID
            → CollideConvexVsTriangles;
  mCollector_ShouldEarlyOut : CollideConvexVsTriangles → bool;
  mScale2 : CollideConvexVsTriangles → Vec3;
  mBoundsOf1InSpaceOf2 : CollideConvexVsTriangles → OrientedBox
}.
Context {CT : ConvexVsTriangles}.

(** The local [struct Visitor] of [sCollideConvexVsMesh]: the base object and
    the two members the function fills in. *)
Record CollideVisitor : Type := mkCollideVisitor {
  cv_base : CollideConvexVsTriangles;
  cv_mTriangleBlockIDBits : Z;
  cv_mSubShapeIDCreator2 : SubShapeIDCreator
}.

(** "Determine active edges": [(flags >> FLAGS_ACTIVE_EGDE_SHIFT) &
    FLAGS_ACTIVE_EDGE_MASK], stored in a [uint8]. *)
Definition active_edges (flags : Z) : Z :=
  uint8 (Z.land (Z.shiftr flags FLAGS_ACTIVE_EGDE_SHIFT) FLAGS_ACTIVE_EDGE_MASK).

(** "Loop over all triangles", from [triangle_idx] on, leaving the loop as
    soon as the collector wants out. *)
Fixpoint collide_triangles (block_sub_shape_id : SubShapeIDCreator)
    (base : CollideConvexVsTriangles) (triangle_idx : Z)
    (inTriangles : list EncodedTriangle) : CollideConvexVsTriangles :=
  match inTriangles with
  | [] => base
  | t :: rest =>
      let triangle_sub_shape_id :=
        GetID (PushID block_sub_shape_id triangle_idx NumTriangleBits) in
      let base' :=
        Collide base (tri_v0 t) (tri_v1 t) (tri_v2 t) (active_edges (tri_flags t))
          triangle_sub_shape_id in
      if mCollector_ShouldEarlyOut base' then base'
      else collide_triangles block_sub_shape_id base' (triangle_idx + 1) rest
  end.

Definition CollideVisitor_VisitTriangles (v : CollideVisitor)
    (inTriangles : list EncodedTriangle) (inTriangleBlockID : Z) : CollideVisitor :=
  let block_sub_shape_id :=
    PushID (cv_mSubShapeIDCreator2 v) inTriangleBlockID (cv_mTriangleBlockIDBits v) in
  mkCollideVisitor (collide_triangles block_sub_shape_id (cv_base v) 0 inTriangles)
    (cv_mTriangleBlockIDBits v) (cv_mSubShapeIDCreator2 v).

Definition CollideVisitor_VisitNodes (v : CollideVisitor) (bounds : list AABox)
    (ioProperties : list Node) (inStackTop : Z) : CollideVisitor * list Node * Z :=
  let scaled := AABox_Scale (mScale2 (cv_base v)) <$> bounds in
  let collides := AABox_VsBox (mBoundsOf1InSpaceOf2 (cv_base v)) <$> scaled in
  (v, sSort4True collides ioProperties, CountTrues collides).

#[export] Instance CollideVisitor_Visitor : Visitor CollideVisitor := {
  ShouldAbort v := mCollector_ShouldEarlyOut (cv_base v);
  ShouldVisitNode v inStackTop := true;
  VisitNodes := CollideVisitor_VisitNodes;
  VisitTriangles := CollideVisitor_VisitTriangles
}.

(** [MeshShape::sCollideConvexVsMesh], from the base object that the
    visitor's constructor builds of the convex shape, the scales, the
    transforms, the first identifier, the settings and the collector: the
    base object after the walk of [shape2]. *)
Definition sCollideConvexVsMesh (fuel : nat) (shape2 : MeshShape)
    (base : CollideConvexVsTriangles) (inSubShapeIDCreator2 : SubShapeIDCreator)
    : option CollideConvexVsTriangles :=
  let visitor :=
    mkCollideVisitor base (sTriangleBlockIDBits (mTree shape2)) inSubShapeIDCreator2 in
  cv_base <$> MeshShape_WalkTree fuel shape2 visitor.

(** *** Reference reading of the collision walk *)

(** The child bounds the convex shape's box touches once they are scaled. *)
Definition collides_with (base : CollideConvexVsTriangles) (b : AABox) : bool :=
  AABox_VsBox (mBoundsOf1InSpaceOf2 base) (AABox_Scale (mScale2 base) b).

(** A list of triangles of the tree handed to [Collide] one after the other,
    until the collector wants out. *)
Fixpoint collide_each (shape2 : MeshShape) (inSubShapeIDCreator2 : SubShapeIDCreator)
    (base : CollideConvexVsTriangles) (l : list (Z * Z * EncodedTriangle))
    : CollideConvexVsTriangles :=
  match l with
  | [] => base
  | x :: rest =>
      let base' :=
        Collide base (tri_v0 x.2) (tri_v1 x.2) (tri_v2 x.2) (active_edges (tri_flags x.2))
          (triangle_id shape2 inSubShapeIDCreator2 x) in
      if mCollector_ShouldEarlyOut base' then base'
      else collide_each shape2 inSubShapeIDCreator2 base' rest
  end.

(** [Collide] leaves the scale and the box of the convex shape alone. *)
Definition Collide_keeps_box : Prop :=
  ∀ base v0 v1 v2 edges id,
    mScale2 (Collide base v0 v1 v2 edges id) = mScale2 base ∧
    mBoundsOf1InSpaceOf2 (Collide base v0 v1 v2 edges id) = mBoundsOf1InSpaceOf2 base.


(** *** Reference reading of the collector cast *)

(** A triangle the collector cast reports while the early-out fraction is
    [early_out]: not skipped as a back face, and hit before [early_out]. *)
Definition reportable (inRay : RayCast) (mode : EBackFaceMode) (early_out : Float)
    (x : Z * Z * EncodedTriangle) : bool :=
  negb (match mode with
        | IgnoreBackFaces =>
            is_back_facing (mDirection inRay) (tri_v0 x.2) (tri_v1 x.2) (tri_v2 x.2)
        | CollideWithBackFaces => false
        end)
  && Float_lt (triangle_fraction inRay x) early_out.

(** The hit the collector cast reports for a triangle of the tree. *)
Definition triangle_hit (this : MeshShape) (inRay : RayCast)
    (inSubShapeIDCreator : SubShapeIDCreator) (body : BodyID)
    (x : Z * Z * EncodedTriangle) : RayCastResult :=
  mkRayCastResult body (triangle_fraction inRay x) (triangle_id this inSubShapeIDCreator x).

(** A collector that takes every hit without changing its early-out
    fraction, its context or its wish to go on: one that gathers all hits. *)
Definition collector_steady (C : Type) `{CollisionCollector RayCastResult C} : Prop :=
  ∀ (c : C) (hit : RayCastResult),
    GetEarlyOutFraction (AddHit c hit) = GetEarlyOutFraction c ∧
    GetContext (AddHit c hit) = GetContext c ∧
    ShouldEarlyOut (AddHit c hit) = ShouldEarlyOut c.

(** The members of the collector visitor that a cast sets once. *)
Definition collector_cast_of {C : Type} (this : MeshShape) (inRay : RayCast)
    (mode : EBackFaceMode) (inSubShapeIDCreator : SubShapeIDCreator)
    (v : CollectVisitor C) : Prop :=
  col_mRayOrigin v = mOrigin inRay ∧
  col_mRayDirection v = mDirection inRay ∧
  col_mRayInvDirection v = RayInvDirection_Set (mDirection inRay) ∧
  col_mBackFaceMode v = mode ∧
  col_mTriangleBlockIDBits v = sTriangleBlockIDBits (mTree this) ∧
  col_mSubShapeIDCreator v = inSubShapeIDCreator.

(** The triangles that the ray of the point test crosses. *)
Definition crossings (this : MeshShape) (inPoint : Vec3) : list (Z * Z * EncodedTriangle) :=
  filter (λ x, reportable (CollidePoint_ray (GetLocalBounds this) inPoint)
                 CollideWithBackFaces cInitialEarlyOutFraction x = true)
    (node_triangles (mRoot (mTree this))).


(** ** MeshShape::CastShape *)

(** What [CastShape] reads of the cast shape's world space bounds, and the
    enlargement of a box by an extent ([AABox4EnlargeWithExtent]). *)
Class ShapeCastGeometry : Type := {
  AABox_GetCenter : AABox → Vec3;
  AABox_GetExtent : AABox → Vec3;
  AABox_EnlargeWithExtent : Vec3 → AABox → AABox
}.
Context {SG : ShapeCastGeometry}.

(** The members of [ShapeCast] that [CastShape] reads. *)
Record ShapeCast : Type := mkShapeCast {
  shape_mDirection : Vec3;
  mShapeWorldBounds : AABox
}.

(** The base class [CastConvexVsTriangles] of the visitor, an engine
    primitive (spec §9): its state, which holds the collector it reports to,
    what [Cast] makes of the state for one triangle, and what the visitor
    reads of it. *)
Class ConvexCast : Type := {
  CastConvexVsTriangles : Type;
  Cast : CastConvexVsTriangles → Vec3 → Vec3 → Vec3 → Z → SubShapeID → CastConvexVsTriangles;
  cast_ShouldEarlyOut : CastConvexVsTriangles → bool;
  cast_GetEarlyOutFraction : CastConvexVsTriangles → Float;
  cast_mScale : CastConvexVsTriangles → Vec3
}.
Context {CC : ConvexCast}.

(** The local [struct Visitor] of [CastShape]: the base object and the
    members the function fills in. *)
Record CastShapeVisitor : Type := mkCastShapeVisitor {
  cs_base : CastConvexVsTriangles;
  cs_mInvDirection : RayInvDirection;
  cs_mBoxCenter : Vec3;
  cs_mBoxExtent : Vec3;
  cs_mSubShapeIDCreator2 : SubShapeIDCreator;
  cs_mTriangleBlockIDBits : Z;
  cs_mDistanceStack : Z → Float
}.

(** The loop over the triangles of a block, from [triangle_idx] on, left as
    soon as the collector wants out. *)
Fixpoint cast_triangles (block_sub_shape_id : SubShapeIDCreator)
    (base : CastConvexVsTriangles) (triangle_idx : Z)
    (inTriangles : list EncodedTriangle) : CastConvexVsTriangles :=
  match inTriangles with
  | [] => base
  | t :: rest =>
      let triangle_sub_shape_id := PushID block_sub_shape_id triangle_idx NumTriangleBits in
      let base' :=
        Cast base (tri_v0 t) (tri_v1 t) (tri_v2 t) (active_edges (tri_flags t))
          (GetID triangle_sub_shape_id) in
      if cast_ShouldEarlyOut base' then base'
      else cast_triangles block_sub_shape_id base' (triangle_idx + 1) rest
  end.

Definition CastShapeVisitor_VisitTriangles (v : CastShapeVisitor)
    (inTriangles : list EncodedTriangle) (inTriangleBlockID : Z) : CastShapeVisitor :=
  let block_sub_shape_id :=
    PushID (cs_mSubShapeIDCreator2 v) inTriangleBlockID (cs_mTriangleBlockIDBits v) in
  mkCastShapeVisitor (cast_triangles block_sub_shape_id (cs_base v) 0 inTriangles)
    (cs_mInvDirection v) (cs_mBoxCenter v) (cs_mBoxExtent v) (cs_mSubShapeIDCreator2 v)
    (cs_mTriangleBlockIDBits v) (cs_mDistanceStack v).

Definition CastShapeVisitor_VisitNodes (v : CastShapeVisitor) (bounds : list AABox)
    (ioProperties : list Node) (inStackTop : Z) : CastShapeVisitor * list Node * Z :=
  let scaled := AABox_Scale (cast_mScale (cs_base v)) <$> bounds in
  let enlarged := AABox_EnlargeWithExtent (cs_mBoxExtent v) <$> scaled in
  let '(stack, properties, num_results) :=
    ray_VisitNodes (cs_mBoxCenter v) (cs_mInvDirection v)
      (cast_GetEarlyOutFraction (cs_base v)) (cs_mDistanceStack v)
      enlarged ioProperties inStackTop in
  (mkCastShapeVisitor (cs_base v) (cs_mInvDirection v) (cs_mBoxCenter v) (cs_mBoxExtent v)
     (cs_mSubShapeIDCreator2 v) (cs_mTriangleBlockIDBits v) stack,
   properties, num_results).

#[export] Instance CastShapeVisitor_Visitor : Visitor CastShapeVisitor := {
  ShouldAbort v := cast_ShouldEarlyOut (cs_base v);
  ShouldVisitNode v inStackTop :=
    Float_lt (cs_mDistanceStack v inStackTop) (cast_GetEarlyOutFraction (cs_base v));
  VisitNodes := CastShapeVisitor_VisitNodes;
  VisitTriangles := CastShapeVisitor_VisitTriangles
}.

(** [MeshShape::CastShape], from the base object that the visitor's
    constructor builds of the shape cast, its settings, the scale, the
    filter, the transform, the first creator and the collector: the base
    object after the walk.  [distance_stack] is the uninitialised
    [mDistanceStack]. *)
Definition CastShape (fuel : nat) (this : MeshShape) (distance_stack : Z → Float)
    (inShapeCast : ShapeCast) (base : CastConvexVsTriangles)
    (inSubShapeIDCreator2 : SubShapeIDCreator) : option CastConvexVsTriangles :=
  let visitor :=
    mkCastShapeVisitor base
      (RayInvDirection_Set (shape_mDirection inShapeCast))
      (AABox_GetCenter (mShapeWorldBounds inShapeCast))
      (AABox_GetExtent (mShapeWorldBounds inShapeCast))
      inSubShapeIDCreator2 (sTriangleBlockIDBits (mTree this)) distance_stack in
  cs_base <$> MeshShape_WalkTree fuel this visitor.

(** *** Reference reading of the shape cast *)

(** A list of triangles of the tree handed to [Cast] one after the other,
    until the collector wants out. *)
Fixpoint cast_each (this : MeshShape) (inSubShapeIDCreator2 : SubShapeIDCreator)
    (base : CastConvexVsTriangles) (l : list (Z * Z * EncodedTriangle))
    : CastConvexVsTriangles :=
  match l with
  | [] => base
  | x :: rest =>
      let base' :=
        Cast base (tri_v0 x.2) (tri_v1 x.2) (tri_v2 x.2) (active_edges (tri_flags x.2))
          (triangle_id this inSubShapeIDCreator2 x) in
      if cast_ShouldEarlyOut base' then base'
      else cast_each this inSubShapeIDCreator2 base' rest
  end.

(** The invariant of the walk of the shape cast: the base object is what a
    list of triangles has made of [base], the collector goes on, and these
    triangles together with those below the stack entries are triangles of
    the tree, each taken at most once. *)
Definition CastShape_inv (this : MeshShape) (inSubShapeIDCreator2 : SubShapeIDCreator)
    (base : CastConvexVsTriangles) (ctx : DecodingContext) (v : CastShapeVisitor) : Prop :=
  cs_mSubShapeIDCreator2 v = inSubShapeIDCreator2 ∧
  cs_mTriangleBlockIDBits v = sTriangleBlockIDBits (mTree this) ∧
  cast_ShouldEarlyOut (cs_base v) = false ∧
  ∃ order : list (Z * Z * EncodedTriangle),
    cs_base v = cast_each this inSubShapeIDCreator2 base order ∧
    order ++ flat_map node_triangles (pending_nodes ctx)
      ⊆+ node_triangles (mRoot (mTree this)).

(** What holds when the walk of the shape cast has ended. *)
Definition CastShape_post (this : MeshShape) (inSubShapeIDCreator2 : SubShapeIDCreator)
    (base : CastConvexVsTriangles) (ctx : DecodingContext) (v : CastShapeVisitor) : Prop :=
  ∃ order : list (Z * Z * EncodedTriangle),
    cs_base v = cast_each this inSubShapeIDCreator2 base order ∧
    order ⊆+ node_triangles (mRoot (mTree this)).


(** A list of triangles of the tree shown to the collector one after the
    other: each is reported if it is not skipped as a back face and is hit
    before the early-out fraction the collector has at that moment. *)
Definition collect_each {C : Type} `{CollisionCollector RayCastResult C}
    (this : MeshShape) (inRay : RayCast) (mode : EBackFaceMode)
    (inSubShapeIDCreator : SubShapeIDCreator) (collector : C)
    (l : list (Z * Z * EncodedTriangle)) : C :=
  foldl (λ c x,
           if reportable inRay mode (GetEarlyOutFraction c) x
           then AddHit c (triangle_hit this inRay inSubShapeIDCreator
                            (sGetBodyID (GetContext c)) x)
           else c)
        collector l.

(** The invariant of the walk of the collector cast: the collector is what
    a list of triangles has made of [collector], and these triangles together
    with those below the stack entries are triangles of the tree, each taken
    at most once. *)
Definition CastRay_collector_inv {C : Type} `{CollisionCollector RayCastResult C}
    (this : MeshShape) (inRay : RayCast) (mode : EBackFaceMode)
    (inSubShapeIDCreator : SubShapeIDCreator) (collector : C)
    (ctx : DecodingContext) (v : CollectVisitor C) : Prop :=
  collector_cast_of this inRay mode inSubShapeIDCreator v ∧
  ∃ order : list (Z * Z * EncodedTriangle),
    col_mCollector v = collect_each this inRay mode inSubShapeIDCreator collector order ∧
    order ++ flat_map node_triangles (pending_nodes ctx)
      ⊆+ node_triangles (mRoot (mTree this)).

(** What holds when the walk of the collector cast has ended. *)
Definition CastRay_collector_post {C : Type} `{CollisionCollector RayCastResult C}
    (this : MeshShape) (inRay : RayCast) (mode : EBackFaceMode)
    (inSubShapeIDCreator : SubShapeIDCreator) (collector : C)
    (ctx : DecodingContext) (v : CollectVisitor C) : Prop :=
  ∃ order : list (Z * Z * EncodedTriangle),
    col_mCollector v = collect_each this inRay mode inSubShapeIDCreator collector order ∧
    order ⊆+ node_triangles (mRoot (mTree this)).


(** *** Reference reading of the collector cast, leaf by leaf *)

(** The leaf blocks below a node, with their ids. *)
Fixpoint node_blocks (n : Node) : list (Z * list EncodedTriangle) :=
  match n with
  | InnerNode _ _ _ _ c0 c1 c2 c3 =>
      node_blocks c0 ++ node_blocks c1 ++ node_blocks c2 ++ node_blocks c3
  | TriangleBlock block_id triangles => [(block_id, triangles)]
  | PaddingNode => []
  end.

(** A collector whose early-out fraction is not raised by a hit that lies
    before it: one that gathers all hits, or the closest, or any. *)
Definition collector_monotone (C : Type) `{CollisionCollector RayCastResult C} : Prop :=
  ∀ (c : C) (hit : RayCastResult),
    Float_lt (mFraction hit) (GetEarlyOutFraction c) = true →
    Float_lt (GetEarlyOutFraction c) (GetEarlyOutFraction (AddHit c hit)) = false.

(** What makes pruning by distance safe: floats are ordered, the child
    bounds of the tree are conservative for the ray, and the collector is
    monotone. *)
Definition cast_conservative (C : Type) `{CollisionCollector RayCastResult C}
    (this : MeshShape) (inRay : RayCast) : Prop :=
  collector_monotone C ∧ FloatOrder G ∧ ray_bounds_ok inRay (mRoot (mTree this)) = true.

(** No leaf is visited after the collector wants out; only a root that is
    itself a leaf is visited before the collector is asked. *)
Definition leaves_abort {C : Type} `{CollisionCollector RayCastResult C}
    (this : MeshShape) (inRay : RayCast) (mode : EBackFaceMode)
    (inSubShapeIDCreator : SubShapeIDCreator) (collector : C)
    (leaves : list (Z * list EncodedTriangle)) : Prop :=
  ∀ visited rest,
    leaves = visited ++ rest →
    ShouldEarlyOut (collect_each this inRay mode inSubShapeIDCreator collector
                      (blocks_triangles visited)) = true →
    rest = [] ∨
    (visited = [] ∧ ∃ block_id triangles, mRoot (mTree this) = TriangleBlock block_id triangles).

(** The invariant of the walk of the collector cast, at the head of the
    walker's loop: the collector is what the triangles of the leaves visited
    so far have made of [collector]; these leaves and those below the stack
    entries are leaves of the tree, each taken at most once; and where
    pruning is safe, the stack entries carry conservative distances and
    every triangle that is hit before the current early-out fraction has been
    shown to the collector or lies below a stack entry. *)
Definition CastRay_trace_inv {C : Type} `{CollisionCollector RayCastResult C}
    (this : MeshShape) (inRay : RayCast) (mode : EBackFaceMode)
    (inSubShapeIDCreator : SubShapeIDCreator) (collector : C)
    (ctx : DecodingContext) (v : CollectVisitor C) : Prop :=
  collector_cast_of this inRay mode inSubShapeIDCreator v ∧
  ∃ leaves : list (Z * list EncodedTriangle),
    col_mCollector v
    = collect_each this inRay mode inSubShapeIDCreator collector (blocks_triangles leaves) ∧
    leaves ++ flat_map node_blocks (pending_nodes ctx) ⊆+ node_blocks (mRoot (mTree this)) ∧
    leaves_abort this inRay mode inSubShapeIDCreator collector leaves ∧
    (ShouldEarlyOut (col_mCollector v) = false ∨
     (leaves = [] ∧ mTop ctx = 0 ∧ mNodeStack ctx 0 = mRoot (mTree this))) ∧
    (cast_conservative C this inRay →
     (∀ i, 0 ≤ i ≤ mTop ctx → ray_bounds_ok inRay (mNodeStack ctx i) = true) ∧
     (∀ i, 0 ≤ i < mTop ctx →
        ∀ x, x ∈ node_triangles (mNodeStack ctx i) →
             Float_lt (triangle_fraction inRay x) (col_mDistanceStack v i) = false) ∧
     (∀ x, x ∈ node_triangles (mRoot (mTree this)) →
           Float_lt (triangle_fraction inRay x) (GetEarlyOutFraction (col_mCollector v))
           = true →
           x ∈ blocks_triangles leaves ∨
           ∃ i, 0 ≤ i ≤ mTop ctx ∧ x ∈ node_triangles (mNodeStack ctx i))).

(** What holds when the walk of the collector cast has ended. *)
Definition CastRay_trace_post {C : Type} `{CollisionCollector RayCastResult C}
    (this : MeshShape) (inRay : RayCast) (mode : EBackFaceMode)
    (inSubShapeIDCreator : SubShapeIDCreator) (collector : C)
    (ctx : DecodingContext) (v : CollectVisitor C) : Prop :=
  ∃ leaves : list (Z * list EncodedTriangle),
    col_mCollector v
    = collect_each this inRay mode inSubShapeIDCreator collector (blocks_triangles leaves) ∧
    leaves ⊆+ node_blocks (mRoot (mTree this)) ∧
    leaves_abort this inRay mode inSubShapeIDCreator collector leaves ∧
    (cast_conservative C this inRay →
     ShouldEarlyOut (col_mCollector v) = false →
     ∀ x, x ∈ node_triangles (mRoot (mTree this)) →
          Float_lt (triangle_fraction inRay x) (GetEarlyOutFraction (col_mCollector v))
          = true →
          x ∈ blocks_triangles leaves).

End MeshShapeModel.

Arguments mkCollectVisitor {G C}.
Arguments col_mCollector {G C}.
Arguments col_mRayOrigin {G C}.
Arguments col_mRayDirection {G C}.
Arguments col_mRayInvDirection {G C}.
Arguments col_mBackFaceMode {G C}.
Arguments col_mTriangleBlockIDBits {G C}.
Arguments col_mSubShapeIDCreator {G C}.
Arguments col_mDistanceStack {G C}.

(** ** Concrete instances for evaluation *)

(** The layout constants with five material bits, leaves of four triangles
    and 32-bit sub-shape identifiers. *)
Definition demo_constants : Constants := {|
  FLAGS_MATERIAL_MASK := 31;
  FLAGS_ACTIVE_EGDE_SHIFT := 5;
  FLAGS_ACTIVE_EDGE_MASK := 7;
  NumTriangleBits := 2;
  MaxTrianglesPerLeaf := 4;
  MaxBits := 32
|}.

Definition Z3 : Type := (Z * Z * Z)%type.

Definition Z3_sub (a b : Z3) : Z3 :=
  let '(ax, ay, az) := a in let '(bx, by', bz) := b in (ax - bx, ay - by', az - bz).

Definition Z3_add (a b : Z3) : Z3 :=
  let '(ax, ay, az) := a in let '(bx, by', bz) := b in (ax + bx, ay + by', az + bz).

Definition Z3_mul (a b : Z3) : Z3 :=
  let '(ax, ay, az) := a in let '(bx, by', bz) := b in (ax * bx, ay * by', az * bz).

Definition Z3_cross (a b : Z3) : Z3 :=
  let '(ax, ay, az) := a in let '(bx, by', bz) := b in
  (ay * bz - az * by', az * bx - ax * bz, ax * by' - ay * bx).

Definition Z3_dot (a b : Z3) : Z :=
  let '(ax, ay, az) := a in let '(bx, by', bz) := b in ax * bx + ay * by' + az * bz.

Definition Z3_x (a : Z3) : Z := a.1.1.

(** An integer stand-in for the engine's edge predicate: back-to-back
    triangles are active, coplanar ones are not, and otherwise the edge is
    active unless it is concave. *)
Definition demo_IsEdgeActive (n1 n2 d : Z3) : bool :=
  if bool_decide (Z3_cross n1 n2 = (0, 0, 0)) then Z3_dot n1 n2 <? 0
  else negb (Z3_dot (Z3_cross n1 n2) d <? 0).

(** The largest fraction: what the ray primitives return for a miss. *)
Definition demo_FLT_MAX : Z := 1000000.

(** A one-dimensional stand-in for the ray primitives: a ray runs along
    the x axis; a triangle is hit at the distance of its first vertex, a box
    at the distance of its lower corner. *)
Definition demo_RayTriangle (origin direction v0 v1 v2 : Z3) : Z :=
  if Z3_x origin <=? Z3_x v0 then Z3_x v0 - Z3_x origin else demo_FLT_MAX.

Definition demo_RayAABox (origin inv_direction : Z3) (box : Z3 * Z3) : Z :=
  if Z3_x origin <=? Z3_x box.2 then Z.max 0 (Z3_x box.1 - Z3_x origin) else demo_FLT_MAX.

Definition demo_box_contains (box : Z3 * Z3) (p : Z3) : bool :=
  let '(ax, ay, az) := box.1 in let '(bx, by', bz) := box.2 in let '(x, y, z) := p in
  (ax <=? x) && (x <=? bx) && (ay <=? y) && (y <=? by') && (az <=? z) && (z <=? bz).

Definition demo_box_overlap (a b : Z3 * Z3) : bool :=
  let '(ax, ay, az) := a.1 in let '(bx, by', bz) := a.2 in
  let '(cx, cy, cz) := b.1 in let '(dx, dy, dz) := b.2 in
  (ax <=? dx) && (cx <=? bx) && (ay <=? dy) && (cy <=? by') && (az <=? dz) && (cz <=? bz).

Definition demo_box_scale (s : Z3) (box : Z3 * Z3) : Z3 * Z3 :=
  let '(ax, ay, az) := Z3_mul s box.1 in let '(bx, by', bz) := Z3_mul s box.2 in
  ((Z.min ax bx, Z.min ay by', Z.min az bz), (Z.max ax bx, Z.max ay by', Z.max az bz)).

(** Integer vectors, scale-and-translate matrices and axis-aligned boxes. *)
Definition demo_geometry : Geometry := {|
  Float := Z;
  Float_lt := Z.ltb;
  Float_le := Z.leb;
  Float_zero := 0;
  Float3 := Z3;
  Float3_inhabited := populate (0, 0, 0);
  Vec3 := Z3;
  Vec3_load := id;
  Vec3_StoreFloat3 := id;
  Vec3_sub := Z3_sub;
  Vec3_Cross := Z3_cross;
  Vec3_Dot := Z3_dot;
  Plane := Z3;
  Plane_sFromPointsCCW v1 v2 v3 := Z3_cross (Z3_sub v2 v1) (Z3_sub v3 v1);
  Plane_GetNormal := id;
  IsEdgeActive := demo_IsEdgeActive;
  Vec3_GetY v := v.1.2;
  Vec3_sAxisY := (0, 1, 0);
  Vec3_scale f v := Z3_mul (f, f, f) v;
  Float_mul := Z.mul;
  Float_1_1 := 2;
  AABox := (Z3 * Z3)%type;
  AABox_Contains := demo_box_contains;
  AABox_GetSize box := Z3_sub box.2 box.1;
  RayInvDirection := Z3;
  RayInvDirection_Set := id;
  RayAABox := demo_RayAABox;
  RayTriangle := demo_RayTriangle;
  Quat := unit;
  Mat44 := (Z3 * Z3)%type;
  Mat44_sRotationTranslation _ p := ((1, 1, 1), p);
  Mat44_sInverseRotationTranslation _ p := ((1, 1, 1), Z3_sub (0, 0, 0) p);
  Mat44_sScale s := (s, (0, 0, 0));
  Mat44_mul m1 m2 := (Z3_mul m1.1 m2.1, Z3_add (Z3_mul m1.1 m2.2) m1.2);
  Mat44_transform m v := Z3_add (Z3_mul m.1 v) m.2;
  OrientedBox := (Z3 * Z3)%type;
  OrientedBox_new m box :=
    demo_box_scale (1, 1, 1) (Z3_add (Z3_mul m.1 box.1) m.2, Z3_add (Z3_mul m.1 box.2) m.2);
  AABox_Scale := demo_box_scale;
  AABox_VsBox := demo_box_overlap;
  ScaleHelpers_IsInsideOut s := let '(x, y, z) := s in x * y * z <? 0;
  cInitialEarlyOutFraction := demo_FLT_MAX;
  cShouldEarlyOutFraction := - demo_FLT_MAX
|}.

(** Materials and bodies named by numbers. *)
Definition demo_engine : Engine := {|
  PhysicsMaterial := nat;
  PhysicsMaterial_eq_dec := _;
  PhysicsMaterial_sDefault := 0%nat;
  BodyID := Z;
  CollectorContext := option Z;
  CollectorContext_null := None;
  sGetBodyID c := default (-1) c
|}.

(** A triangle as the demonstration builder encodes it: its three vertices
    and its flag word. *)
Definition demo_encode (inVertices : list Z3) (t : IndexedTriangle)
    : @EncodedTriangle demo_geometry :=
  mkEncodedTriangle (G := demo_geometry)
    (inVertices !!! Z.to_nat (mIdx_0 t)) (inVertices !!! Z.to_nat (mIdx_1 t))
    (inVertices !!! Z.to_nat (mIdx_2 t)) (mMaterialIndex t).

(** The bounding box of a list of points, and of a leaf. *)
Definition demo_bounds (points : list Z3) : Z3 * Z3 :=
  foldr (λ p box,
           let '(x, y, z) := p in
           let '(ax, ay, az) := box.1 in let '(bx, by', bz) := box.2 in
           ((Z.min ax x, Z.min ay y, Z.min az z), (Z.max bx x, Z.max by' y, Z.max bz z)))
        ((demo_FLT_MAX, demo_FLT_MAX, demo_FLT_MAX),
         (- demo_FLT_MAX, - demo_FLT_MAX, - demo_FLT_MAX)) points.

Definition demo_leaf_bounds (triangles : list (@EncodedTriangle demo_geometry)) : Z3 * Z3 :=
  demo_bounds (Unpack (G := demo_geometry) triangles).

(** The conversion of a builder for meshes of up to sixteen triangles: one
    leaf when four triangles suffice, otherwise one inner node over leaves of
    four. *)
Definition demo_Convert (inVertices : list Z3) (indexed_triangles : list IndexedTriangle)
    : string + @ByteBuffer demo_geometry :=
    let encoded := demo_encode inVertices <$> indexed_triangles in
    let leaf (i : nat) := take 4 (drop (4 * i) encoded) in
    let node (i : nat) : @Node demo_geometry :=
      if bool_decide (leaf i = []) then PaddingNode (G := demo_geometry)
      else TriangleBlock (G := demo_geometry) (Z.of_nat i) (leaf i) in
    if bool_decide (16 < length encoded)%nat then
      inl "too many triangles for the demonstration builder"%string
    else if bool_decide (length encoded ≤ 4)%nat then
      inr (mkByteBuffer (G := demo_geometry) (demo_leaf_bounds encoded)
             (TriangleBlock (G := demo_geometry) 0 encoded) 2)
    else
      inr (mkByteBuffer (G := demo_geometry) (demo_leaf_bounds encoded)
             (InnerNode (G := demo_geometry) (demo_leaf_bounds (leaf 0%nat)) (demo_leaf_bounds (leaf 1%nat))
                        (demo_leaf_bounds (leaf 2%nat)) (demo_leaf_bounds (leaf 3%nat))
                        (node 0%nat) (node 1%nat) (node 2%nat) (node 3%nat))
             2).

Definition demo_builder : @TreeBuilder demo_geometry :=
  @Build_TreeBuilder demo_geometry demo_Convert.

(** Two triangles over the unit square, once with and once without the
    shared diagonal duplicated in reverse winding; a degenerate triangle. *)
Definition demo_vertices : list Z3 := [(0, 0, 0); (1, 0, 0); (1, 1, 0); (0, 1, 0); (0, 0, 1)].
Definition demo_T012 : IndexedTriangle := mkIndexedTriangle 0 1 2 0.
Definition demo_T120 : IndexedTriangle := mkIndexedTriangle 1 2 0 0.
Definition demo_T023 : IndexedTriangle := mkIndexedTriangle 0 2 3 0.
Definition demo_T024 : IndexedTriangle := mkIndexedTriangle 0 2 4 1.
Definition demo_T001 : IndexedTriangle := mkIndexedTriangle 0 0 1 0.

(** The unit square split along its diagonal, without materials. *)
Definition demo_square : @MeshShapeSettings demo_geometry demo_engine :=
  @MeshShapeSettings_new demo_geometry demo_engine demo_vertices [demo_T012; demo_T023] [].

(** One triangle with a material table of 32 entries. *)
Definition demo_full_table : @MeshShapeSettings demo_geometry demo_engine :=
  @MeshShapeSettings_new demo_geometry demo_engine demo_vertices [demo_T012]
    (replicate 32 1%nat).

(** Three triangles around the edge [{0, 2}], with two materials. *)
Definition demo_fan : @MeshShapeSettings demo_geometry demo_engine :=
  @MeshShapeSettings_new demo_geometry demo_engine demo_vertices
    [demo_T012; demo_T023; demo_T024] [5%nat; 6%nat].

(** The shape the demonstration builder makes of [demo_fan]. *)
Definition demo_fan_shape : @MeshShape demo_geometry demo_engine :=
  match (@MeshShape_new demo_constants demo_geometry demo_engine demo_builder demo_fan).1 with
  | ResultValid shape => shape
  | ResultError _ =>
      mkMeshShape (mkByteBuffer (G := demo_geometry) ((0, 0, 0), (0, 0, 0)) PaddingNode 0) []
  end.

(** A tree written by hand: three leaves and a padding child under one
    inner node.  Its triangles stand at the x coordinates given. *)
Definition demo_triangle (x : Z) : @EncodedTriangle demo_geometry :=
  mkEncodedTriangle (G := demo_geometry) (x, 0, 0) (x + 1, 0, 0) (x, 1, 0) 0.

Definition demo_leaf_0 : list (@EncodedTriangle demo_geometry) := demo_triangle <$> [5; 7].
Definition demo_leaf_1 : list (@EncodedTriangle demo_geometry) :=
  demo_triangle <$> [1; 3; 2; 6].
Definition demo_leaf_3 : list (@EncodedTriangle demo_geometry) := demo_triangle <$> [9; 4; 8].

Definition demo_tree : @ByteBuffer demo_geometry :=
  mkByteBuffer (G := demo_geometry)
    (demo_leaf_bounds (demo_leaf_0 ++ demo_leaf_1 ++ demo_leaf_3))
    (InnerNode (G := demo_geometry)
       (demo_leaf_bounds demo_leaf_0) (demo_leaf_bounds demo_leaf_1)
       (demo_leaf_bounds []) (demo_leaf_bounds demo_leaf_3)
       (TriangleBlock (G := demo_geometry) 0 demo_leaf_0)
       (TriangleBlock (G := demo_geometry) 1 demo_leaf_1)
       (PaddingNode (G := demo_geometry))
       (TriangleBlock (G := demo_geometry) 3 demo_leaf_3))
    2.

Definition demo_tree_shape : @MeshShape demo_geometry demo_engine :=
  mkMeshShape demo_tree [].

(** A ray from the origin along the x axis, and a hit that has not met
    anything yet. *)
Definition demo_ray : @RayCast demo_geometry := mkRayCast (G := demo_geometry) (0, 0, 0) (1, 0, 0).

Definition demo_hit : @RayCastResult demo_geometry demo_engine :=
  mkRayCastResult (G := demo_geometry) (E := demo_engine) 7 demo_FLT_MAX
    (mkSubShapeID (Z.ones 32)).

(** A collector of [CollidePoint] that keeps the hits it is given. *)
Record PointRecorder : Type := mkPointRecorder {
  point_context : @CollectorContext demo_engine;
  point_hits : list (@CollidePointResult demo_engine)
}.

#[export] Instance PointRecorder_Collector
    : @CollisionCollector demo_geometry demo_engine (@CollidePointResult demo_engine)
        PointRecorder := {
  AddHit c inResult := mkPointRecorder (point_context c) (point_hits c ++ [inResult]);
  GetEarlyOutFraction c := demo_FLT_MAX;
  ShouldEarlyOut c := false;
  GetContext c := point_context c
}.


(** The hand-written tree with a table of two materials. *)
Definition demo_tree_materials : @MeshShape demo_geometry demo_engine :=
  @mkMeshShape demo_geometry demo_engine demo_tree [5%nat; 6%nat].

(** Two triangles of the hand-written tree: the third of block 1 and the
    second of block 3. *)
Definition demo_x12 : Z * Z * @EncodedTriangle demo_geometry := (1, 2, demo_triangle 2).
Definition demo_x31 : Z * Z * @EncodedTriangle demo_geometry := (3, 1, demo_triangle 4).

(** Normals are left at their length. *)
Definition demo_normalizer : @Normalizer demo_geometry :=
  @Build_Normalizer demo_geometry (λ v : Z3, v).

(** A box is the pair of its corners. *)
Definition demo_box_access : @BoxAccess demo_geometry :=
  @Build_BoxAccess demo_geometry (λ box : Z3 * Z3, box.1) (λ box : Z3 * Z3, box.2)
    (λ v : Z3, v.1.1) (λ v : Z3, v.2).

(** A shape object of 64 bytes, references of 8 bytes and 16 bytes per node
    of the tree. *)
Definition demo_layout : @Layout demo_geometry :=
  @Build_Layout demo_geometry 64 8
    (λ tree, 16 * Z.of_nat (node_size (G := demo_geometry) (mRoot tree))).

(** A stand-in for the convex-versus-triangles primitive: it records the
    active edges and the identifier of every triangle it is given, and wants
    out after [dc_limit] of them. *)
Record demo_collider : Type := mkDemoCollider {
  dc_scale : Z3;
  dc_box : Z3 * Z3;
  dc_limit : nat;
  dc_calls : list (Z * Z)
}.

Definition demo_convex_vs_triangles : @ConvexVsTriangles demo_geometry :=
  @Build_ConvexVsTriangles demo_geometry demo_collider
    (λ s _ _ _ edges id,
       mkDemoCollider (dc_scale s) (dc_box s) (dc_limit s)
         (dc_calls s ++ [(edges, mValue id)]))
    (λ s, bool_decide (dc_limit s ≤ length (dc_calls s))%nat)
    dc_scale dc_box.

(** A convex shape whose box reaches from x = 0 to x = 20, with a collector
    that takes up to five triangles. *)
Definition demo_convex : demo_collider :=
  mkDemoCollider (1, 1, 1) ((0, 0, 0), (20, 20, 20)) 5 [].

(** Centre and half extent of a box in integer arithmetic, and the box
    grown by an extent on every side. *)
Definition demo_shape_cast_geometry : @ShapeCastGeometry demo_geometry :=
  @Build_ShapeCastGeometry demo_geometry
    (λ box : Z3 * Z3,
       let '(ax, ay, az) := box.1 in let '(bx, by', bz) := box.2 in
       ((ax + bx) / 2, (ay + by') / 2, (az + bz) / 2))
    (λ box : Z3 * Z3,
       let '(ax, ay, az) := box.1 in let '(bx, by', bz) := box.2 in
       ((bx - ax) / 2, (by' - ay) / 2, (bz - az) / 2))
    (λ (extent : Z3) (box : Z3 * Z3), (Z3_sub box.1 extent, Z3_add box.2 extent)).

(** A stand-in for the convex cast primitive: it records the active edges
    and the identifier of every triangle it is given, keeps its early-out
    fraction, and wants out after [dcast_limit] triangles. *)
Record demo_caster : Type := mkDemoCaster {
  dcast_scale : Z3;
  dcast_fraction : Z;
  dcast_limit : nat;
  dcast_calls : list (Z * Z)
}.

Definition demo_convex_cast : @ConvexCast demo_geometry :=
  @Build_ConvexCast demo_geometry demo_caster
    (λ s _ _ _ edges id,
       mkDemoCaster (dcast_scale s) (dcast_fraction s) (dcast_limit s)
         (dcast_calls s ++ [(edges, mValue id)]))
    (λ s, bool_decide (dcast_limit s ≤ length (dcast_calls s))%nat)
    dcast_fraction dcast_scale.

(** A cast of a box of half extent 1 around the point (4, 0, 0) along the x
    axis, with the early-out fraction 3 and a collector that takes up to five
    triangles. *)
Definition demo_shape_cast : @ShapeCast demo_geometry :=
  mkShapeCast (G := demo_geometry) (1, 0, 0) ((3, -1, -1), (5, 1, 1)).

Definition demo_cast : demo_caster := mkDemoCaster (1, 1, 1) 3 5 [].

(** A collector of the ray cast that keeps the hits it is given and lowers
    its early-out fraction to the fraction of each: a closest-hit
    collector. *)
Record ClosestRecorder : Type := mkClosestRecorder {
  closest_fraction : Z;
  closest_context : @CollectorContext demo_engine;
  closest_hits : list (@RayCastResult demo_geometry demo_engine)
}.

#[export] Instance ClosestRecorder_Collector
    : @CollisionCollector demo_geometry demo_engine
        (@RayCastResult demo_geometry demo_engine) ClosestRecorder := {
  AddHit c inResult :=
    mkClosestRecorder (mFraction inResult) (closest_context c)
      (closest_hits c ++ [inResult]);
  GetEarlyOutFraction c := closest_fraction c;
  ShouldEarlyOut c := closest_fraction c <=? - demo_FLT_MAX;
  GetContext c := closest_context c
}.

Definition ClosestRecorder_new : ClosestRecorder :=
  mkClosestRecorder demo_FLT_MAX (Some 7) [].

(* ===================================================================== *)
(** * Part II: properties                                                  *)
(* ===================================================================== *)

Section MeshShapeProperties.
Context {K : Constants} {G : Geometry} {E : Engine} {B : TreeBuilder}.

Lemma to_int_small (x : Z) : 0 ≤ x < 2 ^ 31 → to_int x = x.
Proof.
  intros Hx. unfold to_int. rewrite Z.mod_small by lia.
  destruct (Z.ltb_spec x (2 ^ 31)); lia.
Qed.

(** ** The sanitizer *)

Lemma retain_last_seen (l : list IndexedTriangle) (c : Z * Z * Z) :
  c ∈ (retain_last l).2 ↔
  ∃ tri, tri ∈ l ∧ IsDegenerate tri = false ∧ canonical_triple tri = c.
Proof.
  induction l as [|x rest IH]; simpl.
  - split; [by intros ?%elem_of_empty|]. intros (tri & Hin & _). by apply elem_of_nil in Hin.
  - destruct (retain_last rest) as [kept seen] eqn:Hr; simpl in *.
    destruct (IsDegenerate x) eqn:Hdeg; simpl.
    + rewrite IH. split; intros (tri & Hin & Hnd & Hc).
      * exists tri. rewrite elem_of_cons. eauto.
      * apply elem_of_cons in Hin as [->|Hin]; [congruence|eauto].
    + case_bool_decide as Hmem; simpl.
      * rewrite IH. split; intros (tri & Hin & Hnd & Hc).
        -- exists tri. rewrite elem_of_cons. eauto.
        -- apply elem_of_cons in Hin as [->|Hin]; [|eauto].
           subst c. by apply IH.
      * rewrite elem_of_union, elem_of_singleton, IH.
        split.
        -- intros [->|(tri & Hin & Hnd & Hc)].
           ++ exists x. rewrite elem_of_cons. eauto.
           ++ exists tri. rewrite elem_of_cons. eauto.
        -- intros (tri & Hin & Hnd & Hc).
           apply elem_of_cons in Hin as [->|Hin]; [by left|right; eauto].
Qed.

Lemma Sanitize_loop_retain_last (post pre : list IndexedTriangle) :
  Sanitize_loop (length pre) (retain_last post).2 (pre ++ (retain_last post).1)
  = (retain_last (pre ++ post)).1.
Proof.
  revert post. induction pre as [|x pre IH] using rev_ind; intros post.
  - reflexivity.
  - rewrite length_app, Nat.add_comm. simpl.
    rewrite <- !app_assoc. simpl.
    rewrite list_lookup_middle by reflexivity.
    specialize (IH (x :: post)). simpl in IH.
    destruct (retain_last post) as [kept seen] eqn:Hr; simpl in *.
    destruct (IsDegenerate x); simpl in *.
    + rewrite <- IH. f_equal.
      rewrite delete_middle. reflexivity.
    + case_bool_decide; simpl in *.
      * rewrite <- IH. f_equal. rewrite delete_middle. reflexivity.
      * exact IH.
Qed.

Lemma Sanitize_retain_last (l : list IndexedTriangle) :
  Z.of_nat (length l) < 2 ^ 31 → Sanitize l = (retain_last l).1.
Proof.
  intros Hlen. unfold Sanitize.
  rewrite to_int_small by lia.
  replace (Z.to_nat (Z.of_nat (length l) - 1 + 1)) with (length l) by lia.
  pose proof (Sanitize_loop_retain_last [] l) as H. simpl in H.
  rewrite app_nil_r in H. exact H.
Qed.

Lemma retain_last_sublist (l : list IndexedTriangle) : sublist (retain_last l).1 l.
Proof.
  induction l as [|x rest IH]; simpl; [constructor|].
  destruct (retain_last rest) as [kept seen]; simpl in *.
  destruct (IsDegenerate x || bool_decide (canonical_triple x ∈ seen)); simpl.
  - by apply sublist_cons.
  - by apply sublist_skip.
Qed.

Lemma retain_last_nondegenerate (l : list IndexedTriangle) :
  Forall (λ tri, IsDegenerate tri = false) (retain_last l).1.
Proof.
  induction l as [|x rest IH]; simpl; [constructor|].
  destruct (retain_last rest) as [kept seen]; simpl in *.
  destruct (IsDegenerate x) eqn:Hdeg; simpl; [done|].
  case_bool_decide; simpl; [done|]. by constructor.
Qed.

Lemma retain_last_kept_seen (l : list IndexedTriangle) (tri : IndexedTriangle) :
  tri ∈ (retain_last l).1 → canonical_triple tri ∈ (retain_last l).2.
Proof.
  intros Hin. apply retain_last_seen. exists tri. split_and!; [|  |done].
  - eapply elem_of_sublist; [done|apply retain_last_sublist].
  - pose proof (retain_last_nondegenerate l) as Hall.
    rewrite Forall_forall in Hall. by apply Hall.
Qed.

Lemma retain_last_NoDup (l : list IndexedTriangle) :
  NoDup (canonical_triple <$> (retain_last l).1).
Proof.
  induction l as [|x rest IH]; simpl; [constructor|].
  pose proof (retain_last_kept_seen rest) as Hks.
  destruct (retain_last rest) as [kept seen]; simpl in *.
  destruct (IsDegenerate x) eqn:Hdeg; simpl; [done|].
  case_bool_decide as Hmem; simpl; [done|].
  constructor; [|done].
  intros (tri & Heq & Hin)%list_elem_of_fmap.
  apply Hmem. rewrite Heq. by apply Hks.
Qed.

Lemma last_occurrence_head (x : IndexedTriangle) (rest : list IndexedTriangle) :
  last_occurrence (x :: rest) 0 ↔
  IsDegenerate x = false ∧ canonical_triple x ∉ (retain_last rest).2.
Proof.
  unfold last_occurrence. split.
  - intros (tri & Hl & Hnd & Hlast). simpl in Hl. simplify_eq.
    split; [done|]. intros (tri' & Hin & Hnd' & Hc)%retain_last_seen.
    apply list_elem_of_lookup in Hin as [j Hj].
    apply (Hlast (S j) tri'); [lia|done|done|done].
  - intros [Hnd Hnotin]. exists x. split_and!; [done|done|].
    intros [|j] tri' Hlt Hj Hnd' Hc; [lia|]. simpl in Hj.
    apply Hnotin, retain_last_seen. exists tri'. split_and!; [|done|done].
    eapply list_elem_of_lookup_2; done.
Qed.

Lemma last_occurrence_tail (x : IndexedTriangle) (rest : list IndexedTriangle) (i : nat) :
  last_occurrence (x :: rest) (S i) ↔ last_occurrence rest i.
Proof.
  unfold last_occurrence. simpl. split.
  - intros (tri & Hl & Hnd & Hlast). exists tri. split_and!; [done|done|].
    intros j tri' Hlt Hj. apply (Hlast (S j)); [lia|done].
  - intros (tri & Hl & Hnd & Hlast). exists tri. split_and!; [done|done|].
    intros [|j] tri' Hlt Hj; [lia|]. apply (Hlast j); [lia|done].
Qed.

Lemma retain_last_positions (l : list IndexedTriangle) :
  ∃ kept : list nat,
    StronglySorted lt kept ∧
    Forall2 (λ i tri, l !! i = Some tri) kept (retain_last l).1 ∧
    ∀ i, i ∈ kept ↔ last_occurrence l i.
Proof.
  induction l as [|x rest (kept & Hsorted & Hall & Hiff)].
  - exists []. split_and!; [constructor|constructor|].
    intros i. split; [by intros ?%elem_of_nil|].
    by intros (tri & Hl & _).
  - assert (Hshift : StronglySorted lt (S <$> kept)).
    { clear -Hsorted. induction Hsorted as [|a k Hs IH Hfa]; simpl; constructor; [done|].
      rewrite Forall_fmap. eapply Forall_impl; [exact Hfa|]. simpl. lia. }
    assert (Htail : ∀ i, i ∈ S <$> kept ↔ ∃ j, i = S j ∧ last_occurrence rest j).
    { intros i. rewrite list_elem_of_fmap. by setoid_rewrite Hiff. }
    pose proof (last_occurrence_head x rest) as Hhead.
    simpl. destruct (retain_last rest) as [ks seen] eqn:Hr; simpl in *.
    destruct (IsDegenerate x || bool_decide (canonical_triple x ∈ seen)) eqn:Hskip; simpl.
    + exists (S <$> kept). split_and!; [done| |].
      * rewrite Forall2_fmap_l. done.
      * intros [|i].
        -- rewrite Htail, Hhead. split; [by intros (j & ? & _)|].
           intros [Hnd Hnotin]. rewrite Hnd in Hskip. simpl in Hskip.
           by apply bool_decide_eq_true in Hskip.
        -- rewrite Htail, last_occurrence_tail. split; [by intros (j & [= ->] & ?)|eauto].
    + apply orb_false_iff in Hskip as [Hnd Hnotin].
      apply bool_decide_eq_false in Hnotin.
      exists (0%nat :: (S <$> kept)). split_and!.
      * constructor; [done|]. rewrite Forall_fmap. apply Forall_forall. simpl. lia.
      * constructor; [done|]. rewrite Forall2_fmap_l. done.
      * intros [|i]; rewrite elem_of_cons.
        -- rewrite Hhead. split; [done|by left].
        -- rewrite Htail, last_occurrence_tail.
           split; [intros [?|(j & [= ->] & ?)]; done|eauto].
Qed.

(** C1 (as amended): on a triangle list whose size fits an [int], [Sanitize]
    returns a subsequence of its input without degenerate triangles and
    without two triangles of the same canonical triple, and the survivor of
    each canonical triple is its LAST non-degenerate occurrence in the input
    order: the positions kept are exactly the positions satisfying
    [last_occurrence]. *)
Theorem Sanitize_keeps_last_occurrence (l : list IndexedTriangle) :
  Z.of_nat (length l) < 2 ^ 31 →
  sublist (Sanitize l) l ∧
  Forall (λ tri, IsDegenerate tri = false) (Sanitize l) ∧
  NoDup (canonical_triple <$> Sanitize l) ∧
  ∃ kept : list nat,
    StronglySorted lt kept ∧
    Forall2 (λ i tri, l !! i = Some tri) kept (Sanitize l) ∧
    ∀ i, i ∈ kept ↔ last_occurrence l i.
Proof.
  intros Hlen. rewrite (Sanitize_retain_last l Hlen).
  split_and!.
  - apply retain_last_sublist.
  - apply retain_last_nondegenerate.
  - apply retain_last_NoDup.
  - apply retain_last_positions.
Qed.

(** ** Sub-shape identifiers *)

Lemma testbit_small (v w j : Z) : 0 ≤ v < 2 ^ w → w ≤ j → Z.testbit v j = false.
Proof.
  intros Hv Hj. destruct (Z.ltb_spec w 0) as [Hneg|Hw].
  - rewrite Z.pow_neg_r in Hv by lia. lia.
  - rewrite <- (Z.mod_small v (2 ^ w)) by lia.
    apply Z.mod_pow2_bits_high. lia.
Qed.

Lemma testbit_cEmpty (i : Z) : 0 < MaxBits → Z.testbit cEmpty i = (0 <=? i) && (i <? MaxBits).
Proof. intros H. unfold cEmpty. apply Z.testbit_ones. lia. Qed.

Lemma PopID_value_bits (id : SubShapeID) (n i : Z) :
  0 ≤ n → Z.testbit (PopID id n).1 i = Z.testbit (mValue id) i && (0 <=? i) && (i <? n).
Proof.
  intros Hn. unfold PopID. simpl.
  rewrite Z.land_spec, Z.testbit_ones by lia. by rewrite andb_assoc.
Qed.

Lemma PopID_remainder_bits (id : SubShapeID) (n i : Z) :
  0 < MaxBits → 0 ≤ n ≤ MaxBits → 0 ≤ i →
  Z.testbit (mValue (PopID id n).2) i =
  Z.testbit (mValue id) (i + n) || ((MaxBits - n <=? i) && (i <? MaxBits)).
Proof.
  intros HM Hn Hi. unfold PopID. simpl.
  rewrite Z.lor_spec, Z.land_spec, Z.shiftr_spec, Z.shiftl_spec by lia.
  rewrite testbit_cEmpty, Z.testbit_ones by lia.
  f_equal.
  destruct (Z.leb_spec 0 (i - (MaxBits - n))), (Z.leb_spec (MaxBits - n) i),
    (Z.ltb_spec (i - (MaxBits - n)) MaxBits), (Z.ltb_spec i MaxBits),
    (Z.leb_spec 0 i); simpl; try reflexivity; lia.
Qed.

Lemma PushID_bits (c : SubShapeIDCreator) (v w i : Z) :
  0 < MaxBits → 0 ≤ mCurrentBit c → 0 ≤ w → 0 ≤ v < 2 ^ w → 0 ≤ i →
  Z.testbit (mValue (mID (PushID c v w))) i =
  if (mCurrentBit c <=? i) && (i <? mCurrentBit c + w)
  then Z.testbit v (i - mCurrentBit c) && (i <? MaxBits)
  else Z.testbit (mValue (mID c)) i.
Proof.
  intros HM Hc Hw Hv Hi. unfold PushID. simpl.
  rewrite Z.lor_spec, Z.ldiff_spec, Z.land_spec, !Z.shiftl_spec, !Z.testbit_ones by lia.
  destruct (Z.leb_spec (mCurrentBit c) i), (Z.ltb_spec i (mCurrentBit c + w)),
    (Z.leb_spec 0 (i - mCurrentBit c)), (Z.ltb_spec (i - mCurrentBit c) w),
    (Z.leb_spec 0 i), (Z.ltb_spec i MaxBits); simpl; try lia;
    rewrite ?andb_true_r, ?andb_false_r, ?orb_false_r; try reflexivity.
  all: first [rewrite (testbit_small v w) by lia | rewrite (Z.testbit_neg_r v) by lia];
    by rewrite orb_false_r.
Qed.

Lemma PushID_wf (c : SubShapeIDCreator) (v w : Z) :
  0 < MaxBits → 0 ≤ w → 0 ≤ v < 2 ^ w → creator_wf c → creator_wf (PushID c v w).
Proof.
  intros HM Hw Hv [Hc Hhigh]. split; [simpl; lia|].
  intros i Hi. simpl in Hi.
  rewrite PushID_bits by lia.
  destruct (Z.leb_spec (mCurrentBit c) i), (Z.ltb_spec i (mCurrentBit c + w));
    simpl; try lia.
  apply Hhigh. lia.
Qed.

Lemma SubShapeIDCreator_new_wf : 0 < MaxBits → creator_wf SubShapeIDCreator_new.
Proof.
  intros HM. split; [simpl; lia|]. intros i Hi. simpl in *.
  rewrite testbit_cEmpty by lia. destruct (Z.leb_spec 0 i); [done|lia].
Qed.

(** Pushing [(b, B)] then [(t, T)] at the cursor of any well-formed creator,
    popping what lies below the cursor and then [B] and [T] bits returns [b],
    then [t], and leaves the empty identifier. *)
Lemma PushID_PopID_roundtrip (c : SubShapeIDCreator) (b t bbits tbits : Z) :
  0 < MaxBits → creator_wf c →
  0 ≤ bbits → 0 ≤ tbits → mCurrentBit c + bbits + tbits ≤ MaxBits →
  0 ≤ b < 2 ^ bbits → 0 ≤ t < 2 ^ tbits →
  let id := GetID (PushID (PushID c b bbits) t tbits) in
  let r0 := (PopID id (mCurrentBit c)).2 in
  (PopID r0 bbits).1 = b ∧
  (PopID (PopID r0 bbits).2 tbits).1 = t ∧
  (PopID (PopID r0 bbits).2 tbits).2 = SubShapeID_empty.
Proof.
  intros HM [Hc Hhigh] Hb Ht Hfit Hbv Htv id r0.
  assert (Hid : ∀ i, 0 ≤ i → Z.testbit (mValue id) (i + mCurrentBit c) =
            if i <? bbits then Z.testbit b i
            else if i <? bbits + tbits then Z.testbit t (i - bbits)
            else (i + mCurrentBit c <? MaxBits)).
  { intros i Hi. unfold id, GetID.
    set (c1 := PushID c b bbits).
    assert (Hc1 : mCurrentBit c1 = mCurrentBit c + bbits) by reflexivity.
    rewrite (PushID_bits c1) by lia. rewrite Hc1. unfold c1.
    rewrite PushID_bits by lia.
    destruct (Z.leb_spec (mCurrentBit c + bbits) (i + mCurrentBit c)),
      (Z.ltb_spec (i + mCurrentBit c) (mCurrentBit c + bbits + tbits)),
      (Z.leb_spec (mCurrentBit c) (i + mCurrentBit c)),
      (Z.ltb_spec (i + mCurrentBit c) (mCurrentBit c + bbits)),
      (Z.ltb_spec i bbits), (Z.ltb_spec i (bbits + tbits)),
      (Z.ltb_spec (i + mCurrentBit c) MaxBits); simpl; try lia;
      rewrite ?andb_true_r; try (f_equal; lia).
    all: rewrite Hhigh by lia;
      destruct (Z.ltb_spec (i + mCurrentBit c) MaxBits); [reflexivity || lia|reflexivity || lia]. }
  assert (Hr0 : ∀ i, 0 ≤ i → Z.testbit (mValue r0) i =
            if i <? bbits then Z.testbit b i
            else if i <? bbits + tbits then Z.testbit t (i - bbits)
            else (i <? MaxBits)).
  { intros i Hi. unfold r0. rewrite PopID_remainder_bits by lia.
    rewrite Hid by lia.
    destruct (Z.ltb_spec i bbits), (Z.ltb_spec i (bbits + tbits)),
      (Z.ltb_spec (i + mCurrentBit c) MaxBits), (Z.ltb_spec i MaxBits),
      (Z.leb_spec (MaxBits - mCurrentBit c) i); simpl; try lia;
      rewrite ?orb_false_r; reflexivity. }
  assert (Hr1 : ∀ i, 0 ≤ i → Z.testbit (mValue (PopID r0 bbits).2) i =
            if i <? tbits then Z.testbit t i else (i <? MaxBits)).
  { intros i Hi. rewrite PopID_remainder_bits by lia. rewrite Hr0 by lia.
    destruct (Z.ltb_spec (i + bbits) bbits), (Z.ltb_spec (i + bbits) (bbits + tbits)),
      (Z.ltb_spec (i + bbits) MaxBits), (Z.ltb_spec i tbits), (Z.ltb_spec i MaxBits),
      (Z.leb_spec (MaxBits - bbits) i); simpl; try lia;
      rewrite ?orb_false_r; try reflexivity.
    f_equal. lia. }
  split_and!.
  - apply Z.bits_inj'. intros i Hi.
    rewrite PopID_value_bits, Hr0 by lia.
    destruct (Z.ltb_spec i bbits), (Z.leb_spec 0 i); simpl; try lia.
    + by rewrite !andb_true_r.
    + rewrite (testbit_small b bbits) by lia. by rewrite andb_false_r.
  - apply Z.bits_inj'. intros i Hi.
    rewrite PopID_value_bits, Hr1 by lia.
    destruct (Z.ltb_spec i tbits), (Z.leb_spec 0 i); simpl; try lia.
    + by rewrite !andb_true_r.
    + rewrite (testbit_small t tbits) by lia. by rewrite andb_false_r.
  - unfold SubShapeID_empty.
    destruct (PopID (PopID r0 bbits).2 tbits).2 as [v] eqn:Hv.
    f_equal. apply Z.bits_inj'. intros i Hi.
    change v with (mValue (mkSubShapeID v)). rewrite <- Hv.
    rewrite PopID_remainder_bits, Hr1, testbit_cEmpty by lia.
    destruct (Z.ltb_spec (i + tbits) tbits), (Z.ltb_spec (i + tbits) MaxBits),
      (Z.ltb_spec i MaxBits), (Z.leb_spec (MaxBits - tbits) i), (Z.leb_spec 0 i);
      simpl; try lia; reflexivity.
Qed.

Lemma PopID_zero (id : SubShapeID) : 0 < MaxBits → (PopID id 0).2 = id.
Proof.
  intros HM. destruct id as [v]. unfold PopID. simpl. f_equal.
  rewrite Z.shiftr_0_r, Z.sub_0_r.
  replace (Z.land (Z.shiftl cEmpty MaxBits) (Z.ones MaxBits)) with 0; [apply Z.lor_0_r|].
  symmetry. apply Z.bits_inj'. intros i Hi.
  rewrite Z.land_spec, Z.shiftl_spec, Z.testbit_ones, testbit_cEmpty, Z.bits_0 by lia.
  destruct (Z.leb_spec 0 (i - MaxBits)), (Z.ltb_spec i MaxBits); simpl;
    rewrite ?andb_false_r; try reflexivity; lia.
Qed.

(** C5: the identifier obtained by pushing a block id [b] on
    [sTriangleBlockIDBits] bits and then a triangle index [t] on
    [NumTriangleBits] bits pops back as [b], then [t], then the empty
    remainder, and [DecodeSubShapeID] performs exactly these two pops: it
    returns the block of id [b], the index [t], and finds its invariant
    (empty remainder) satisfied. *)
Theorem DecodeSubShapeID_roundtrip (this : MeshShape) (b t : Z) :
  let bbits := sTriangleBlockIDBits (mTree this) in
  0 < MaxBits → 0 ≤ bbits → 0 ≤ NumTriangleBits →
  bbits + NumTriangleBits ≤ MaxBits →
  0 ≤ b < 2 ^ bbits → 0 ≤ t < 2 ^ NumTriangleBits →
  let id := GetID (PushID (PushID SubShapeIDCreator_new b bbits) t NumTriangleBits) in
  (PopID id bbits).1 = b ∧
  (PopID (PopID id bbits).2 NumTriangleBits).1 = t ∧
  IsEmpty (PopID (PopID id bbits).2 NumTriangleBits).2 = true ∧
  DecodeSubShapeID this id
    = (sGetTriangleBlockStart (mTree this) b, t, [ReadTriangleBlock b]).
Proof.
  intros bbits HM Hb Ht Hfit Hbv Htv id.
  pose proof (PushID_PopID_roundtrip SubShapeIDCreator_new b t bbits NumTriangleBits HM
                (SubShapeIDCreator_new_wf HM) Hb Ht) as Hrt.
  change (mCurrentBit SubShapeIDCreator_new) with 0 in Hrt.
  specialize (Hrt ltac:(lia) Hbv Htv). cbv zeta in Hrt.
  rewrite PopID_zero in Hrt by done. fold id in Hrt.
  destruct Hrt as (H1 & H2 & H3).
  assert (Hempty : IsEmpty (PopID (PopID id bbits).2 NumTriangleBits).2 = true).
  { rewrite H3. unfold IsEmpty, SubShapeID_empty. simpl. apply Z.eqb_refl. }
  split_and!; [done|done|done|].
  unfold DecodeSubShapeID. fold bbits.
  destruct (PopID id bbits) as [b' r1] eqn:Hp1. cbn [fst snd] in *.
  destruct (PopID r1 NumTriangleBits) as [t' r2] eqn:Hp2. cbn [fst snd] in *.
  subst b' t'. by rewrite Hempty.
Qed.

(** The same round trip under a parent's cursor: the mesh queries push onto
    the creator they are given, and the decoding sees what is left once the
    parents have popped their own bits. *)
Lemma DecodeSubShapeID_roundtrip_nested (this : MeshShape) (c : SubShapeIDCreator) (b t : Z) :
  let bbits := sTriangleBlockIDBits (mTree this) in
  0 < MaxBits → creator_wf c → 0 ≤ bbits → 0 ≤ NumTriangleBits →
  mCurrentBit c + bbits + NumTriangleBits ≤ MaxBits →
  0 ≤ b < 2 ^ bbits → 0 ≤ t < 2 ^ NumTriangleBits →
  let id := GetID (PushID (PushID c b bbits) t NumTriangleBits) in
  DecodeSubShapeID this (PopID id (mCurrentBit c)).2
    = (sGetTriangleBlockStart (mTree this) b, t, [ReadTriangleBlock b]).
Proof.
  intros bbits HM Hwf Hb Ht Hfit Hbv Htv id.
  destruct (PushID_PopID_roundtrip c b t bbits NumTriangleBits HM Hwf Hb Ht Hfit Hbv Htv)
    as (H1 & H2 & H3).
  fold id in H1, H2, H3.
  unfold DecodeSubShapeID. fold bbits.
  destruct (PopID (PopID id (mCurrentBit c)).2 bbits) as [b' r1] eqn:Hp1. cbn [fst snd] in *.
  destruct (PopID r1 NumTriangleBits) as [t' r2] eqn:Hp2. cbn [fst snd] in *.
  subst b' t' r2. unfold IsEmpty, SubShapeID_empty. simpl. by rewrite Z.eqb_refl.
Qed.

(** ** Material lookup *)

(** The decoded triangle of a well-formed identifier: the material is the
    table entry selected by the low bits of that triangle's flags. *)
Lemma GetMaterial_of_triangle (this : MeshShape) (b t : Z)
    (block : list EncodedTriangle) (tri : EncodedTriangle) :
  let bbits := sTriangleBlockIDBits (mTree this) in
  0 < MaxBits → 0 ≤ bbits → 0 ≤ NumTriangleBits →
  bbits + NumTriangleBits ≤ MaxBits →
  0 ≤ b < 2 ^ bbits → 0 ≤ t < 2 ^ NumTriangleBits →
  mMaterials this ≠ [] →
  sGetTriangleBlockStart (mTree this) b = Some block →
  block !! Z.to_nat t = Some tri →
  GetMaterial this (GetID (PushID (PushID SubShapeIDCreator_new b bbits) t NumTriangleBits))
  = (mMaterials this !! Z.to_nat (Z.land (tri_flags tri) FLAGS_MATERIAL_MASK),
     [ReadTriangleBlock b; ReadTriangleFlags t]).
Proof.
  intros bbits HM Hb Ht Hfit Hbv Htv Hne Hblock Htri.
  pose proof (DecodeSubShapeID_roundtrip_nested this SubShapeIDCreator_new b t HM
                (SubShapeIDCreator_new_wf HM) Hb Ht) as Hdec.
  change (mCurrentBit SubShapeIDCreator_new) with 0 in Hdec.
  specialize (Hdec ltac:(fold bbits; lia) Hbv Htv). cbv zeta in Hdec.
  rewrite PopID_zero in Hdec by done. fold bbits in Hdec.
  unfold GetMaterial. rewrite bool_decide_eq_false_2 by done.
  rewrite Hdec, Hblock. simpl. by rewrite Htri.
Qed.

(** C10: with an empty material table [GetMaterial] returns the default
    material for every sub-shape identifier, well-formed or not, and touches
    neither the identifier nor the tree (no event).  With a non-empty table
    it decodes the identifier and returns the table entry at
    [flags & FLAGS_MATERIAL_MASK], where [flags] are those of the decoded
    triangle; for the identifier of the triangle at index [t] of the block
    [b] of the tree this is the entry selected by the flags of that very
    triangle, after one read of the block and one of the flags. *)
Theorem GetMaterial_spec (this : MeshShape) (inSubShapeID : SubShapeID) :
  (mMaterials this = [] →
     GetMaterial this inSubShapeID = (Some PhysicsMaterial_sDefault, [])) ∧
  (mMaterials this ≠ [] →
     (∀ block_start triangle_idx events,
        DecodeSubShapeID this inSubShapeID = (block_start, triangle_idx, events) →
        GetMaterial this inSubShapeID
        = (flags ← sGetFlags block_start triangle_idx;
           mMaterials this !! Z.to_nat (Z.land flags FLAGS_MATERIAL_MASK),
           events ++ [ReadTriangleFlags triangle_idx])) ∧
     (∀ (b t : Z) (block : list EncodedTriangle) (tri : EncodedTriangle),
        let bbits := sTriangleBlockIDBits (mTree this) in
        0 < MaxBits → 0 ≤ bbits → 0 ≤ NumTriangleBits →
        bbits + NumTriangleBits ≤ MaxBits →
        0 ≤ b < 2 ^ bbits → 0 ≤ t < 2 ^ NumTriangleBits →
        sGetTriangleBlockStart (mTree this) b = Some block →
        block !! Z.to_nat t = Some tri →
        inSubShapeID
        = GetID (PushID (PushID SubShapeIDCreator_new b bbits) t NumTriangleBits) →
        GetMaterial this inSubShapeID
        = (mMaterials this !! Z.to_nat (Z.land (tri_flags tri) FLAGS_MATERIAL_MASK),
           [ReadTriangleBlock b; ReadTriangleFlags t]))).
Proof.
  split.
  - intros Hempty. unfold GetMaterial. by rewrite Hempty, bool_decide_eq_true_2.
  - intros Hne. split.
    + intros block_start triangle_idx events Hdec. unfold GetMaterial.
      rewrite bool_decide_eq_false_2 by done. by rewrite Hdec.
    + intros b t block tri bbits HM Hb Ht Hfit Hbv Htv Hblock Htri ->.
      by apply (GetMaterial_of_triangle this b t block tri).
Qed.

(** ** Edges of indexed triangles *)

Lemma to_int_inj (x y : Z) :
  0 ≤ x < 2 ^ 32 → 0 ≤ y < 2 ^ 32 → to_int x = to_int y → x = y.
Proof.
  unfold to_int. intros Hx Hy. rewrite !Z.mod_small by lia.
  destruct (Z.ltb_spec x (2 ^ 31)), (Z.ltb_spec y (2 ^ 31)); lia.
Qed.

Lemma Edge_new_eq (a b c d : Z) :
  0 ≤ a < 2 ^ 32 → 0 ≤ b < 2 ^ 32 → 0 ≤ c < 2 ^ 32 → 0 ≤ d < 2 ^ 32 →
  Edge_new a b = Edge_new c d ↔ (a = c ∧ b = d) ∨ (a = d ∧ b = c).
Proof.
  intros Ha Hb Hc Hd. unfold Edge_new. split.
  - intros [= Hmin Hmax].
    assert (Hcases : (to_int a = to_int c ∧ to_int b = to_int d) ∨
                     (to_int a = to_int d ∧ to_int b = to_int c)) by lia.
    destruct Hcases as [[H1 H2]|[H1 H2]]; [left|right];
      split; apply to_int_inj; assumption.
  - intros [[-> ->]|[-> ->]]; [reflexivity|].
    by rewrite Z.min_comm, Z.max_comm.
Qed.

Lemma mIdx_cases (t : IndexedTriangle) (p : Z) :
  0 ≤ p ≤ 2 →
  (p = 0 ∧ mIdx t p = mIdx_0 t ∧ mIdx t ((p + 1) mod 3) = mIdx_1 t
         ∧ mIdx t ((p + 2) mod 3) = mIdx_2 t) ∨
  (p = 1 ∧ mIdx t p = mIdx_1 t ∧ mIdx t ((p + 1) mod 3) = mIdx_2 t
         ∧ mIdx t ((p + 2) mod 3) = mIdx_0 t) ∨
  (p = 2 ∧ mIdx t p = mIdx_2 t ∧ mIdx t ((p + 1) mod 3) = mIdx_0 t
         ∧ mIdx t ((p + 2) mod 3) = mIdx_1 t).
Proof.
  intros Hp. assert (p = 0 ∨ p = 1 ∨ p = 2) as [-> | [-> | ->]] by lia;
    [left|right; left|right; right]; done.
Qed.

Lemma mIdx_typed (t : IndexedTriangle) (p : Z) :
  IndexedTriangle_typed t → 0 ≤ mIdx t p < 2 ^ 32.
Proof.
  intros (H0 & H1 & H2 & _). unfold mIdx.
  destruct (p =? 0); [done|]. by destruct (p =? 1).
Qed.

Lemma IsDegenerate_false (t : IndexedTriangle) :
  IsDegenerate t = false ↔
  mIdx_0 t ≠ mIdx_1 t ∧ mIdx_1 t ≠ mIdx_2 t ∧ mIdx_2 t ≠ mIdx_0 t.
Proof.
  unfold IsDegenerate. rewrite !orb_false_iff, !Z.eqb_neq. tauto.
Qed.

Lemma triangle_edge_has_edge_at (t : IndexedTriangle) (a b p : Z) :
  IndexedTriangle_typed t → 0 ≤ a < 2 ^ 32 → 0 ≤ b < 2 ^ 32 →
  triangle_edge t p = Edge_new a b ↔ has_edge_at t a b p = true.
Proof.
  intros Ht Ha Hb. unfold triangle_edge, has_edge_at.
  rewrite Edge_new_eq by (try apply mIdx_typed; assumption).
  rewrite orb_true_iff, !andb_true_iff, !Z.eqb_eq. tauto.
Qed.

Lemma triangle_edge_inj (t : IndexedTriangle) (p q : Z) :
  IndexedTriangle_typed t → IsDegenerate t = false →
  0 ≤ p ≤ 2 → 0 ≤ q ≤ 2 → triangle_edge t p = triangle_edge t q → p = q.
Proof.
  intros Ht Hnd%IsDegenerate_false Hp Hq. unfold triangle_edge.
  rewrite Edge_new_eq by (apply mIdx_typed; assumption).
  destruct (mIdx_cases t p Hp) as [(-> & -> & -> & _)|[(-> & -> & -> & _)|(-> & -> & -> & _)]],
    (mIdx_cases t q Hq) as [(-> & -> & -> & _)|[(-> & -> & -> & _)|(-> & -> & -> & _)]];
    intros; try reflexivity; exfalso; intuition congruence.
Qed.

Lemma triangle_edge_same_indices (t t' : IndexedTriangle) (p : Z) :
  same_indices t t' → triangle_edge t p = triangle_edge t' p.
Proof.
  intros (H0 & H1 & H2). unfold triangle_edge, mIdx. by rewrite H0, H1, H2.
Qed.

Lemma GetIndexInTriangle_same_indices (e : Edge) (t t' : IndexedTriangle) :
  same_indices t t' → GetIndexInTriangle e t = GetIndexInTriangle e t'.
Proof.
  intros Hs. unfold GetIndexInTriangle.
  by rewrite !(triangle_edge_same_indices t t' _ Hs).
Qed.

Lemma GetIndexInTriangle_edge (t : IndexedTriangle) (p : Z) :
  IndexedTriangle_typed t → IsDegenerate t = false → 0 ≤ p ≤ 2 →
  GetIndexInTriangle (triangle_edge t p) t = p.
Proof.
  intros Ht Hnd Hp. unfold GetIndexInTriangle.
  repeat case_bool_decide;
    try (match goal with H : triangle_edge t p = triangle_edge t ?q |- _ =>
           apply (triangle_edge_inj t p q Ht Hnd Hp) in H; [lia|lia] end).
  assert (p = 0 ∨ p = 1 ∨ p = 2) as [-> | [-> | ->]] by lia; congruence.
Qed.

Lemma GetIndexInTriangle_asserts_edge (t : IndexedTriangle) (p : Z) :
  IndexedTriangle_typed t → IsDegenerate t = false → 0 ≤ p ≤ 2 →
  GetIndexInTriangle_asserts (triangle_edge t p) t = [].
Proof.
  intros Ht Hnd Hp. unfold GetIndexInTriangle_asserts.
  rewrite GetIndexInTriangle_edge by done.
  rewrite bool_decide_eq_false_2; [done|]. unfold uint32.
  change ((-1) mod 2 ^ 32) with 4294967295. lia.
Qed.

(** ** The edge map *)

Lemma push_back_lookup (m : gmap (Z * Z) (list nat)) (e' e : Edge) (idx : nat) :
  default [] (<[ e' := default [] (m !! e') ++ [idx] ]> m !! e)
  = default [] (m !! e) ++ (if bool_decide (e' = e) then [idx] else []).
Proof.
  case_bool_decide as He.
  - subst e'. by rewrite lookup_insert_eq.
  - rewrite lookup_insert_ne by done. by rewrite app_nil_r.
Qed.

Lemma push_back_is_Some (m : gmap (Z * Z) (list nat)) (e' e : Edge) (l : list nat) :
  is_Some (<[ e' := l ]> m !! e) ↔ is_Some (m !! e) ∨ e' = e.
Proof.
  destruct (decide (e' = e)) as [->|Hne].
  - rewrite lookup_insert_eq. split; [by right|by eauto].
  - rewrite lookup_insert_ne by done. split; [by left|by intros [?|?]].
Qed.

Lemma push_triangle_edges_lookup (idx : nat) (t : IndexedTriangle)
    (m : gmap (Z * Z) (list nat)) (e : Edge) :
  default [] (push_triangle_edges idx t m !! e)
  = default [] (m !! e) ++ edge_occurrences idx [t] e.
Proof.
  unfold push_triangle_edges. simpl.
  rewrite !push_back_lookup. rewrite app_nil_r, <- !app_assoc. reflexivity.
Qed.

Lemma push_triangle_edges_is_Some (idx : nat) (t : IndexedTriangle)
    (m : gmap (Z * Z) (list nat)) (e : Edge) :
  is_Some (push_triangle_edges idx t m !! e)
  ↔ is_Some (m !! e) ∨ edge_occurrences idx [t] e ≠ [].
Proof.
  unfold push_triangle_edges. simpl. rewrite !push_back_is_Some.
  repeat case_bool_decide; simpl; split; intros H';
    repeat (destruct H' as [H'|H']); try (by eauto); try done.
  all: by left.
Qed.

Lemma edge_occurrences_cons (idx : nat) (t : IndexedTriangle)
    (rest : list IndexedTriangle) (e : Edge) :
  edge_occurrences idx (t :: rest) e
  = edge_occurrences idx [t] e ++ edge_occurrences (S idx) rest e.
Proof. simpl. rewrite app_nil_r, <- !app_assoc. reflexivity. Qed.

Lemma build_edge_to_triangle_lookup (l : list IndexedTriangle) (idx : nat)
    (m : gmap (Z * Z) (list nat)) (e : Edge) :
  default [] (build_edge_to_triangle idx l m !! e)
  = default [] (m !! e) ++ edge_occurrences idx l e.
Proof.
  revert idx m. induction l as [|t rest IH]; intros idx m.
  - simpl. by rewrite app_nil_r.
  - rewrite edge_occurrences_cons. cbn [build_edge_to_triangle].
    rewrite IH, push_triangle_edges_lookup, <- app_assoc. reflexivity.
Qed.

Lemma build_edge_to_triangle_is_Some (l : list IndexedTriangle) (idx : nat)
    (m : gmap (Z * Z) (list nat)) (e : Edge) :
  is_Some (build_edge_to_triangle idx l m !! e)
  ↔ is_Some (m !! e) ∨ edge_occurrences idx l e ≠ [].
Proof.
  revert idx m. induction l as [|t rest IH]; intros idx m.
  - simpl. split; [by left|by intros [?|?]].
  - rewrite edge_occurrences_cons. cbn [build_edge_to_triangle].
    rewrite IH, push_triangle_edges_is_Some.
    split.
    + intros [[?|Hne]|Hne]; [by left| |].
      * right. intros [Hnil _]%app_eq_nil. done.
      * right. intros [_ Hnil]%app_eq_nil. done.
    + intros [?|Hne]; [by left; left|].
      destruct (edge_occurrences idx [t] e) eqn:Ho; [by right|by left; right].
Qed.

(** The entries of the finished map: an edge is a key exactly when some
    triangle has it, and its list is the list of its occurrences. *)
Lemma edge_to_triangle_entry (l : list IndexedTriangle) (e : Edge) (tris : list nat) :
  build_edge_to_triangle 0 l ∅ !! e = Some tris
  ↔ tris = edge_occurrences 0 l e ∧ tris ≠ [].
Proof.
  pose proof (build_edge_to_triangle_lookup l 0 ∅ e) as Hl.
  pose proof (build_edge_to_triangle_is_Some l 0 ∅ e) as Hs.
  rewrite lookup_empty in Hl, Hs. simpl in Hl.
  split.
  - intros Heq. rewrite Heq in Hl, Hs. simpl in Hl. subst tris.
    split; [done|]. destruct Hs as [[[]%is_Some_None|?] _]; eauto.
  - intros [-> Hne].
    destruct Hs as [_ Hs]. destruct Hs as [x Hx]; [by right|].
    rewrite Hx in Hl. simpl in Hl. by subst x.
Qed.

Lemma edge_occurrences_single_elem_of (idx k : nat) (t : IndexedTriangle) (e : Edge) :
  k ∈ edge_occurrences idx [t] e ↔ k = idx ∧ ∃ p, 0 ≤ p ≤ 2 ∧ triangle_edge t p = e.
Proof.
  assert (Hc : ∀ c : bool, k ∈ (if c then [idx] else []) ↔ c = true ∧ k = idx).
  { intros []; [rewrite list_elem_of_singleton; tauto|].
    rewrite elem_of_nil. split; [done|by intros [[=] _]]. }
  simpl. rewrite !elem_of_app, !Hc, elem_of_nil, !bool_decide_eq_true.
  split.
  - intros [[? ->]|[[? ->]|[[? ->]|[]]]]; (split; [done|]).
    + exists 0. split; [lia|done].
    + exists 1. split; [lia|done].
    + exists 2. split; [lia|done].
  - intros [-> (p & Hp & He)].
    assert (p = 0 ∨ p = 1 ∨ p = 2) as [-> | [-> | ->]] by lia; tauto.
Qed.

Lemma edge_occurrences_elem_of (l : list IndexedTriangle) (idx k : nat) (e : Edge) :
  k ∈ edge_occurrences idx l e ↔
  ∃ j t p, k = (idx + j)%nat ∧ l !! j = Some t ∧ 0 ≤ p ≤ 2 ∧ triangle_edge t p = e.
Proof.
  revert idx. induction l as [|t rest IH]; intros idx.
  - simpl. split; [by intros ?%elem_of_nil|]. by intros (j & t & p & _ & ? & _).
  - rewrite edge_occurrences_cons, elem_of_app, IH, edge_occurrences_single_elem_of.
    split.
    + intros [[-> (p & Hp & He)]|(j & t' & p & -> & Hj & Hp & He)].
      * exists 0%nat, t, p. split_and!; try done; lia.
      * exists (S j), t', p. split_and!; try done; lia.
    + intros (j & t' & p & -> & Hj & Hp & He). destruct j as [|j]; simpl in Hj.
      * left. simplify_eq. split; [lia|eauto].
      * right. exists j, t', p. split_and!; try done; lia.
Qed.

Lemma has_edge_at_bool_decide (t : IndexedTriangle) (a b p : Z) :
  IndexedTriangle_typed t → 0 ≤ a < 2 ^ 32 → 0 ≤ b < 2 ^ 32 →
  has_edge_at t a b p = bool_decide (triangle_edge t p = Edge_new a b).
Proof.
  intros Ht Ha Hb. apply eq_true_iff_eq.
  rewrite bool_decide_eq_true. symmetry. by apply triangle_edge_has_edge_at.
Qed.

Lemma edge_occurrences_single (idx : nat) (t : IndexedTriangle) (a b : Z) :
  IndexedTriangle_typed t → IsDegenerate t = false →
  0 ≤ a < 2 ^ 32 → 0 ≤ b < 2 ^ 32 →
  edge_occurrences idx [t] (Edge_new a b) = if has_edge t a b then [idx] else [].
Proof.
  intros Ht Hnd Ha Hb. unfold has_edge.
  rewrite !has_edge_at_bool_decide by done. simpl.
  repeat case_bool_decide; simpl; try reflexivity; exfalso;
    match goal with
    | H1 : triangle_edge t ?p = ?e, H2 : triangle_edge t ?q = ?e |- _ =>
        assert (p = q) by (apply (triangle_edge_inj t); [done|done|lia|lia|congruence]);
        lia
    end.
Qed.

Lemma edge_occurrences_incident (l pre : list IndexedTriangle) (a b : Z) :
  Forall IndexedTriangle_typed l → Forall (λ t, IsDegenerate t = false) l →
  0 ≤ a < 2 ^ 32 → 0 ≤ b < 2 ^ 32 →
  edge_occurrences (length pre) l (Edge_new a b)
  = filter (λ k, has_edge ((pre ++ l) !!! k) a b = true) (seq (length pre) (length l)).
Proof.
  intros Hty Hnd Ha Hb. revert pre.
  induction l as [|t rest IH]; intros pre; [done|].
  apply Forall_cons in Hty as [Ht Hty]. apply Forall_cons in Hnd as [Hn Hnd].
  rewrite edge_occurrences_cons, edge_occurrences_single by done.
  cbn [length seq]. rewrite filter_cons.
  rewrite list_lookup_total_middle by done.
  specialize (IH Hty Hnd (pre ++ [t])).
  rewrite length_app, Nat.add_1_r, <- app_assoc in IH. simpl in IH.
  rewrite IH.
  destruct (has_edge t a b) eqn:Hh; [by rewrite decide_True|by rewrite decide_False].
Qed.

Lemma edge_occurrences_incident_triangles (l : list IndexedTriangle) (a b : Z) :
  Forall IndexedTriangle_typed l → Forall (λ t, IsDegenerate t = false) l →
  0 ≤ a < 2 ^ 32 → 0 ≤ b < 2 ^ 32 →
  edge_occurrences 0 l (Edge_new a b) = incident_triangles l a b.
Proof. intros. by apply (edge_occurrences_incident l []). Qed.

(** ** Marking the active edges *)

Lemma edge_mask_pow2 (p : Z) :
  0 ≤ FLAGS_ACTIVE_EGDE_SHIFT → FLAGS_ACTIVE_EGDE_SHIFT + 2 < 32 → 0 ≤ p ≤ 2 →
  edge_mask p = 2 ^ (FLAGS_ACTIVE_EGDE_SHIFT + p).
Proof.
  intros H0 H1 Hp. unfold edge_mask, uint32.
  rewrite (Z.mod_small (p + _)) by lia.
  rewrite Z.shiftl_1_l, Z.add_comm.
  apply Z.mod_small. split; [apply Z.pow_nonneg; lia|].
  apply Z.pow_lt_mono_r; lia.
Qed.

Lemma land_pow2_eqb (a j : Z) :
  0 ≤ j → (Z.land a (2 ^ j) =? 0) = negb (Z.testbit a j).
Proof.
  intros Hj. destruct (Z.testbit a j) eqn:Hb; simpl.
  - apply Z.eqb_neq. intros Hz.
    assert (Hbit : Z.testbit (Z.land a (2 ^ j)) j = true).
    { rewrite Z.land_spec, Hb, Z.pow2_bits_eqb, Z.eqb_refl by lia. done. }
    rewrite Hz, Z.bits_0 in Hbit. done.
  - apply Z.eqb_eq. apply Z.bits_inj'. intros i Hi.
    rewrite Z.land_spec, Z.pow2_bits_eqb, Z.bits_0 by lia.
    destruct (Z.eqb_spec j i) as [->|]; [by rewrite Hb|by rewrite andb_false_r].
Qed.

Lemma marked_ext (orig cur : list IndexedTriangle) (M M' : nat → Edge → Prop) :
  (∀ k t p, orig !! k = Some t → 0 ≤ p ≤ 2 →
     M k (triangle_edge t p) ↔ M' k (triangle_edge t p)) →
  marked orig cur M → marked orig cur M'.
Proof.
  intros Hext [Hlen Hm]. split; [done|].
  intros k t Hk. destruct (Hm k t Hk) as (t' & Hk' & Hs & Hpos & Hbits).
  exists t'. split_and!; [done|done|done|].
  intros i Hi. rewrite (Hbits i Hi).
  split; (intros [?|(p & Hp & -> & HM)]; [by left|right]);
    exists p; (split; [done|split; [done|]]); by apply (Hext k t p Hk Hp).
Qed.

Lemma marked_refl (orig : list IndexedTriangle) :
  Forall IndexedTriangle_typed orig → marked orig orig (λ _ _, False).
Proof.
  intros Hty. split; [done|]. intros k t Hk. exists t.
  rewrite Forall_forall in Hty.
  assert (IndexedTriangle_typed t) as (_ & _ & _ & Hf).
  { apply Hty. by eapply list_elem_of_lookup_2. }
  split_and!; [done|done|lia|].
  intros i Hi. split; [by left|]. by intros [?|(p & _ & _ & [])].
Qed.

(** One execution of the marking body on a triangle that has the edge and
    whose bit for it is still clear: the assertion holds and the bit is set. *)
Lemma mark_triangle_marked (orig cur : list IndexedTriangle) (M : nat → Edge → Prop)
    (failed : list AssertionFailure) (e : Edge) (k0 : nat) (t0 : IndexedTriangle) (p0 : Z) :
  0 ≤ FLAGS_ACTIVE_EGDE_SHIFT → FLAGS_ACTIVE_EGDE_SHIFT + 2 < 32 →
  marked orig cur M →
  orig !! k0 = Some t0 → IndexedTriangle_typed t0 → IsDegenerate t0 = false →
  edge_bits_clear t0 →
  0 ≤ p0 ≤ 2 → triangle_edge t0 p0 = e → ¬ M k0 e →
  ∃ cur', mark_triangle e (cur, failed) k0 = (cur', failed) ∧
          marked orig cur' (λ k e', M k e' ∨ (k = k0 ∧ e' = e)).
Proof.
  intros HS0 HS1 [Hlen Hm] Hk0 Hty Hnd Hclear Hp0 He HnM.
  destruct (Hm k0 t0 Hk0) as (t0' & Hk0' & Hs0 & Hpos0 & Hbits0).
  assert (Hidx : GetIndexInTriangle e t0' = p0).
  { rewrite <- (GetIndexInTriangle_same_indices e t0 t0' Hs0), <- He.
    by apply GetIndexInTriangle_edge. }
  assert (Hass : GetIndexInTriangle_asserts e t0' = []).
  { unfold GetIndexInTriangle_asserts. rewrite Hidx.
    rewrite bool_decide_eq_false_2; [done|]. unfold uint32.
    change ((-1) mod 2 ^ 32) with 4294967295. lia. }
  assert (Hbit0 : Z.testbit (mMaterialIndex t0') (FLAGS_ACTIVE_EGDE_SHIFT + p0) = false).
  { apply not_true_is_false. intros Hset.
    apply (Hbits0 (FLAGS_ACTIVE_EGDE_SHIFT + p0)) in Hset as [Horig|(p & Hp & Heq & HM)];
      [| |lia].
    - by rewrite (Hclear p0 Hp0) in Horig.
    - assert (p = p0) as -> by lia. by rewrite He in HM. }
  unfold mark_triangle.
  rewrite (list_lookup_total_correct cur k0 t0' Hk0').
  rewrite Hidx, Hass, edge_mask_pow2 by done.
  rewrite land_pow2_eqb, Hbit0 by lia. simpl. rewrite app_nil_r.
  eexists. split; [reflexivity|].
  split; [by rewrite length_insert|].
  intros k t Hk. destruct (decide (k = k0)) as [->|Hne].
  - assert (t = t0) as -> by congruence.
    eexists. split; [apply list_lookup_insert_eq; by eapply lookup_lt_Some|].
    destruct Hs0 as (H0 & H1 & H2). simpl.
    split_and!; [done| |].
    { apply Z.lor_nonneg. split; [done|]. apply Z.pow_nonneg. lia. }
    intros i Hi. rewrite Z.lor_spec, orb_true_iff, (Hbits0 i Hi).
    rewrite Z.pow2_bits_eqb, Z.eqb_eq by lia.
    split.
    + intros [[?|(p & Hp & -> & HM)]| <-]; [by left| |].
      * right. exists p. split; [done|split; [done|by left]].
      * right. exists p0. split; [done|split; [done|by right]].
    + intros [?|(p & Hp & -> & [HM|[_ He']])]; [by left; left| |].
      * left. right. exists p. split; [done|split; done].
      * right. f_equal. symmetry.
        apply (triangle_edge_inj t0 p p0); try done. congruence.
  - destruct (Hm k t Hk) as (t' & Hk' & Hs & Hpos & Hbits).
    exists t'. split_and!; [by rewrite list_lookup_insert_ne|done|done|].
    intros i Hi. rewrite (Hbits i Hi).
    split; (intros [?|(p & Hp & -> & HM)]; [by left|right]);
      exists p; (split; [done|split; [done|]]); [by left|].
    by destruct HM as [?|[? _]].
Qed.

(** The inner loop over the triangles of one active edge. *)
Lemma mark_edge_marked (orig : list IndexedTriangle) (e : Edge) (l : list nat) :
  0 ≤ FLAGS_ACTIVE_EGDE_SHIFT → FLAGS_ACTIVE_EGDE_SHIFT + 2 < 32 →
  Forall IndexedTriangle_typed orig → Forall (λ t, IsDegenerate t = false) orig →
  Forall edge_bits_clear orig →
  NoDup l →
  (∀ k, k ∈ l → ∃ t p, orig !! k = Some t ∧ 0 ≤ p ≤ 2 ∧ triangle_edge t p = e) →
  ∀ (cur : list IndexedTriangle) (M : nat → Edge → Prop) (failed : list AssertionFailure),
    marked orig cur M → (∀ k, k ∈ l → ¬ M k e) →
    ∃ cur', foldl (mark_triangle e) (cur, failed) l = (cur', failed) ∧
            marked orig cur' (λ k e', M k e' ∨ (k ∈ l ∧ e' = e)).
Proof.
  intros HS0 HS1 Hty Hnd Hclear Hdup Hsound.
  induction l as [|k0 rest IH]; intros cur M failed Hm HnM.
  - exists cur. split; [done|]. eapply marked_ext; [|exact Hm].
    intros k t p _ _. split; [by left|]. by intros [?|[?%elem_of_nil _]].
  - apply NoDup_cons in Hdup as [Hnotin Hdup].
    destruct (Hsound k0) as (t0 & p0 & Hk0 & Hp0 & He); [by left|].
    rewrite Forall_forall in Hty, Hnd, Hclear.
    assert (Hin0 : t0 ∈ orig) by (by eapply list_elem_of_lookup_2).
    destruct (mark_triangle_marked orig cur M failed e k0 t0 p0)
      as (cur1 & Hstep & Hm1); try done; auto.
    { apply HnM. by left. }
    destruct (IH Hdup) with (cur := cur1) (failed := failed)
      (M := λ k e', M k e' ∨ k = k0 ∧ e' = e) as (cur2 & Hloop & Hm2).
    { intros k Hk. apply Hsound. by right. }
    { done. }
    { intros k Hk [HM|[-> _]]; [|done]. apply (HnM k); [by right|done]. }
    exists cur2. cbn [foldl]. rewrite Hstep. split; [done|].
    eapply marked_ext; [|exact Hm2].
    intros k t p _ _. rewrite elem_of_cons. tauto.
Qed.

Lemma marked_lookup_total (orig cur : list IndexedTriangle) (M : nat → Edge → Prop) (k : nat) :
  marked orig cur M → same_indices (orig !!! k) (cur !!! k).
Proof.
  intros [Hlen Hm]. destruct (orig !! k) as [t|] eqn:Hk.
  - destruct (Hm k t Hk) as (t' & Hk' & Hs & _).
    by rewrite (list_lookup_total_correct _ _ _ Hk), (list_lookup_total_correct _ _ _ Hk').
  - rewrite !list_lookup_total_alt, Hk.
    apply lookup_ge_None in Hk. rewrite <- Hlen in Hk. apply lookup_ge_None in Hk.
    by rewrite Hk.
Qed.

Lemma mIdx_same_indices (t t' : IndexedTriangle) (p : Z) :
  same_indices t t' → mIdx t p = mIdx t' p.
Proof. intros (H0 & H1 & H2). unfold mIdx. by rewrite H0, H1, H2. Qed.

Lemma edge_active_marked (inVertices : list Float3) (orig cur : list IndexedTriangle)
    (M : nat → Edge → Prop) (e : Edge) (l : list nat) :
  marked orig cur M →
  edge_active inVertices cur e l = edge_active inVertices orig e l.
Proof.
  intros Hm. unfold edge_active.
  destruct l as [|t1 [|t2 [|t3 l]]]; try reflexivity.
  pose proof (marked_lookup_total orig cur M t1 Hm) as H1.
  pose proof (marked_lookup_total orig cur M t2 Hm) as H2.
  unfold edge_plane_normal, edge_direction.
  rewrite <- !(GetIndexInTriangle_same_indices e _ _ H1).
  rewrite <- !(GetIndexInTriangle_same_indices e _ _ H2).
  by rewrite <- !(mIdx_same_indices _ _ _ H1), <- !(mIdx_same_indices _ _ _ H2).
Qed.

Lemma GetIndexInTriangle_asserts_ok (orig cur : list IndexedTriangle)
    (M : nat → Edge → Prop) (e : Edge) (k : nat) (t : IndexedTriangle) (p : Z) :
  marked orig cur M → orig !! k = Some t →
  IndexedTriangle_typed t → IsDegenerate t = false →
  0 ≤ p ≤ 2 → triangle_edge t p = e →
  GetIndexInTriangle_asserts e (cur !!! k) = [].
Proof.
  intros Hm Hk Hty Hnd Hp He.
  pose proof (marked_lookup_total orig cur M k Hm) as Hs.
  rewrite (list_lookup_total_correct _ _ _ Hk) in Hs.
  unfold GetIndexInTriangle_asserts.
  rewrite <- (GetIndexInTriangle_same_indices e _ _ Hs), <- He.
  rewrite GetIndexInTriangle_edge by done.
  rewrite bool_decide_eq_false_2; [done|]. unfold uint32.
  change ((-1) mod 2 ^ 32) with 4294967295. lia.
Qed.

(** One entry of the edge map: no assertion fails, and the triangles of the
    edge get its bit exactly when the entry is classified active. *)
Lemma visit_edge_marked (inVertices : list Float3) (orig cur : list IndexedTriangle)
    (M : nat → Edge → Prop) (e : Edge) (l : list nat) :
  0 ≤ FLAGS_ACTIVE_EGDE_SHIFT → FLAGS_ACTIVE_EGDE_SHIFT + 2 < 32 →
  Forall IndexedTriangle_typed orig → Forall (λ t, IsDegenerate t = false) orig →
  Forall edge_bits_clear orig →
  entry_ok orig e l → marked orig cur M → (∀ k, ¬ M k e) →
  ∃ cur', visit_edge inVertices (cur, []) (e, l) = (cur', []) ∧
          marked orig cur'
            (λ k e', M k e' ∨ (edge_active inVertices orig e l = true ∧ e' = e)).
Proof.
  intros HS0 HS1 Hty Hnd Hclear (Hdup & Hsound & Hcomplete) Hm HnM.
  assert (Hass : edge_active_asserts cur e l = []).
  { unfold edge_active_asserts. destruct l as [|t1 [|t2 [|t3 l]]]; try reflexivity.
    rewrite Forall_forall in Hty, Hnd.
    destruct (Hsound t1) as (x1 & p1 & Hk1 & Hp1 & He1); [by left|].
    destruct (Hsound t2) as (x2 & p2 & Hk2 & Hp2 & He2); [by right; left|].
    rewrite (GetIndexInTriangle_asserts_ok orig cur M e t1 x1 p1),
            (GetIndexInTriangle_asserts_ok orig cur M e t2 x2 p2);
      try done; first [apply Hty | apply Hnd]; by eapply list_elem_of_lookup_2. }
  unfold visit_edge. cbn [fst snd]. rewrite Hass, (edge_active_marked _ orig cur M) by done.
  destruct (edge_active inVertices orig e l) eqn:Hact.
  - destruct (mark_edge_marked orig e l HS0 HS1 Hty Hnd Hclear Hdup Hsound cur M [] Hm)
      as (cur' & Hloop & Hm'); [by intros k _|].
    exists cur'. split; [done|].
    eapply marked_ext; [|exact Hm'].
    intros k t p Hk Hp. split; (intros [?|[? ?]]; [by left|right]); [done|].
    split; [|done]. by apply (Hcomplete k t p).
  - exists cur. split; [done|]. eapply marked_ext; [|exact Hm].
    intros k t p _ _. split; [by left|]. by intros [?|[? _]].
Qed.

(** The loop over the entries of the edge map, in any order. *)
Lemma visit_edges_marked (inVertices : list Float3) (orig : list IndexedTriangle) :
  0 ≤ FLAGS_ACTIVE_EGDE_SHIFT → FLAGS_ACTIVE_EGDE_SHIFT + 2 < 32 →
  Forall IndexedTriangle_typed orig → Forall (λ t, IsDegenerate t = false) orig →
  Forall edge_bits_clear orig →
  ∀ (entries : list (Edge * list nat)) (cur : list IndexedTriangle) (M : nat → Edge → Prop),
    NoDup entries.*1 →
    (∀ e l, (e, l) ∈ entries → entry_ok orig e l) →
    (∀ e l k, (e, l) ∈ entries → ¬ M k e) →
    marked orig cur M →
    ∃ cur', foldl (visit_edge inVertices) (cur, []) entries = (cur', []) ∧
            marked orig cur'
              (λ k e', M k e' ∨
                 ∃ l, (e', l) ∈ entries ∧ edge_active inVertices orig e' l = true).
Proof.
  intros HS0 HS1 Hty Hnd Hclear entries.
  induction entries as [|[e l] rest IH]; intros cur M Hdup Hok HnM Hm.
  - exists cur. split; [done|]. eapply marked_ext; [|exact Hm].
    intros k t p _ _. split; [by left|]. by intros [?|(l & ?%elem_of_nil & _)].
  - cbn [fmap list_fmap fst] in Hdup. apply NoDup_cons in Hdup as [Hnotin Hdup].
    destruct (visit_edge_marked inVertices orig cur M e l) as (cur1 & Hstep & Hm1);
      try done.
    { apply Hok. by left. }
    { intros k. apply (HnM e l). by left. }
    destruct (IH cur1 (λ k e', M k e' ∨ edge_active inVertices orig e l = true ∧ e' = e))
      as (cur2 & Hloop & Hm2); try done.
    { intros e' l' Hin. apply Hok. by right. }
    { intros e' l' k Hin [HM|[_ ->]].
      - apply (HnM e' l' k); [by right|done].
      - apply Hnotin. apply list_elem_of_fmap. by exists (e, l'). }
    exists cur2. cbn [foldl]. rewrite Hstep. split; [done|].
    eapply marked_ext; [|exact Hm2].
    intros k t p _ _. split.
    + intros [[?|[Hact Heq]]|(l' & Hin & Hact)]; [by left| |].
      * right. exists l. rewrite Heq. split; [by left|done].
      * right. exists l'. split; [by right|done].
    + intros [?|(l' & Hin & Hact)]; [by left; left|].
      apply elem_of_cons in Hin as [[= Heq ->]|Hin].
      * left. right. rewrite <- Heq. done.
      * right. by exists l'.
Qed.

Lemma triangle_edge_Edge_new (t : IndexedTriangle) (p : Z) :
  triangle_edge t p = Edge_new (mIdx t p) (mIdx t ((p + 1) mod 3)).
Proof. reflexivity. Qed.

Lemma edge_to_triangle_entry_ok (orig : list IndexedTriangle) (e : Edge) (l : list nat) :
  Forall IndexedTriangle_typed orig → Forall (λ t, IsDegenerate t = false) orig →
  build_edge_to_triangle 0 orig ∅ !! e = Some l → entry_ok orig e l.
Proof.
  intros Hty Hnd [-> Hne]%edge_to_triangle_entry.
  assert (Hsound : ∀ k, k ∈ edge_occurrences 0 orig e →
            ∃ t p, orig !! k = Some t ∧ 0 ≤ p ≤ 2 ∧ triangle_edge t p = e).
  { intros k (j & t & p & -> & Hj & Hp & He)%edge_occurrences_elem_of. by exists t, p. }
  split_and!; [|done|].
  - destruct (edge_occurrences 0 orig e) as [|k0 rest] eqn:Hocc; [done|].
    destruct (Hsound k0) as (t & p & Hk & Hp & He); [by left|].
    rewrite <- Hocc, <- He, triangle_edge_Edge_new.
    assert (Ht : IndexedTriangle_typed t).
    { rewrite Forall_forall in Hty. apply Hty. by eapply list_elem_of_lookup_2. }
    rewrite edge_occurrences_incident_triangles by (try apply mIdx_typed; done).
    apply NoDup_filter, NoDup_seq.
  - intros k t p Hk Hp He. apply edge_occurrences_elem_of.
    exists k, t, p. done.
Qed.

(** The analysis on typed, non-degenerate triangles whose active-edge bits
    are clear, whatever the iteration order of the edge map: no assertion
    fails, the vertex indices are untouched, and the bit of every edge
    position is the classification of that edge's map entry. *)
Lemma FindActiveEdges_in_order_marked (inVertices : list Float3)
    (orig : list IndexedTriangle) (entries : list (Edge * list nat)) :
  0 ≤ FLAGS_ACTIVE_EGDE_SHIFT → FLAGS_ACTIVE_EGDE_SHIFT + 2 < 32 →
  Forall IndexedTriangle_typed orig → Forall (λ t, IsDegenerate t = false) orig →
  Forall edge_bits_clear orig →
  entries ≡ₚ map_to_list (build_edge_to_triangle 0 orig ∅) →
  ∃ out, FindActiveEdges_in_order inVertices entries orig = (out, []) ∧
    ∀ k t, orig !! k = Some t →
      ∃ t', out !! k = Some t' ∧ same_indices t t' ∧
        ∀ p, 0 ≤ p ≤ 2 →
          Z.testbit (mMaterialIndex t') (FLAGS_ACTIVE_EGDE_SHIFT + p)
          = edge_active inVertices orig (triangle_edge t p)
              (incident_triangles orig (mIdx t p) (mIdx t ((p + 1) mod 3))).
Proof.
  intros HS0 HS1 Hty Hnd Hclear Hperm.
  assert (Hentry : ∀ e l, (e, l) ∈ entries ↔ build_edge_to_triangle 0 orig ∅ !! e = Some l).
  { intros e l. rewrite Hperm. apply elem_of_map_to_list. }
  destruct (visit_edges_marked inVertices orig HS0 HS1 Hty Hnd Hclear entries orig
              (λ _ _, False)) as (out & Hrun & [Hlen Hm]).
  { rewrite Hperm. apply NoDup_fst_map_to_list. }
  { intros e l Hin%Hentry. by apply edge_to_triangle_entry_ok. }
  { intros e l k _ []. }
  { by apply marked_refl. }
  exists out. split; [exact Hrun|].
  intros k t Hk. destruct (Hm k t Hk) as (t' & Hk' & Hs & _ & Hbits).
  exists t'. split_and!; [done|done|].
  intros p Hp.
  assert (Ht : IndexedTriangle_typed t).
  { rewrite Forall_forall in Hty. apply Hty. by eapply list_elem_of_lookup_2. }
  assert (Hocc : edge_occurrences 0 orig (triangle_edge t p)
                 = incident_triangles orig (mIdx t p) (mIdx t ((p + 1) mod 3))).
  { rewrite triangle_edge_Edge_new.
    apply edge_occurrences_incident_triangles; try apply mIdx_typed; done. }
  assert (Hkin : k ∈ edge_occurrences 0 orig (triangle_edge t p)).
  { apply edge_occurrences_elem_of. by exists k, t, p. }
  apply eq_true_iff_eq. rewrite Hbits by lia. rewrite <- Hocc. split.
  - intros [Horig|(p' & Hp' & Heq & [[]|(l & Hin & Hact)])].
    + rewrite Forall_forall in Hclear.
      rewrite (Hclear t) in Horig; [done|by eapply list_elem_of_lookup_2|done].
    + assert (p' = p) as -> by lia.
      apply Hentry, edge_to_triangle_entry in Hin as [-> _]. done.
  - intros Hact. right. exists p. split_and!; [lia|lia|done|].
    right. exists (edge_occurrences 0 orig (triangle_edge t p)). split; [|done].
    apply Hentry, edge_to_triangle_entry. split; [done|].
    intros Hnil. rewrite Hnil in Hkin. by apply elem_of_nil in Hkin.
Qed.

(** ** The constructor's validation *)

Lemma check_triangles_None (n : nat) (triangles : list IndexedTriangle) (num_vertices : Z) :
  check_triangles n triangles num_vertices = None → (n ≤ length triangles)%nat →
  ∀ k t, (k < n)%nat → triangles !! k = Some t →
    IsDegenerate t = false ∧ ∀ p, 0 ≤ p ≤ 2 → mIdx t p < num_vertices.
Proof.
  induction n as [|n IH]; intros Hcheck Hlen k t Hk Ht; [lia|].
  simpl in Hcheck.
  destruct (lookup_lt_is_Some_2 triangles n) as [tn Hn]; [lia|].
  rewrite Hn in Hcheck.
  destruct (IsDegenerate tn) eqn:Hdeg; [done|].
  destruct (check_vertex_indices tn num_vertices) as [e|] eqn:Hidx; [done|].
  destruct (decide (k = n)) as [->|Hne].
  - assert (t = tn) as -> by congruence. split; [done|].
    unfold check_vertex_indices in Hidx.
    destruct (find _ _) as [i|] eqn:Hfind; [done|].
    intros p Hp. pose proof (find_none _ _ Hfind p) as Hp'. simpl in Hp'.
    apply Z.leb_gt. apply Hp'.
    assert (p = 0 ∨ p = 1 ∨ p = 2) as [-> | [-> | ->]] by lia; tauto.
  - apply (IH Hcheck ltac:(lia) k t); [lia|done].
Qed.

Lemma check_all_triangles_None (inSettings : MeshShapeSettings) :
  Z.of_nat (length (mIndexedTriangles inSettings)) < 2 ^ 31 →
  check_all_triangles inSettings = None →
  Forall (λ t, IsDegenerate t = false) (mIndexedTriangles inSettings).
Proof.
  intros Hlen Hcheck. unfold check_all_triangles in Hcheck.
  rewrite to_int_small in Hcheck by lia.
  replace (Z.to_nat (_ - 1 + 1)) with (length (mIndexedTriangles inSettings)) in Hcheck by lia.
  apply Forall_forall. intros t [k Hk]%list_elem_of_lookup.
  eapply (check_triangles_None _ _ _ Hcheck); [lia| |exact Hk].
  by eapply lookup_lt_Some.
Qed.

Lemma check_materials_None (materials : list PhysicsMaterial)
    (triangles : list IndexedTriangle) :
  0 ≤ FLAGS_MATERIAL_MASK →
  check_materials materials triangles = None →
  Forall (λ t, mMaterialIndex t ≤ FLAGS_MATERIAL_MASK) triangles.
Proof.
  intros HM. unfold check_materials. case_bool_decide as Hempty.
  - destruct (forallb _ _) eqn:Hall; [|done]. intros _.
    apply Forall_forall. intros t Hin%list_elem_of_In.
    rewrite forallb_forall in Hall. specialize (Hall t Hin). simpl in Hall. lia.
  - destruct (Z.ltb_spec FLAGS_MATERIAL_MASK (Z.of_nat (length materials))); [done|].
    destruct (find _ _) as [t|] eqn:Hfind; [done|]. intros _.
    apply Forall_forall. intros t Hin%list_elem_of_In.
    pose proof (find_none _ _ Hfind t Hin) as Ht. simpl in Ht. lia.
Qed.

Lemma edge_bits_clear_small (t : IndexedTriangle) :
  0 ≤ FLAGS_ACTIVE_EGDE_SHIFT → FLAGS_MATERIAL_MASK < 2 ^ FLAGS_ACTIVE_EGDE_SHIFT →
  IndexedTriangle_typed t → mMaterialIndex t ≤ FLAGS_MATERIAL_MASK →
  edge_bits_clear t.
Proof.
  intros HS HM (_ & _ & _ & Hf) Hle p Hp.
  apply (testbit_small _ FLAGS_ACTIVE_EGDE_SHIFT); lia.
Qed.

(** What a passed validation establishes for [FindActiveEdges]. *)
Lemma validate_None (inSettings : MeshShapeSettings) :
  0 ≤ FLAGS_MATERIAL_MASK →
  0 ≤ FLAGS_ACTIVE_EGDE_SHIFT → FLAGS_MATERIAL_MASK < 2 ^ FLAGS_ACTIVE_EGDE_SHIFT →
  Forall IndexedTriangle_typed (mIndexedTriangles inSettings) →
  Z.of_nat (length (mIndexedTriangles inSettings)) < 2 ^ 31 →
  validate inSettings = None →
  Forall (λ t, IsDegenerate t = false) (mIndexedTriangles inSettings) ∧
  Forall edge_bits_clear (mIndexedTriangles inSettings).
Proof.
  intros HM HS HMS Hty Hlen Hval. unfold validate in Hval.
  case_bool_decide; [done|].
  destruct (check_all_triangles inSettings) eqn:Hct; [done|].
  split; [by apply check_all_triangles_None|].
  pose proof (check_materials_None _ _ HM Hval) as Hmat.
  rewrite Forall_forall in Hty, Hmat. apply Forall_forall. intros t Ht.
  apply edge_bits_clear_small; auto.
Qed.

Lemma MeshShape_new_valid (inSettings : MeshShapeSettings) (shape : MeshShape)
    (failed : list AssertionFailure) :
  MeshShape_new inSettings = (ResultValid shape, failed) → validate inSettings = None.
Proof.
  unfold MeshShape_new. destruct (validate inSettings); [|done]. by intros [=].
Qed.

(** ** The active-edge bits of a constructed shape *)

(** C2: after a successful construction, whatever the iteration order of the
    edge map, every edge position [p] of every triangle [k] carries at bit
    [FLAGS_ACTIVE_EGDE_SHIFT + p] of its flag word the classification of its
    unordered edge [{a, b}]: set when one triangle contains the edge, equal
    to [IsEdgeActive] of the two CCW plane normals and the edge direction of
    the first triangle when two contain it, set when three or more do.  The
    same value is thus found in every triangle incident to the edge. *)
Theorem FindActiveEdges_active_bits (inSettings : MeshShapeSettings) (shape : MeshShape)
    (failed : list AssertionFailure) (entries : list (Edge * list nat)) :
  let inVertices := mTriangleVertices inSettings in
  let orig := mIndexedTriangles inSettings in
  0 ≤ FLAGS_MATERIAL_MASK →
  0 ≤ FLAGS_ACTIVE_EGDE_SHIFT → FLAGS_ACTIVE_EGDE_SHIFT + 2 < 32 →
  FLAGS_MATERIAL_MASK < 2 ^ FLAGS_ACTIVE_EGDE_SHIFT →
  Forall IndexedTriangle_typed orig →
  Z.of_nat (length orig) < 2 ^ 31 →
  MeshShape_new inSettings = (ResultValid shape, failed) →
  entries ≡ₚ map_to_list (build_edge_to_triangle 0 orig ∅) →
  ∀ k t p, orig !! k = Some t → 0 ≤ p ≤ 2 →
    ∃ t', (FindActiveEdges_in_order inVertices entries orig).1 !! k = Some t' ∧
      same_indices t t' ∧
      let a := mIdx t p in
      let b := mIdx t ((p + 1) mod 3) in
      let bit := Z.testbit (mMaterialIndex t') (FLAGS_ACTIVE_EGDE_SHIFT + p) in
      (length (incident_triangles orig a b) = 1%nat → bit = true) ∧
      (∀ k1 k2 t1 t2 p1 p2,
         incident_triangles orig a b = [k1; k2] →
         orig !! k1 = Some t1 → orig !! k2 = Some t2 →
         0 ≤ p1 ≤ 2 → 0 ≤ p2 ≤ 2 →
         has_edge_at t1 a b p1 = true → has_edge_at t2 a b p2 = true →
         bit = IsEdgeActive (edge_plane_normal inVertices t1 p1)
                            (edge_plane_normal inVertices t2 p2)
                            (edge_direction inVertices t1 p1)) ∧
      ((3 ≤ length (incident_triangles orig a b))%nat → bit = true).
Proof.
  intros inVertices orig HM HS0 HS1 HMS Hty Hlen Hnew Hperm k t p Hk Hp.
  apply MeshShape_new_valid in Hnew.
  destruct (validate_None inSettings HM HS0 HMS Hty Hlen Hnew) as [Hnd Hclear].
  destruct (FindActiveEdges_in_order_marked inVertices orig entries HS0 HS1 Hty Hnd
              Hclear Hperm) as (out & Hrun & Hout).
  rewrite Hrun. cbn [fst].
  destruct (Hout k t Hk) as (t' & Hk' & Hs & Hbits).
  exists t'. split; [done|]. split; [done|].
  cbv zeta. rewrite (Hbits p Hp).
  set (a := mIdx t p). set (b := mIdx t ((p + 1) mod 3)).
  assert (Ht : IndexedTriangle_typed t).
  { rewrite Forall_forall in Hty. apply Hty. by eapply list_elem_of_lookup_2. }
  assert (Ha : 0 ≤ a < 2 ^ 32) by (by apply mIdx_typed).
  assert (Hb : 0 ≤ b < 2 ^ 32) by (by apply mIdx_typed).
  split_and!.
  - intros Hone. by destruct (incident_triangles orig a b) as [|k1 [|k2 l]].
  - intros k1 k2 t1 t2 p1 p2 Hinc Hk1 Hk2 Hp1 Hp2 He1 He2.
    rewrite Hinc. unfold edge_active.
    rewrite (list_lookup_total_correct _ _ _ Hk1), (list_lookup_total_correct _ _ _ Hk2).
    rewrite Forall_forall in Hty, Hnd.
    assert (Hin1 : t1 ∈ orig) by (by eapply list_elem_of_lookup_2).
    assert (Hin2 : t2 ∈ orig) by (by eapply list_elem_of_lookup_2).
    apply triangle_edge_has_edge_at in He1, He2; auto.
    rewrite triangle_edge_Edge_new. fold a b. rewrite <- He1 at 1 3. rewrite <- He2.
    rewrite !GetIndexInTriangle_edge by auto. reflexivity.
  - intros Hmany. by destruct (incident_triangles orig a b) as [|k1 [|k2 [|k3 l]]];
      simpl in Hmany; try lia.
Qed.

(** C9: on the sanitized triangle list, once the constructor's validation
    has passed, no assertion of [FindActiveEdges] fails, whatever the
    iteration order of the edge map; in particular the bit an active edge is
    about to set in an incident triangle is never set already. *)
Theorem FindActiveEdges_assertions_hold (inVertices : list Float3)
    (inTriangles : list IndexedTriangle) (inMaterials : list PhysicsMaterial)
    (entries : list (Edge * list nat)) :
  let inSettings := MeshShapeSettings_new inVertices inTriangles inMaterials in
  0 ≤ FLAGS_MATERIAL_MASK →
  0 ≤ FLAGS_ACTIVE_EGDE_SHIFT → FLAGS_ACTIVE_EGDE_SHIFT + 2 < 32 →
  FLAGS_MATERIAL_MASK < 2 ^ FLAGS_ACTIVE_EGDE_SHIFT →
  Forall IndexedTriangle_typed inTriangles →
  Z.of_nat (length inTriangles) < 2 ^ 31 →
  validate inSettings = None →
  entries ≡ₚ map_to_list (build_edge_to_triangle 0 (mIndexedTriangles inSettings) ∅) →
  (FindActiveEdges_in_order inVertices entries (mIndexedTriangles inSettings)).2 = [].
Proof.
  intros inSettings HM HS0 HS1 HMS Hty Hlen Hval Hperm.
  assert (Hsub : sublist (mIndexedTriangles inSettings) inTriangles).
  { unfold inSettings. simpl. rewrite Sanitize_retain_last by done.
    apply retain_last_sublist. }
  assert (Hty' : Forall IndexedTriangle_typed (mIndexedTriangles inSettings)).
  {
    rewrite Forall_forall in Hty. apply Forall_forall.
    intros t Ht. apply Hty. by eapply elem_of_sublist. }
  assert (Hlen' : Z.of_nat (length (mIndexedTriangles inSettings)) < 2 ^ 31).
  { apply sublist_length in Hsub. lia. }
  destruct (validate_None inSettings HM HS0 HMS Hty' Hlen' Hval) as [Hnd Hclear].
  destruct (FindActiveEdges_in_order_marked inVertices _ entries HS0 HS1 Hty' Hnd
              Hclear Hperm) as (out & Hrun & _).
  by rewrite Hrun.
Qed.

(** ** The material limit of the constructor *)

(** On otherwise valid triangles the constructor reports [TooManyMaterials]
    exactly when the material list is larger than [FLAGS_MATERIAL_MASK]. *)
Lemma MeshShape_new_TooManyMaterials (inSettings : MeshShapeSettings) :
  mIndexedTriangles inSettings ≠ [] → check_all_triangles inSettings = None →
  (∃ n, (MeshShape_new inSettings).1 = ResultError (TooManyMaterials n))
  ↔ FLAGS_MATERIAL_MASK < Z.of_nat (length (settings_mMaterials inSettings))
    ∧ settings_mMaterials inSettings ≠ [].
Proof.
  intros Hne Hct. unfold MeshShape_new, validate.
  rewrite bool_decide_eq_false_2, Hct by done. unfold check_materials.
  case_bool_decide as Hempty.
  - split; [|by intros [_ ?]].
    intros [n Hn]. exfalso.
    destruct (forallb _ _); simpl in Hn; [|done].
    destruct (FindActiveEdges _ _) as [tris failed].
    destruct (Convert _ _); [done|]. by destruct (_ <? _).
  - destruct (Z.ltb_spec FLAGS_MATERIAL_MASK
                (Z.of_nat (length (settings_mMaterials inSettings)))) as [Hlt|Hge].
    + split; [done|]. intros _. by eexists.
    + split; [|intros [? _]; lia].
      intros [n Hn]. exfalso.
      destruct (find _ _); simpl in Hn; [done|].
      destruct (FindActiveEdges _ _) as [tris failed].
      destruct (Convert _ _); [done|]. by destruct (_ <? _).
Qed.

(** C3, what the code does at the limit: a material list of exactly
    [FLAGS_MATERIAL_MASK + 1] entries, which the flag layout can index, is
    rejected with [TooManyMaterials] although the triangles are valid. *)
Theorem MeshShape_new_rejects_full_material_table (inSettings : MeshShapeSettings) :
  0 ≤ FLAGS_MATERIAL_MASK →
  mIndexedTriangles inSettings ≠ [] → check_all_triangles inSettings = None →
  Z.of_nat (length (settings_mMaterials inSettings)) = FLAGS_MATERIAL_MASK + 1 →
  MeshShape_new inSettings
  = (ResultError (TooManyMaterials (FLAGS_ACTIVE_EDGE_MASK + 1)), []).
Proof.
  intros HM Hne Hct Hlen. unfold MeshShape_new, validate.
  rewrite bool_decide_eq_false_2, Hct by done. unfold check_materials.
  rewrite bool_decide_eq_false_2.
  - destruct (Z.ltb_spec FLAGS_MATERIAL_MASK
                (Z.of_nat (length (settings_mMaterials inSettings)))); [done|lia].
  - intros Hnil. rewrite Hnil in Hlen. simpl in Hlen. lia.
Qed.

(** ** The walker's stack *)

Lemma node_size_pos (n : Node) : (1 ≤ node_size n)%nat.
Proof. destruct n; simpl; lia. Qed.

Lemma nodes_size_app (l1 l2 : list Node) :
  nodes_size (l1 ++ l2) = (nodes_size l1 + nodes_size l2)%nat.
Proof. apply sum_list_with_app. Qed.

Lemma stack_nodes_S (stack : Z → Node) (n : nat) :
  stack_nodes stack (S n) = stack_nodes stack n ++ [stack (Z.of_nat n)].
Proof. unfold stack_nodes. rewrite seq_S, fmap_app. reflexivity. Qed.

Lemma stack_nodes_add (stack : Z → Node) (n k : nat) :
  stack_nodes stack (n + k)
  = stack_nodes stack n ++ ((λ j, stack (Z.of_nat (n + j))) <$> seq 0 k).
Proof.
  unfold stack_nodes. rewrite seq_app, fmap_app. f_equal.
  apply list_eq. intros j. rewrite !list_lookup_fmap.
  destruct (decide (j < k)%nat).
  - rewrite !lookup_seq_lt by done. reflexivity.
  - rewrite !lookup_seq_ge by lia. reflexivity.
Qed.

Lemma stack_nodes_ext (stack stack' : Z → Node) (n : nat) :
  (∀ i, 0 ≤ i < Z.of_nat n → stack i = stack' i) →
  stack_nodes stack n = stack_nodes stack' n.
Proof.
  intros Hext. unfold stack_nodes. apply list_fmap_ext.
  intros j i Hi. apply lookup_seq in Hi as [-> Hlt]. apply Hext. lia.
Qed.

Lemma store_lanes_below {A : Type} (array : Z → A) (top : Z) (lanes : list A) (i : Z) :
  i < top → store_lanes array top lanes i = array i.
Proof. intros Hi. unfold store_lanes. by rewrite (proj2 (Z.leb_gt top i)). Qed.

Lemma store_lanes_at {A : Type} (array : Z → A) (top : Z) (lanes : list A) (j : nat) (x : A) :
  lanes !! j = Some x → store_lanes array top lanes (top + Z.of_nat j) = x.
Proof.
  intros Hj. unfold store_lanes. rewrite (proj2 (Z.leb_le top _)) by lia.
  replace (Z.to_nat (top + Z.of_nat j - top)) with j by lia. by rewrite Hj.
Qed.

Lemma stack_nodes_store_lanes (stack : Z → Node) (t k : nat) (lanes : list Node) :
  (k ≤ length lanes)%nat →
  stack_nodes (store_lanes stack (Z.of_nat t) lanes) (t + k)
  = stack_nodes stack t ++ take k lanes.
Proof.
  intros Hk. rewrite stack_nodes_add. f_equal.
  - apply stack_nodes_ext. intros i Hi. apply store_lanes_below. lia.
  - apply list_eq. intros j. rewrite list_lookup_fmap.
    destruct (decide (j < k)%nat) as [Hlt|Hge].
    + rewrite lookup_seq_lt by done. simpl. rewrite lookup_take_lt by done.
      destruct (lookup_lt_is_Some_2 lanes j) as [x Hx]; [lia|].
      rewrite Hx. f_equal. rewrite Nat2Z.inj_add. by apply store_lanes_at.
    + rewrite lookup_seq_ge by lia. simpl. symmetry. apply lookup_take_ge. lia.
Qed.

Lemma nodes_size_stack_nodes_le (stack : Z → Node) (m n : nat) :
  (m ≤ n)%nat → (nodes_size (stack_nodes stack m) ≤ nodes_size (stack_nodes stack n))%nat.
Proof.
  intros Hle. replace n with (m + (n - m))%nat by lia.
  rewrite stack_nodes_add, nodes_size_app. lia.
Qed.

Lemma pop_nodes_range {V : Type} {HV : Visitor V} (v : V) (n : nat) :
  -1 ≤ pop_nodes v n < Z.of_nat n ∨ (n = 0%nat ∧ pop_nodes v n = -1).
Proof.
  induction n as [|n IH]; [by right|]. left. simpl.
  destruct (ShouldVisitNode v (Z.of_nat n)); [lia|].
  destruct IH as [?|[-> ->]]; lia.
Qed.

Lemma pop_nodes_bounds {V : Type} {HV : Visitor V} (v : V) (n : nat) :
  -1 ≤ pop_nodes v n ∧ pop_nodes v n + 1 ≤ Z.of_nat n.
Proof. destruct (pop_nodes_range v n) as [?|[-> ->]]; lia. Qed.

(** Showing the top node to a well-behaved visitor leaves, below the new
    top, strictly less than what was pending. *)
Lemma pending_nodes_size (ctx : DecodingContext) :
  0 ≤ mTop ctx →
  nodes_size (pending_nodes ctx)
  = (nodes_size (stack_nodes (mNodeStack ctx) (Z.to_nat (mTop ctx)))
     + node_size (mNodeStack ctx (mTop ctx)))%nat.
Proof.
  intros Htop. unfold pending_nodes.
  replace (Z.to_nat (mTop ctx + 1)) with (S (Z.to_nat (mTop ctx))) by lia.
  rewrite stack_nodes_S, nodes_size_app, Z2Nat.id by done.
  unfold nodes_size. simpl. lia.
Qed.

Lemma visit_node_size {V : Type} {HV : Visitor V} (ctx : DecodingContext) (v : V) :
  visitor_ok V → 0 ≤ mTop ctx →
  mTop ctx ≤ mTop (visit_node ctx v).1 ∧
  (nodes_size (stack_nodes (mNodeStack (visit_node ctx v).1)
                 (Z.to_nat (mTop (visit_node ctx v).1)))
   < nodes_size (pending_nodes ctx))%nat.
Proof.
  intros Hok Htop. rewrite pending_nodes_size by done. unfold visit_node.
  destruct (mNodeStack ctx (mTop ctx)) as [b0 b1 b2 b3 c0 c1 c2 c3|id tris|] eqn:Hnode.
  - pose proof (Hok v [b0; b1; b2; b3] [c0; c1; c2; c3] (mTop ctx) eq_refl) as Hr.
    destruct (VisitNodes v _ _ _) as [[v' props] n]. cbn [fst snd mTop mNodeStack] in *.
    destruct Hr as (Hn & Hlen & Hsize). split; [lia|].
    replace (Z.to_nat (mTop ctx + n)) with (Z.to_nat (mTop ctx) + Z.to_nat n)%nat by lia.
    rewrite <- (Z2Nat.id (mTop ctx)) at 1 by done.
    rewrite stack_nodes_store_lanes, nodes_size_app by done.
    assert (Hsum : nodes_size [c0; c1; c2; c3]
                   = (node_size c0 + node_size c1 + node_size c2 + node_size c3)%nat)
      by (unfold nodes_size; simpl; lia).
    cbn [node_size]. lia.
  - cbn [fst snd]. split; [lia|]. simpl. lia.
  - cbn [fst snd]. split; [lia|]. simpl. lia.
Qed.

(** With a well-behaved visitor the walk ends within as many iterations
    as there are nodes below the pending ones. *)
Lemma WalkTree_terminates {V : Type} {HV : Visitor V} (fuel : nat) :
  visitor_ok V →
  ∀ (ctx : DecodingContext) (v : V),
    0 ≤ mTop ctx → (nodes_size (pending_nodes ctx) ≤ fuel)%nat →
    is_Some (WalkTree fuel ctx v).
Proof.
  intros Hok. induction fuel as [|fuel IH]; intros ctx v Htop Hsize.
  - exfalso. rewrite pending_nodes_size in Hsize by done.
    pose proof (node_size_pos (mNodeStack ctx (mTop ctx))). lia.
  - cbn [WalkTree].
    destruct (visit_node_size ctx v Hok Htop) as [Hle Hlt].
    destruct (visit_node ctx v) as [ctx' v']. cbn [fst snd] in *.
    destruct (ShouldAbort v'); [by eexists|].
    pose proof (pop_nodes_bounds v' (Z.to_nat (mTop ctx'))) as [Hlo Hhi].
    destruct (Z.leb_spec 0 (pop_nodes v' (Z.to_nat (mTop ctx')))) as [Hge|Hneg];
      [|by eexists].
    apply IH; [done|]. unfold pending_nodes. cbn [mNodeStack mTop].
    etrans; [apply (nodes_size_stack_nodes_le _ _ (Z.to_nat (mTop ctx'))); lia|lia].
Qed.

(** ** Lanes *)

Section Lanes.
Context {FO : FloatOrder G} {A : Type}.
Implicit Types lanes : list (Float * A).

Lemma Float_lt_asym (a b : Float) : Float_lt a b = true → Float_lt b a = false.
Proof.
  intros Hab. destruct (Float_lt b a) eqn:Hba; [|done].
  by rewrite <- (Float_lt_irrefl a), (Float_lt_trans a b a Hab Hba).
Qed.

Lemma Float_le_lt_trans (a b c : Float) :
  Float_lt b a = false → Float_lt b c = true → Float_lt a c = true.
Proof.
  intros Hba Hbc. destruct (Float_lt a c) eqn:Hac; [done|].
  by rewrite (Float_ge_trans b a c Hba Hac) in Hbc.
Qed.

Lemma Float_lt_le_trans (a b c : Float) :
  Float_lt a b = true → Float_lt c b = false → Float_lt a c = true.
Proof.
  intros Hab Hcb. destruct (Float_lt a c) eqn:Hac; [done|].
  by rewrite (Float_ge_trans a c b Hac Hcb) in Hab.
Qed.

Lemma insert_lane_Permutation (x : Float * A) lanes : insert_lane x lanes ≡ₚ x :: lanes.
Proof.
  induction lanes as [|y rest IH]; simpl; [done|].
  destruct (Float_lt x.1 y.1); [|done]. rewrite IH. apply Permutation_swap.
Qed.

Lemma sSort4Reverse_Permutation lanes : sSort4Reverse lanes ≡ₚ lanes.
Proof.
  induction lanes as [|x rest IH]; simpl; [done|].
  rewrite insert_lane_Permutation. by rewrite IH.
Qed.

Lemma insert_lane_sorted (x : Float * A) lanes :
  lanes_sorted lanes → lanes_sorted (insert_lane x lanes).
Proof.
  unfold lanes_sorted. induction 1 as [|y rest Hs IH Hall]; simpl.
  - repeat constructor.
  - destruct (Float_lt x.1 y.1) eqn:Hxy.
    + constructor; [done|].
      rewrite insert_lane_Permutation. constructor; [|done].
      by apply Float_lt_asym.
    + constructor; [by constructor|]. constructor; [done|].
      eapply Forall_impl; [exact Hall|]. intros z Hz. simpl in Hz.
      by apply (Float_ge_trans _ y.1).
Qed.

Lemma sSort4Reverse_sorted lanes : lanes_sorted (sSort4Reverse lanes).
Proof.
  induction lanes as [|x rest IH]; simpl; [constructor|].
  by apply insert_lane_sorted.
Qed.

(** In descending lanes the ones closer than [f] are the last ones. *)
Lemma lanes_sorted_closer (f : Float) lanes :
  lanes_sorted lanes →
  let k := length (filter (λ b : bool, b = true) ((λ lane, Float_lt lane.1 f) <$> lanes)) in
  (k ≤ length lanes)%nat ∧
  Forall (λ lane, Float_lt lane.1 f = false) (take (length lanes - k) lanes) ∧
  Forall (λ lane, Float_lt lane.1 f = true) (drop (length lanes - k) lanes).
Proof.
  unfold lanes_sorted. induction 1 as [|y rest Hs IH Hall].
  - simpl. split_and!; [lia|constructor|constructor].
  - destruct IH as (Hk & Htake & Hdrop). rewrite fmap_cons, filter_cons.
    cbn beta. destruct (Float_lt y.1 f) eqn:Hy.
    + rewrite decide_True by done.
      assert (Hrest : Forall (λ lane, Float_lt lane.1 f = true) rest).
      { eapply Forall_impl; [exact Hall|]. intros z Hz. simpl in Hz.
        by apply (Float_le_lt_trans _ y.1). }
      assert (Hcount : length (filter (λ b : bool, b = true)
                         ((λ lane, Float_lt lane.1 f) <$> rest)) = length rest).
      { clear -Hrest. induction Hrest as [|z r Hz _ IHr]; [done|].
        rewrite fmap_cons, filter_cons, decide_True by done.
        cbn [length]. by rewrite IHr. }
      cbn [length]. rewrite Hcount. rewrite Nat.sub_diag. simpl.
      split_and!; [lia|constructor|by constructor].
    + rewrite decide_False by (by rewrite not_true_iff_false).
      set (k := length (filter _ _)) in *. cbn [length].
      replace (S (length rest) - k)%nat with (S (length rest - k)) by lia.
      simpl. split_and!; [lia|by constructor|done].
Qed.

End Lanes.

(** ** One iteration of the walker *)

Lemma WalkTree_S {V : Type} {HV : Visitor V} (fuel : nat) (ctx : DecodingContext) (v : V) :
  WalkTree (S fuel) ctx v =
    let r := visit_node ctx v in
    if ShouldAbort r.2 then Some r
    else
      let top := pop_nodes r.2 (Z.to_nat (mTop r.1)) in
      if 0 <=? top then WalkTree fuel (mkDecodingContext (mNodeStack r.1) top) r.2
      else Some (mkDecodingContext (mNodeStack r.1) top, r.2).
Proof. cbn [WalkTree]. by destruct (visit_node ctx v). Qed.

(** The nodes the walker skips when it pops are those the visitor does not
    want to see. *)
Lemma pop_nodes_skipped {V : Type} {HV : Visitor V} (v : V) (n : nat) (i : Z) :
  pop_nodes v n < i < Z.of_nat n → ShouldVisitNode v i = false.
Proof.
  induction n as [|m IH]; cbn [pop_nodes]; [lia|].
  destruct (ShouldVisitNode v (Z.of_nat m)) eqn:Hm; [lia|].
  intros Hi. destruct (decide (i = Z.of_nat m)) as [->|Hne]; [done|].
  apply IH. lia.
Qed.

Lemma pop_nodes_wanted {V : Type} {HV : Visitor V} (v : V) (n : nat) :
  0 ≤ pop_nodes v n → ShouldVisitNode v (pop_nodes v n) = true.
Proof.
  induction n as [|m IH]; cbn [pop_nodes]; [lia|].
  by destruct (ShouldVisitNode v (Z.of_nat m)) eqn:Hm.
Qed.

(** ** The collector ray cast *)

Section CollectorCast.
Context {C : Type} {HC : CollisionCollector RayCastResult C}.

Lemma collect_triangles_foldl (v : CollectVisitor C) (id : SubShapeIDCreator)
    (tris : list EncodedTriangle) :
  ∀ (c : C) (i : Z),
    collect_triangles v id c i tris
    = foldl (λ c' '(j, t), collect_triangle v id c' j t) c
        (imap (λ k t, (i + Z.of_nat k, t)) tris).
Proof.
  induction tris as [|t rest IH]; intros c i; [done|].
  cbn [collect_triangles imap foldl]. rewrite IH.
  replace (i + Z.of_nat 0) with i by lia. f_equal.
  apply imap_ext. intros k x _. simpl. f_equal. lia.
Qed.

End CollectorCast.

(** ** The ray visitors' choice of children *)

Lemma nodes_size_Permutation (l1 l2 : list Node) :
  l1 ≡ₚ l2 → nodes_size l1 = nodes_size l2.
Proof.
  unfold nodes_size. induction 1; simpl; lia.
Qed.

Lemma nodes_size_drop (l : list Node) (k : nat) :
  (nodes_size (drop k l) ≤ nodes_size l)%nat.
Proof.
  rewrite <- (take_drop k l) at 2. rewrite nodes_size_app. lia.
Qed.

Lemma ShiftComponents4Minus_length {A : Type} (zero : A) (l : list A) (n : nat) :
  (n ≤ length l)%nat → length (ShiftComponents4Minus zero l n) = length l.
Proof.
  intros Hn. unfold ShiftComponents4Minus.
  rewrite length_app, length_drop, length_replicate. lia.
Qed.

Lemma ShiftComponents4Minus_take {A : Type} (zero : A) (l : list A) (n : nat) :
  (n ≤ length l)%nat →
  take n (ShiftComponents4Minus zero l n) = drop (length l - n) l.
Proof.
  intros Hn. unfold ShiftComponents4Minus.
  rewrite take_app_length'; [done|]. rewrite length_drop. lia.
Qed.

Lemma closer_count_le {A : Type} (f : Float) (lanes : list (Float * A)) :
  (length (filter (λ b : bool, b = true) ((λ lane, Float_lt lane.1 f) <$> lanes))
   ≤ length lanes)%nat.
Proof.
  etrans; [apply length_filter|]. by rewrite length_fmap.
Qed.

Lemma ray_VisitNodes_ok (origin : Vec3) (inv_direction : RayInvDirection)
    (early_out : Float) (distance_stack : Z → Float) (bounds : list AABox)
    (properties : list Node) (top : Z) :
  length bounds = length properties →
  let r := ray_VisitNodes origin inv_direction early_out distance_stack bounds
             properties top in
  0 ≤ r.2 ∧ (Z.to_nat r.2 ≤ length r.1.2)%nat ∧
  (nodes_size (take (Z.to_nat r.2) r.1.2) ≤ nodes_size properties)%nat.
Proof.
  intros Hlen. unfold ray_VisitNodes. cbn zeta. cbn [fst snd].
  set (sorted := sSort4Reverse (zip (RayAABox origin inv_direction <$> bounds) properties)).
  set (n := length (filter _ _)).
  assert (Hn : (n ≤ length sorted.*2)%nat).
  { rewrite length_fmap. apply closer_count_le. }
  rewrite Nat2Z.id. split; [lia|]. split.
  - by rewrite ShiftComponents4Minus_length.
  - rewrite ShiftComponents4Minus_take by done.
    etrans; [apply nodes_size_drop|].
    rewrite (nodes_size_Permutation (sorted.*2) properties); [done|].
    unfold sorted. rewrite sSort4Reverse_Permutation.
    rewrite snd_zip; [done|]. rewrite length_fmap. lia.
Qed.

Lemma CastRayVisitor_ok : visitor_ok CastRayVisitor.
Proof.
  intros v bounds properties top Hlen.
  pose proof (ray_VisitNodes_ok (ray_mRayOrigin v) (ray_mRayInvDirection v)
                (mFraction (ray_mHit v)) (ray_mDistanceStack v) bounds properties top Hlen)
    as Hr.
  cbn [VisitNodes CastRayVisitor_Visitor]. unfold CastRayVisitor_VisitNodes.
  cbn zeta in *. by destruct (ray_VisitNodes _ _ _ _ _ _ _) as [[stack props] n].
Qed.

Lemma CollectVisitor_ok {C : Type} {HC : CollisionCollector RayCastResult C} :
  visitor_ok (CollectVisitor C).
Proof.
  intros v bounds properties top Hlen.
  pose proof (ray_VisitNodes_ok (col_mRayOrigin v) (col_mRayInvDirection v)
                (GetEarlyOutFraction (col_mCollector v)) (col_mDistanceStack v)
                bounds properties top Hlen) as Hr.
  cbn [VisitNodes CollectVisitor_Visitor]. unfold CollectVisitor_VisitNodes.
  cbn zeta in *. by destruct (ray_VisitNodes _ _ _ _ _ _ _) as [[stack props] n].
Qed.

(** A walk that starts at the root of a shape. *)
Lemma MeshShape_WalkTree_terminates {V : Type} {HV : Visitor V} (fuel : nat)
    (this : MeshShape) (v : V) :
  visitor_ok V → (node_size (mRoot (mTree this)) ≤ fuel)%nat →
  is_Some (MeshShape_WalkTree fuel this v).
Proof.
  intros Hok Hfuel. unfold MeshShape_WalkTree. apply fmap_is_Some.
  apply WalkTree_terminates; [done|done|].
  unfold pending_nodes, DecodingContext_new, stack_nodes, nodes_size. simpl. lia.
Qed.

(** ** Two visitors that take the same decisions *)

Section Simulation.
Context {V1 V2 : Type} {HV1 : Visitor V1} {HV2 : Visitor V2}.
Variable R : V1 → V2 → Prop.
Hypothesis R_ShouldAbort : ∀ v1 v2, R v1 v2 → ShouldAbort v1 = ShouldAbort v2.
Hypothesis R_ShouldVisitNode :
  ∀ v1 v2 i, R v1 v2 → ShouldVisitNode v1 i = ShouldVisitNode v2 i.
Hypothesis R_VisitNodes :
  ∀ v1 v2 bounds properties top, R v1 v2 →
    R (VisitNodes v1 bounds properties top).1.1 (VisitNodes v2 bounds properties top).1.1 ∧
    (VisitNodes v1 bounds properties top).1.2 = (VisitNodes v2 bounds properties top).1.2 ∧
    (VisitNodes v1 bounds properties top).2 = (VisitNodes v2 bounds properties top).2.
Hypothesis R_VisitTriangles :
  ∀ v1 v2 triangles block, R v1 v2 →
    R (VisitTriangles v1 triangles block) (VisitTriangles v2 triangles block).

Lemma pop_nodes_sim (v1 : V1) (v2 : V2) (n : nat) :
  R v1 v2 → pop_nodes v1 n = pop_nodes v2 n.
Proof.
  intros HR. induction n as [|m IH]; cbn [pop_nodes]; [done|].
  by rewrite (R_ShouldVisitNode v1 v2 _ HR), IH.
Qed.

Lemma visit_node_sim (ctx : DecodingContext) (v1 : V1) (v2 : V2) :
  R v1 v2 →
  (visit_node ctx v1).1 = (visit_node ctx v2).1 ∧
  R (visit_node ctx v1).2 (visit_node ctx v2).2.
Proof.
  intros HR. unfold visit_node.
  destruct (mNodeStack ctx (mTop ctx)) as [b0 b1 b2 b3 c0 c1 c2 c3|block tris|].
  - destruct (R_VisitNodes v1 v2 [b0; b1; b2; b3] [c0; c1; c2; c3] (mTop ctx) HR)
      as (HR' & Hprops & Hnum).
    destruct (VisitNodes v1 _ _ _) as [[v1' props1] n1].
    destruct (VisitNodes v2 _ _ _) as [[v2' props2] n2].
    cbn [fst snd] in *. by subst.
  - cbn [fst snd]. split; [done|]. by apply R_VisitTriangles.
  - done.
Qed.

Lemma WalkTree_sim (fuel : nat) :
  ∀ (ctx : DecodingContext) (v1 : V1) (v2 : V2),
    R v1 v2 →
    match WalkTree fuel ctx v1, WalkTree fuel ctx v2 with
    | Some r1, Some r2 => r1.1 = r2.1 ∧ R r1.2 r2.2
    | None, None => True
    | _, _ => False
    end.
Proof.
  induction fuel as [|fuel IH]; intros ctx v1 v2 HR; [done|].
  rewrite !WalkTree_S. cbn zeta.
  destruct (visit_node_sim ctx v1 v2 HR) as [Hctx HR'].
  rewrite (R_ShouldAbort _ _ HR'), (pop_nodes_sim _ _ _ HR'), Hctx.
  destruct (ShouldAbort (visit_node ctx v2).2); [done|].
  destruct (0 <=? _); [by apply IH|done].
Qed.

End Simulation.

(** ** CollidePoint *)

Lemma to_int_mod2 (x : Z) : to_int x mod 2 = x mod 2.
Proof.
  unfold to_int. cbn zeta.
  assert (H1 : (x mod 2 ^ 32) mod 2 = x mod 2).
  { apply Z.mod_mod_divide. by exists (2 ^ 31). }
  destruct (x mod 2 ^ 32 <? 2 ^ 31); [done|].
  replace (x mod 2 ^ 32 - 2 ^ 32) with (x mod 2 ^ 32 + (- 2 ^ 31) * 2) by lia.
  by rewrite Z.mod_add.
Qed.

Lemma to_int_succ (x : Z) : to_int (to_int x + 1) = to_int (x + 1).
Proof.
  unfold to_int. cbn zeta.
  assert (H1 : (x mod 2 ^ 32 + 1) mod 2 ^ 32 = (x + 1) mod 2 ^ 32)
    by (by rewrite Z.add_mod_idemp_l).
  destruct (x mod 2 ^ 32 <? 2 ^ 31); [by rewrite H1|].
  replace (x mod 2 ^ 32 - 2 ^ 32 + 1) with (x mod 2 ^ 32 + 1 + (-1) * 2 ^ 32) by lia.
  by rewrite Z.mod_add, H1.
Qed.

(** The parity test of the [int] counter is the parity of the number of
    hits, also where the counter has wrapped around. *)
Lemma hit_count_parity (n : nat) :
  (Z.land (to_int (Z.of_nat n)) 1 =? 1) = Nat.odd n.
Proof.
  change 1 with (Z.ones 1) at 1. rewrite Z.land_ones by lia.
  change (2 ^ 1) with 2. rewrite to_int_mod2.
  destruct (Nat.Even_or_Odd n) as [[k ->]|[k ->]].
  - rewrite Nat.odd_even. rewrite Nat2Z.inj_mul, Z.mul_comm, Z.mod_mul; [done|lia].
  - rewrite Nat.odd_odd.
    rewrite Nat2Z.inj_add, Nat2Z.inj_mul, Z.add_comm, (Z.mul_comm (Z.of_nat 2)), Z.mod_add;
      [done|lia].
Qed.

Lemma counts_hits_new : counts_hits HitCountCollector_new HitRecorder_new.
Proof. by repeat split. Qed.

Lemma counts_hits_AddHit (c : HitCountCollector) (r : HitRecorder) (hit : RayCastResult) :
  counts_hits c r → counts_hits (AddHit c hit) (AddHit r hit).
Proof.
  intros (Hfrac & Hctx & Hcount & Hid). unfold counts_hits. cbn. split_and!; [done|done| |].
  - rewrite Hcount, to_int_succ, length_app. cbn [length]. f_equal. lia.
  - by rewrite last_snoc.
Qed.

Lemma same_cast_collect_triangle (v1 : CollectVisitor HitCountCollector)
    (v2 : CollectVisitor HitRecorder) id c r i t :
  same_cast v1 v2 → counts_hits c r →
  counts_hits (collect_triangle v1 id c i t) (collect_triangle v2 id r i t).
Proof.
  intros (_ & Ho & Hd & _ & Hm & _) Hcr. unfold collect_triangle.
  rewrite Ho, Hd, Hm.
  destruct (match col_mBackFaceMode v2 with
            | IgnoreBackFaces => _ | CollideWithBackFaces => false end); [done|].
  pose proof Hcr as (Hfrac & Hctx & _).
  change (GetEarlyOutFraction c) with (hc_mEarlyOutFraction c).
  change (GetEarlyOutFraction r) with (rec_mEarlyOutFraction r).
  change (GetContext c) with (hc_mContext c).
  change (GetContext r) with (rec_mContext r).
  rewrite Hfrac, Hctx.
  destruct (Float_lt _ (rec_mEarlyOutFraction r)); [|done].
  by apply counts_hits_AddHit.
Qed.

Lemma same_cast_collect_triangles (v1 : CollectVisitor HitCountCollector)
    (v2 : CollectVisitor HitRecorder) id tris :
  same_cast v1 v2 → ∀ c r i, counts_hits c r →
  counts_hits (collect_triangles v1 id c i tris) (collect_triangles v2 id r i tris).
Proof.
  intros Hv. induction tris as [|t rest IH]; intros c r i Hcr; [done|].
  cbn [collect_triangles]. apply IH. by apply same_cast_collect_triangle.
Qed.

Lemma same_cast_WalkTree (fuel : nat) (ctx : DecodingContext)
    (v1 : CollectVisitor HitCountCollector) (v2 : CollectVisitor HitRecorder) :
  same_cast v1 v2 →
  match WalkTree fuel ctx v1, WalkTree fuel ctx v2 with
  | Some r1, Some r2 => r1.1 = r2.1 ∧ same_cast r1.2 r2.2
  | None, None => True
  | _, _ => False
  end.
Proof.
  apply (WalkTree_sim same_cast).
  - intros a b ((Hfrac & _) & _). cbn. by rewrite Hfrac.
  - intros a b i ((Hfrac & _) & _ & _ & _ & _ & _ & _ & Hstack). cbn.
    by rewrite Hfrac, Hstack.
  - intros a b bounds properties top (Hc & Ho & Hd & Hi & Hm & Hb & Hs & Hstack).
    cbn [VisitNodes CollectVisitor_Visitor]. unfold CollectVisitor_VisitNodes.
    pose proof Hc as (Hfrac & _).
    change (GetEarlyOutFraction (col_mCollector a))
      with (hc_mEarlyOutFraction (col_mCollector a)).
    change (GetEarlyOutFraction (col_mCollector b))
      with (rec_mEarlyOutFraction (col_mCollector b)).
    rewrite Ho, Hi, Hfrac, Hstack.
    destruct (ray_VisitNodes _ _ _ _ _ _ _) as [[stack props] n]. cbn [fst snd].
    split; [|done]. unfold same_cast. cbn. by split_and!.
  - intros a b tris block Hab. pose proof Hab as (Hc & Ho & Hd & Hi & Hm & Hb & Hs & Hstack).
    cbn [VisitTriangles CollectVisitor_Visitor]. unfold CollectVisitor_VisitTriangles.
    split; [|by split_and!].
    cbn [set_col_mCollector col_mCollector]. rewrite Hs, Hb.
    by apply same_cast_collect_triangles.
Qed.

(** C7. [CollidePoint] leaves the collector untouched for a point outside
    the root bounds.  For a point inside them it casts the ray from the point
    along the Y axis scaled by 1.1 times the Y size of the root bounds, with
    [CollideWithBackFaces], and reports one hit exactly when the number of
    hits that cast produces is odd; the hit carries the body of the
    collector's context and the sub-shape identifier of the last hit of the
    cast. *)
Theorem CollidePoint_parity {C : Type} {HC : CollisionCollector CollidePointResult C}
    (fuel : nat) (this : MeshShape) (distance_stack : Z → Float) (inPoint : Vec3)
    (inSubShapeIDCreator : SubShapeIDCreator) (ioCollector : C) :
  let bounds := mRootBounds (mTree this) in
  let ray :=
    mkRayCast inPoint
      (Vec3_scale (Float_mul Float_1_1 (Vec3_GetY (AABox_GetSize bounds))) Vec3_sAxisY) in
  (AABox_Contains bounds inPoint = false →
     CollidePoint fuel this distance_stack inPoint inSubShapeIDCreator ioCollector
     = Some ioCollector) ∧
  (AABox_Contains bounds inPoint = true →
     (node_size (mRoot (mTree this)) ≤ fuel)%nat →
     ∃ trace : HitRecorder,
       CastRay_collector fuel this distance_stack ray
         (mkRayCastSettings CollideWithBackFaces) inSubShapeIDCreator HitRecorder_new
       = Some trace ∧
       CollidePoint fuel this distance_stack inPoint inSubShapeIDCreator ioCollector
       = Some (if Nat.odd (length (rec_hits trace))
               then AddHit ioCollector
                      (mkCollidePointResult (sGetBodyID (GetContext ioCollector))
                         (default SubShapeID_empty
                            (mSubShapeID2 <$> last (rec_hits trace))))
               else ioCollector)).
Proof.
  intros bounds ray. unfold CollidePoint, GetLocalBounds. fold bounds. cbn zeta. split.
  - by intros ->.
  - intros -> Hfuel. unfold CollidePoint_ray. fold ray.
    unfold CastRay_collector, MeshShape_WalkTree.
    set (v1 := mkCollectVisitor HitCountCollector_new _ _ _ _ _ _ _).
    set (v2 := mkCollectVisitor HitRecorder_new _ _ _ _ _ _ _).
    assert (Hv : same_cast v1 v2).
    { unfold same_cast. cbn. split_and!; first [done | apply counts_hits_new]. }
    pose proof (same_cast_WalkTree fuel (DecodingContext_new (mTree this)) v1 v2 Hv) as Hsim.
    destruct (WalkTree_terminates (V := CollectVisitor HitRecorder) fuel CollectVisitor_ok
                (DecodingContext_new (mTree this)) v2) as [[ctx2 r2] Hr2]; [done| |].
    { unfold pending_nodes, DecodingContext_new, stack_nodes, nodes_size. simpl. lia. }
    rewrite Hr2 in Hsim |- *.
    destruct (WalkTree fuel _ v1) as [[ctx1 r1]|]; [|done].
    cbn [fst snd] in Hsim. destruct Hsim as (_ & (_ & _ & Hcount & Hid) & _).
    exists (col_mCollector r2). split; [done|].
    cbn [fmap option_fmap option_map mbind option_bind snd].
    rewrite Hcount, Hid, hit_count_parity.
    by destruct (Nat.odd _).
Qed.

(** ** GetTrianglesNext *)

Lemma pop_nodes_all {V : Type} {HV : Visitor V} (v : V) (n : nat) :
  (∀ i, ShouldVisitNode v i = true) → pop_nodes v n = Z.of_nat n - 1.
Proof. intros Hall. destruct n; cbn [pop_nodes]; [done|]. rewrite Hall. lia. Qed.

Lemma pending_nodes_top (ctx : DecodingContext) :
  0 ≤ mTop ctx →
  pending_nodes ctx
  = stack_nodes (mNodeStack ctx) (Z.to_nat (mTop ctx)) ++ [mNodeStack ctx (mTop ctx)].
Proof.
  intros Htop. unfold pending_nodes.
  replace (Z.to_nat (mTop ctx + 1)) with (S (Z.to_nat (mTop ctx))) by lia.
  by rewrite stack_nodes_S, Z2Nat.id.
Qed.

Lemma pending_nodes_done (ctx : DecodingContext) :
  mTop ctx < 0 → pending_nodes ctx = [].
Proof.
  intros Htop. unfold pending_nodes.
  by replace (Z.to_nat (mTop ctx + 1)) with 0%nat by lia.
Qed.

Lemma store_vertices_app (c : MSGetTrianglesContext) (l1 l2 : list EncodedTriangle) :
  store_vertices c (l1 ++ l2) = store_vertices c l1 ++ store_vertices c l2.
Proof.
  unfold store_vertices, Unpack. destruct (mIsInsideOut c).
  - apply flat_map_app.
  - by rewrite flat_map_app, fmap_app.
Qed.

Lemma store_materials_app (c : MSGetTrianglesContext) (l1 l2 : list EncodedTriangle) :
  store_materials c (l1 ++ l2) = store_materials c l1 ++ store_materials c l2.
Proof.
  unfold store_materials. destruct (bool_decide _).
  - by rewrite length_app, replicate_add.
  - by rewrite fmap_app.
Qed.

Lemma store_vertices_nil (c : MSGetTrianglesContext) : store_vertices c [] = [].
Proof. unfold store_vertices. by destruct (mIsInsideOut c). Qed.

Lemma store_materials_nil (c : MSGetTrianglesContext) : store_materials c [] = [].
Proof. unfold store_materials. by destruct (bool_decide _). Qed.

Lemma deliver_nil (c : MSGetTrianglesContext) : deliver c [] (mShouldAbort c) = c.
Proof.
  unfold deliver. cbn [concat length]. rewrite store_vertices_nil, store_materials_nil.
  destruct c as [? ? ? ? ? ? ? ? mats ? ?]. cbn. rewrite app_nil_r, Z.add_0_r.
  f_equal. destruct mats; cbn; [|done]. by rewrite app_nil_r.
Qed.

Lemma deliver_cons (c : MSGetTrianglesContext) (leaf : list EncodedTriangle)
    (leaves : list (list EncodedTriangle)) (aborted : bool) :
  deliver (deliver c [leaf] false) leaves aborted = deliver c (leaf :: leaves) aborted.
Proof.
  unfold deliver. cbn [concat]. rewrite app_nil_r.
  destruct c as [? ? ? ? ? ? ? ? mats ? ?]. cbn.
  rewrite store_vertices_app, store_materials_app, length_app. cbn.
  unfold store_vertices, store_materials. cbn.
  f_equal.
  - by rewrite app_assoc.
  - lia.
  - destruct mats; cbn; [|done]. by rewrite app_assoc.
Qed.

Lemma MSGetTrianglesContext_VisitTriangles_fits (c : MSGetTrianglesContext)
    (tris : list EncodedTriangle) (block : Z) :
  0 ≤ mNumTrianglesFound c → 
  mNumTrianglesFound c + Z.of_nat (length tris) ≤ mMaxTrianglesRequested c →
  mMaxTrianglesRequested c < 2 ^ 31 →
  mShouldAbort c = false →
  VisitTriangles c tris block = deliver c [tris] false.
Proof.
  intros Hfound Hfits Hmax Habort.
  cbn [VisitTriangles MSGetTrianglesContext_Visitor].
  unfold MSGetTrianglesContext_VisitTriangles. cbn zeta.
  rewrite to_int_small by lia.
  rewrite (proj2 (Z.ltb_ge _ _)) by lia.
  unfold deliver. cbn [concat]. by rewrite app_nil_r, Habort.
Qed.

Lemma MSGetTrianglesContext_VisitTriangles_overflow (c : MSGetTrianglesContext)
    (tris : list EncodedTriangle) (block : Z) :
  0 ≤ mNumTrianglesFound c → 
  mMaxTrianglesRequested c < mNumTrianglesFound c + Z.of_nat (length tris) →
  mNumTrianglesFound c + Z.of_nat (length tris) < 2 ^ 31 →
  VisitTriangles c tris block = deliver c [] true.
Proof.
  intros Hfound Hover Hint.
  cbn [VisitTriangles MSGetTrianglesContext_Visitor].
  unfold MSGetTrianglesContext_VisitTriangles. cbn zeta.
  rewrite to_int_small by lia.
  rewrite (proj2 (Z.ltb_lt _ _)) by lia.
  unfold deliver. cbn [concat length]. rewrite store_vertices_nil, store_materials_nil.
  rewrite app_nil_r, Z.add_0_r. f_equal.
  destruct (ctx_mMaterials c); cbn; [|done]. by rewrite app_nil_r.
Qed.

Lemma filter_true_cons (b : bool) (l : list bool) :
  filter (λ x : bool, x = true) (b :: l)
  = if b then b :: filter (λ x : bool, x = true) l else filter (λ x : bool, x = true) l.
Proof. rewrite filter_cons. by destruct b. Qed.

Lemma filter_lane_cons {A : Type} (b : bool) (x : A) (l : list (bool * A)) :
  filter (λ lane : bool * A, lane.1 = true) ((b, x) :: l)
  = if b then (b, x) :: filter (λ lane : bool * A, lane.1 = true) l
    else filter (λ lane : bool * A, lane.1 = true) l.
Proof. rewrite filter_cons. by destruct b. Qed.

(** The children the region query pushes are the colliding ones, in lane
    order. *)
Lemma MSGetTrianglesContext_VisitNodes_kept (c : MSGetTrianglesContext)
    (b0 b1 b2 b3 : AABox) (c0 c1 c2 c3 : Node) (top : Z) :
  ∃ kept : list Node,
    (VisitNodes c [b0; b1; b2; b3] [c0; c1; c2; c3] top).1.1 = c ∧
    (VisitNodes c [b0; b1; b2; b3] [c0; c1; c2; c3] top).2 = Z.of_nat (length kept) ∧
    (length kept ≤ length (VisitNodes c [b0; b1; b2; b3] [c0; c1; c2; c3] top).1.2)%nat ∧
    take (length kept) (VisitNodes c [b0; b1; b2; b3] [c0; c1; c2; c3] top).1.2 = kept ∧
    selected_leaves (mLocalBox c) (mMeshScale c) (InnerNode b0 b1 b2 b3 c0 c1 c2 c3)
    = flat_map (selected_leaves (mLocalBox c) (mMeshScale c)) (reverse kept) ∧
    (nodes_size kept < node_size (InnerNode b0 b1 b2 b3 c0 c1 c2 c3))%nat ∧
    (leaves_bounded (InnerNode b0 b1 b2 b3 c0 c1 c2 c3) → Forall leaves_bounded kept).
Proof.
  cbn [VisitNodes MSGetTrianglesContext_Visitor].
  unfold MSGetTrianglesContext_VisitNodes, sSort4True, CountTrues.
  cbn [fmap list_fmap fst snd selected_leaves leaves_bounded node_size zip zip_with].
  rewrite !filter_true_cons, !filter_lane_cons, !filter_nil.
  exists (snd <$> filter (λ lane : bool * Node, lane.1 = true)
            (zip [AABox_VsBox (mLocalBox c) (AABox_Scale (mMeshScale c) b0);
                  AABox_VsBox (mLocalBox c) (AABox_Scale (mMeshScale c) b1);
                  AABox_VsBox (mLocalBox c) (AABox_Scale (mMeshScale c) b2);
                  AABox_VsBox (mLocalBox c) (AABox_Scale (mMeshScale c) b3)]
                 [c0; c1; c2; c3])).
  cbn [zip zip_with]. rewrite !filter_lane_cons, !filter_nil.
  destruct (AABox_VsBox (mLocalBox c) (AABox_Scale (mMeshScale c) b0)),
           (AABox_VsBox (mLocalBox c) (AABox_Scale (mMeshScale c) b1)),
           (AABox_VsBox (mLocalBox c) (AABox_Scale (mMeshScale c) b2)),
           (AABox_VsBox (mLocalBox c) (AABox_Scale (mMeshScale c) b3));
    (split_and!;
     [ done | done | cbn; lia | done
     | cbn; rewrite ?app_nil_r, <- ?app_assoc; done
     | unfold nodes_size; cbn; pose proof (node_size_pos c0); lia
     | intros (H0 & H1 & H2 & H3); cbn; repeat constructor; done ]).
Qed.

Lemma GetTriangles_walk_spec_done (ctx : DecodingContext) (c : MSGetTrianglesContext) :
  -1 ≤ mTop ctx < 0 → mShouldAbort c = false →
  GetTriangles_walk_spec ctx c (Some (ctx, c)).
Proof.
  intros Htop Habort. unfold GetTriangles_walk_spec. cbn zeta.
  rewrite pending_nodes_done by lia. cbn [reverse rev_append flat_map fill_buffer fst snd has_leaves].
  pose proof (deliver_nil c) as Hdeliver. rewrite Habort in Hdeliver.
  exists ctx. rewrite Hdeliver, pending_nodes_done by lia.
  split_and!; try done; [lia|].
  unfold IsDoneWalking. cbn [negb]. apply Z.ltb_lt. lia.
Qed.

Lemma GetTriangles_walk_spec_skip (ctx ctx2 : DecodingContext) (c : MSGetTrianglesContext)
    (result : option (DecodingContext * MSGetTrianglesContext)) :
  flat_map (selected_leaves (mLocalBox c) (mMeshScale c)) (reverse (pending_nodes ctx))
  = flat_map (selected_leaves (mLocalBox c) (mMeshScale c)) (reverse (pending_nodes ctx2)) →
  (nodes_size (pending_nodes ctx2) ≤ nodes_size (pending_nodes ctx))%nat →
  GetTriangles_walk_spec ctx2 c result → GetTriangles_walk_spec ctx c result.
Proof.
  intros Hleaves Hsize. unfold GetTriangles_walk_spec. cbn zeta. rewrite Hleaves.
  intros (ctx' & Hres & Hleft & Hbounded & Hsize' & Htop & Hdone).
  exists ctx'. split_and!; try done. lia.
Qed.

Lemma GetTriangles_walk_spec_consume (ctx ctx2 : DecodingContext)
    (c : MSGetTrianglesContext) (tris : list EncodedTriangle)
    (result : option (DecodingContext * MSGetTrianglesContext)) :
  flat_map (selected_leaves (mLocalBox c) (mMeshScale c)) (reverse (pending_nodes ctx))
  = tris :: flat_map (selected_leaves (mLocalBox c) (mMeshScale c))
              (reverse (pending_nodes ctx2)) →
  (nodes_size (pending_nodes ctx2) ≤ nodes_size (pending_nodes ctx))%nat →
  mNumTrianglesFound c + Z.of_nat (length tris) ≤ mMaxTrianglesRequested c →
  GetTriangles_walk_spec ctx2 (deliver c [tris] false) result →
  GetTriangles_walk_spec ctx c result.
Proof.
  intros Hleaves Hsize Hfits. unfold GetTriangles_walk_spec. cbn zeta. rewrite Hleaves.
  cbn [fill_buffer]. rewrite (proj2 (Z.ltb_ge _ _)) by lia.
  cbn [deliver mLocalBox mMeshScale mMaxTrianglesRequested mNumTrianglesFound concat].
  rewrite app_nil_r.
  destruct (fill_buffer _ _ _) as [delivered left'] eqn:Hfill. cbn [fst snd].
  intros (ctx' & Hres & Hleft & Hbounded & Hsize' & Htop & Hdone).
  exists ctx'. split_and!; try done; [|lia].
  rewrite Hres. do 2 f_equal. apply deliver_cons.
Qed.

Lemma GetTriangles_walk_spec_abort (ctx : DecodingContext) (c : MSGetTrianglesContext)
    (tris : list EncodedTriangle) (later : list (list EncodedTriangle)) :
  0 ≤ mTop ctx → Forall leaves_bounded (pending_nodes ctx) →
  flat_map (selected_leaves (mLocalBox c) (mMeshScale c)) (reverse (pending_nodes ctx))
  = tris :: later →
  mMaxTrianglesRequested c < mNumTrianglesFound c + Z.of_nat (length tris) →
  GetTriangles_walk_spec ctx c (Some (ctx, deliver c [] true)).
Proof.
  intros Htop Hbounded Hleaves Hover. unfold GetTriangles_walk_spec. cbn zeta.
  rewrite Hleaves. cbn [fill_buffer]. rewrite (proj2 (Z.ltb_lt _ _)) by lia.
  cbn [fst snd has_leaves]. exists ctx. split_and!; try done; [lia|].
  unfold IsDoneWalking. cbn [negb]. apply Z.ltb_ge. lia.
Qed.

Lemma nodes_size_singleton (n : Node) : nodes_size [n] = node_size n.
Proof. unfold nodes_size. simpl. lia. Qed.

Lemma GetTriangles_walk (fuel : nat) :
  ∀ (ctx : DecodingContext) (c : MSGetTrianglesContext),
    0 ≤ mTop ctx → (nodes_size (pending_nodes ctx) ≤ fuel)%nat →
    Forall leaves_bounded (pending_nodes ctx) →
    mShouldAbort c = false →
    0 ≤ mNumTrianglesFound c ≤ mMaxTrianglesRequested c →
    request_ok (mMaxTrianglesRequested c) →
    GetTriangles_walk_spec ctx c (WalkTree fuel ctx c).
Proof.
  induction fuel as [|fuel IH]; intros ctx c Htop Hfuel Hbounded Habort Hfound Hreq.
  { rewrite pending_nodes_size in Hfuel by done.
    pose proof (node_size_pos (mNodeStack ctx (mTop ctx))). lia. }
  assert (Hnext : ∀ ctx2 c2,
            -1 ≤ mTop ctx2 → (nodes_size (pending_nodes ctx2) ≤ fuel)%nat →
            Forall leaves_bounded (pending_nodes ctx2) →
            mShouldAbort c2 = false →
            0 ≤ mNumTrianglesFound c2 ≤ mMaxTrianglesRequested c2 →
            request_ok (mMaxTrianglesRequested c2) →
            GetTriangles_walk_spec ctx2 c2
              (if 0 <=? mTop ctx2 then WalkTree fuel ctx2 c2 else Some (ctx2, c2))).
  { intros ctx2 c2 Htop2 Hfuel2 Hbounded2 Habort2 Hfound2 Hreq2.
    destruct (Z.leb_spec 0 (mTop ctx2)).
    - by apply IH.
    - apply GetTriangles_walk_spec_done; [lia|done]. }
  rewrite WalkTree_S. cbn zeta.
  pose proof (pending_nodes_top ctx Htop) as Hpending.
  rewrite pending_nodes_size in Hfuel by done.
  rewrite Hpending in Hbounded. apply Forall_app in Hbounded as [Hbelow Hnode].
  rewrite Forall_singleton in Hnode.
  assert (Hwant : ∀ c' : MSGetTrianglesContext, ∀ i, ShouldVisitNode c' i = true) by done.
  unfold visit_node.
  destruct (mNodeStack ctx (mTop ctx)) as [b0 b1 b2 b3 c0 c1 c2 c3|block tris|] eqn:Hnode_eq.
  - destruct (MSGetTrianglesContext_VisitNodes_kept c b0 b1 b2 b3 c0 c1 c2 c3 (mTop ctx))
      as (kept & Hc & Hn & Hlen & Htake & Hsel & Hsize & Hkept).
    destruct (VisitNodes c _ _ _) as [[c1' props] n]. cbn [fst snd] in *. subst c1' n.
    change (ShouldAbort c) with (mShouldAbort c). rewrite Habort.
    rewrite pop_nodes_all by done. cbn [mTop mNodeStack].
    set (ctx2 := mkDecodingContext _ _).
    assert (Hpending2 : pending_nodes ctx2
                        = stack_nodes (mNodeStack ctx) (Z.to_nat (mTop ctx)) ++ kept).
    { unfold pending_nodes, ctx2. cbn [mTop mNodeStack].
      replace (Z.to_nat (Z.of_nat (Z.to_nat (mTop ctx + Z.of_nat (length kept))) - 1 + 1))
        with (Z.to_nat (mTop ctx) + length kept)%nat by lia.
      rewrite <- (Z2Nat.id (mTop ctx)) at 1 by done.
      by rewrite stack_nodes_store_lanes, Htake. }
    apply (GetTriangles_walk_spec_skip ctx ctx2).
    { rewrite Hpending, Hpending2, !reverse_app, !flat_map_app. f_equal.
      cbn [reverse rev_append flat_map]. by rewrite app_nil_r. }
    { rewrite Hpending, Hpending2, !nodes_size_app, nodes_size_singleton. lia. }
    apply (Hnext ctx2 c); try done.
    + unfold ctx2. cbn [mTop]. lia.
    + rewrite Hpending2, nodes_size_app. lia.
    + rewrite Hpending2. apply Forall_app. split; [done|]. by apply Hkept.
  - cbn [fst snd].
    assert (Hleaves : flat_map (selected_leaves (mLocalBox c) (mMeshScale c))
                        (reverse (pending_nodes ctx))
                      = tris :: flat_map (selected_leaves (mLocalBox c) (mMeshScale c))
                                  (reverse (stack_nodes (mNodeStack ctx)
                                              (Z.to_nat (mTop ctx))))).
    { by rewrite Hpending, reverse_app. }
    cbn [leaves_bounded] in Hnode. destruct Hreq as (Hreq0 & Hreq1 & Hreq2).
    destruct (Z.ltb_spec (mMaxTrianglesRequested c)
                (mNumTrianglesFound c + Z.of_nat (length tris))) as [Hover|Hfits].
    + rewrite MSGetTrianglesContext_VisitTriangles_overflow by lia.
      cbn [ShouldAbort MSGetTrianglesContext_Visitor deliver mShouldAbort].
      eapply GetTriangles_walk_spec_abort; try done.
      rewrite Hpending. apply Forall_app. split; [done|]. by apply Forall_singleton.
    + rewrite MSGetTrianglesContext_VisitTriangles_fits by (done || lia).
      cbn [ShouldAbort MSGetTrianglesContext_Visitor deliver mShouldAbort].
      rewrite pop_nodes_all by done.
      set (ctx2 := mkDecodingContext _ _).
      assert (Hpending2 : pending_nodes ctx2
                          = stack_nodes (mNodeStack ctx) (Z.to_nat (mTop ctx))).
      { unfold pending_nodes, ctx2. cbn [mTop mNodeStack]. f_equal. lia. }
      apply (GetTriangles_walk_spec_consume ctx ctx2 c tris); [by rewrite Hpending2| |done|].
      { rewrite Hpending, Hpending2, nodes_size_app. lia. }
      apply (Hnext ctx2); try done.
      * unfold ctx2. cbn [mTop]. lia.
      * rewrite Hpending2. cbn [node_size] in Hfuel. lia.
      * by rewrite Hpending2.
      * unfold deliver. cbn [mNumTrianglesFound mMaxTrianglesRequested concat].
        rewrite app_nil_r. lia.
  - cbn [fst snd]. change (ShouldAbort c) with (mShouldAbort c). rewrite Habort.
    rewrite pop_nodes_all by done.
    set (ctx2 := mkDecodingContext _ _).
    assert (Hpending2 : pending_nodes ctx2
                        = stack_nodes (mNodeStack ctx) (Z.to_nat (mTop ctx))).
    { unfold pending_nodes, ctx2. cbn [mTop mNodeStack]. f_equal. lia. }
    apply (GetTriangles_walk_spec_skip ctx ctx2).
    { rewrite Hpending, Hpending2, reverse_app. cbn [reverse rev_append app flat_map].
      done. }
    { rewrite Hpending, Hpending2, nodes_size_app. lia. }
    apply (Hnext ctx2 c); try done.
    + unfold ctx2. cbn [mTop]. lia.
    + rewrite Hpending2. cbn [node_size] in Hfuel. lia.
    + by rewrite Hpending2.
Qed.

Lemma store_vertices_same_query (c1 c2 : MSGetTrianglesContext)
    (tris : list EncodedTriangle) :
  same_query c1 c2 → store_vertices c1 tris = store_vertices c2 tris.
Proof. intros (_ & _ & _ & Hworld & Hflip). unfold store_vertices. by rewrite Hworld, Hflip. Qed.

Lemma store_materials_same_query (c1 c2 : MSGetTrianglesContext)
    (tris : list EncodedTriangle) :
  same_query c1 c2 → store_materials c1 tris = store_materials c2 tris.
Proof. intros (Hshape & _). unfold store_materials. by rewrite Hshape. Qed.

Lemma leaves_output_same_query (c1 c2 : MSGetTrianglesContext) (want : bool)
    (leaves : list (list EncodedTriangle)) :
  same_query c1 c2 → leaves_output c1 want leaves = leaves_output c2 want leaves.
Proof.
  intros Hsame. unfold leaves_output.
  by rewrite (store_vertices_same_query c1 c2), (store_materials_same_query c1 c2).
Qed.

Lemma remaining_leaves_same_query (c1 c2 : MSGetTrianglesContext) :
  same_query c1 c2 → mDecodeCtx c1 = mDecodeCtx c2 →
  remaining_leaves c1 = remaining_leaves c2.
Proof.
  intros (_ & Hbox & Hscale & _) Hctx. unfold remaining_leaves.
  by rewrite Hbox, Hscale, Hctx.
Qed.

(** One call of [GetTrianglesNext]: it delivers what fits of the remaining
    selected leaves, and is done exactly when none is left. *)
Lemma GetTrianglesNext_spec (fuel : nat) (ctx : MSGetTrianglesContext) (request : Z)
    (want : bool) :
  -1 ≤ mTop (mDecodeCtx ctx) →
  (nodes_size (pending_nodes (mDecodeCtx ctx)) ≤ fuel)%nat →
  Forall leaves_bounded (pending_nodes (mDecodeCtx ctx)) →
  request_ok request →
  ∃ ctx',
    GetTrianglesNext fuel ctx request want
    = Some (ctx', leaves_output ctx want (fill_buffer request 0 (remaining_leaves ctx)).1) ∧
    same_query ctx ctx' ∧
    remaining_leaves ctx' = (fill_buffer request 0 (remaining_leaves ctx)).2 ∧
    Forall leaves_bounded (pending_nodes (mDecodeCtx ctx')) ∧
    (nodes_size (pending_nodes (mDecodeCtx ctx'))
     ≤ nodes_size (pending_nodes (mDecodeCtx ctx)))%nat ∧
    -1 ≤ mTop (mDecodeCtx ctx') ∧
    IsDoneWalking (mDecodeCtx ctx')
    = negb (has_leaves (fill_buffer request 0 (remaining_leaves ctx)).2).
Proof.
  intros Htop Hfuel Hbounded Hreq. unfold GetTrianglesNext.
  destruct (IsDoneWalking (mDecodeCtx ctx)) eqn:Hdone.
  - apply Z.ltb_lt in Hdone. unfold remaining_leaves.
    rewrite pending_nodes_done by done.
    cbn [reverse rev_append flat_map fill_buffer fst snd has_leaves negb].
    exists ctx. unfold leaves_output. cbn [concat length].
    rewrite store_vertices_nil, store_materials_nil.
    split_and!; try done.
    + by rewrite pending_nodes_done.
    + by rewrite pending_nodes_done.
    + unfold IsDoneWalking. by apply Z.ltb_lt.
  - apply Z.ltb_ge in Hdone. cbn zeta.
    set (context := mkMSGetTrianglesContext _ _ _ _ _ _ _ _ _ _ _).
    assert (Hsame : same_query ctx context) by done.
    pose proof (GetTriangles_walk fuel (mDecodeCtx ctx) context Hdone Hfuel Hbounded eq_refl)
      as Hwalk.
    destruct Hreq as (Hreq0 & Hreq1 & Hreq2).
    destruct Hwalk as (ctx' & Hres & Hleft & Hbounded' & Hsize & Htop' & Hdone').
    { cbn. lia. }
    { done. }
    change (mDecodeCtx context) with (mDecodeCtx ctx).
    cbn [mLocalBox mMeshScale mMaxTrianglesRequested mNumTrianglesFound context]
      in Hres, Hleft, Hdone'.
    fold (remaining_leaves ctx) in Hres, Hleft, Hdone'.
    rewrite Hres. cbn [mbind option_bind].
    eexists. split; [|split_and!].
    + f_equal. f_equal. unfold leaves_output, deliver.
      cbn [mNumTrianglesFound ctx_mTriangleVertices ctx_mMaterials context app].
      rewrite Z.add_0_l.
      rewrite <- (store_vertices_same_query ctx context) by done.
      rewrite <- (store_materials_same_query ctx context) by done.
      f_equal. by destruct want.
    + done.
    + done.
    + done.
    + done.
    + done.
    + done.
Qed.

(** *** Filling buffers *)

Lemma fill_buffer_app (max : Z) (leaves : list (list EncodedTriangle)) :
  ∀ found, (fill_buffer max found leaves).1 ++ (fill_buffer max found leaves).2 = leaves.
Proof.
  induction leaves as [|leaf rest IH]; intros found; [done|]. cbn [fill_buffer].
  destruct (max <? found + Z.of_nat (length leaf)); [done|].
  specialize (IH (found + Z.of_nat (length leaf))).
  destruct (fill_buffer max _ rest) as [delivered left']. cbn [fst snd app] in *.
  by f_equal.
Qed.

Lemma fill_buffer_fits (max : Z) (leaves : list (list EncodedTriangle)) :
  ∀ found, found ≤ max →
    found + Z.of_nat (length (concat (fill_buffer max found leaves).1)) ≤ max.
Proof.
  induction leaves as [|leaf rest IH]; intros found Hfound; cbn [fill_buffer].
  { cbn. lia. }
  destruct (Z.ltb_spec max (found + Z.of_nat (length leaf))) as [Hover|Hfits].
  { cbn. lia. }
  specialize (IH (found + Z.of_nat (length leaf)) Hfits).
  destruct (fill_buffer max _ rest) as [delivered left']. cbn [fst snd concat] in *.
  rewrite length_app. lia.
Qed.

Lemma fill_buffer_overflow (max : Z) (leaves : list (list EncodedTriangle)) :
  ∀ found leaf, head (fill_buffer max found leaves).2 = Some leaf →
    max < found + Z.of_nat (length (concat (fill_buffer max found leaves).1))
          + Z.of_nat (length leaf).
Proof.
  induction leaves as [|leaf' rest IH]; intros found leaf; cbn [fill_buffer]; [done|].
  destruct (Z.ltb_spec max (found + Z.of_nat (length leaf'))) as [Hover|Hfits].
  { cbn. intros [= <-]. lia. }
  specialize (IH (found + Z.of_nat (length leaf')) leaf).
  destruct (fill_buffer max _ rest) as [delivered left']. cbn [fst snd concat] in *.
  intros Hhead. specialize (IH Hhead). rewrite length_app. lia.
Qed.

Lemma fill_buffer_first (max : Z) (leaves : list (list EncodedTriangle))
    (leaf : list EncodedTriangle) :
  Forall leaf_ok leaves → MaxTrianglesPerLeaf ≤ max →
  head leaves = Some leaf → head (fill_buffer max 0 leaves).1 = Some leaf.
Proof.
  intros Hok Hmax. destruct leaves as [|leaf' rest]; [done|]. intros [= ->].
  apply Forall_cons in Hok as [Hleaf _]. unfold leaf_ok in Hleaf.
  cbn [fill_buffer]. rewrite (proj2 (Z.ltb_ge _ _)) by lia.
  by destruct (fill_buffer max _ rest).
Qed.

Lemma fill_buffer_leaf_ok (max found : Z) (leaves : list (list EncodedTriangle)) :
  Forall leaf_ok leaves → Forall leaf_ok (fill_buffer max found leaves).2.
Proof.
  intros Hok. rewrite <- (fill_buffer_app max leaves found) in Hok.
  by apply Forall_app in Hok as [_ ?].
Qed.

Lemma fill_buffers_nil (requests : list Z) :
  fill_buffers requests [] = (replicate (length requests) [], []).
Proof.
  induction requests as [|request later IH]; [done|].
  cbn [fill_buffers fill_buffer]. by rewrite IH.
Qed.

Lemma fill_buffers_progress (requests : list Z) :
  ∀ leaves,
    Forall request_ok requests → Forall leaf_ok leaves →
    (length leaves ≤ length requests)%nat → (fill_buffers requests leaves).2 = [].
Proof.
  induction requests as [|request later IH]; intros leaves Hreqs Hleaves Hlen.
  { destruct leaves; [done|]. cbn in Hlen. lia. }
  apply Forall_cons in Hreqs as [(Hreq0 & Hreq1 & Hreq2) Hlater].
  cbn [fill_buffers].
  pose proof (fill_buffer_app request leaves 0) as Happ.
  pose proof (fill_buffer_leaf_ok request 0 leaves Hleaves) as Hleft.
  pose proof (fill_buffer_first request leaves) as Hfirst.
  destruct (fill_buffer request 0 leaves) as [delivered left'] eqn:Hfill.
  cbn [fst snd] in *.
  specialize (IH left' Hlater Hleft).
  destruct (fill_buffers later left') as [chunks remaining]. cbn [fst snd] in *.
  apply IH. destruct leaves as [|leaf rest].
  - apply (f_equal length) in Happ. rewrite length_app in Happ. cbn in *. lia.
  - specialize (Hfirst leaf Hleaves Hreq1 eq_refl).
    destruct delivered as [|leaf' delivered']; [done|].
    apply (f_equal length) in Happ. rewrite length_app in Happ. cbn in *. lia.
Qed.

Lemma fill_buffers_delivery_ok (requests : list Z) :
  ∀ leaves,
    Forall request_ok requests → Forall leaf_ok leaves →
    delivery_ok requests leaves (fill_buffers requests leaves).1
      (fill_buffers requests leaves).2.
Proof.
  induction requests as [|request later IH]; intros leaves Hreqs Hleaves.
  { cbn. split_and!; try done. intros Hlen. destruct leaves; [done|]. cbn in Hlen. lia. }
  pose proof (fill_buffers_progress (request :: later) leaves Hreqs Hleaves) as Hprogress.
  apply Forall_cons in Hreqs as [(Hreq0 & Hreq1 & Hreq2) Hlater].
  cbn [fill_buffers] in Hprogress |- *.
  pose proof (fill_buffer_app request leaves 0) as Happ.
  pose proof (fill_buffer_fits request leaves 0 Hreq0) as Hfits.
  pose proof (fill_buffer_overflow request leaves 0) as Hover.
  pose proof (fill_buffer_leaf_ok request 0 leaves Hleaves) as Hleft.
  destruct (fill_buffer request 0 leaves) as [delivered left'] eqn:Hfill.
  cbn [fst snd] in *.
  specialize (IH left' Hlater Hleft).
  destruct (fill_buffers later left') as [chunks remaining] eqn:Hfills.
  cbn [fst snd] in *.
  destruct IH as (Hlen & Hconcat & Hcalls & Hzero & _).
  split_and!; [| | | |done].
  - cbn. by rewrite Hlen.
  - cbn [concat]. by rewrite <- app_assoc, Hconcat.
  - intros [|k] req chunk Hreq Hchunk; cbn in Hreq, Hchunk.
    + injection Hreq as <-. injection Hchunk as <-. split; [lia|].
      change (drop 1 (delivered :: chunks)) with chunks.
      rewrite Hconcat. intros leaf Hleaf. split.
      * specialize (Hover leaf Hleaf). lia.
      * intros chunk' Hchunk'. destruct later as [|request' later']; [by destruct chunks|].
        cbn [fill_buffers] in Hfills.
        apply Forall_cons in Hlater as [(_ & Hreq1' & _) _].
        pose proof (fill_buffer_first request' left' leaf Hleft Hreq1' Hleaf) as Hfirst.
        destruct (fill_buffer request' 0 left') as [delivered' left''].
        destruct (fill_buffers later' left'') as [chunks' remaining'].
        injection Hfills as <- <-. cbn in Hchunk'. by injection Hchunk' as <-.
    + by apply Hcalls.
  - intros [|k] chunk Hchunk Hempty; cbn in Hchunk.
    + injection Hchunk as <-.
      assert (left' = []) as ->.
      { destruct left' as [|leaf rest]; [done|]. exfalso.
        specialize (Hover leaf eq_refl). rewrite Hempty in Hover. cbn in Hover.
        apply Forall_cons in Hleft as [Hleaf _]. unfold leaf_ok in Hleaf. lia. }
      rewrite fill_buffers_nil in Hfills. injection Hfills as <- <-.
      split; [done|]. intros [|j] chunk' Hj Hchunk'; [lia|]. cbn in Hchunk'.
      by apply lookup_replicate in Hchunk' as [-> _].
    + destruct (Hzero k chunk Hchunk Hempty) as [-> Hall]. split; [done|].
      intros [|j] chunk' Hj Hchunk'; [lia|]. cbn in Hchunk'.
      apply (Hall j); [lia|done].
Qed.

Lemma selected_leaves_ok (box : OrientedBox) (scale : Vec3) (n : Node) :
  leaves_bounded n → Forall leaf_ok (selected_leaves box scale n).
Proof.
  induction n as [b0 b1 b2 b3 c0 IH0 c1 IH1 c2 IH2 c3 IH3|block tris|];
    cbn [selected_leaves leaves_bounded].
  - intros (H0 & H1 & H2 & H3).
    repeat (apply Forall_app; split);
      match goal with |- Forall _ (if ?b then _ else _) => destruct b end; auto.
  - intros Hlen. by apply Forall_singleton.
  - constructor.
Qed.

Lemma remaining_leaves_ok (ctx : MSGetTrianglesContext) :
  Forall leaves_bounded (pending_nodes (mDecodeCtx ctx)) →
  Forall leaf_ok (remaining_leaves ctx).
Proof.
  intros Hbounded. unfold remaining_leaves.
  apply Forall_reverse in Hbounded.
  induction Hbounded as [|n rest Hn _ IH]; cbn [flat_map]; [constructor|].
  apply Forall_app. split; [by apply selected_leaves_ok|done].
Qed.

(** A sequence of calls delivers what [fill_buffers] says. *)
Lemma GetTriangles_calls_spec (fuel : nat) (want : bool) (requests : list Z) :
  ∀ ctx : MSGetTrianglesContext,
    -1 ≤ mTop (mDecodeCtx ctx) →
    (nodes_size (pending_nodes (mDecodeCtx ctx)) ≤ fuel)%nat →
    Forall leaves_bounded (pending_nodes (mDecodeCtx ctx)) →
    Forall request_ok requests →
    ∃ ctx',
      GetTriangles_calls fuel ctx requests want
      = Some (ctx', leaves_output ctx want
                      <$> (fill_buffers requests (remaining_leaves ctx)).1) ∧
      same_query ctx ctx' ∧
      remaining_leaves ctx' = (fill_buffers requests (remaining_leaves ctx)).2 ∧
      (requests ≠ [] →
       IsDoneWalking (mDecodeCtx ctx')
       = negb (has_leaves (fill_buffers requests (remaining_leaves ctx)).2)).
Proof.
  induction requests as [|request later IH]; intros ctx Htop Hfuel Hbounded Hreqs.
  { exists ctx. by split_and!. }
  apply Forall_cons in Hreqs as [Hreq Hlater].
  destruct (GetTrianglesNext_spec fuel ctx request want Htop Hfuel Hbounded Hreq)
    as (ctx1 & Hcall & Hsame1 & Hleft1 & Hbounded1 & Hsize1 & Htop1 & Hdone1).
  destruct (IH ctx1) as (ctx' & Hcalls & Hsame' & Hleft' & Hdone'); try done; [lia|].
  rewrite Hleft1 in Hcalls, Hleft', Hdone'.
  cbn [GetTriangles_calls fill_buffers]. rewrite Hcall. cbn [mbind option_bind].
  rewrite Hcalls. cbn [mbind option_bind].
  destruct (fill_buffer request 0 (remaining_leaves ctx)) as [delivered left'] eqn:Hfill.
  cbn [fst snd] in *.
  exists ctx'. split_and!.
  - destruct (fill_buffers later left') as [chunks remaining]. cbn [fst snd fmap list_fmap].
    do 3 f_equal. apply Forall_fmap_ext_1, Forall_true. intros chunk.
    symmetry. by apply leaves_output_same_query.
  - destruct Hsame1 as (? & ? & ? & ? & ?), Hsame' as (? & ? & ? & ? & ?).
    unfold same_query. split_and!; congruence.
  - by destruct (fill_buffers later left').
  - intros _. destruct later as [|request' later'].
    + cbn in Hcalls. injection Hcalls as <-. by cbn.
    + destruct (fill_buffers (request' :: later') left'). by apply Hdone'.
Qed.

(** C6. Let a region query be started on a shape whose leaves have at most
    [MaxTrianglesPerLeaf] triangles, and [GetTrianglesNext] be called once
    for each buffer size of [requests], each at least [MaxTrianglesPerLeaf].
    Then every call returns, and what the calls deliver are consecutive runs
    of the selected leaves: together with the leaves the context has still to
    deliver they are the selected leaves, each once and in order.  A call
    delivers no more triangles than its buffer holds, and stops before a leaf
    only if that leaf would overflow the buffer; that leaf is then the first
    the next call delivers.  A call that returns 0 leaves nothing to deliver,
    and every later call returns 0; as many calls as there are selected
    leaves deliver them all.  After the calls the walker is done exactly when
    no selected leaf is left. *)
Theorem GetTrianglesNext_each_triangle_once (fuel : nat) (this : MeshShape)
    (inBox : AABox) (inPositionCOM : Vec3) (inRotation : Quat) (inScale : Vec3)
    (requests : list Z) (want_materials : bool) :
  leaves_bounded (mRoot (mTree this)) →
  Forall request_ok requests →
  (node_size (mRoot (mTree this)) ≤ fuel)%nat →
  let start := GetTrianglesStart this inBox inPositionCOM inRotation inScale in
  let selected :=
    selected_leaves (mLocalBox start) (mMeshScale start) (mRoot (mTree this)) in
  ∃ (context : MSGetTrianglesContext) (chunks : list (list (list EncodedTriangle)))
    (remaining : list (list EncodedTriangle)),
    GetTriangles_calls fuel start requests want_materials
    = Some (context, leaves_output start want_materials <$> chunks) ∧
    fill_buffers requests selected = (chunks, remaining) ∧
    delivery_ok requests selected chunks remaining ∧
    remaining_leaves context = remaining ∧
    (requests ≠ [] → IsDoneWalking (mDecodeCtx context) = negb (has_leaves remaining)).
Proof.
  intros Hbounded Hreqs Hfuel start selected.
  assert (Hpending : pending_nodes (mDecodeCtx start) = [mRoot (mTree this)]) by done.
  assert (Hleaves : remaining_leaves start = selected).
  { unfold remaining_leaves. rewrite Hpending. cbn. by rewrite app_nil_r. }
  assert (Hbounded' : Forall leaves_bounded (pending_nodes (mDecodeCtx start))).
  { rewrite Hpending. by apply Forall_singleton. }
  destruct (GetTriangles_calls_spec fuel want_materials requests start)
    as (context & Hcalls & _ & Hleft & Hdone); try done.
  { rewrite Hpending, nodes_size_singleton. done. }
  pose proof (fill_buffers_delivery_ok requests (remaining_leaves start) Hreqs
                (remaining_leaves_ok start Hbounded')) as Hok.
  rewrite Hleaves in *.
  destruct (fill_buffers requests selected) as [chunks remaining]. cbn [fst snd] in *.
  by exists context, chunks, remaining.
Qed.

(** ** Invariants of a walk *)

Lemma WalkTree_invariant {V : Type} {HV : Visitor V}
    (I Q : DecodingContext → V → Prop) :
  visitor_ok V →
  (∀ ctx v, 0 ≤ mTop ctx → I ctx v →
     let r := visit_node ctx v in
     let top := pop_nodes r.2 (Z.to_nat (mTop r.1)) in
     if ShouldAbort r.2 then Q r.1 r.2
     else if 0 <=? top then I (mkDecodingContext (mNodeStack r.1) top) r.2
          else Q (mkDecodingContext (mNodeStack r.1) top) r.2) →
  ∀ (fuel : nat) (ctx : DecodingContext) (v : V),
    0 ≤ mTop ctx → (nodes_size (pending_nodes ctx) ≤ fuel)%nat → I ctx v →
    ∃ r, WalkTree fuel ctx v = Some r ∧ Q r.1 r.2.
Proof.
  intros Hok Hstep. induction fuel as [|fuel IH]; intros ctx v Htop Hsize HI.
  - exfalso. rewrite pending_nodes_size in Hsize by done.
    pose proof (node_size_pos (mNodeStack ctx (mTop ctx))). lia.
  - rewrite WalkTree_S. cbn zeta. specialize (Hstep ctx v Htop HI). cbn zeta in Hstep.
    destruct (visit_node_size ctx v Hok Htop) as [Hle Hlt].
    destruct (ShouldAbort (visit_node ctx v).2); [by eexists|].
    pose proof (pop_nodes_bounds (visit_node ctx v).2
                  (Z.to_nat (mTop (visit_node ctx v).1))) as [Hlo Hhi].
    destruct (Z.leb_spec 0 (pop_nodes (visit_node ctx v).2
                              (Z.to_nat (mTop (visit_node ctx v).1)))) as [Hge|Hneg];
      [|by eexists].
    apply IH; [done| |done]. unfold pending_nodes. cbn [mNodeStack mTop].
    etrans; [apply (nodes_size_stack_nodes_le _ _
                      (Z.to_nat (mTop (visit_node ctx v).1))); lia|lia].
Qed.

(** ** The nearest-hit cast *)

Section NearestHit.
Context {FO : FloatOrder G}.

(** [TestRay] returns the closest fraction below the incoming one, with the
    index of a triangle that has it. *)
Lemma TestRay_from_spec (o d : Vec3) (tris : list EncodedTriangle) :
  ∀ (i : Z) (closest : Float) (ci : Z),
    let r := TestRay_from o d i tris closest ci in
    (∀ t, t ∈ tris → Float_lt (RayTriangle o d (tri_v0 t) (tri_v1 t) (tri_v2 t)) r.1 = false) ∧
    Float_lt closest r.1 = false ∧
    ((r = (closest, ci)) ∨
     (Float_lt r.1 closest = true ∧
      ∃ (k : nat) t, tris !! k = Some t ∧ r.2 = i + Z.of_nat k ∧
                     r.1 = RayTriangle o d (tri_v0 t) (tri_v1 t) (tri_v2 t))).
Proof.
  induction tris as [|t rest IH]; intros i closest ci; cbn [TestRay_from].
  { cbn zeta. cbn [fst snd]. split_and!.
    - intros t Ht. by apply elem_of_nil in Ht.
    - apply Float_lt_irrefl.
    - by left. }
  cbn zeta.
  set (distance := RayTriangle o d (tri_v0 t) (tri_v1 t) (tri_v2 t)).
  destruct (Float_lt distance closest) eqn:Hlt.
  - destruct (IH (i + 1) distance i) as (Hall & Hle & Hcase).
    set (r := TestRay_from o d (i + 1) rest distance i) in *.
    split_and!.
    + intros t' [->|Ht']%elem_of_cons; [done|by apply Hall].
    + destruct Hcase as [Hr|(Hlt' & _)].
      * rewrite Hr. cbn [fst]. by apply Float_lt_asym.
      * apply Float_lt_asym. by apply (Float_lt_trans _ distance).
    + right. destruct Hcase as [Hr|(Hlt' & k & t' & Hk & Hidx & Hfrac)].
      * rewrite Hr. cbn [fst snd]. split; [done|].
        exists 0%nat, t. split_and!; [done|lia|done].
      * split; [by apply (Float_lt_trans _ distance)|].
        exists (S k), t'. split_and!; [done|lia|done].
  - destruct (IH (i + 1) closest ci) as (Hall & Hle & Hcase).
    set (r := TestRay_from o d (i + 1) rest closest ci) in *.
    split_and!.
    + intros t' [->|Ht']%elem_of_cons; [|by apply Hall].
      fold distance. destruct Hcase as [Hr|(Hlt' & _)].
      * by rewrite Hr.
      * destruct (Float_lt distance r.1) eqn:Hd; [|done].
        by rewrite (Float_lt_trans _ _ _ Hd Hlt') in Hlt.
    + done.
    + destruct Hcase as [Hr|(Hlt' & k & t' & Hk & Hidx & Hfrac)]; [by left|].
      right. split; [done|]. exists (S k), t'. split_and!; [done|lia|done].
Qed.

(** The children the ray visitors push: the lanes closer than the early-out
    fraction, stored with their distances from the stack top on; the other
    lanes are not closer. *)
Lemma ray_VisitNodes_lanes (origin : Vec3) (inv_direction : RayInvDirection)
    (early_out : Float) (distance_stack : Z → Float) (bounds : list AABox)
    (properties : list Node) (top : Z) :
  let r := ray_VisitNodes origin inv_direction early_out distance_stack bounds
             properties top in
  ∃ kept discarded : list (Float * Node),
    discarded ++ kept ≡ₚ zip (RayAABox origin inv_direction <$> bounds) properties ∧
    Forall (λ lane, Float_lt lane.1 early_out = false) discarded ∧
    r.2 = Z.of_nat (length kept) ∧
    (∀ (j : nat) lane, kept !! j = Some lane →
       r.1.1 (top + Z.of_nat j) = lane.1 ∧ r.1.2 !! j = Some lane.2) ∧
    (∀ i, i < top → r.1.1 i = distance_stack i).
Proof.
  unfold ray_VisitNodes. cbn zeta. cbn [fst snd].
  set (sorted := sSort4Reverse (zip (RayAABox origin inv_direction <$> bounds) properties)).
  set (n := length (filter _ _)).
  destruct (lanes_sorted_closer early_out sorted (sSort4Reverse_sorted _))
    as (Hn & Htake & Hdrop).
  fold n in Hn, Htake, Hdrop.
  exists (drop (length sorted - n) sorted), (take (length sorted - n) sorted).
  split_and!.
  - rewrite take_drop. apply sSort4Reverse_Permutation.
  - done.
  - rewrite length_drop. f_equal. lia.
  - intros j lane Hj.
    assert (Hjn : (j < n)%nat).
    { apply lookup_lt_Some in Hj. rewrite length_drop in Hj. lia. }
    split.
    + apply store_lanes_at. unfold ShiftComponents4Minus.
      rewrite lookup_app_l by (rewrite length_drop, length_fmap; lia).
      rewrite length_fmap, <- fmap_drop, list_lookup_fmap, Hj. done.
    + unfold ShiftComponents4Minus.
      rewrite lookup_app_l by (rewrite length_drop, length_fmap; lia).
      rewrite length_fmap, <- fmap_drop, list_lookup_fmap, Hj. done.
  - intros i Hi. by apply store_lanes_below.
Qed.

Lemma elem_of_zip_lanes {X Y : Type} (x : X * Y) (a0 a1 a2 a3 : X) (b0 b1 b2 b3 : Y) :
  x ∈ zip [a0; a1; a2; a3] [b0; b1; b2; b3] →
  x = (a0, b0) ∨ x = (a1, b1) ∨ x = (a2, b2) ∨ x = (a3, b3).
Proof.
  cbn. rewrite !elem_of_cons, elem_of_nil. tauto.
Qed.

Lemma ray_bounds_ok_child (inRay : RayCast) (b0 b1 b2 b3 : AABox) (c0 c1 c2 c3 : Node)
    (lane : Float * Node) :
  ray_bounds_ok inRay (InnerNode b0 b1 b2 b3 c0 c1 c2 c3) = true →
  lane ∈ zip (RayAABox (mOrigin inRay) (RayInvDirection_Set (mDirection inRay))
                <$> [b0; b1; b2; b3]) [c0; c1; c2; c3] →
  ray_bounds_ok inRay lane.2 = true ∧
  (∀ x, x ∈ node_triangles lane.2 →
        x ∈ node_triangles (InnerNode b0 b1 b2 b3 c0 c1 c2 c3)) ∧
  (∀ x, x ∈ node_triangles lane.2 → Float_lt (triangle_fraction inRay x) lane.1 = false).
Proof.
  cbn [ray_bounds_ok]. rewrite !andb_true_iff.
  intros (((((((H0 & H1) & H2) & H3) & R0) & R1) & R2) & R3) Hlane.
  unfold child_bounds_ok in H0, H1, H2, H3.
  rewrite forallb_forall in H0, H1, H2, H3.
  cbn [fmap list_fmap] in Hlane.
  apply elem_of_zip_lanes in Hlane as [-> | [-> | [-> | ->]]]; cbn [fst snd node_triangles];
    (split_and!; [done| |]).
  all: try (intros x Hx; rewrite !elem_of_app; tauto).
  all: intros x Hx; apply list_elem_of_In in Hx.
  - apply H0 in Hx. by apply negb_true_iff in Hx.
  - apply H1 in Hx. by apply negb_true_iff in Hx.
  - apply H2 in Hx. by apply negb_true_iff in Hx.
  - apply H3 in Hx. by apply negb_true_iff in Hx.
Qed.

Lemma node_triangles_child (b0 b1 b2 b3 : AABox) (c0 c1 c2 c3 : Node)
    (x : Z * Z * EncodedTriangle) (f : AABox → Float) :
  x ∈ node_triangles (InnerNode b0 b1 b2 b3 c0 c1 c2 c3) →
  ∃ lane, lane ∈ zip (f <$> [b0; b1; b2; b3]) [c0; c1; c2; c3] ∧ x ∈ node_triangles lane.2.
Proof.
  cbn [node_triangles fmap list_fmap zip zip_with]. rewrite !elem_of_app.
  intros [H|[H|[H|H]]]; eexists (_, _); (split; [|exact H]);
    rewrite !elem_of_cons; tauto.
Qed.

Section Cast.
Variables (this : MeshShape) (inRay : RayCast) (inSubShapeIDCreator : SubShapeIDCreator)
  (ioHit : RayCastResult).
Hypothesis Hnonneg : fractions_nonnegative inRay (mRoot (mTree this)) = true.

Lemma CastRay_hit_ok_body (returned : bool) (hit : RayCastResult) :
  CastRay_hit_ok this inRay inSubShapeIDCreator ioHit returned hit →
  mBodyID hit = mBodyID ioHit.
Proof. destruct returned; cbn; [by intros (? & _)|by intros ->]. Qed.

Lemma CastRay_hit_ok_fraction (returned : bool) (hit : RayCastResult) (f : Float) :
  CastRay_hit_ok this inRay inSubShapeIDCreator ioHit returned hit →
  Float_lt f (mFraction hit) = true → Float_lt f (mFraction ioHit) = true.
Proof.
  destruct returned; cbn; [|by intros ->].
  intros (_ & Hlt & _) Hf. by apply (Float_lt_trans _ (mFraction hit)).
Qed.

(** What holds after the node on top of the stack has been shown to the
    visitor. *)
Lemma CastRay_visit (ctx : DecodingContext) (v : CastRayVisitor) :
  0 ≤ mTop ctx →
  CastRay_inv this inRay inSubShapeIDCreator ioHit ctx v →
  CastRay_static this inRay inSubShapeIDCreator ioHit (visit_node ctx v).2 ∧
  0 ≤ mTop (visit_node ctx v).1 ∧
  CastRay_entries_ok this inRay (visit_node ctx v).1 (visit_node ctx v).2
    (mTop (visit_node ctx v).1) ∧
  CastRay_covered this inRay (visit_node ctx v).1 (visit_node ctx v).2
    (mTop (visit_node ctx v).1).
Proof.
  intros Htop (Hstatic & [Hsub Hbounds] & Hentries & Hcovered).
  pose proof Hstatic as (Ho & Hd & Hinv & Hbits & Hcreator & Hhit).
  unfold visit_node.
  destruct (mNodeStack ctx (mTop ctx)) as [b0 b1 b2 b3 c0 c1 c2 c3|block tris|] eqn:Hnode.
  - cbn [VisitNodes CastRayVisitor_Visitor]. unfold CastRayVisitor_VisitNodes.
    destruct (ray_VisitNodes_lanes (ray_mRayOrigin v) (ray_mRayInvDirection v)
                (mFraction (ray_mHit v)) (ray_mDistanceStack v)
                [b0; b1; b2; b3] [c0; c1; c2; c3] (mTop ctx))
      as (kept & discarded & Hperm & Hdiscarded & Hnum & Hkept & Hbelow).
    rewrite Ho, Hinv in Hperm.
    destruct (ray_VisitNodes _ _ _ _ _ _ _) as [[dstack props] n].
    cbn [fst snd mTop mNodeStack] in *. subst n.
    assert (Hlane : ∀ lane, lane ∈ kept ∨ lane ∈ discarded →
              ray_bounds_ok inRay lane.2 = true ∧
              (∀ x, x ∈ node_triangles lane.2 →
                    x ∈ node_triangles (InnerNode b0 b1 b2 b3 c0 c1 c2 c3)) ∧
              (∀ x, x ∈ node_triangles lane.2 →
                    Float_lt (triangle_fraction inRay x) lane.1 = false)).
    { intros lane Hin. apply (ray_bounds_ok_child inRay b0 b1 b2 b3 c0 c1 c2 c3); [done|].
      rewrite <- Hperm. rewrite elem_of_app. tauto. }
    split_and!.
    + done.
    + lia.
    + intros i Hi. cbn [mNodeStack mTop ray_mDistanceStack] in *.
      destruct (decide (i < mTop ctx)) as [Hlt|Hge].
      * rewrite store_lanes_below, Hbelow by done. apply Hentries. lia.
      * destruct (lookup_lt_is_Some_2 kept (Z.to_nat (i - mTop ctx))) as [lane Hj]; [lia|].
        destruct (Hkept _ _ Hj) as [Hdist Hprop].
        replace (mTop ctx + Z.of_nat (Z.to_nat (i - mTop ctx))) with i in Hdist by lia.
        pose proof (store_lanes_at (mNodeStack ctx) (mTop ctx) props _ _ Hprop) as Hstack.
        replace (mTop ctx + Z.of_nat (Z.to_nat (i - mTop ctx))) with i in Hstack by lia.
        rewrite Hstack, Hdist.
        destruct (Hlane lane) as (Hb & Hs & Hl).
        { left. by eapply list_elem_of_lookup_2. }
        split; [split|]; [|done|done].
        intros x Hx. by apply Hsub, Hs.
    + intros x Hx Hcloser. cbn [mNodeStack mTop ray_mHit] in *.
      destruct (Hcovered x Hx Hcloser) as (i & Hi & Hxi).
      destruct (decide (i < mTop ctx)) as [Hlt|Hge].
      * exists i. split; [lia|]. by rewrite store_lanes_below.
      * assert (i = mTop ctx) as -> by lia. rewrite Hnode in Hxi.
        destruct (node_triangles_child b0 b1 b2 b3 c0 c1 c2 c3 x
                    (RayAABox (mOrigin inRay) (RayInvDirection_Set (mDirection inRay))) Hxi)
          as (lane & Hlane_in & Hx_lane).
        rewrite <- Hperm in Hlane_in. apply elem_of_app in Hlane_in as [Hdisc|Hkeep].
        -- exfalso. destruct (Hlane lane) as (_ & _ & Hl); [by right|].
           rewrite Forall_forall in Hdiscarded. specialize (Hdiscarded lane Hdisc).
           cbn beta in Hdiscarded.
           by rewrite (Float_ge_trans _ _ _ (Hl x Hx_lane) Hdiscarded) in Hcloser.
        -- apply list_elem_of_lookup_1 in Hkeep as [j Hj].
           destruct (Hkept _ _ Hj) as [_ Hprop].
           exists (mTop ctx + Z.of_nat j). split.
           ++ apply lookup_lt_Some in Hj. lia.
           ++ by rewrite (store_lanes_at _ _ _ _ _ Hprop).
  - cbn [fst snd VisitTriangles CastRayVisitor_Visitor].
    unfold CastRayVisitor_VisitTriangles, TestRay.
    destruct (TestRay_from_spec (ray_mRayOrigin v) (ray_mRayDirection v) tris 0
                (mFraction (ray_mHit v)) 0) as (Hall & Hle & Hcase).
    destruct (TestRay_from _ _ _ _ _ _) as [fraction idx]. cbn [fst snd] in *.
    assert (Hblock : ∀ x, x ∈ node_triangles (TriangleBlock block tris) →
              Float_lt (triangle_fraction inRay x) fraction = false).
    { intros x Hx. cbn [node_triangles] in Hx.
      apply elem_of_lookup_imap in Hx as (k & t & -> & Hk).
      unfold triangle_fraction. cbn [snd]. rewrite <- Ho, <- Hd.
      apply Hall. by eapply list_elem_of_lookup_2. }
    destruct (Float_lt fraction (mFraction (ray_mHit v))) eqn:Hlt.
    + destruct Hcase as [Hcase|(_ & k & t & Hk & Hidx & Hfrac)].
      { injection Hcase as -> _. by rewrite Float_lt_irrefl in Hlt. }
      split_and!; [|done| |].
      * unfold CastRay_static.
        cbn [ray_mRayOrigin ray_mRayDirection ray_mRayInvDirection ray_mTriangleBlockIDBits
             ray_mSubShapeIDCreator ray_mReturnValue ray_mHit].
        split_and!; [done|done|done|done|done|].
        unfold CastRay_hit_ok. cbn [mBodyID mFraction mSubShapeID2]. split_and!.
        -- by apply (CastRay_hit_ok_body (ray_mReturnValue v)).
        -- by apply (CastRay_hit_ok_fraction (ray_mReturnValue v) (ray_mHit v)).
        -- exists (block, Z.of_nat k, t). split_and!.
           ++ apply Hsub. cbn [node_triangles]. apply elem_of_lookup_imap. by exists k, t.
           ++ unfold triangle_fraction. cbn [snd]. by rewrite <- Ho, <- Hd.
           ++ unfold triangle_id. cbn [fst snd]. rewrite Hidx, Hcreator, Hbits. f_equal.
      * intros i Hi. apply Hentries. done.
      * intros x Hx Hcloser. cbn [ray_mHit mFraction] in Hcloser.
        destruct (Hcovered x Hx) as (i & Hi & Hxi).
        { by apply (Float_lt_trans _ fraction). }
        destruct (decide (i < mTop ctx)) as [Hlt'|Hge];
        [exists i; split; [lia|done]|].
        assert (i = mTop ctx) as -> by lia. rewrite Hnode in Hxi.
        by rewrite (Hblock x Hxi) in Hcloser.
    + split_and!; [done|done|done|].
      intros x Hx Hcloser. destruct (Hcovered x Hx Hcloser) as (i & Hi & Hxi).
      destruct (decide (i < mTop ctx)) as [Hlt'|Hge];
        [exists i; split; [lia|done]|].
      assert (i = mTop ctx) as -> by lia. rewrite Hnode in Hxi.
      by rewrite (Float_ge_trans _ _ _ (Hblock x Hxi) Hlt) in Hcloser.
  - cbn [fst snd]. split_and!; [done|done|done|].
    intros x Hx Hcloser. destruct (Hcovered x Hx Hcloser) as (i & Hi & Hxi).
    destruct (decide (i < mTop ctx)) as [Hlt'|Hge];
        [exists i; split; [lia|done]|].
    assert (i = mTop ctx) as -> by lia. rewrite Hnode in Hxi.
    by apply elem_of_nil in Hxi.
Qed.

Lemma fractions_nonnegative_spec (x : Z * Z * EncodedTriangle) :
  x ∈ node_triangles (mRoot (mTree this)) →
  Float_lt (triangle_fraction inRay x) Float_zero = false.
Proof.
  intros Hx. unfold fractions_nonnegative in Hnonneg.
  rewrite forallb_forall in Hnonneg. apply list_elem_of_In in Hx.
  apply Hnonneg in Hx. by apply negb_true_iff in Hx.
Qed.

Lemma CastRay_step (ctx : DecodingContext) (v : CastRayVisitor) :
  0 ≤ mTop ctx →
  CastRay_inv this inRay inSubShapeIDCreator ioHit ctx v →
  let r := visit_node ctx v in
  let top := pop_nodes r.2 (Z.to_nat (mTop r.1)) in
  if ShouldAbort r.2 then CastRay_post this inRay inSubShapeIDCreator ioHit r.1 r.2
  else if 0 <=? top
       then CastRay_inv this inRay inSubShapeIDCreator ioHit
              (mkDecodingContext (mNodeStack r.1) top) r.2
       else CastRay_post this inRay inSubShapeIDCreator ioHit
              (mkDecodingContext (mNodeStack r.1) top) r.2.
Proof.
  intros Htop Hinv. cbn zeta.
  destruct (CastRay_visit ctx v Htop Hinv) as (Hstatic & Htop1 & Hentries & Hcovered).
  destruct (visit_node ctx v) as [ctx1 v1]. cbn [fst snd] in *.
  destruct (ShouldAbort v1) eqn:Habort.
  { split; [done|]. intros x Hx.
    cbn [ShouldAbort CastRayVisitor_Visitor] in Habort.
    apply Float_le_not_gt in Habort.
    by apply (Float_ge_trans _ Float_zero); [apply fractions_nonnegative_spec|]. }
  set (top := pop_nodes v1 (Z.to_nat (mTop ctx1))).
  pose proof (pop_nodes_bounds v1 (Z.to_nat (mTop ctx1))) as [Hlo Hhi]. fold top in Hlo, Hhi.
  assert (Hcovered' : ∀ x, x ∈ node_triangles (mRoot (mTree this)) →
            Float_lt (triangle_fraction inRay x) (mFraction (ray_mHit v1)) = true →
            ∃ i, 0 ≤ i < top + 1 ∧ x ∈ node_triangles (mNodeStack ctx1 i)).
  { intros x Hx Hcloser. destruct (Hcovered x Hx Hcloser) as (i & Hi & Hxi).
    exists i. split; [|done]. destruct (decide (i ≤ top)) as [|Hskip]; [lia|]. exfalso.
    assert (Hskipped : ShouldVisitNode v1 i = false).
    { apply (pop_nodes_skipped v1 (Z.to_nat (mTop ctx1))). fold top. lia. }
    cbn [ShouldVisitNode CastRayVisitor_Visitor] in Hskipped.
    destruct (Hentries i Hi) as [_ Hdist].
    by rewrite (Float_ge_trans _ _ _ (Hdist x Hxi) Hskipped) in Hcloser. }
  destruct (Z.leb_spec 0 top) as [Hge|Hneg].
  - split_and!.
    + done.
    + cbn [mNodeStack mTop]. apply Hentries. lia.
    + intros i Hi. cbn [mNodeStack mTop] in *. apply Hentries. lia.
    + intros x Hx Hcloser. cbn [mNodeStack mTop] in *. by apply Hcovered'.
  - split; [done|]. intros x Hx.
    destruct (Float_lt (triangle_fraction inRay x) (mFraction (ray_mHit v1))) eqn:Hcloser;
      [|done].
    destruct (Hcovered' x Hx Hcloser) as (i & Hi & _). lia.
Qed.

Lemma CastRay_walk (fuel : nat) (distance_stack : Z → Float) :
  ray_bounds_ok inRay (mRoot (mTree this)) = true →
  (node_size (mRoot (mTree this)) ≤ fuel)%nat →
  ∃ v, MeshShape_WalkTree fuel this
         (mkCastRayVisitor ioHit (mOrigin inRay) (mDirection inRay)
            (RayInvDirection_Set (mDirection inRay)) (sTriangleBlockIDBits (mTree this))
            inSubShapeIDCreator false distance_stack) = Some v ∧
       CastRay_static this inRay inSubShapeIDCreator ioHit v ∧
       ∀ x, x ∈ node_triangles (mRoot (mTree this)) →
            Float_lt (triangle_fraction inRay x) (mFraction (ray_mHit v)) = false.
Proof.
  intros Hbounds Hfuel. unfold MeshShape_WalkTree.
  destruct (WalkTree_invariant
              (CastRay_inv this inRay inSubShapeIDCreator ioHit)
              (CastRay_post this inRay inSubShapeIDCreator ioHit)
              CastRayVisitor_ok CastRay_step fuel (DecodingContext_new (mTree this))
              (mkCastRayVisitor ioHit (mOrigin inRay) (mDirection inRay)
                 (RayInvDirection_Set (mDirection inRay))
                 (sTriangleBlockIDBits (mTree this)) inSubShapeIDCreator false
                 distance_stack))
    as ([ctx' v'] & Hwalk & Hpost).
  - done.
  - unfold pending_nodes, DecodingContext_new, stack_nodes, nodes_size. simpl. lia.
  - split_and!.
    + by split_and!.
    + by split.
    + intros i Hi. cbn [DecodingContext_new mTop] in Hi. lia.
    + intros x Hx _. exists 0. split; [cbn; lia|done].
  - rewrite Hwalk. exists v'. by destruct Hpost.
Qed.

End Cast.


(** C4. Let the bounds of the tree be conservative for the ray and no
    triangle be hit at a negative fraction.  Then the nearest-hit [CastRay]
    returns, and it returns true exactly when some triangle of the tree is
    hit at a fraction strictly below the incoming fraction of the hit.  When
    it returns true, the fraction of the hit is that of a triangle of the
    tree which no triangle undercuts, the sub-shape identifier of the hit is
    the creator's with the block and the index of that triangle pushed, and
    the body is the incoming one.  When it returns false the hit is the
    incoming hit. *)
Theorem CastRay_nearest_hit (fuel : nat) (this : MeshShape) (distance_stack : Z → Float)
    (inRay : RayCast) (inSubShapeIDCreator : SubShapeIDCreator) (ioHit : RayCastResult) :
  ray_bounds_ok inRay (mRoot (mTree this)) = true →
  fractions_nonnegative inRay (mRoot (mTree this)) = true →
  (node_size (mRoot (mTree this)) ≤ fuel)%nat →
  ∃ (returned : bool) (hit : RayCastResult),
    CastRay fuel this distance_stack inRay inSubShapeIDCreator ioHit = Some (returned, hit) ∧
    (returned = true ↔
       ∃ x, x ∈ node_triangles (mRoot (mTree this)) ∧
            Float_lt (triangle_fraction inRay x) (mFraction ioHit) = true) ∧
    (returned = true →
       mBodyID hit = mBodyID ioHit ∧
       (∀ x, x ∈ node_triangles (mRoot (mTree this)) →
             Float_lt (triangle_fraction inRay x) (mFraction hit) = false) ∧
       ∃ x, x ∈ node_triangles (mRoot (mTree this)) ∧
            Float_lt (triangle_fraction inRay x) (mFraction ioHit) = true ∧
            mFraction hit = triangle_fraction inRay x ∧
            mSubShapeID2 hit
            = GetID (PushID (PushID inSubShapeIDCreator x.1.1
                               (sTriangleBlockIDBits (mTree this)))
                            x.1.2 NumTriangleBits)) ∧
    (returned = false → hit = ioHit).
Proof.
  intros Hbounds Hnonneg Hfuel.
  destruct (CastRay_walk this inRay inSubShapeIDCreator ioHit Hnonneg fuel distance_stack
              Hbounds Hfuel) as (v & Hwalk & (_ & _ & _ & _ & _ & Hhit) & Hmin).
  unfold CastRay. rewrite Hwalk. cbn [fmap option_fmap option_map].
  exists (ray_mReturnValue v), (ray_mHit v). split; [done|].
  unfold CastRay_hit_ok in Hhit. destruct (ray_mReturnValue v).
  - destruct Hhit as (Hbody & Hlt & x & Hx & Hfrac & Hid). split_and!.
    + split; [|done]. intros _. exists x. split; [done|]. by rewrite <- Hfrac.
    + intros _. split_and!; [done|done|].
      exists x. split_and!; [done|by rewrite <- Hfrac|done|done].
    + done.
  - subst. split_and!.
    + split; [done|]. intros (x & Hx & Hcloser). by rewrite (Hmin x Hx) in Hcloser.
    + done.
    + done.
Qed.

End NearestHit.

(** ** The constructor's validation, read from the data *)

Lemma check_vertex_indices_spec (t : IndexedTriangle) (num_vertices : Z) :
  check_vertex_indices t num_vertices
  = if (num_vertices <=? mIdx_0 t) || (num_vertices <=? mIdx_1 t)
       || (num_vertices <=? mIdx_2 t)
    then Some (IndexOutOfRange
                 (if num_vertices <=? mIdx_0 t then mIdx_0 t
                  else if num_vertices <=? mIdx_1 t then mIdx_1 t else mIdx_2 t)
                 (uint32 num_vertices))
    else None.
Proof.
  unfold check_vertex_indices. cbn [find].
  change (mIdx t 0) with (mIdx_0 t). change (mIdx t 1) with (mIdx_1 t).
  change (mIdx t 2) with (mIdx_2 t).
  by destruct (num_vertices <=? mIdx_0 t), (num_vertices <=? mIdx_1 t),
              (num_vertices <=? mIdx_2 t).
Qed.

Lemma check_triangles_step (n : nat) (triangles : list IndexedTriangle) (num_vertices : Z)
    (t : IndexedTriangle) :
  triangles !! n = Some t →
  check_triangles (S n) triangles num_vertices
  = if bad_triangle num_vertices t then Some (triangle_error num_vertices n t)
    else check_triangles n triangles num_vertices.
Proof.
  intros Hn. cbn [check_triangles]. rewrite Hn, check_vertex_indices_spec.
  unfold bad_triangle, triangle_error.
  by destruct (IsDegenerate t), (num_vertices <=? mIdx_0 t), (num_vertices <=? mIdx_1 t),
              (num_vertices <=? mIdx_2 t).
Qed.

(** The loop runs from the last triangle down: it reports the bad triangle
    with the highest index. *)
Lemma check_triangles_last_bad (triangles : list IndexedTriangle) (num_vertices : Z)
    (k : nat) (t : IndexedTriangle) :
  triangles !! k = Some t → bad_triangle num_vertices t = true →
  ∀ n, (k < n ≤ length triangles)%nat →
    (∀ j t', (k < j < n)%nat → triangles !! j = Some t' →
             bad_triangle num_vertices t' = false) →
    check_triangles n triangles num_vertices = Some (triangle_error num_vertices k t).
Proof.
  intros Hk Hbad. induction n as [|n IH]; intros Hn Hlater; [lia|].
  destruct (lookup_lt_is_Some_2 triangles n) as [tn Htn]; [lia|].
  rewrite (check_triangles_step _ _ _ _ Htn).
  destruct (decide (n = k)) as [->|Hne].
  - assert (tn = t) as -> by congruence. by rewrite Hbad.
  - rewrite (Hlater n tn) by (done || lia). apply IH; [lia|].
    intros j t' Hj. apply Hlater. lia.
Qed.

Lemma check_triangles_all_good (triangles : list IndexedTriangle) (num_vertices : Z) :
  ∀ n, (n ≤ length triangles)%nat →
    (check_triangles n triangles num_vertices = None ↔
     ∀ j t', (j < n)%nat → triangles !! j = Some t' →
             bad_triangle num_vertices t' = false).
Proof.
  induction n as [|n IH]; intros Hn.
  { split; [intros _ j t' Hj; lia|done]. }
  destruct (lookup_lt_is_Some_2 triangles n) as [tn Htn]; [lia|].
  rewrite (check_triangles_step _ _ _ _ Htn). split.
  - destruct (bad_triangle num_vertices tn) eqn:Hbad; [done|].
    intros Hcheck j t' Hj Ht'. destruct (decide (j = n)) as [->|Hne]; [congruence|].
    apply (proj1 (IH ltac:(lia)) Hcheck j t'); [lia|done].
  - intros Hall. rewrite (Hall n tn) by (done || lia).
    apply IH; [lia|]. intros j t' Hj. apply Hall. lia.
Qed.

Lemma check_all_triangles_n (inSettings : MeshShapeSettings) :
  Z.of_nat (length (mIndexedTriangles inSettings)) < 2 ^ 31 →
  check_all_triangles inSettings
  = check_triangles (length (mIndexedTriangles inSettings)) (mIndexedTriangles inSettings)
      (Z.of_nat (length (mTriangleVertices inSettings))).
Proof.
  intros Hlen. unfold check_all_triangles. cbn zeta. rewrite to_int_small by lia.
  f_equal. lia.
Qed.

Lemma bad_triangle_false (num_vertices : Z) (t : IndexedTriangle) :
  bad_triangle num_vertices t = false ↔
  IsDegenerate t = false ∧ mIdx_0 t < num_vertices ∧ mIdx_1 t < num_vertices
  ∧ mIdx_2 t < num_vertices.
Proof.
  unfold bad_triangle. rewrite !orb_false_iff, !Z.leb_gt. tauto.
Qed.

Lemma check_materials_accepted (materials : list PhysicsMaterial)
    (triangles : list IndexedTriangle) :
  check_materials materials triangles = None ↔ materials_accepted materials triangles.
Proof.
  unfold check_materials, materials_accepted. cbn zeta. case_bool_decide as Hempty.
  - split.
    + destruct (forallb _ _) eqn:Hall; [|done]. intros _. split; [|done]. intros _.
      apply Forall_forall. intros t Hin%list_elem_of_In.
      rewrite forallb_forall in Hall. specialize (Hall t Hin). cbn beta in Hall. lia.
    + intros [Hzero _]. specialize (Hzero Hempty).
      rewrite (proj2 (forallb_forall _ _)); [done|].
      intros t Hin%list_elem_of_In. rewrite Forall_forall in Hzero.
      apply Z.eqb_eq. by apply Hzero.
  - split.
    + destruct (Z.ltb_spec FLAGS_MATERIAL_MASK (Z.of_nat (length materials))); [done|].
      destruct (find _ _) as [t|] eqn:Hfind; [done|]. intros _. split; [done|].
      intros _. split; [done|]. apply Forall_forall. intros t Hin%list_elem_of_In.
      pose proof (find_none _ _ Hfind t Hin) as Ht. cbn beta in Ht. lia.
    + intros [_ Hin]. destruct (Hin Hempty) as [Hsize Hall].
      rewrite (proj2 (Z.ltb_ge _ _)) by done.
      destruct (find _ _) as [t|] eqn:Hfind; [|done].
      apply find_some in Hfind as [Ht%list_elem_of_In Hge]. rewrite Forall_forall in Hall.
      specialize (Hall t Ht). cbn beta in Hall, Hge. lia.
Qed.

(** X1. The constructor returns a shape exactly when the triangle list is not
    empty, no triangle is degenerate or refers to a vertex beyond the vertex
    list, the material indices fit the material table (which has at most
    [FLAGS_MATERIAL_MASK] entries), the conversion of the flagged triangles
    succeeds and the block and triangle bits fit a sub-shape identifier; the
    shape then holds the converted tree and the materials of the settings. *)
Theorem MeshShape_new_valid_iff (inSettings : MeshShapeSettings) (shape : MeshShape) :
  Z.of_nat (length (mIndexedTriangles inSettings)) < 2 ^ 31 →
  let triangles := mIndexedTriangles inSettings in
  let num_vertices := Z.of_nat (length (mTriangleVertices inSettings)) in
  (MeshShape_new inSettings).1 = ResultValid shape ↔
    triangles ≠ [] ∧
    Forall (λ t, IsDegenerate t = false ∧ mIdx_0 t < num_vertices ∧
                 mIdx_1 t < num_vertices ∧ mIdx_2 t < num_vertices) triangles ∧
    materials_accepted (settings_mMaterials inSettings) triangles ∧
    Convert (mTriangleVertices inSettings)
      (FindActiveEdges (mTriangleVertices inSettings) triangles).1 = inr (mTree shape) ∧
    sTriangleBlockIDBits (mTree shape) + NumTriangleBits ≤ MaxBits ∧
    mMaterials shape = settings_mMaterials inSettings.
Proof.
  intros Hlen triangles num_vertices.
  assert (Hgood : check_all_triangles inSettings = None ↔
            Forall (λ t, IsDegenerate t = false ∧ mIdx_0 t < num_vertices ∧
                         mIdx_1 t < num_vertices ∧ mIdx_2 t < num_vertices) triangles).
  { rewrite check_all_triangles_n, check_triangles_all_good by done.
    rewrite Forall_forall. split.
    - intros Hall t [j Hj]%list_elem_of_lookup. apply bad_triangle_false.
      apply (Hall j); [by eapply lookup_lt_Some|done].
    - intros Hall j t _ Hj. apply bad_triangle_false, Hall. by eapply list_elem_of_lookup_2. }
  unfold MeshShape_new, validate. fold triangles.
  destruct (FindActiveEdges _ triangles) as [indexed_triangles failed] eqn:Hfind.
  cbn [fst]. case_bool_decide as Hempty.
  { split; [done|]. by intros (Hne & _). }
  destruct (check_all_triangles inSettings) as [e|] eqn:Hcheck.
  { split; [done|]. intros (_ & Hall & _). by apply Hgood in Hall. }
  destruct (check_materials _ triangles) as [e|] eqn:Hmat.
  { split; [done|]. intros (_ & _ & Hacc & _). apply check_materials_accepted in Hacc.
    fold triangles in Hmat. congruence. }
  apply check_materials_accepted in Hmat.
  destruct (Convert _ indexed_triangles) as [error|tree] eqn:Hconv; cbn [fst].
  { split; [done|]. by intros (_ & _ & _ & ? & _). }
  destruct (Z.ltb_spec MaxBits (sTriangleBlockIDBits tree + NumTriangleBits)); cbn [fst].
  - split; [done|]. intros (_ & _ & _ & [= <-] & Hbits & _). lia.
  - split.
    + intros [= <-]. cbn [mTree mMaterials]. split_and!; try done. by apply Hgood.
    + intros (_ & _ & _ & [= ->] & _ & Hmats). destruct shape as [tree' mats'].
      cbn [mTree mMaterials] in *. by subst.
Qed.

(** X2. When some triangle is degenerate or refers to a vertex beyond the
    vertex list, the constructor fails with the error of the last such
    triangle of the list: "degenerate" with its index if it is degenerate,
    otherwise "vertex index beyond vertex list" with the first of its three
    indices that is too large.  No assertion is reached. *)
Theorem MeshShape_new_reports_last_bad_triangle (inSettings : MeshShapeSettings)
    (k : nat) (t : IndexedTriangle) :
  Z.of_nat (length (mIndexedTriangles inSettings)) < 2 ^ 31 →
  let num_vertices := Z.of_nat (length (mTriangleVertices inSettings)) in
  mIndexedTriangles inSettings !! k = Some t →
  bad_triangle num_vertices t = true →
  (∀ j t', (k < j)%nat → mIndexedTriangles inSettings !! j = Some t' →
           bad_triangle num_vertices t' = false) →
  MeshShape_new inSettings = (ResultError (triangle_error num_vertices k t), []).
Proof.
  intros Hlen num_vertices Hk Hbad Hlater.
  unfold MeshShape_new, validate.
  rewrite bool_decide_eq_false_2 by (intros Hnil; by rewrite Hnil in Hk).
  rewrite check_all_triangles_n by done.
  rewrite (check_triangles_last_bad _ _ k t Hk Hbad); [done| |].
  - apply lookup_lt_Some in Hk. lia.
  - intros j t' Hj. apply Hlater. lia.
Qed.

Lemma check_triangles_Some (triangles : list IndexedTriangle) (num_vertices : Z)
    (e : ShapeError) :
  ∀ n, (n ≤ length triangles)%nat →
    check_triangles n triangles num_vertices = Some e →
    ∃ k t, triangles !! k = Some t ∧ bad_triangle num_vertices t = true ∧
           e = triangle_error num_vertices k t.
Proof.
  induction n as [|n IH]; intros Hn Hcheck; [done|].
  destruct (lookup_lt_is_Some_2 triangles n) as [tn Htn]; [lia|].
  rewrite (check_triangles_step _ _ _ _ Htn) in Hcheck.
  destruct (bad_triangle num_vertices tn) eqn:Hbad.
  - injection Hcheck as <-. by exists n, tn.
  - apply IH; [lia|done].
Qed.

Lemma retain_last_all_degenerate (l : list IndexedTriangle) :
  Forall (λ t, IsDegenerate t = true) l → retain_last l = ([], ∅).
Proof.
  induction 1 as [|t rest Ht _ IH]; [done|]. cbn [retain_last]. by rewrite IH, Ht.
Qed.

(** X3. Settings made by the constructor of [MeshShapeSettings] are
    sanitized first: the shape constructor never rejects them for a
    degenerate triangle, and rejects them as empty when every triangle given
    was degenerate. *)
Theorem MeshShapeSettings_new_never_degenerate (inVertices : list Float3)
    (inTriangles : list IndexedTriangle) (inMaterials : list PhysicsMaterial) :
  Z.of_nat (length inTriangles) < 2 ^ 31 →
  let inSettings := MeshShapeSettings_new inVertices inTriangles inMaterials in
  (∀ t, (MeshShape_new inSettings).1 ≠ ResultError (DegenerateTriangle t)) ∧
  (Forall (λ t, IsDegenerate t = true) inTriangles →
   MeshShape_new inSettings = (ResultError EmptyInput, [])).
Proof.
  intros Hlen inSettings.
  assert (Hsan : mIndexedTriangles inSettings = (retain_last inTriangles).1).
  { unfold inSettings, MeshShapeSettings_new. cbn [mIndexedTriangles].
    by apply Sanitize_retain_last. }
  assert (Hlen' : Z.of_nat (length (mIndexedTriangles inSettings)) < 2 ^ 31).
  { rewrite Hsan. pose proof (sublist_length _ _ (retain_last_sublist inTriangles)). lia. }
  split.
  - intros t. unfold MeshShape_new, validate. case_bool_decide; [done|].
    destruct (check_all_triangles inSettings) as [e|] eqn:Hcheck.
    + rewrite check_all_triangles_n in Hcheck by done.
      apply check_triangles_Some in Hcheck as (k & tri & Hk & _ & ->); [|done].
      unfold triangle_error.
      assert (Hnd : IsDegenerate tri = false).
      { pose proof (retain_last_nondegenerate inTriangles) as Hall.
        rewrite Forall_forall in Hall. apply Hall. rewrite <- Hsan.
        by eapply list_elem_of_lookup_2. }
      by rewrite Hnd.
    + destruct (check_materials _ _) as [e|] eqn:Hmat.
      { unfold check_materials in Hmat. cbn zeta in Hmat. cbn [fst].
        case_bool_decide; [destruct (forallb _ _); by simplify_eq|].
        destruct (_ <? _); [by simplify_eq|].
        destruct (find _ _); cbn in Hmat; by simplify_eq. }
      destruct (FindActiveEdges _ _) as [indexed failed].
      destruct (Convert _ _); [done|]. by destruct (_ <? _).
  - intros Hall. unfold MeshShape_new, validate.
    rewrite bool_decide_eq_true_2; [done|].
    by rewrite Hsan, retain_last_all_degenerate.
Qed.

(** ** Sanitizing twice *)

Lemma retain_last_clean (l : list IndexedTriangle) :
  Forall (λ t, IsDegenerate t = false) l → NoDup (canonical_triple <$> l) →
  (retain_last l).1 = l.
Proof.
  induction 1 as [|t rest Ht Hrest IH]; [done|]. rewrite fmap_cons, NoDup_cons.
  intros [Hnew Hnodup]. cbn [retain_last]. specialize (IH Hnodup).
  destruct (retain_last rest) as [kept seen] eqn:Hretain. cbn [fst] in IH. subst kept.
  rewrite Ht. cbn [orb]. rewrite bool_decide_eq_false_2; [done|].
  intros Hseen. apply Hnew.
  assert (Hin : canonical_triple t ∈ (retain_last rest).2) by (by rewrite Hretain).
  apply retain_last_seen in Hin as (tri & Htri & _ & Heq).
  apply list_elem_of_fmap. by exists tri.
Qed.

(** X5. [Sanitize] leaves a list alone that has no degenerate triangle and
    no two triangles with the same canonical triple; so sanitizing a second
    time changes nothing. *)
Theorem Sanitize_idempotent (l : list IndexedTriangle) :
  Z.of_nat (length l) < 2 ^ 31 →
  (Forall (λ t, IsDegenerate t = false) l → NoDup (canonical_triple <$> l) →
   Sanitize l = l) ∧
  Sanitize (Sanitize l) = Sanitize l.
Proof.
  intros Hlen.
  assert (Hclean : ∀ l', Z.of_nat (length l') < 2 ^ 31 →
            Forall (λ t, IsDegenerate t = false) l' → NoDup (canonical_triple <$> l') →
            Sanitize l' = l').
  { intros l' Hlen' Hnd Hnodup. rewrite Sanitize_retain_last by done.
    by apply retain_last_clean. }
  split; [by apply Hclean|].
  rewrite (Sanitize_retain_last l) by done. apply Hclean.
  - pose proof (sublist_length _ _ (retain_last_sublist l)). lia.
  - apply retain_last_nondegenerate.
  - apply retain_last_NoDup.
Qed.

(** ** The edge map and the edge positions *)

Lemma Edge_new_comm (a b : Z) : Edge_new a b = Edge_new b a.
Proof. unfold Edge_new. by rewrite Z.min_comm, Z.max_comm. Qed.

(** X6. For triangles without a degenerate one, the edge map holds under the
    edge [{a, b}] exactly the triangles that have this edge, each once and in
    increasing order of their index; an edge of no triangle has no entry. *)
Theorem edge_to_triangle_lookup (l : list IndexedTriangle) (a b : Z) :
  Forall IndexedTriangle_typed l → Forall (λ t, IsDegenerate t = false) l →
  0 ≤ a < 2 ^ 32 → 0 ≤ b < 2 ^ 32 →
  build_edge_to_triangle 0 l ∅ !! Edge_new a b
  = match incident_triangles l a b with
    | [] => None
    | triangles => Some triangles
    end.
Proof.
  intros Hty Hnd Ha Hb.
  pose proof (edge_occurrences_incident_triangles l a b Hty Hnd Ha Hb) as Hocc.
  destruct (build_edge_to_triangle 0 l ∅ !! Edge_new a b) as [tris|] eqn:Hlookup.
  - apply edge_to_triangle_entry in Hlookup as [-> Hne]. rewrite Hocc in Hne |- *.
    by destruct (incident_triangles l a b).
  - destruct (incident_triangles l a b) as [|k rest] eqn:Hinc; [done|].
    assert (Hsome : build_edge_to_triangle 0 l ∅ !! Edge_new a b
                    = Some (edge_occurrences 0 l (Edge_new a b))).
    { apply edge_to_triangle_entry. split; [done|]. by rewrite Hocc. }
    congruence.
Qed.

(** X7. [GetIndexInTriangle] finds every edge of a triangle at its own
    position exactly when the triangle is not degenerate: in a degenerate
    triangle two positions hold the same edge and the later one is reported
    at the earlier. *)
Theorem GetIndexInTriangle_roundtrip_iff (t : IndexedTriangle) :
  IndexedTriangle_typed t →
  (∀ p, 0 ≤ p ≤ 2 → GetIndexInTriangle (triangle_edge t p) t = p)
  ↔ IsDegenerate t = false.
Proof.
  intros Hty. split.
  - intros Hround. apply IsDegenerate_false.
    pose proof (Hround 1 ltac:(lia)) as H1. pose proof (Hround 2 ltac:(lia)) as H2.
    unfold GetIndexInTriangle in H1, H2.
    assert (E0 : triangle_edge t 0 = Edge_new (mIdx_0 t) (mIdx_1 t)) by done.
    assert (E1 : triangle_edge t 1 = Edge_new (mIdx_1 t) (mIdx_2 t)) by done.
    assert (E2 : triangle_edge t 2 = Edge_new (mIdx_2 t) (mIdx_0 t)) by done.
    rewrite E0, E1, E2 in *.
    split_and!; intros Heq.
    + rewrite Heq in H2. rewrite (Edge_new_comm (mIdx_2 t) (mIdx_1 t)) in H2.
      repeat case_bool_decide; try done; lia.
    + rewrite <- Heq in H2. rewrite (Edge_new_comm (mIdx_1 t) (mIdx_0 t)) in H2.
      repeat case_bool_decide; try done; lia.
    + rewrite Heq in H1. rewrite (Edge_new_comm (mIdx_1 t) (mIdx_0 t)) in H1.
      repeat case_bool_decide; try done; lia.
  - intros Hnd p Hp. by apply GetIndexInTriangle_edge.
Qed.

(** ** What the active-edge analysis never changes *)

Lemma flags_grown_refl (orig : list IndexedTriangle) : flags_grown orig orig.
Proof.
  split; [done|]. intros k t Hk. exists t. split_and!; [done|done|apply Z.land_diag].
Qed.

Lemma mark_triangle_flags_grown (orig : list IndexedTriangle) (e : Edge) (st : MarkState)
    (k0 : nat) :
  flags_grown orig st.1 → flags_grown orig (mark_triangle e st k0).1.
Proof.
  destruct st as [cur failed]. cbn [fst]. intros [Hlen Hframe].
  unfold mark_triangle. cbn [fst]. split; [by rewrite length_insert|].
  intros k t Hk. destruct (Hframe k t Hk) as (t' & Hk' & Hs & Hbits).
  destruct (decide (k = k0)) as [->|Hne].
  - rewrite (list_lookup_total_correct _ _ _ Hk').
    eexists. split; [apply list_lookup_insert_eq; by eapply lookup_lt_Some|].
    split; [done|]. cbn [mMaterialIndex].
    apply Z.bits_inj'. intros i Hi.
    apply (f_equal (λ x, Z.testbit x i)) in Hbits.
    rewrite Z.land_spec in Hbits. rewrite Z.land_spec, Z.lor_spec.
    destruct (Z.testbit (mMaterialIndex t') i), (Z.testbit (mMaterialIndex t) i),
             (Z.testbit (edge_mask (GetIndexInTriangle e t')) i); done.
  - exists t'. split_and!; [by rewrite list_lookup_insert_ne|done|done].
Qed.

Lemma visit_edge_flags_grown (inVertices : list Float3) (orig : list IndexedTriangle)
    (st : MarkState) (entry : Edge * list nat) :
  flags_grown orig st.1 → flags_grown orig (visit_edge inVertices st entry).1.
Proof.
  destruct entry as [e l]. unfold visit_edge. intros Hframe.
  destruct (edge_active inVertices st.1 e l); [|done].
  set (st' := (st.1, st.2 ++ edge_active_asserts st.1 e l)).
  assert (Hst' : flags_grown orig st'.1) by done.
  clearbody st'. revert st' Hst'.
  induction l as [|k rest IH]; intros st' Hst'; [done|].
  cbn [foldl]. apply IH. by apply mark_triangle_flags_grown.
Qed.

(** X8. Whatever triangles it is given, [FindActiveEdges] returns as many
    triangles, in the same order and with the same vertex indices, and every
    flag word still has each bit it had: it only adds bits. *)
Theorem FindActiveEdges_only_adds_bits (inVertices : list Float3)
    (ioIndices : list IndexedTriangle) (entries : list (Edge * list nat)) :
  flags_grown ioIndices (FindActiveEdges_in_order inVertices entries ioIndices).1 ∧
  flags_grown ioIndices (FindActiveEdges inVertices ioIndices).1.
Proof.
  assert (Hany : ∀ entries' st,
            flags_grown ioIndices st.1 →
            flags_grown ioIndices (foldl (visit_edge inVertices) st entries').1).
  { induction entries' as [|entry rest IH]; intros st Hst; [done|].
    cbn [foldl]. apply IH. by apply visit_edge_flags_grown. }
  split; apply Hany, flags_grown_refl.
Qed.

(** ** The material index under the active-edge bits *)

Lemma nonneg_bits_above (a n : Z) :
  0 ≤ a → 0 ≤ n → (∀ i, n ≤ i → Z.testbit a i = false) → a < 2 ^ n.
Proof.
  intros Ha Hn Hbits.
  assert (Hmod : a mod 2 ^ n = a).
  { apply Z.bits_inj'. intros i Hi.
    destruct (Z.ltb_spec i n).
    - by rewrite Z.mod_pow2_bits_low.
    - rewrite Z.mod_pow2_bits_high by lia. symmetry. by apply Hbits. }
  rewrite <- Hmod. apply Z.mod_pos_bound. lia.
Qed.

(** X4. On settings the constructor accepts, and with the material bits below
    the three active-edge bits, the flag word [FindActiveEdges] writes for a
    triangle still holds the triangle's material index in its low bits, and
    fits the bits up to the last active-edge bit; this holds for every
    iteration order of the edge map. *)
Theorem FindActiveEdges_keeps_material_index (inSettings : MeshShapeSettings)
    (entries : list (Edge * list nat)) :
  let inVertices := mTriangleVertices inSettings in
  let orig := mIndexedTriangles inSettings in
  0 ≤ FLAGS_ACTIVE_EGDE_SHIFT → FLAGS_ACTIVE_EGDE_SHIFT + 2 < 32 →
  FLAGS_MATERIAL_MASK = Z.ones FLAGS_ACTIVE_EGDE_SHIFT →
  Forall IndexedTriangle_typed orig →
  Z.of_nat (length orig) < 2 ^ 31 →
  validate inSettings = None →
  entries ≡ₚ map_to_list (build_edge_to_triangle 0 orig ∅) →
  ∀ k t, orig !! k = Some t →
    ∃ t', (FindActiveEdges_in_order inVertices entries orig).1 !! k = Some t' ∧
      Z.land (mMaterialIndex t') FLAGS_MATERIAL_MASK = mMaterialIndex t ∧
      0 ≤ mMaterialIndex t' < 2 ^ (FLAGS_ACTIVE_EGDE_SHIFT + 3).
Proof.
  intros inVertices orig HS0 HS1 Hmask Hty Hlen Hval Hperm k t Hk.
  assert (Hpow : 0 < 2 ^ FLAGS_ACTIVE_EGDE_SHIFT) by (apply Z.pow_pos_nonneg; lia).
  assert (HM : FLAGS_MATERIAL_MASK = 2 ^ FLAGS_ACTIVE_EGDE_SHIFT - 1).
  { rewrite Hmask, Z.ones_equiv. lia. }
  destruct (validate_None inSettings ltac:(lia) HS0 ltac:(lia) Hty Hlen Hval)
    as [Hnd Hclear].
  assert (Hsmall : mMaterialIndex t ≤ FLAGS_MATERIAL_MASK).
  { unfold validate in Hval. case_bool_decide; [done|].
    destruct (check_all_triangles inSettings); [done|].
    pose proof (check_materials_None _ _ ltac:(lia) Hval) as Hall.
    rewrite Forall_forall in Hall. apply Hall. by eapply list_elem_of_lookup_2. }
  assert (Htyped : IndexedTriangle_typed t).
  { rewrite Forall_forall in Hty. apply Hty. by eapply list_elem_of_lookup_2. }
  destruct (visit_edges_marked inVertices orig HS0 HS1 Hty Hnd Hclear entries orig
              (λ _ _, False)) as (out & Hrun & [_ Hm]).
  { rewrite Hperm. apply NoDup_fst_map_to_list. }
  { intros e l Hin. apply edge_to_triangle_entry_ok; [done|done|].
    rewrite Hperm in Hin. by apply elem_of_map_to_list in Hin. }
  { intros e l k' _ []. }
  { by apply marked_refl. }
  unfold FindActiveEdges_in_order. rewrite Hrun. cbn [fst].
  destruct (Hm k t Hk) as (t' & Hk' & _ & Hnonneg & Hbits).
  exists t'. split; [done|].
  assert (Hlow : ∀ i, 0 ≤ i < FLAGS_ACTIVE_EGDE_SHIFT →
            Z.testbit (mMaterialIndex t') i = Z.testbit (mMaterialIndex t) i).
  { intros i Hi. apply eq_true_iff_eq. rewrite Hbits by lia. split; [|by left].
    intros [?|(p & Hp & Heq & _)]; [done|lia]. }
  assert (Hhigh : ∀ i, FLAGS_ACTIVE_EGDE_SHIFT ≤ i →
            Z.testbit (mMaterialIndex t) i = false).
  { intros i Hi. apply (testbit_small _ FLAGS_ACTIVE_EGDE_SHIFT); [|done].
    destruct Htyped as (_ & _ & _ & Hmat). lia. }
  split.
  - apply Z.bits_inj'. intros i Hi.
    rewrite Z.land_spec, Hmask, Z.testbit_ones_nonneg by lia.
    destruct (Z.ltb_spec i FLAGS_ACTIVE_EGDE_SHIFT).
    + rewrite Hlow by lia. apply andb_true_r.
    + rewrite Hhigh by lia. apply andb_false_r.
  - split; [done|]. apply nonneg_bits_above; [done|lia|].
    intros i Hi. apply not_true_is_false. rewrite Hbits by lia.
    intros [Hold|(p & Hp & Heq & _)]; [|lia].
    rewrite Hhigh in Hold by lia. done.
Qed.

(** ** From an identifier back to its triangle *)

Lemma find_triangle_block_id (n : Node) (b : Z) (block : list EncodedTriangle) :
  find_triangle_block n b = Some block → b ∈ block_ids n.
Proof.
  induction n as [b0 b1 b2 b3 c0 IH0 c1 IH1 c2 IH2 c3 IH3|block_id tris|];
    cbn [find_triangle_block block_ids].
  - rewrite !elem_of_app.
    destruct (find_triangle_block c0 b); [intros; left; by apply IH0|].
    destruct (find_triangle_block c1 b); [intros; right; left; by apply IH1|].
    destruct (find_triangle_block c2 b); [intros; right; right; left; by apply IH2|].
    intros; right; right; right; by apply IH3.
  - destruct (Z.eqb_spec block_id b); [|done]. intros _. subst. apply list_elem_of_singleton.
    done.
  - done.
Qed.

Lemma find_triangle_block_None (n : Node) (b : Z) :
  b ∉ block_ids n → find_triangle_block n b = None.
Proof.
  intros Hb. destruct (find_triangle_block n b) eqn:Hfind; [|done].
  by apply find_triangle_block_id in Hfind.
Qed.

Lemma node_triangles_block_id (n : Node) (x : Z * Z * EncodedTriangle) :
  x ∈ node_triangles n → x.1.1 ∈ block_ids n.
Proof.
  induction n as [b0 b1 b2 b3 c0 IH0 c1 IH1 c2 IH2 c3 IH3|block_id tris|];
    cbn [node_triangles block_ids].
  - rewrite !elem_of_app. intros [?|[?|[?|?]]]; auto.
  - intros (i & t & -> & _)%elem_of_lookup_imap. apply list_elem_of_singleton. done.
  - by intros ?%elem_of_nil.
Qed.

(** With one id per block, a triangle of the tree is found again from its
    block id and its index. *)
Lemma find_triangle_block_elem (n : Node) (x : Z * Z * EncodedTriangle) :
  NoDup (block_ids n) → x ∈ node_triangles n →
  ∃ block, find_triangle_block n x.1.1 = Some block ∧
           block !! Z.to_nat x.1.2 = Some x.2 ∧
           length block ∈ block_sizes n ∧ 0 ≤ x.1.2 < Z.of_nat (length block).
Proof.
  induction n as [b0 b1 b2 b3 c0 IH0 c1 IH1 c2 IH2 c3 IH3|block_id tris|];
    cbn [node_triangles block_ids find_triangle_block block_sizes].
  - rewrite !NoDup_app. intros (N0 & D0 & N1 & D1 & N2 & D2 & N3).
    rewrite !elem_of_app. intros [H|[H|[H|H]]].
    + destruct (IH0 N0 H) as (block & Hfind & Hrest). exists block.
      rewrite Hfind. split; [done|]. rewrite !elem_of_app. tauto.
    + destruct (IH1 N1 H) as (block & Hfind & Hrest). exists block.
      pose proof (node_triangles_block_id _ _ H) as Hid.
      rewrite (find_triangle_block_None c0).
      2:{ intros Hin. apply (D0 _ Hin). rewrite !elem_of_app. tauto. }
      rewrite Hfind. split; [done|]. rewrite !elem_of_app. tauto.
    + destruct (IH2 N2 H) as (block & Hfind & Hrest). exists block.
      pose proof (node_triangles_block_id _ _ H) as Hid.
      rewrite (find_triangle_block_None c0).
      2:{ intros Hin. apply (D0 _ Hin). rewrite !elem_of_app. tauto. }
      rewrite (find_triangle_block_None c1).
      2:{ intros Hin. apply (D1 _ Hin). rewrite !elem_of_app. tauto. }
      rewrite Hfind. split; [done|]. rewrite !elem_of_app. tauto.
    + destruct (IH3 N3 H) as (block & Hfind & Hrest). exists block.
      pose proof (node_triangles_block_id _ _ H) as Hid.
      rewrite (find_triangle_block_None c0).
      2:{ intros Hin. apply (D0 _ Hin). rewrite !elem_of_app. tauto. }
      rewrite (find_triangle_block_None c1).
      2:{ intros Hin. apply (D1 _ Hin). rewrite !elem_of_app. tauto. }
      rewrite (find_triangle_block_None c2).
      2:{ intros Hin. by apply (D2 _ Hin). }
      rewrite Hfind. split; [done|]. rewrite !elem_of_app. tauto.
  - intros _ (i & t & -> & Hi)%elem_of_lookup_imap. cbn [fst snd].
    exists tris. rewrite Z.eqb_refl, Nat2Z.id. split_and!; [done|done| |lia|].
    + apply list_elem_of_singleton. done.
    + apply lookup_lt_Some in Hi. lia.
  - by intros _ ?%elem_of_nil.
Qed.

(** Decoding the identifier of a triangle of the tree, as a query under the
    creator [c] builds it and as it arrives once the parents of the shape
    have popped their bits. *)
Lemma DecodeSubShapeID_of_tree_triangle (this : MeshShape) (c : SubShapeIDCreator)
    (x : Z * Z * EncodedTriangle) :
  0 < MaxBits → creator_wf c →
  0 ≤ sTriangleBlockIDBits (mTree this) → 0 ≤ NumTriangleBits →
  mCurrentBit c + sTriangleBlockIDBits (mTree this) + NumTriangleBits ≤ MaxBits →
  tree_ids_ok (mTree this) →
  x ∈ node_triangles (mRoot (mTree this)) →
  ∃ block,
    DecodeSubShapeID this (PopID (triangle_id this c x) (mCurrentBit c)).2
    = (Some block, x.1.2, [ReadTriangleBlock x.1.1]) ∧
    block !! Z.to_nat x.1.2 = Some x.2.
Proof.
  intros HM Hwf Hb Ht Hfit (Hnodup & Hids & Hsizes) Hx.
  destruct (find_triangle_block_elem _ x Hnodup Hx) as (block & Hfind & Hlook & Hsize & Hidx).
  exists block. split; [|done].
  rewrite Forall_forall in Hids. rewrite Forall_forall in Hsizes.
  pose proof (Hids _ (node_triangles_block_id _ _ Hx)) as Hbv.
  pose proof (Hsizes _ Hsize) as Htv.
  unfold triangle_id.
  rewrite (DecodeSubShapeID_roundtrip_nested this c x.1.1 x.1.2 HM Hwf Hb Ht Hfit Hbv)
    by lia.
  unfold sGetTriangleBlockStart. by rewrite Hfind.
Qed.

(** X16. Under one creator the triangles of the tree get identifiers of
    their own: two different triangle positions of the tree have different
    sub-shape identifiers. *)
Theorem triangle_id_injective (this : MeshShape) (c : SubShapeIDCreator)
    (x y : Z * Z * EncodedTriangle) :
  0 < MaxBits → creator_wf c →
  0 ≤ sTriangleBlockIDBits (mTree this) → 0 ≤ NumTriangleBits →
  mCurrentBit c + sTriangleBlockIDBits (mTree this) + NumTriangleBits ≤ MaxBits →
  tree_ids_ok (mTree this) →
  x ∈ node_triangles (mRoot (mTree this)) →
  y ∈ node_triangles (mRoot (mTree this)) →
  x ≠ y → triangle_id this c x ≠ triangle_id this c y.
Proof.
  intros HM Hwf Hb Ht Hfit Hids Hx Hy Hne Heq. apply Hne.
  destruct (DecodeSubShapeID_of_tree_triangle this c x HM Hwf Hb Ht Hfit Hids Hx)
    as (bx & Hdx & Hlx).
  destruct (DecodeSubShapeID_of_tree_triangle this c y HM Hwf Hb Ht Hfit Hids Hy)
    as (by' & Hdy & Hly).
  rewrite Heq, Hdy in Hdx. injection Hdx as Hblock Hidx Hid. subst by'.
  rewrite <- Hidx, Hly in Hlx. injection Hlx as Htri.
  destruct x as [[xb xi] xt], y as [[yb yi] yt]. cbn [fst snd] in *. by subst.
Qed.

(** X9. The sub-shape identifier a query builds for a triangle of the tree
    leads [GetMaterial] to that triangle: with a material table it returns
    the entry at the material bits of the triangle's flags, after reading
    the triangle's block and its flags. *)
Theorem GetMaterial_of_tree_triangle (this : MeshShape) (c : SubShapeIDCreator)
    (x : Z * Z * EncodedTriangle) :
  0 < MaxBits → creator_wf c →
  0 ≤ sTriangleBlockIDBits (mTree this) → 0 ≤ NumTriangleBits →
  mCurrentBit c + sTriangleBlockIDBits (mTree this) + NumTriangleBits ≤ MaxBits →
  tree_ids_ok (mTree this) →
  mMaterials this ≠ [] →
  x ∈ node_triangles (mRoot (mTree this)) →
  GetMaterial this (PopID (triangle_id this c x) (mCurrentBit c)).2
  = (mMaterials this !! Z.to_nat (Z.land (tri_flags x.2) FLAGS_MATERIAL_MASK),
     [ReadTriangleBlock x.1.1; ReadTriangleFlags x.1.2]).
Proof.
  intros HM Hwf Hb Ht Hfit Hids Hne Hx.
  destruct (DecodeSubShapeID_of_tree_triangle this c x HM Hwf Hb Ht Hfit Hids Hx)
    as (block & Hdec & Hlook).
  unfold GetMaterial. rewrite bool_decide_eq_false_2 by done.
  rewrite Hdec. cbn. by rewrite Hlook.
Qed.

Section SurfaceNormal.
Context {N : Normalizer}.

(** X10. The sub-shape identifier a query builds for a triangle of the tree
    leads [GetSurfaceNormal] to that triangle: the normal is the normalized
    cross product [(v3 - v2) x (v1 - v2)] of its vertices, whatever surface
    position is given. *)
Theorem GetSurfaceNormal_of_tree_triangle (this : MeshShape) (c : SubShapeIDCreator)
    (x : Z * Z * EncodedTriangle) (inLocalSurfacePosition : Vec3) :
  0 < MaxBits → creator_wf c →
  0 ≤ sTriangleBlockIDBits (mTree this) → 0 ≤ NumTriangleBits →
  mCurrentBit c + sTriangleBlockIDBits (mTree this) + NumTriangleBits ≤ MaxBits →
  tree_ids_ok (mTree this) →
  x ∈ node_triangles (mRoot (mTree this)) →
  GetSurfaceNormal this (PopID (triangle_id this c x) (mCurrentBit c)).2
    inLocalSurfacePosition
  = (Some (Vec3_Normalized
             (Vec3_Cross (Vec3_sub (tri_v2 x.2) (tri_v1 x.2))
                         (Vec3_sub (tri_v0 x.2) (tri_v1 x.2)))),
     [ReadTriangleBlock x.1.1]).
Proof.
  intros HM Hwf Hb Ht Hfit Hids Hx.
  destruct (DecodeSubShapeID_of_tree_triangle this c x HM Hwf Hb Ht Hfit Hids Hx)
    as (block & Hdec & Hlook).
  unfold GetSurfaceNormal. rewrite Hdec. cbn. by rewrite Hlook.
Qed.

End SurfaceNormal.

Section HitIdentity.
Context {FO : FloatOrder G}.

(** X11. When the nearest-hit [CastRay] returns true, the sub-shape
    identifier of the hit, once the parents have popped their bits, leads
    [GetMaterial] to a triangle of the tree that the ray hits at the fraction
    of the hit, and no triangle of the tree is hit earlier: the material
    returned is that of a closest triangle. *)
Theorem CastRay_hit_material (fuel : nat) (this : MeshShape) (distance_stack : Z → Float)
    (inRay : RayCast) (inSubShapeIDCreator : SubShapeIDCreator)
    (ioHit hit : RayCastResult) :
  ray_bounds_ok inRay (mRoot (mTree this)) = true →
  fractions_nonnegative inRay (mRoot (mTree this)) = true →
  (node_size (mRoot (mTree this)) ≤ fuel)%nat →
  0 < MaxBits → creator_wf inSubShapeIDCreator →
  0 ≤ sTriangleBlockIDBits (mTree this) → 0 ≤ NumTriangleBits →
  mCurrentBit inSubShapeIDCreator + sTriangleBlockIDBits (mTree this) + NumTriangleBits
  ≤ MaxBits →
  tree_ids_ok (mTree this) →
  mMaterials this ≠ [] →
  CastRay fuel this distance_stack inRay inSubShapeIDCreator ioHit = Some (true, hit) →
  ∃ x, x ∈ node_triangles (mRoot (mTree this)) ∧
       mFraction hit = triangle_fraction inRay x ∧
       (∀ y, y ∈ node_triangles (mRoot (mTree this)) →
             Float_lt (triangle_fraction inRay y) (mFraction hit) = false) ∧
       GetMaterial this (PopID (mSubShapeID2 hit) (mCurrentBit inSubShapeIDCreator)).2
       = (mMaterials this !! Z.to_nat (Z.land (tri_flags x.2) FLAGS_MATERIAL_MASK),
          [ReadTriangleBlock x.1.1; ReadTriangleFlags x.1.2]).
Proof.
  intros Hbounds Hnonneg Hfuel HM Hwf Hb Ht Hfit Hids Hne Hcast.
  destruct (CastRay_walk this inRay inSubShapeIDCreator ioHit Hnonneg fuel distance_stack
              Hbounds Hfuel) as (v & Hwalk & (_ & _ & _ & _ & _ & Hhit) & Hmin).
  unfold CastRay in Hcast. rewrite Hwalk in Hcast. cbn in Hcast.
  injection Hcast as Hret <-. unfold CastRay_hit_ok in Hhit. rewrite Hret in Hhit.
  destruct Hhit as (_ & _ & x & Hx & Hfrac & Hid).
  exists x. split_and!; [done|done|done|].
  destruct (DecodeSubShapeID_of_tree_triangle this inSubShapeIDCreator x HM Hwf Hb Ht Hfit
              Hids Hx) as (block & Hdec & Hlook).
  unfold GetMaterial. rewrite bool_decide_eq_false_2 by done.
  rewrite Hid, Hdec. cbn. by rewrite Hlook.
Qed.

End HitIdentity.


(** ** Visitors that visit every child they select *)

Lemma selected_blocks_ext (s1 s2 : AABox → bool) (n : Node) :
  (∀ b, s1 b = s2 b) → selected_blocks s1 n = selected_blocks s2 n.
Proof.
  intros Hext. induction n as [b0 b1 b2 b3 c0 IH0 c1 IH1 c2 IH2 c3 IH3| |]; [|done|done].
  cbn [selected_blocks]. by rewrite !Hext, IH0, IH1, IH2, IH3.
Qed.

Lemma blocks_triangles_app (l1 l2 : list (Z * list EncodedTriangle)) :
  blocks_triangles (l1 ++ l2) = blocks_triangles l1 ++ blocks_triangles l2.
Proof. apply flat_map_app. Qed.

Section FilterWalk.
Context {V : Type} {HV : Visitor V}.
Variable sel : V → AABox → bool.
Hypothesis sel_VisitNodes : ∀ v bounds properties top,
  VisitNodes v bounds properties top
  = (v, sSort4True (sel v <$> bounds) properties, CountTrues (sel v <$> bounds)).
Hypothesis sel_ShouldVisitNode : ∀ (v : V) i, ShouldVisitNode v i = true.
Hypothesis sel_VisitTriangles : ∀ v triangles block_id b,
  sel (VisitTriangles v triangles block_id) b = sel v b.

(** The children such a visitor pushes are the selected ones, in lane
    order. *)
Lemma filter_VisitNodes_kept (v : V) (b0 b1 b2 b3 : AABox) (c0 c1 c2 c3 : Node) (top : Z) :
  ∃ kept : list Node,
    (VisitNodes v [b0; b1; b2; b3] [c0; c1; c2; c3] top).1.1 = v ∧
    (VisitNodes v [b0; b1; b2; b3] [c0; c1; c2; c3] top).2 = Z.of_nat (length kept) ∧
    (length kept ≤ length (VisitNodes v [b0; b1; b2; b3] [c0; c1; c2; c3] top).1.2)%nat ∧
    take (length kept) (VisitNodes v [b0; b1; b2; b3] [c0; c1; c2; c3] top).1.2 = kept ∧
    selected_blocks (sel v) (InnerNode b0 b1 b2 b3 c0 c1 c2 c3)
    = flat_map (selected_blocks (sel v)) (reverse kept) ∧
    (nodes_size kept < node_size (InnerNode b0 b1 b2 b3 c0 c1 c2 c3))%nat.
Proof.
  rewrite sel_VisitNodes. unfold sSort4True, CountTrues.
  cbn [fmap list_fmap fst snd selected_blocks node_size zip zip_with].
  rewrite !filter_true_cons, !filter_lane_cons, !filter_nil.
  exists (snd <$> filter (λ lane : bool * Node, lane.1 = true)
            (zip [sel v b0; sel v b1; sel v b2; sel v b3] [c0; c1; c2; c3])).
  cbn [zip zip_with]. rewrite !filter_lane_cons, !filter_nil.
  destruct (sel v b0), (sel v b1), (sel v b2), (sel v b3);
    (split_and!;
     [ done | done | cbn; lia | done
     | cbn; rewrite ?app_nil_r, <- ?app_assoc; done
     | unfold nodes_size; cbn; pose proof (node_size_pos c0); lia ]).
Qed.

(** The walk of such a visitor shows it the blocks below the selected
    children, one after the other, until it wants to abort. *)
Lemma filter_walk (fuel : nat) :
  ∀ (ctx : DecodingContext) (v : V),
    0 ≤ mTop ctx → (nodes_size (pending_nodes ctx) ≤ fuel)%nat →
    ShouldAbort v = false →
    snd <$> WalkTree fuel ctx v
    = Some (visit_blocks v (flat_map (selected_blocks (sel v)) (reverse (pending_nodes ctx)))).
Proof.
  induction fuel as [|fuel IH]; intros ctx v Htop Hfuel Habort.
  { rewrite pending_nodes_size in Hfuel by done.
    pose proof (node_size_pos (mNodeStack ctx (mTop ctx))). lia. }
  assert (Hnext : ∀ ctx2 v2,
            -1 ≤ mTop ctx2 → (nodes_size (pending_nodes ctx2) ≤ fuel)%nat →
            ShouldAbort v2 = false →
            snd <$> (if 0 <=? mTop ctx2 then WalkTree fuel ctx2 v2 else Some (ctx2, v2))
            = Some (visit_blocks v2
                      (flat_map (selected_blocks (sel v2)) (reverse (pending_nodes ctx2))))).
  { intros ctx2 v2 Htop2 Hfuel2 Habort2.
    destruct (Z.leb_spec 0 (mTop ctx2)).
    - by apply IH.
    - by rewrite pending_nodes_done by lia. }
  rewrite WalkTree_S. cbn zeta.
  pose proof (pending_nodes_top ctx Htop) as Hpending.
  rewrite pending_nodes_size in Hfuel by done.
  unfold visit_node.
  destruct (mNodeStack ctx (mTop ctx)) as [b0 b1 b2 b3 c0 c1 c2 c3|block tris|] eqn:Hnode_eq.
  - destruct (filter_VisitNodes_kept v b0 b1 b2 b3 c0 c1 c2 c3 (mTop ctx))
      as (kept & Hv & Hn & Hlen & Htake & Hsel & Hsize).
    destruct (VisitNodes v _ _ _) as [[v1 props] n]. cbn [fst snd] in *. subst v1 n.
    rewrite Habort, pop_nodes_all by done. cbn [mTop mNodeStack].
    set (ctx2 := mkDecodingContext _ _).
    assert (Hpending2 : pending_nodes ctx2
                        = stack_nodes (mNodeStack ctx) (Z.to_nat (mTop ctx)) ++ kept).
    { unfold pending_nodes, ctx2. cbn [mTop mNodeStack].
      replace (Z.to_nat (Z.of_nat (Z.to_nat (mTop ctx + Z.of_nat (length kept))) - 1 + 1))
        with (Z.to_nat (mTop ctx) + length kept)%nat by lia.
      rewrite <- (Z2Nat.id (mTop ctx)) at 1 by done.
      by rewrite stack_nodes_store_lanes, Htake. }
    change (Z.of_nat (Z.to_nat (mTop ctx + Z.of_nat (length kept))) - 1) with (mTop ctx2).
    rewrite (Hnext ctx2 v); [| unfold ctx2; cbn [mTop]; lia
                             | rewrite Hpending2, nodes_size_app; lia | done].
    rewrite Hpending, Hpending2, !reverse_app, !flat_map_app. do 3 f_equal.
    cbn [reverse rev_append flat_map]. by rewrite app_nil_r.
  - cbn [fst snd].
    rewrite Hpending, reverse_app. cbn [reverse rev_append app flat_map selected_blocks visit_blocks].
    destruct (ShouldAbort (VisitTriangles v tris block)) eqn:Habort'; [done|].
    rewrite pop_nodes_all by done.
    set (ctx2 := mkDecodingContext _ _).
    assert (Hpending2 : pending_nodes ctx2
                        = stack_nodes (mNodeStack ctx) (Z.to_nat (mTop ctx))).
    { unfold pending_nodes, ctx2. cbn [mTop mNodeStack]. f_equal. lia. }
    change (Z.of_nat (Z.to_nat (mTop ctx)) - 1) with (mTop ctx2).
    rewrite (Hnext ctx2); [| unfold ctx2; cbn [mTop]; lia
                           | rewrite Hpending2; cbn [node_size] in Hfuel; lia | done].
    rewrite Hpending2. do 2 f_equal. apply flat_map_ext. intros n.
    apply selected_blocks_ext. intros b. apply sel_VisitTriangles.
  - cbn [fst snd]. rewrite Habort, pop_nodes_all by done.
    set (ctx2 := mkDecodingContext _ _).
    assert (Hpending2 : pending_nodes ctx2
                        = stack_nodes (mNodeStack ctx) (Z.to_nat (mTop ctx))).
    { unfold pending_nodes, ctx2. cbn [mTop mNodeStack]. f_equal. lia. }
    change (Z.of_nat (Z.to_nat (mTop ctx)) - 1) with (mTop ctx2).
    rewrite (Hnext ctx2 v); [| unfold ctx2; cbn [mTop]; lia
                             | rewrite Hpending2; cbn [node_size] in Hfuel; lia | done].
    rewrite Hpending, Hpending2, reverse_app. by cbn [reverse rev_append app flat_map selected_blocks].
Qed.

Lemma filter_walk_shape (fuel : nat) (this : MeshShape) (v : V) :
  (node_size (mRoot (mTree this)) ≤ fuel)%nat → ShouldAbort v = false →
  MeshShape_WalkTree fuel this v
  = Some (visit_blocks v (selected_blocks (sel v) (mRoot (mTree this)))).
Proof.
  intros Hfuel Habort. unfold MeshShape_WalkTree.
  rewrite filter_walk; [| done | | done].
  - unfold pending_nodes, DecodingContext_new, stack_nodes.
    change (Z.to_nat (mTop (mkDecodingContext (λ _ : Z, mRoot (mTree this)) 0) + 1))
      with 1%nat.
    cbn [seq fmap list_fmap reverse rev_append flat_map mNodeStack].
    by rewrite app_nil_r.
  - unfold pending_nodes, DecodingContext_new, stack_nodes, nodes_size. simpl. lia.
Qed.

End FilterWalk.


(** ** GetStats *)

Section Statistics.
Context {BA : BoxAccess} {L : Layout}.

Lemma uint32_add_l (a b : Z) : uint32 (uint32 a + b) = uint32 (a + b).
Proof. unfold uint32. apply Zplus_mod_idemp_l. Qed.

(** The counter of the statistics visitor after a list of blocks. *)
Lemma stats_visit_blocks (blocks : list (Z * list EncodedTriangle)) :
  ∀ n : Z,
    visit_blocks (mkStatsVisitor (uint32 n)) blocks
    = mkStatsVisitor (uint32 (n + Z.of_nat (length (blocks_triangles blocks)))).
Proof.
  induction blocks as [|[block_id triangles] rest IH]; intros n.
  - cbn. by rewrite Z.add_0_r.
  - cbn [visit_blocks VisitTriangles ShouldAbort StatsVisitor_Visitor stats_mNumTriangles].
    rewrite uint32_add_l, IH. f_equal. f_equal.
    unfold blocks_triangles. cbn [flat_map fst snd].
    rewrite length_app, length_imap. lia.
Qed.

(** The blocks behind valid bounds hold every triangle of a tree whose
    populated children have valid bounds. *)
Lemma valid_blocks_length (n : Node) :
  populated_children_valid n →
  length (blocks_triangles (selected_blocks bounds_valid n)) = length (node_triangles n).
Proof.
  induction n as [b0 b1 b2 b3 c0 IH0 c1 IH1 c2 IH2 c3 IH3|block_id triangles|].
  - intros (H0 & H1 & H2 & H3 & Hc0 & Hc1 & Hc2 & Hc3).
    cbn [selected_blocks node_triangles].
    rewrite !blocks_triangles_app, !length_app.
    specialize (IH0 Hc0). specialize (IH1 Hc1). specialize (IH2 Hc2). specialize (IH3 Hc3).
    assert (Hchild : ∀ b c,
              node_triangles c = [] ∨ bounds_valid b = true →
              length (blocks_triangles (selected_blocks bounds_valid c))
              = length (node_triangles c) →
              length (blocks_triangles
                        (if bounds_valid b then selected_blocks bounds_valid c else []))
              = length (node_triangles c)).
    { intros b c [Hempty | Hvalid] IH.
      - destruct (bounds_valid b); [done|]. by rewrite Hempty.
      - by rewrite Hvalid. }
    rewrite (Hchild b0 c0), (Hchild b1 c1), (Hchild b2 c2), (Hchild b3 c3) by done. lia.
  - intros _. cbn. by rewrite app_nil_r.
  - done.
Qed.

(** X12. [GetStats] counts, modulo [2^32], the triangles of the leaf blocks
    that are reached through children with valid bounds: a child whose box
    has no extent on any axis is left out with all it holds.  When every
    child that holds triangles has valid bounds, the count is the number of
    triangles of the tree. *)
Theorem GetStats_counts_valid_children (fuel : nat) (this : MeshShape) :
  (node_size (mRoot (mTree this)) ≤ fuel)%nat →
  (mNumTriangles <$> GetStats fuel this
   = Some (uint32 (Z.of_nat (length (blocks_triangles
                                       (selected_blocks bounds_valid (mRoot (mTree this)))))))) ∧
  (populated_children_valid (mRoot (mTree this)) →
   mNumTriangles <$> GetStats fuel this
   = Some (uint32 (Z.of_nat (length (node_triangles (mRoot (mTree this))))))) ∧
  (mSizeBytes <$> GetStats fuel this
   = Some (size_t (sizeof_MeshShape
                   + size_t (Z.of_nat (length (mMaterials this)) * sizeof_Ref_PhysicsMaterial)
                   + size_t (ByteBuffer_size (mTree this) * 1)))).
Proof.
  intros Hfuel.
  assert (Hwalk : MeshShape_WalkTree fuel this (mkStatsVisitor 0)
                  = Some (mkStatsVisitor
                            (uint32 (Z.of_nat (length (blocks_triangles
                               (selected_blocks bounds_valid (mRoot (mTree this))))))))).
  { rewrite (filter_walk_shape (λ _ : StatsVisitor, bounds_valid)); try done.
    change 0 with (uint32 0) at 1. by rewrite stats_visit_blocks. }
  unfold GetStats. rewrite Hwalk. cbn [mbind option_bind fmap option_fmap option_map
                                         mNumTriangles mSizeBytes stats_mNumTriangles].
  split_and!; [done| |done].
  intros Hvalid. by rewrite valid_blocks_length.
Qed.

End Statistics.

(** ** sCollideConvexVsMesh *)

Section Collision.
Context {CT : ConvexVsTriangles}.

Lemma collide_triangles_keeps_box (block_sub_shape_id : SubShapeIDCreator)
    (inTriangles : list EncodedTriangle) :
  Collide_keeps_box →
  ∀ base triangle_idx,
    mScale2 (collide_triangles block_sub_shape_id base triangle_idx inTriangles) = mScale2 base ∧
    mBoundsOf1InSpaceOf2 (collide_triangles block_sub_shape_id base triangle_idx inTriangles)
    = mBoundsOf1InSpaceOf2 base.
Proof.
  intros Hkeeps. induction inTriangles as [|t rest IH]; intros base triangle_idx; [done|].
  cbn [collide_triangles].
  destruct (Hkeeps base (tri_v0 t) (tri_v1 t) (tri_v2 t) (active_edges (tri_flags t))
              (GetID (PushID block_sub_shape_id triangle_idx NumTriangleBits)))
    as [Hscale Hbox].
  destruct (mCollector_ShouldEarlyOut _); [done|].
  destruct (IH (Collide base (tri_v0 t) (tri_v1 t) (tri_v2 t) (active_edges (tri_flags t))
                  (GetID (PushID block_sub_shape_id triangle_idx NumTriangleBits)))
              (triangle_idx + 1)) as [-> ->].
  done.
Qed.

Lemma collide_each_app (shape2 : MeshShape) (c : SubShapeIDCreator)
    (l1 l2 : list (Z * Z * EncodedTriangle)) :
  ∀ base,
    mCollector_ShouldEarlyOut base = false →
    collide_each shape2 c base (l1 ++ l2)
    = if mCollector_ShouldEarlyOut (collide_each shape2 c base l1)
      then collide_each shape2 c base l1
      else collide_each shape2 c (collide_each shape2 c base l1) l2.
Proof.
  induction l1 as [|x l1 IH]; intros base Hbase.
  - cbn [app collide_each]. by rewrite Hbase.
  - cbn [app collide_each].
    destruct (mCollector_ShouldEarlyOut (Collide _ _ _ _ _ _)) eqn:Hout.
    + by rewrite Hout.
    + by apply IH.
Qed.

(** The loop over a block collides its triangles under the identifiers of
    the tree. *)
Lemma collide_triangles_each (shape2 : MeshShape) (c : SubShapeIDCreator) (block_id : Z)
    (inTriangles : list EncodedTriangle) :
  ∀ (i : nat) base,
    collide_triangles (PushID c block_id (sTriangleBlockIDBits (mTree shape2))) base
      (Z.of_nat i) inTriangles
    = collide_each shape2 c base
        (imap (λ j t, (block_id, Z.of_nat (i + j), t)) inTriangles).
Proof.
  induction inTriangles as [|t rest IH]; intros i base; [done|].
  rewrite imap_cons. cbn [collide_triangles collide_each].
  unfold triangle_id at 1 2. cbn [fst snd]. rewrite Nat.add_0_r.
  destruct (mCollector_ShouldEarlyOut _); [done|].
  replace (Z.of_nat i + 1) with (Z.of_nat (S i)) by lia.
  rewrite IH. f_equal. apply imap_ext. intros j x _. cbn. do 2 f_equal. lia.
Qed.

Lemma collide_visit_blocks (shape2 : MeshShape) (c : SubShapeIDCreator)
    (blocks : list (Z * list EncodedTriangle)) :
  ∀ base,
    mCollector_ShouldEarlyOut base = false →
    cv_base (visit_blocks (mkCollideVisitor base (sTriangleBlockIDBits (mTree shape2)) c) blocks)
    = collide_each shape2 c base (blocks_triangles blocks).
Proof.
  induction blocks as [|[block_id triangles] rest IH]; intros base Hbase; [done|].
  cbn [visit_blocks VisitTriangles ShouldAbort CollideVisitor_Visitor].
  unfold CollideVisitor_VisitTriangles.
  cbn [cv_base cv_mTriangleBlockIDBits cv_mSubShapeIDCreator2].
  change (blocks_triangles ((block_id, triangles) :: rest))
    with (imap (λ j t, (block_id, Z.of_nat j, t)) triangles ++ blocks_triangles rest).
  rewrite collide_each_app by done.
  pose proof (collide_triangles_each shape2 c block_id triangles 0 base) as Heach.
  change (Z.of_nat 0) with 0 in Heach. cbn [Nat.add] in Heach. rewrite Heach.
  destruct (mCollector_ShouldEarlyOut
              (collide_each shape2 c base (imap (λ j t, (block_id, Z.of_nat j, t)) triangles)))
    eqn:Hout; [done|].
  by apply IH.
Qed.

(** X13. [sCollideConvexVsMesh] hands to [Collide], one after the other,
    the triangles of the leaf blocks that lie behind children whose scaled
    bounds touch the box of the convex shape, each with its active-edge bits
    and its identifier under the second creator, and stops with the first
    triangle after which the collector wants out: the loop over the blocks
    and the loop inside a block act as one loop that is left once. *)
Theorem sCollideConvexVsMesh_collides_selected (fuel : nat) (shape2 : MeshShape)
    (base : CollideConvexVsTriangles) (inSubShapeIDCreator2 : SubShapeIDCreator) :
  Collide_keeps_box →
  (node_size (mRoot (mTree shape2)) ≤ fuel)%nat →
  mCollector_ShouldEarlyOut base = false →
  sCollideConvexVsMesh fuel shape2 base inSubShapeIDCreator2
  = Some (collide_each shape2 inSubShapeIDCreator2 base
            (blocks_triangles
               (selected_blocks (collides_with base) (mRoot (mTree shape2))))).
Proof.
  intros Hkeeps Hfuel Hout. unfold sCollideConvexVsMesh. cbn zeta.
  rewrite (filter_walk_shape (λ v : CollideVisitor, collides_with (cv_base v))); try done.
  - cbn [fmap option_fmap option_map]. f_equal. by apply collide_visit_blocks.
  - intros v bounds properties top. cbn [VisitNodes CollideVisitor_Visitor].
    unfold CollideVisitor_VisitNodes, collides_with. cbn zeta.
    by rewrite <- !list_fmap_compose.
  - intros v triangles block_id b. cbn [VisitTriangles CollideVisitor_Visitor].
    unfold CollideVisitor_VisitTriangles, collides_with. cbn [cv_base].
    by destruct (collide_triangles_keeps_box
                   (PushID (cv_mSubShapeIDCreator2 v) block_id (cv_mTriangleBlockIDBits v))
                   triangles Hkeeps (cv_base v) 0) as [-> ->].
Qed.

End Collision.


(** ** The collector cast with a collector that gathers all hits *)

Lemma pop_nodes_top {V : Type} {HV : Visitor V} (v : V) (n : nat) :
  n = 0%nat ∨ ShouldVisitNode v (Z.of_nat n - 1) = true →
  pop_nodes v n = Z.of_nat n - 1.
Proof.
  destruct n as [|m]; cbn [pop_nodes]; [done|].
  intros [?|Hwanted]; [lia|].
  replace (Z.of_nat (S m) - 1) with (Z.of_nat m) in * by lia.
  by rewrite Hwanted.
Qed.

Lemma take_of_lookups {X Y : Type} (f : X → Y) (l1 : list X) (l2 : list Y) :
  (∀ j x, l1 !! j = Some x → l2 !! j = Some (f x)) →
  (length l1 ≤ length l2)%nat ∧ take (length l1) l2 = f <$> l1.
Proof.
  intros Hlookup.
  assert (Hlen : (length l1 ≤ length l2)%nat).
  { destruct l1 as [|x0 l1'] eqn:Hl1; [cbn; lia|]. rewrite <- Hl1 in *.
    destruct (lookup_lt_is_Some_2 l1 (length l1 - 1)) as [x Hx].
    { rewrite Hl1. cbn. lia. }
    apply Hlookup, lookup_lt_Some in Hx. lia. }
  split; [done|]. apply list_eq. intros j. rewrite list_lookup_fmap.
  destruct (decide (j < length l1)%nat) as [Hlt|Hge].
  - rewrite lookup_take_lt by done.
    destruct (lookup_lt_is_Some_2 l1 j Hlt) as [x Hx]. rewrite Hx. cbn. by apply Hlookup.
  - rewrite lookup_take_ge by lia. by rewrite lookup_ge_None_2 by lia.
Qed.

Section CollectorWalk.
Context {FO : FloatOrder G} {C : Type} {HC : CollisionCollector RayCastResult C}.
Variables (this : MeshShape) (inRay : RayCast) (mode : EBackFaceMode)
  (creator : SubShapeIDCreator).
Hypothesis Hsteady : collector_steady C.

Lemma steady_foldl (hits : list RayCastResult) :
  ∀ c : C,
    GetEarlyOutFraction (foldl AddHit c hits) = GetEarlyOutFraction c ∧
    GetContext (foldl AddHit c hits) = GetContext c ∧
    ShouldEarlyOut (foldl AddHit c hits) = ShouldEarlyOut c.
Proof.
  induction hits as [|hit hits IH]; intros c; [done|].
  cbn [foldl]. destruct (IH (AddHit c hit)) as (-> & -> & ->). apply Hsteady.
Qed.

(** The children the collector visitor pushes are closer than the early-out
    fraction. *)
Lemma ray_VisitNodes_kept (origin : Vec3) (inv_direction : RayInvDirection)
    (early_out : Float) (distance_stack : Z → Float) (bounds : list AABox)
    (properties : list Node) (top : Z) :
  let r := ray_VisitNodes origin inv_direction early_out distance_stack bounds
             properties top in
  ∃ kept discarded : list (Float * Node),
    discarded ++ kept ≡ₚ zip (RayAABox origin inv_direction <$> bounds) properties ∧
    Forall (λ lane, Float_lt lane.1 early_out = false) discarded ∧
    Forall (λ lane, Float_lt lane.1 early_out = true) kept ∧
    r.2 = Z.of_nat (length kept) ∧
    (length kept ≤ length r.1.2)%nat ∧
    take (length kept) r.1.2 = kept.*2 ∧
    (∀ (j : nat), (j < length kept)%nat →
       Float_lt (r.1.1 (top + Z.of_nat j)) early_out = true) ∧
    (∀ i, i < top → r.1.1 i = distance_stack i).
Proof.
  unfold ray_VisitNodes. cbn zeta. cbn [fst snd].
  set (sorted := sSort4Reverse (zip (RayAABox origin inv_direction <$> bounds) properties)).
  set (n := length (filter _ _)).
  destruct (lanes_sorted_closer early_out sorted (sSort4Reverse_sorted _))
    as (Hn & Htake & Hdrop).
  fold n in Hn, Htake, Hdrop.
  exists (drop (length sorted - n) sorted), (take (length sorted - n) sorted).
  assert (Hlen : length (drop (length sorted - n) sorted) = n)
    by (rewrite length_drop; lia).
  split_and!.
  - rewrite take_drop. apply sSort4Reverse_Permutation.
  - done.
  - done.
  - by rewrite Hlen.
  - rewrite Hlen, ShiftComponents4Minus_length, length_fmap by (rewrite length_fmap; lia).
    lia.
  - rewrite Hlen, ShiftComponents4Minus_take by (rewrite length_fmap; lia).
    by rewrite length_fmap, fmap_drop.
  - intros j Hj. rewrite Hlen in Hj.
    destruct (lookup_lt_is_Some_2 (drop (length sorted - n) sorted) j) as [lane Hlane];
      [lia|].
    rewrite (store_lanes_at _ _ _ j lane.1).
    + rewrite Forall_forall in Hdrop. apply Hdrop. by eapply list_elem_of_lookup_2.
    + unfold ShiftComponents4Minus.
      rewrite lookup_app_l by (rewrite length_drop, length_fmap; lia).
      by rewrite length_fmap, <- fmap_drop, list_lookup_fmap, Hlane.
  - intros i Hi. by apply store_lanes_below.
Qed.

(** The loop over a block reports the reportable triangles, in order. *)
Lemma collect_triangles_reportable (v : CollectVisitor C) (block : Z)
    (tris : list EncodedTriangle) :
  collector_cast_of this inRay mode creator v →
  ∀ (i : nat) (c : C),
    collect_triangles v (PushID creator block (sTriangleBlockIDBits (mTree this))) c
      (Z.of_nat i) tris
    = foldl AddHit c
        (triangle_hit this inRay creator (sGetBodyID (GetContext c)) <$>
           filter (λ x, reportable inRay mode (GetEarlyOutFraction c) x = true)
             (imap (λ j t, (block, Z.of_nat (i + j), t)) tris)).
Proof.
  intros (Ho & Hd & _ & Hm & _ & _). induction tris as [|t rest IH]; intros i c; [done|].
  rewrite imap_cons. cbn [collect_triangles]. rewrite filter_cons.
  replace (Z.of_nat i + 1) with (Z.of_nat (S i)) by lia. rewrite IH.
  rewrite (imap_ext ((λ j t0, (block, Z.of_nat (i + j), t0)) ∘ S)
             (λ j t0, (block, Z.of_nat (S i + j), t0)) rest)
    by (intros j x _; cbn; do 2 f_equal; lia).
  set (x := (block, Z.of_nat (i + 0), t)).
  assert (Hone : collect_triangle v (PushID creator block (sTriangleBlockIDBits (mTree this)))
                   c (Z.of_nat i) t
                 = if reportable inRay mode (GetEarlyOutFraction c) x
                   then AddHit c (triangle_hit this inRay creator (sGetBodyID (GetContext c)) x)
                   else c).
  { unfold collect_triangle, reportable, triangle_hit, triangle_fraction, triangle_id, x.
    cbn [fst snd]. rewrite Ho, Hd, Hm, Nat.add_0_r.
    destruct (match mode with
              | IgnoreBackFaces =>
                  is_back_facing (mDirection inRay) (tri_v0 t) (tri_v1 t) (tri_v2 t)
              | CollideWithBackFaces => false
              end); cbn [negb andb]; [done|].
    by destruct (Float_lt _ (GetEarlyOutFraction c)). }
  rewrite Hone. clear Hone.
  destruct (reportable inRay mode (GetEarlyOutFraction c) x) eqn:Hrep.
  - rewrite decide_True by done. cbn [fmap list_fmap foldl].
    by destruct (Hsteady c (triangle_hit this inRay creator (sGetBodyID (GetContext c)) x))
      as (-> & -> & _).
  - by rewrite decide_False by done.
Qed.

Lemma filter_none {X : Type} (P : X → Prop) `{∀ x, Decision (P x)} (l : list X) :
  (∀ x, x ∈ l → ¬ P x) → filter P l = [].
Proof.
  induction l as [|x l IH]; intros Hnone; [done|].
  rewrite filter_cons, decide_False by (apply Hnone; left).
  apply IH. intros y Hy. apply Hnone. by right.
Qed.

(** Children that are not closer than the early-out fraction hold nothing
    to report. *)
Lemma discarded_not_reportable (lanes : list (Float * Node)) (f : Float) :
  Forall (λ lane, Float_lt lane.1 f = false) lanes →
  (∀ lane, lane ∈ lanes → ∀ x, x ∈ node_triangles lane.2 →
     Float_lt (triangle_fraction inRay x) lane.1 = false) →
  filter (λ x, reportable inRay mode f x = true) (flat_map node_triangles lanes.*2) = [].
Proof.
  intros Hfar Hbounds. apply filter_none. intros x Hx Hrep.
  apply list_elem_of_In, in_flat_map in Hx as (n & Hn & Hx).
  apply list_elem_of_In, list_elem_of_fmap in Hn as (lane & -> & Hlane).
  apply list_elem_of_In in Hx.
  rewrite Forall_forall in Hfar.
  unfold reportable in Hrep. apply andb_true_iff in Hrep as [_ Hrep].
  by rewrite (Float_ge_trans _ _ _ (Hbounds lane Hlane x Hx) (Hfar lane Hlane)) in Hrep.
Qed.

(** The walk of the collector visitor with a collector that gathers all
    hits: it reports the reportable triangles below the stack entries. *)
Lemma collect_walk (fuel : nat) :
  ∀ (ctx : DecodingContext) (v : CollectVisitor C),
    -1 ≤ mTop ctx → (nodes_size (pending_nodes ctx) ≤ fuel)%nat →
    collector_cast_of this inRay mode creator v →
    ShouldEarlyOut (col_mCollector v) = false →
    (∀ i, 0 ≤ i < mTop ctx →
       Float_lt (col_mDistanceStack v i) (GetEarlyOutFraction (col_mCollector v)) = true) →
    Forall (λ n, ray_bounds_ok inRay n = true) (pending_nodes ctx) →
    ∃ hits : list RayCastResult,
      (λ r : DecodingContext * CollectVisitor C, col_mCollector r.2)
        <$> (if 0 <=? mTop ctx then WalkTree fuel ctx v else Some (ctx, v))
      = Some (foldl AddHit (col_mCollector v) hits) ∧
      hits ≡ₚ triangle_hit this inRay creator (sGetBodyID (GetContext (col_mCollector v))) <$>
               filter (λ x, reportable inRay mode (GetEarlyOutFraction (col_mCollector v)) x
                            = true)
                 (flat_map node_triangles (pending_nodes ctx)).
Proof.
  assert (Hdone : ∀ (ctx : DecodingContext) (v : CollectVisitor C) (w : option _),
            mTop ctx < 0 →
            ∃ hits : list RayCastResult,
              (λ r : DecodingContext * CollectVisitor C, col_mCollector r.2)
                <$> (if 0 <=? mTop ctx then w else Some (ctx, v))
              = Some (foldl AddHit (col_mCollector v) hits) ∧
              hits ≡ₚ triangle_hit this inRay creator
                        (sGetBodyID (GetContext (col_mCollector v))) <$>
                       filter (λ x, reportable inRay mode
                                      (GetEarlyOutFraction (col_mCollector v)) x = true)
                         (flat_map node_triangles (pending_nodes ctx))).
  { intros ctx v w Hlt. exists []. rewrite pending_nodes_done by done.
    by rewrite (proj2 (Z.leb_gt 0 (mTop ctx))) by done. }
  induction fuel as [|fuel IH]; intros ctx v Htop Hfuel Hstatic Habort Hwanted Hbounds;
    (destruct (Z.ltb_spec (mTop ctx) 0) as [Hlt|Hge]; [by apply Hdone|]).
  { rewrite pending_nodes_size in Hfuel by done.
    pose proof (node_size_pos (mNodeStack ctx (mTop ctx))). lia. }
  rewrite (proj2 (Z.leb_le 0 (mTop ctx))) by done.
  rewrite WalkTree_S. cbn zeta.
  pose proof (pending_nodes_top ctx Hge) as Hpending.
  rewrite pending_nodes_size in Hfuel by done.
  rewrite Hpending in Hbounds. apply Forall_app in Hbounds as [Hbelow_ok Hnode_ok].
  rewrite Forall_singleton in Hnode_ok.
  pose proof Hstatic as (Ho & Hd & Hinv & Hm & Hbits & Hcreator).
  unfold visit_node.
  destruct (mNodeStack ctx (mTop ctx)) as [b0 b1 b2 b3 c0 c1 c2 c3|block tris|] eqn:Hnode.
  - cbn [VisitNodes CollectVisitor_Visitor]. unfold CollectVisitor_VisitNodes.
    destruct (ray_VisitNodes_kept (col_mRayOrigin v) (col_mRayInvDirection v)
                (GetEarlyOutFraction (col_mCollector v)) (col_mDistanceStack v)
                [b0; b1; b2; b3] [c0; c1; c2; c3] (mTop ctx))
      as (kept & discarded & Hperm & Hfar & Hnear & Hnum & Hlen & Htake & Hstack & Hbelow).
    rewrite Ho, Hinv in Hperm.
    destruct (ray_VisitNodes _ _ _ _ _ _ _) as [[dstack props] n].
    cbn [fst snd mTop mNodeStack ShouldAbort CollectVisitor_Visitor col_mCollector] in *.
    subst n. rewrite Habort.
    rewrite pop_nodes_top.
    2:{ destruct (decide (Z.to_nat (mTop ctx + Z.of_nat (length kept)) = 0%nat)) as [?|Hpos];
          [by left|right].
        cbn [ShouldVisitNode CollectVisitor_Visitor col_mDistanceStack col_mCollector].
        destruct (decide (length kept = 0)%nat) as [Hnone|Hsome].
        - rewrite Hbelow by lia. apply Hwanted. lia.
        - replace (Z.of_nat (Z.to_nat (mTop ctx + Z.of_nat (length kept))) - 1)
            with (mTop ctx + Z.of_nat (length kept - 1)) by lia.
          apply Hstack. lia. }
    set (v1 := mkCollectVisitor _ _ _ _ _ _ _ _).
    set (ctx2 := mkDecodingContext (store_lanes (mNodeStack ctx) (mTop ctx) props)
                   (Z.of_nat (Z.to_nat (mTop ctx + Z.of_nat (length kept))) - 1)).
    assert (Hpending2 : pending_nodes ctx2
                        = stack_nodes (mNodeStack ctx) (Z.to_nat (mTop ctx)) ++ kept.*2).
    { unfold pending_nodes, ctx2. cbn [mTop mNodeStack].
      replace (Z.to_nat (Z.of_nat (Z.to_nat (mTop ctx + Z.of_nat (length kept))) - 1 + 1))
        with (Z.to_nat (mTop ctx) + length kept)%nat by lia.
      rewrite <- (Z2Nat.id (mTop ctx)) at 1 by done.
      by rewrite stack_nodes_store_lanes, Htake. }
    assert (Hlane : ∀ lane, lane ∈ discarded ++ kept →
              ray_bounds_ok inRay lane.2 = true ∧
              (∀ x, x ∈ node_triangles lane.2 →
                    Float_lt (triangle_fraction inRay x) lane.1 = false)).
    { intros lane Hin. rewrite Hperm in Hin.
      by destruct (ray_bounds_ok_child inRay b0 b1 b2 b3 c0 c1 c2 c3 lane Hnode_ok Hin)
        as (? & _ & ?). }
    destruct (IH ctx2 v1) as (hits & Hwalk & Hhits).
    { unfold ctx2. cbn [mTop]. lia. }
    { rewrite Hpending2, nodes_size_app.
      assert (nodes_size kept.*2 ≤ nodes_size [c0; c1; c2; c3])%nat; [|unfold nodes_size in *; cbn in *; lia].
      rewrite <- (nodes_size_Permutation (discarded ++ kept).*2 [c0; c1; c2; c3]).
      - rewrite fmap_app, nodes_size_app. lia.
      - rewrite Hperm. by rewrite snd_zip by (cbn; lia). }
    { done. }
    { done. }
    { intros i Hi. unfold v1, ctx2 in *. cbn [col_mDistanceStack col_mCollector mTop] in *.
      destruct (decide (i < mTop ctx)) as [Hlow|Hhigh].
      - rewrite Hbelow by done. apply Hwanted. lia.
      - replace i with (mTop ctx + Z.of_nat (Z.to_nat (i - mTop ctx))) by lia.
        apply Hstack. lia. }
    { rewrite Hpending2. apply Forall_app. split; [done|].
      apply Forall_forall. intros n Hn.
      apply list_elem_of_fmap in Hn as (lane & -> & Hin).
      apply Hlane. apply elem_of_app. by right. }
    exists hits. split; [exact Hwalk|].
    rewrite Hhits, Hpending, Hpending2. unfold v1. cbn [col_mCollector].
    rewrite !flat_map_app, !filter_app. cbn [flat_map node_triangles]. rewrite app_nil_r.
    apply fmap_Permutation, Permutation_app_head.
    assert (Hall : c0 :: c1 :: c2 :: [c3] ≡ₚ discarded.*2 ++ kept.*2).
    { rewrite <- fmap_app, Hperm. by rewrite snd_zip by (cbn; lia). }
    transitivity (filter (λ x, reportable inRay mode (GetEarlyOutFraction (col_mCollector v)) x
                               = true)
                    (flat_map node_triangles (discarded.*2 ++ kept.*2))).
    + rewrite flat_map_app, filter_app, (discarded_not_reportable discarded);
        [reflexivity|done|].
      intros lane Hin. apply Hlane. apply elem_of_app. by left.
    + rewrite <- Hall. cbn [flat_map]. by rewrite app_nil_r.
  - cbn [fst snd VisitTriangles CollectVisitor_Visitor].
    unfold CollectVisitor_VisitTriangles. rewrite Hcreator, Hbits.
    pose proof (collect_triangles_reportable v block tris Hstatic 0 (col_mCollector v))
      as Hleaf.
    change (Z.of_nat 0) with 0 in Hleaf. cbn [Nat.add] in Hleaf. rewrite Hleaf. clear Hleaf.
    set (leaf_hits := triangle_hit this inRay creator _ <$> filter _ _).
    destruct (steady_foldl leaf_hits (col_mCollector v)) as (Hfrac & Hctx & Hout).
    unfold set_col_mCollector.
    cbn [ShouldAbort CollectVisitor_Visitor col_mCollector].
    rewrite Hout, Habort.
    rewrite pop_nodes_top.
    2:{ destruct (decide (Z.to_nat (mTop ctx) = 0%nat)) as [?|Hpos]; [by left|right].
        cbn [ShouldVisitNode CollectVisitor_Visitor col_mDistanceStack col_mCollector].
        rewrite Hfrac. apply Hwanted. lia. }
    set (v1 := mkCollectVisitor _ _ _ _ _ _ _ _).
    set (ctx2 := mkDecodingContext (mNodeStack ctx) (Z.of_nat (Z.to_nat (mTop ctx)) - 1)).
    assert (Hpending2 : pending_nodes ctx2
                        = stack_nodes (mNodeStack ctx) (Z.to_nat (mTop ctx))).
    { unfold pending_nodes, ctx2. cbn [mTop mNodeStack]. f_equal. lia. }
    destruct (IH ctx2 v1) as (hits & Hwalk & Hhits).
    { unfold ctx2. cbn [mTop]. lia. }
    { rewrite Hpending2. cbn [node_size] in Hfuel. lia. }
    { done. }
    { unfold v1. cbn [col_mCollector]. by rewrite Hout. }
    { intros i Hi. unfold v1, ctx2 in *. cbn [col_mDistanceStack col_mCollector mTop] in *.
      rewrite Hfrac. apply Hwanted. lia. }
    { by rewrite Hpending2. }
    exists (leaf_hits ++ hits). split.
    + rewrite foldl_app. exact Hwalk.
    + rewrite Hhits, Hpending, Hpending2. unfold v1. cbn [col_mCollector].
      rewrite Hfrac, Hctx, flat_map_app, filter_app, fmap_app.
      cbn [flat_map node_triangles]. rewrite app_nil_r.
      apply Permutation_app_comm.
  - cbn [fst snd]. cbn [ShouldAbort CollectVisitor_Visitor]. rewrite Habort.
    rewrite pop_nodes_top.
    2:{ destruct (decide (Z.to_nat (mTop ctx) = 0%nat)) as [?|Hpos]; [by left|right].
        cbn [ShouldVisitNode CollectVisitor_Visitor]. apply Hwanted. lia. }
    set (ctx2 := mkDecodingContext (mNodeStack ctx) (Z.of_nat (Z.to_nat (mTop ctx)) - 1)).
    assert (Hpending2 : pending_nodes ctx2
                        = stack_nodes (mNodeStack ctx) (Z.to_nat (mTop ctx))).
    { unfold pending_nodes, ctx2. cbn [mTop mNodeStack]. f_equal. lia. }
    destruct (IH ctx2 v) as (hits & Hwalk & Hhits); try done.
    { unfold ctx2. cbn [mTop]. lia. }
    { rewrite Hpending2. cbn [node_size] in Hfuel. lia. }
    { intros i Hi. apply Hwanted. unfold ctx2 in Hi. cbn [mTop] in Hi. lia. }
    { by rewrite Hpending2. }
    exists hits. split; [exact Hwalk|].
    rewrite Hhits, Hpending, Hpending2, flat_map_app. cbn [flat_map node_triangles].
    by rewrite !app_nil_r.
Qed.

End CollectorWalk.


Section CollectorCompleteness.
Context {FO : FloatOrder G}.

Lemma collect_walk_root {C : Type} {HC : CollisionCollector RayCastResult C}
    (fuel : nat) (this : MeshShape) (inRay : RayCast) (mode : EBackFaceMode)
    (inSubShapeIDCreator : SubShapeIDCreator) (v : CollectVisitor C) :
  collector_steady C →
  collector_cast_of this inRay mode inSubShapeIDCreator v →
  ShouldEarlyOut (col_mCollector v) = false →
  ray_bounds_ok inRay (mRoot (mTree this)) = true →
  (node_size (mRoot (mTree this)) ≤ fuel)%nat →
  ∃ hits : list RayCastResult,
    col_mCollector <$> MeshShape_WalkTree fuel this v
    = Some (foldl AddHit (col_mCollector v) hits) ∧
    hits ≡ₚ triangle_hit this inRay inSubShapeIDCreator
              (sGetBodyID (GetContext (col_mCollector v)))
             <$> filter (λ x, reportable inRay mode
                                (GetEarlyOutFraction (col_mCollector v)) x = true)
                   (node_triangles (mRoot (mTree this))).
Proof.
  intros Hsteady Hstatic Hout Hbounds Hfuel. unfold MeshShape_WalkTree.
  assert (Hpending : pending_nodes (DecodingContext_new (mTree this)) = [mRoot (mTree this)])
    by done.
  destruct (collect_walk this inRay mode inSubShapeIDCreator
              Hsteady fuel (DecodingContext_new (mTree this)) v)
    as (hits & Hwalk & Hhits).
  - cbn. lia.
  - by rewrite Hpending, nodes_size_singleton.
  - done.
  - done.
  - cbn [DecodingContext_new mTop]. intros i Hi. lia.
  - rewrite Hpending. by apply Forall_singleton.
  - exists hits. split.
    + cbn [DecodingContext_new mTop Z.leb Z.compare] in Hwalk.
      destruct (WalkTree fuel _ v) as [[ctx' v']|]; [|done].
      cbn in Hwalk |- *. done.
    + rewrite Hhits, Hpending. cbn [flat_map]. by rewrite app_nil_r.
Qed.

(** X14. With a collector that gathers all hits (its early-out fraction,
    context and wish to go on are not changed by [AddHit]) and a tree whose
    child bounds are conservative for the ray, the collector ray cast is
    complete: [AddHit] is called once for every triangle of the tree that is
    not skipped as a back face and is hit before the early-out fraction, and
    for no other; the hit of a triangle carries its fraction and its
    identifier. *)
Theorem CastRay_collector_reports_every_hit {C : Type}
    {HC : CollisionCollector RayCastResult C}
    (fuel : nat) (this : MeshShape) (distance_stack : Z → Float) (inRay : RayCast)
    (inRayCastSettings : RayCastSettings) (inSubShapeIDCreator : SubShapeIDCreator)
    (ioCollector : C) :
  collector_steady C →
  ShouldEarlyOut ioCollector = false →
  ray_bounds_ok inRay (mRoot (mTree this)) = true →
  (node_size (mRoot (mTree this)) ≤ fuel)%nat →
  ∃ hits : list RayCastResult,
    CastRay_collector fuel this distance_stack inRay inRayCastSettings inSubShapeIDCreator
      ioCollector
    = Some (foldl AddHit ioCollector hits) ∧
    hits ≡ₚ triangle_hit this inRay inSubShapeIDCreator (sGetBodyID (GetContext ioCollector))
             <$> filter (λ x, reportable inRay (mBackFaceMode inRayCastSettings)
                                (GetEarlyOutFraction ioCollector) x = true)
                   (node_triangles (mRoot (mTree this))).
Proof.
  intros Hsteady Hout Hbounds Hfuel. unfold CastRay_collector. cbn zeta.
  by apply (collect_walk_root fuel this inRay (mBackFaceMode inRayCastSettings)).
Qed.

Lemma HitCountCollector_steady : collector_steady HitCountCollector.
Proof. by intros c hit. Qed.

(** What the counting collector holds after a list of hits. *)
Lemma HitCountCollector_foldl (hits : list RayCastResult) :
  mHitCount (foldl AddHit HitCountCollector_new hits) = to_int (Z.of_nat (length hits)) ∧
  mSubShapeID (foldl AddHit HitCountCollector_new hits)
  = default SubShapeID_empty (mSubShapeID2 <$> last hits).
Proof.
  induction hits as [|hit hits IH] using rev_ind; [done|].
  destruct IH as [Hcount _]. rewrite foldl_snoc, last_snoc, length_app.
  set (c := foldl AddHit HitCountCollector_new hits) in *.
  cbn [AddHit HitCountCollector_Collector mHitCount mSubShapeID length].
  rewrite Hcount, to_int_succ. split; [f_equal; lia|done].
Qed.

(** X15. For a point inside the root bounds, on a tree whose child bounds
    are conservative for the ray of the test, [CollidePoint] reports a hit
    exactly when the ray from the point along the Y axis crosses an odd
    number of triangles of the tree, front or back facing; the hit carries
    the identifier of one of the crossed triangles. *)
Theorem CollidePoint_counts_crossings {C : Type}
    {HC : CollisionCollector CollidePointResult C}
    (fuel : nat) (this : MeshShape) (distance_stack : Z → Float) (inPoint : Vec3)
    (inSubShapeIDCreator : SubShapeIDCreator) (ioCollector : C) :
  AABox_Contains (GetLocalBounds this) inPoint = true →
  Float_le cInitialEarlyOutFraction cShouldEarlyOutFraction = false →
  ray_bounds_ok (CollidePoint_ray (GetLocalBounds this) inPoint) (mRoot (mTree this)) = true →
  (node_size (mRoot (mTree this)) ≤ fuel)%nat →
  (Nat.odd (length (crossings this inPoint)) = false →
   CollidePoint fuel this distance_stack inPoint inSubShapeIDCreator ioCollector
   = Some ioCollector) ∧
  (Nat.odd (length (crossings this inPoint)) = true →
   ∃ x, x ∈ crossings this inPoint ∧
        CollidePoint fuel this distance_stack inPoint inSubShapeIDCreator ioCollector
        = Some (AddHit ioCollector
                  (mkCollidePointResult (sGetBodyID (GetContext ioCollector))
                     (triangle_id this inSubShapeIDCreator x)))).
Proof.
  intros Hinside Hgo Hbounds Hfuel. unfold CollidePoint, CastRay_collector.
  rewrite Hinside. cbn zeta.
  destruct (collect_walk_root fuel this (CollidePoint_ray (GetLocalBounds this) inPoint)
              CollideWithBackFaces inSubShapeIDCreator
              (mkCollectVisitor HitCountCollector_new
                 (mOrigin (CollidePoint_ray (GetLocalBounds this) inPoint))
                 (mDirection (CollidePoint_ray (GetLocalBounds this) inPoint))
                 (RayInvDirection_Set
                    (mDirection (CollidePoint_ray (GetLocalBounds this) inPoint)))
                 CollideWithBackFaces (sTriangleBlockIDBits (mTree this))
                 inSubShapeIDCreator distance_stack)
              HitCountCollector_steady) as (hits & Hwalk & Hhits); try done.
  cbn [mBackFaceMode col_mCollector] in Hwalk, Hhits |- *. rewrite Hwalk.
  cbn [mbind option_bind].
  destruct (HitCountCollector_foldl hits) as [Hcount Hid]. rewrite Hcount, Hid.
  change (filter _ _) with (crossings this inPoint) in Hhits.
  rewrite hit_count_parity.
  assert (Hlen : length hits = length (crossings this inPoint))
    by (by rewrite Hhits, length_fmap).
  rewrite Hlen. split; intros Hodd; rewrite Hodd; [done|].
  destruct (last hits) as [hit|] eqn:Hlast.
  - assert (Hin : hit ∈ hits).
    { apply last_Some in Hlast as [l' ->]. apply elem_of_app. right. by left. }
    rewrite Hhits in Hin. apply list_elem_of_fmap in Hin as (x & -> & Hx).
    by exists x.
  - apply last_None in Hlast. subst hits. by rewrite <- Hlen in Hodd.
Qed.

End CollectorCompleteness.


(** ** CastShape *)

Lemma flat_map_submseteq {X Y : Type} (f : X → list Y) (l1 l2 : list X) :
  l1 ⊆+ l2 → flat_map f l1 ⊆+ flat_map f l2.
Proof.
  induction 1 as [|x l1 l2 _ IH|x y l|x l1 l2 _ IH|l1 l2 l3 _ IH1 _ IH2]; cbn [flat_map].
  - done.
  - by apply submseteq_skips_l.
  - apply Permutation_submseteq. rewrite !app_assoc. f_equiv. apply Permutation_app_comm.
  - by apply submseteq_inserts_l.
  - by etrans.
Qed.

Lemma flat_map_stack_nodes_le {Y : Type} (f : Node → list Y) (stack : Z → Node) (m n : nat) :
  (m ≤ n)%nat → flat_map f (stack_nodes stack m) ⊆+ flat_map f (stack_nodes stack n).
Proof.
  intros Hle. replace n with (m + (n - m))%nat by lia.
  rewrite stack_nodes_add, flat_map_app. by apply submseteq_inserts_r.
Qed.

(** The children the ray visitors push are children of the node, each at
    most once. *)
Lemma ray_VisitNodes_submseteq (origin : Vec3) (inv_direction : RayInvDirection)
    (early_out : Float) (distance_stack : Z → Float) (bounds : list AABox)
    (properties : list Node) (top : Z) :
  length bounds = length properties →
  let r := ray_VisitNodes origin inv_direction early_out distance_stack bounds
             properties top in
  take (Z.to_nat r.2) r.1.2 ⊆+ properties.
Proof.
  intros Hlen. unfold ray_VisitNodes. cbn zeta. cbn [fst snd].
  set (sorted := sSort4Reverse (zip (RayAABox origin inv_direction <$> bounds) properties)).
  set (n := length (filter _ _)).
  assert (Hn : (n ≤ length sorted.*2)%nat).
  { rewrite length_fmap. apply closer_count_le. }
  rewrite Nat2Z.id, ShiftComponents4Minus_take by done.
  transitivity (sorted.*2).
  - apply sublist_submseteq, sublist_drop.
  - apply Permutation_submseteq. unfold sorted. rewrite sSort4Reverse_Permutation.
    rewrite snd_zip; [done|]. rewrite length_fmap. lia.
Qed.

Section ShapeCastWalk.
Context {SG : ShapeCastGeometry} {CC : ConvexCast}.

Lemma CastShapeVisitor_ok : visitor_ok CastShapeVisitor.
Proof.
  intros v bounds properties top Hlen.
  pose proof (ray_VisitNodes_ok (cs_mBoxCenter v) (cs_mInvDirection v)
                (cast_GetEarlyOutFraction (cs_base v)) (cs_mDistanceStack v)
                (AABox_EnlargeWithExtent (cs_mBoxExtent v)
                   <$> (AABox_Scale (cast_mScale (cs_base v)) <$> bounds))
                properties top) as Hr.
  rewrite !length_fmap in Hr. specialize (Hr Hlen).
  cbn [VisitNodes CastShapeVisitor_Visitor]. unfold CastShapeVisitor_VisitNodes.
  cbn zeta in *. by destruct (ray_VisitNodes _ _ _ _ _ _ _) as [[stack props] n].
Qed.

Lemma cast_each_app (this : MeshShape) (c : SubShapeIDCreator)
    (l1 l2 : list (Z * Z * EncodedTriangle)) :
  ∀ base,
    cast_ShouldEarlyOut (cast_each this c base l1) = false →
    cast_each this c base (l1 ++ l2) = cast_each this c (cast_each this c base l1) l2.
Proof.
  induction l1 as [|x l1 IH]; intros base Hgo; [done|].
  cbn [app cast_each] in *.
  destruct (cast_ShouldEarlyOut (Cast _ _ _ _ _ _)) eqn:Hout.
  - by rewrite Hout in Hgo.
  - by apply IH.
Qed.

(** The loop over a block casts against its triangles under the
    identifiers of the tree. *)
Lemma cast_triangles_each (this : MeshShape) (c : SubShapeIDCreator) (block_id : Z)
    (inTriangles : list EncodedTriangle) :
  ∀ (i : nat) base,
    cast_triangles (PushID c block_id (sTriangleBlockIDBits (mTree this))) base
      (Z.of_nat i) inTriangles
    = cast_each this c base (imap (λ j t, (block_id, Z.of_nat (i + j), t)) inTriangles).
Proof.
  induction inTriangles as [|t rest IH]; intros i base; [done|].
  rewrite imap_cons. cbn [cast_triangles cast_each].
  unfold triangle_id at 1 2. cbn [fst snd]. rewrite Nat.add_0_r.
  destruct (cast_ShouldEarlyOut _); [done|].
  replace (Z.of_nat i + 1) with (Z.of_nat (S i)) by lia.
  rewrite IH. f_equal. apply imap_ext. intros j x _. cbn. do 2 f_equal. lia.
Qed.

(** What the visit of the top node leaves: the triangles cast against so
    far and those below the entries up to the new top are triangles of the
    tree, each at most once. *)
Lemma CastShape_visit (this : MeshShape) (c : SubShapeIDCreator)
    (base : CastConvexVsTriangles) (ctx : DecodingContext) (v : CastShapeVisitor) :
  0 ≤ mTop ctx →
  CastShape_inv this c base ctx v →
  cs_mSubShapeIDCreator2 (visit_node ctx v).2 = c ∧
  cs_mTriangleBlockIDBits (visit_node ctx v).2 = sTriangleBlockIDBits (mTree this) ∧
  ∃ order : list (Z * Z * EncodedTriangle),
    cs_base (visit_node ctx v).2 = cast_each this c base order ∧
    order ++ flat_map node_triangles
               (stack_nodes (mNodeStack (visit_node ctx v).1)
                  (Z.to_nat (mTop (visit_node ctx v).1)))
      ⊆+ node_triangles (mRoot (mTree this)).
Proof.
  intros Htop (Hcreator & Hbits & Hgo & order & Hbase & Hsub).
  rewrite (pending_nodes_top ctx Htop), flat_map_app in Hsub.
  unfold visit_node.
  destruct (mNodeStack ctx (mTop ctx)) as [b0 b1 b2 b3 c0 c1 c2 c3|block tris|] eqn:Hnode.
  - cbn [VisitNodes CastShapeVisitor_Visitor]. unfold CastShapeVisitor_VisitNodes.
    pose proof (ray_VisitNodes_submseteq (cs_mBoxCenter v) (cs_mInvDirection v)
                  (cast_GetEarlyOutFraction (cs_base v)) (cs_mDistanceStack v)
                  (AABox_EnlargeWithExtent (cs_mBoxExtent v)
                     <$> (AABox_Scale (cast_mScale (cs_base v)) <$> [b0; b1; b2; b3]))
                  [c0; c1; c2; c3] (mTop ctx) eq_refl) as Hkept.
    pose proof (ray_VisitNodes_ok (cs_mBoxCenter v) (cs_mInvDirection v)
                  (cast_GetEarlyOutFraction (cs_base v)) (cs_mDistanceStack v)
                  (AABox_EnlargeWithExtent (cs_mBoxExtent v)
                     <$> (AABox_Scale (cast_mScale (cs_base v)) <$> [b0; b1; b2; b3]))
                  [c0; c1; c2; c3] (mTop ctx) eq_refl) as (Hn & Hlen & _).
    cbn zeta in Hkept, Hn, Hlen.
    destruct (ray_VisitNodes _ _ _ _ _ _ _) as [[dstack props] n].
    cbn [fst snd mTop mNodeStack cs_base cs_mSubShapeIDCreator2 cs_mTriangleBlockIDBits] in *.
    split; [done|]. split; [done|]. exists order. split; [done|].
    replace (Z.to_nat (mTop ctx + n)) with (Z.to_nat (mTop ctx) + Z.to_nat n)%nat by lia.
    rewrite <- (Z2Nat.id (mTop ctx)) at 1 by done.
    rewrite stack_nodes_store_lanes, flat_map_app by done.
    etrans; [|exact Hsub].
    do 2 apply submseteq_skips_l.
    apply (flat_map_submseteq node_triangles) in Hkept.
    cbn [flat_map node_triangles] in Hkept |- *. by rewrite !app_nil_r in *.
  - cbn [fst snd VisitTriangles CastShapeVisitor_Visitor].
    unfold CastShapeVisitor_VisitTriangles.
    cbn [cs_base cs_mSubShapeIDCreator2 cs_mTriangleBlockIDBits].
    split; [done|]. split; [done|].
    exists (order ++ imap (λ j t, (block, Z.of_nat j, t)) tris). split.
    + rewrite cast_each_app, <- Hbase, Hcreator, Hbits by (by rewrite <- Hbase).
      pose proof (cast_triangles_each this c block tris 0 (cs_base v)) as Heach.
      change (Z.of_nat 0) with 0 in Heach. cbn [Nat.add] in Heach. exact Heach.
    + cbn [flat_map node_triangles] in Hsub. rewrite app_nil_r in Hsub.
      by rewrite <- app_assoc, (Permutation_app_comm (imap _ _)).
  - cbn [fst snd]. split; [done|]. split; [done|]. exists order. split; [done|].
    cbn [flat_map node_triangles] in Hsub. by rewrite !app_nil_r in Hsub.
Qed.

(** X17. [CastShape], started with a collector that does not want out,
    hands to [Cast] only triangles of the tree, none more often than the
    tree holds it, each with its active-edge bits and its identifier under
    the second creator, and stops with the first triangle after which the
    collector wants out; the call returns within as many iterations of the
    walker as the tree has nodes. *)
Theorem CastShape_casts_each_triangle_at_most_once (fuel : nat) (this : MeshShape)
    (distance_stack : Z → Float) (inShapeCast : ShapeCast)
    (base : CastConvexVsTriangles) (inSubShapeIDCreator2 : SubShapeIDCreator) :
  cast_ShouldEarlyOut base = false →
  (node_size (mRoot (mTree this)) ≤ fuel)%nat →
  ∃ order : list (Z * Z * EncodedTriangle),
    CastShape fuel this distance_stack inShapeCast base inSubShapeIDCreator2
    = Some (cast_each this inSubShapeIDCreator2 base order) ∧
    order ⊆+ node_triangles (mRoot (mTree this)).
Proof.
  intros Hgo Hfuel. unfold CastShape, MeshShape_WalkTree. cbn zeta.
  set (v := mkCastShapeVisitor _ _ _ _ _ _ _).
  destruct (WalkTree_invariant
              (CastShape_inv this inSubShapeIDCreator2 base)
              (CastShape_post this inSubShapeIDCreator2 base)
              CastShapeVisitor_ok) with (fuel := fuel)
              (ctx := DecodingContext_new (mTree this)) (v := v)
    as ([ctx' v'] & Hwalk & order & Hbase & Hsub).
  - intros ctx w Htop Hinv. cbn zeta.
    destruct (CastShape_visit this inSubShapeIDCreator2 base ctx w Htop Hinv)
      as (Hcreator & Hbits & order & Hbase & Hsub).
    assert (Hpost : ∀ ctx2, CastShape_post this inSubShapeIDCreator2 base ctx2
                              (visit_node ctx w).2).
    { intros ctx2. exists order. split; [done|].
      etrans; [|exact Hsub]. by apply submseteq_inserts_r. }
    cbn [ShouldAbort CastShapeVisitor_Visitor].
    destruct (cast_ShouldEarlyOut (cs_base (visit_node ctx w).2)) eqn:Hout; [done|].
    pose proof (pop_nodes_bounds (visit_node ctx w).2
                  (Z.to_nat (mTop (visit_node ctx w).1))) as [Hlo Hhi].
    destruct (Z.leb_spec 0 (pop_nodes (visit_node ctx w).2
                              (Z.to_nat (mTop (visit_node ctx w).1)))) as [Hge|Hneg];
      [|done].
    split_and!; [done|done|done|]. exists order. split; [done|].
    etrans; [|exact Hsub]. apply submseteq_skips_l.
    unfold pending_nodes. cbn [mNodeStack mTop].
    apply flat_map_stack_nodes_le. lia.
  - cbn. lia.
  - unfold pending_nodes, DecodingContext_new, stack_nodes, nodes_size. simpl. lia.
  - split_and!; [done|done|done|]. exists []. split; [done|].
    change (pending_nodes (DecodingContext_new (mTree this))) with [mRoot (mTree this)].
    cbn [app flat_map]. by rewrite app_nil_r.
  - exists order. rewrite Hwalk. cbn [fst snd fmap option_fmap option_map] in *.
    by rewrite Hbase.
Qed.

End ShapeCastWalk.


(** ** The collector cast with any collector *)

Section CollectorSoundness.
Context {C : Type} {HC : CollisionCollector RayCastResult C}.
Variables (this : MeshShape) (inRay : RayCast) (mode : EBackFaceMode)
  (creator : SubShapeIDCreator).

(** The loop over a block shows its triangles to the collector under the
    identifiers of the tree. *)
Lemma collect_triangles_each (v : CollectVisitor C) (block : Z)
    (tris : list EncodedTriangle) :
  collector_cast_of this inRay mode creator v →
  ∀ (i : nat) (c : C),
    collect_triangles v (PushID creator block (sTriangleBlockIDBits (mTree this))) c
      (Z.of_nat i) tris
    = collect_each this inRay mode creator c
        (imap (λ j t, (block, Z.of_nat (i + j), t)) tris).
Proof.
  intros (Ho & Hd & _ & Hm & _ & _). induction tris as [|t rest IH]; intros i c; [done|].
  rewrite imap_cons. cbn [collect_triangles]. unfold collect_each. cbn [foldl].
  replace (Z.of_nat i + 1) with (Z.of_nat (S i)) by lia. rewrite IH.
  rewrite (imap_ext ((λ j t0, (block, Z.of_nat (i + j), t0)) ∘ S)
             (λ j t0, (block, Z.of_nat (S i + j), t0)) rest)
    by (intros j x _; cbn; do 2 f_equal; lia).
  unfold collect_each. f_equal.
  unfold collect_triangle, reportable, triangle_hit, triangle_fraction, triangle_id.
  cbn [fst snd]. rewrite Ho, Hd, Hm, Nat.add_0_r.
  destruct (match mode with
            | IgnoreBackFaces =>
                is_back_facing (mDirection inRay) (tri_v0 t) (tri_v1 t) (tri_v2 t)
            | CollideWithBackFaces => false
            end); cbn [negb andb]; [done|].
  by destruct (Float_lt _ (GetEarlyOutFraction c)).
Qed.

(** What the visit of the top node leaves: the triangles shown to the
    collector so far and those below the entries up to the new top are
    triangles of the tree, each at most once. *)
Lemma CastRay_collector_visit (collector : C) (ctx : DecodingContext)
    (v : CollectVisitor C) :
  0 ≤ mTop ctx →
  CastRay_collector_inv this inRay mode creator collector ctx v →
  collector_cast_of this inRay mode creator (visit_node ctx v).2 ∧
  ∃ order : list (Z * Z * EncodedTriangle),
    col_mCollector (visit_node ctx v).2
    = collect_each this inRay mode creator collector order ∧
    order ++ flat_map node_triangles
               (stack_nodes (mNodeStack (visit_node ctx v).1)
                  (Z.to_nat (mTop (visit_node ctx v).1)))
      ⊆+ node_triangles (mRoot (mTree this)).
Proof.
  intros Htop (Hstatic & order & Hcol & Hsub).
  pose proof Hstatic as (Ho & Hd & Hinv & Hm & Hbits & Hcreator).
  rewrite (pending_nodes_top ctx Htop), flat_map_app in Hsub.
  unfold visit_node.
  destruct (mNodeStack ctx (mTop ctx)) as [b0 b1 b2 b3 c0 c1 c2 c3|block tris|] eqn:Hnode.
  - cbn [VisitNodes CollectVisitor_Visitor]. unfold CollectVisitor_VisitNodes.
    pose proof (ray_VisitNodes_submseteq (col_mRayOrigin v) (col_mRayInvDirection v)
                  (GetEarlyOutFraction (col_mCollector v)) (col_mDistanceStack v)
                  [b0; b1; b2; b3] [c0; c1; c2; c3] (mTop ctx) eq_refl) as Hkept.
    pose proof (ray_VisitNodes_ok (col_mRayOrigin v) (col_mRayInvDirection v)
                  (GetEarlyOutFraction (col_mCollector v)) (col_mDistanceStack v)
                  [b0; b1; b2; b3] [c0; c1; c2; c3] (mTop ctx) eq_refl) as (Hn & Hlen & _).
    cbn zeta in Hkept, Hn, Hlen.
    destruct (ray_VisitNodes _ _ _ _ _ _ _) as [[dstack props] n].
    cbn [fst snd mTop mNodeStack col_mCollector] in *.
    split; [done|]. exists order. split; [done|].
    replace (Z.to_nat (mTop ctx + n)) with (Z.to_nat (mTop ctx) + Z.to_nat n)%nat by lia.
    rewrite <- (Z2Nat.id (mTop ctx)) at 1 by done.
    rewrite stack_nodes_store_lanes, flat_map_app by done.
    etrans; [|exact Hsub].
    do 2 apply submseteq_skips_l.
    apply (flat_map_submseteq node_triangles) in Hkept.
    cbn [flat_map node_triangles] in Hkept |- *. by rewrite !app_nil_r in *.
  - cbn [fst snd VisitTriangles CollectVisitor_Visitor].
    unfold CollectVisitor_VisitTriangles, set_col_mCollector. cbn [col_mCollector].
    split; [done|].
    exists (order ++ imap (λ j t, (block, Z.of_nat j, t)) tris). split.
    + unfold collect_each at 1. rewrite foldl_app. fold (collect_each this inRay mode creator collector order).
      rewrite <- Hcol, Hcreator, Hbits.
      pose proof (collect_triangles_each v block tris Hstatic 0 (col_mCollector v)) as Heach.
      change (Z.of_nat 0) with 0 in Heach. cbn [Nat.add] in Heach. exact Heach.
    + cbn [flat_map node_triangles] in Hsub. rewrite app_nil_r in Hsub.
      by rewrite <- app_assoc, (Permutation_app_comm (imap _ _)).
  - cbn [fst snd]. split; [done|]. exists order. split; [done|].
    cbn [flat_map node_triangles] in Hsub. by rewrite !app_nil_r in Hsub.
Qed.

End CollectorSoundness.

(** X18. Whatever the collector does with its hits and its early-out
    fraction, the collector ray cast shows it only triangles of the tree,
    none more often than the tree holds it: the collector it returns is the
    one given, after a list of triangles that is contained in those of the
    tree as a multiset, each reported if it is not skipped as a back face and
    is hit before the early-out fraction the collector has at that moment;
    and the call returns within as many iterations of the walker as the tree
    has nodes. *)
Theorem CastRay_collector_reports_no_triangle_twice {C : Type}
    {HC : CollisionCollector RayCastResult C} (fuel : nat) (this : MeshShape)
    (distance_stack : Z → Float) (inRay : RayCast) (inRayCastSettings : RayCastSettings)
    (creator : SubShapeIDCreator) (ioCollector : C) :
  (node_size (mRoot (mTree this)) ≤ fuel)%nat →
  ∃ order : list (Z * Z * EncodedTriangle),
    CastRay_collector fuel this distance_stack inRay inRayCastSettings creator ioCollector
    = Some (collect_each this inRay (mBackFaceMode inRayCastSettings) creator ioCollector
              order) ∧
    order ⊆+ node_triangles (mRoot (mTree this)).
Proof.
  intros Hfuel. unfold CastRay_collector, MeshShape_WalkTree. cbn zeta.
  set (v := mkCollectVisitor _ _ _ _ _ _ _ _).
  destruct (WalkTree_invariant
              (CastRay_collector_inv this inRay (mBackFaceMode inRayCastSettings) creator
                 ioCollector)
              (CastRay_collector_post this inRay (mBackFaceMode inRayCastSettings) creator
                 ioCollector)
              CollectVisitor_ok) with (fuel := fuel)
              (ctx := DecodingContext_new (mTree this)) (v := v)
    as ([ctx' v'] & Hwalk & order & Hcol & Hsub).
  - intros ctx w Htop Hinv. cbn zeta.
    destruct (CastRay_collector_visit this inRay (mBackFaceMode inRayCastSettings) creator
                ioCollector ctx w Htop Hinv)
      as (Hstatic & order & Hcol & Hsub).
    assert (Hpost : ∀ ctx2, CastRay_collector_post this inRay
                              (mBackFaceMode inRayCastSettings) creator ioCollector ctx2
                              (visit_node ctx w).2).
    { intros ctx2. exists order. split; [done|].
      etrans; [|exact Hsub]. by apply submseteq_inserts_r. }
    destruct (ShouldAbort (visit_node ctx w).2); [done|].
    pose proof (pop_nodes_bounds (visit_node ctx w).2
                  (Z.to_nat (mTop (visit_node ctx w).1))) as [Hlo Hhi].
    destruct (Z.leb_spec 0 (pop_nodes (visit_node ctx w).2
                              (Z.to_nat (mTop (visit_node ctx w).1)))) as [Hge|Hneg];
      [|done].
    split; [done|]. exists order. split; [done|].
    etrans; [|exact Hsub]. apply submseteq_skips_l.
    unfold pending_nodes. cbn [mNodeStack mTop].
    apply flat_map_stack_nodes_le. lia.
  - cbn. lia.
  - unfold pending_nodes, DecodingContext_new, stack_nodes, nodes_size. simpl. lia.
  - split; [done|]. exists []. split; [done|].
    change (pending_nodes (DecodingContext_new (mTree this))) with [mRoot (mTree this)].
    cbn [app flat_map]. by rewrite app_nil_r.
  - exists order. rewrite Hwalk. cbn [fst snd fmap option_fmap option_map] in *.
    by rewrite Hcol.
Qed.


(** ** The collector cast, leaf by leaf *)

Lemma node_blocks_triangles (n : Node) :
  blocks_triangles (node_blocks n) = node_triangles n.
Proof.
  induction n as [b0 b1 b2 b3 c0 IH0 c1 IH1 c2 IH2 c3 IH3|block_id triangles|].
  - cbn [node_blocks node_triangles].
    by rewrite !blocks_triangles_app, IH0, IH1, IH2, IH3.
  - cbn. by rewrite app_nil_r.
  - done.
Qed.

Section CollectorTrace.
Context {C : Type} {HC : CollisionCollector RayCastResult C}.
Variables (this : MeshShape) (inRay : RayCast) (mode : EBackFaceMode)
  (creator : SubShapeIDCreator) (collector : C).

Lemma collect_each_app (c : C) (l1 l2 : list (Z * Z * EncodedTriangle)) :
  collect_each this inRay mode creator c (l1 ++ l2)
  = collect_each this inRay mode creator (collect_each this inRay mode creator c l1) l2.
Proof. unfold collect_each. apply foldl_app. Qed.

(** Showing triangles to a monotone collector does not raise its early-out
    fraction. *)
Lemma collect_each_monotone (l : list (Z * Z * EncodedTriangle)) :
  collector_monotone C → FloatOrder G →
  ∀ c : C,
    Float_lt (GetEarlyOutFraction c)
      (GetEarlyOutFraction (collect_each this inRay mode creator c l)) = false.
Proof.
  intros Hmono FO. induction l as [|x l IH]; intros c.
  - apply Float_lt_irrefl.
  - unfold collect_each. cbn [foldl]. fold (collect_each this inRay mode creator).
    destruct (reportable inRay mode (GetEarlyOutFraction c) x) eqn:Hrep; [|apply IH].
    apply andb_true_iff in Hrep as [_ Hcloser].
    eapply Float_ge_trans; [|apply IH].
    by apply Hmono.
Qed.

(** What the visit of the top node leaves, up to the new top. *)
Lemma CastRay_trace_visit (ctx : DecodingContext) (v : CollectVisitor C) :
  0 ≤ mTop ctx →
  CastRay_trace_inv this inRay mode creator collector ctx v →
  collector_cast_of this inRay mode creator (visit_node ctx v).2 ∧
  ∃ leaves : list (Z * list EncodedTriangle),
    col_mCollector (visit_node ctx v).2
    = collect_each this inRay mode creator collector (blocks_triangles leaves) ∧
    leaves ++ flat_map node_blocks
                (stack_nodes (mNodeStack (visit_node ctx v).1)
                   (Z.to_nat (mTop (visit_node ctx v).1)))
      ⊆+ node_blocks (mRoot (mTree this)) ∧
    leaves_abort this inRay mode creator collector leaves ∧
    (cast_conservative C this inRay →
     (∀ i, 0 ≤ i < mTop (visit_node ctx v).1 →
        ray_bounds_ok inRay (mNodeStack (visit_node ctx v).1 i) = true ∧
        ∀ x, x ∈ node_triangles (mNodeStack (visit_node ctx v).1 i) →
             Float_lt (triangle_fraction inRay x)
               (col_mDistanceStack (visit_node ctx v).2 i) = false) ∧
     (∀ x, x ∈ node_triangles (mRoot (mTree this)) →
           Float_lt (triangle_fraction inRay x)
             (GetEarlyOutFraction (col_mCollector (visit_node ctx v).2)) = true →
           x ∈ blocks_triangles leaves ∨
           ∃ i, 0 ≤ i < mTop (visit_node ctx v).1 ∧
                x ∈ node_triangles (mNodeStack (visit_node ctx v).1 i))).
Proof.
  intros Htop (Hstatic & leaves & Hcol & Hsub & Habort & Hstart & Hlower).
  pose proof Hstatic as (Ho & Hd & Hinv & Hm & Hbits & Hcreator).
  rewrite (pending_nodes_top ctx Htop), flat_map_app in Hsub.
  unfold visit_node.
  destruct (mNodeStack ctx (mTop ctx)) as [b0 b1 b2 b3 c0 c1 c2 c3|block tris|] eqn:Hnode.
  - cbn [VisitNodes CollectVisitor_Visitor]. unfold CollectVisitor_VisitNodes.
    pose proof (ray_VisitNodes_submseteq (col_mRayOrigin v) (col_mRayInvDirection v)
                  (GetEarlyOutFraction (col_mCollector v)) (col_mDistanceStack v)
                  [b0; b1; b2; b3] [c0; c1; c2; c3] (mTop ctx) eq_refl) as Hpushed.
    pose proof (ray_VisitNodes_ok (col_mRayOrigin v) (col_mRayInvDirection v)
                  (GetEarlyOutFraction (col_mCollector v)) (col_mDistanceStack v)
                  [b0; b1; b2; b3] [c0; c1; c2; c3] (mTop ctx) eq_refl) as (Hn & Hlen & _).
    pose proof (λ FO : FloatOrder G,
                  ray_VisitNodes_lanes (FO := FO) (col_mRayOrigin v) (col_mRayInvDirection v)
                    (GetEarlyOutFraction (col_mCollector v)) (col_mDistanceStack v)
                    [b0; b1; b2; b3] [c0; c1; c2; c3] (mTop ctx)) as Hlanes.
    cbn zeta in Hpushed, Hn, Hlen, Hlanes.
    destruct (ray_VisitNodes _ _ _ _ _ _ _) as [[dstack props] n].
    cbn [fst snd mTop mNodeStack col_mCollector col_mDistanceStack] in *.
    split; [done|]. exists leaves. split_and!; [done| |done|].
    + replace (Z.to_nat (mTop ctx + n)) with (Z.to_nat (mTop ctx) + Z.to_nat n)%nat by lia.
      rewrite <- (Z2Nat.id (mTop ctx)) at 1 by done.
      rewrite stack_nodes_store_lanes, flat_map_app by done.
      etrans; [|exact Hsub].
      do 2 apply submseteq_skips_l.
      apply (flat_map_submseteq node_blocks) in Hpushed.
      cbn [flat_map node_blocks] in Hpushed |- *. by rewrite !app_nil_r in *.
    + intros Hcons. destruct (Hlower Hcons) as (Hbounds & Hdist & Hcovered).
      destruct Hcons as (Hmono & FO & Hroot).
      destruct (Hlanes FO) as (kept & discarded & Hperm & Hdiscarded & Hnum & Hkept & Hbelow).
      rewrite Ho, Hinv in Hperm. subst n.
      assert (Hinner : ray_bounds_ok inRay (InnerNode b0 b1 b2 b3 c0 c1 c2 c3) = true).
      { rewrite <- Hnode. apply Hbounds. lia. }
      assert (Hlane : ∀ lane, lane ∈ kept ∨ lane ∈ discarded →
                ray_bounds_ok inRay lane.2 = true ∧
                (∀ x, x ∈ node_triangles lane.2 →
                      Float_lt (triangle_fraction inRay x) lane.1 = false)).
      { intros lane Hin.
        destruct (ray_bounds_ok_child inRay b0 b1 b2 b3 c0 c1 c2 c3 lane Hinner)
          as (? & _ & ?); [|done].
        rewrite <- Hperm. rewrite elem_of_app. tauto. }
      split.
      * intros i Hi. destruct (decide (i < mTop ctx)) as [Hlt|Hge].
        -- rewrite store_lanes_below, Hbelow by done. split.
           ++ apply Hbounds. lia.
           ++ apply Hdist. lia.
        -- destruct (lookup_lt_is_Some_2 kept (Z.to_nat (i - mTop ctx))) as [lane Hj]; [lia|].
           destruct (Hkept _ _ Hj) as [Hd' Hprop].
           replace (mTop ctx + Z.of_nat (Z.to_nat (i - mTop ctx))) with i in Hd' by lia.
           pose proof (store_lanes_at (mNodeStack ctx) (mTop ctx) props _ _ Hprop) as Hstack.
           replace (mTop ctx + Z.of_nat (Z.to_nat (i - mTop ctx))) with i in Hstack by lia.
           rewrite Hstack, Hd'. apply Hlane. left. by eapply list_elem_of_lookup_2.
      * intros x Hx Hcloser.
        destruct (Hcovered x Hx Hcloser) as [Hseen|(i & Hi & Hxi)]; [by left|]. right.
        destruct (decide (i < mTop ctx)) as [Hlt|Hge].
        -- exists i. split; [lia|]. by rewrite store_lanes_below.
        -- assert (i = mTop ctx) as -> by lia. rewrite Hnode in Hxi.
           destruct (node_triangles_child b0 b1 b2 b3 c0 c1 c2 c3 x
                       (RayAABox (mOrigin inRay) (RayInvDirection_Set (mDirection inRay)))
                       Hxi) as (lane & Hlane_in & Hx_lane).
           rewrite <- Hperm in Hlane_in. apply elem_of_app in Hlane_in as [Hdisc|Hkeep].
           ++ exfalso. destruct (Hlane lane) as (_ & Hl); [by right|].
              rewrite Forall_forall in Hdiscarded. specialize (Hdiscarded lane Hdisc).
              cbn beta in Hdiscarded.
              by rewrite (Float_ge_trans _ _ _ (Hl x Hx_lane) Hdiscarded) in Hcloser.
           ++ apply list_elem_of_lookup_1 in Hkeep as [j Hj].
              destruct (Hkept _ _ Hj) as [_ Hprop].
              exists (mTop ctx + Z.of_nat j). split.
              ** apply lookup_lt_Some in Hj. lia.
              ** by rewrite (store_lanes_at _ _ _ _ _ Hprop).
  - cbn [fst snd VisitTriangles CollectVisitor_Visitor].
    unfold CollectVisitor_VisitTriangles, set_col_mCollector.
    cbn [col_mCollector col_mDistanceStack].
    assert (Hleaf : collect_triangles v
                      (PushID (col_mSubShapeIDCreator v) block (col_mTriangleBlockIDBits v))
                      (col_mCollector v) 0 tris
                    = collect_each this inRay mode creator (col_mCollector v)
                        (imap (λ j t, (block, Z.of_nat j, t)) tris)).
    { rewrite Hcreator, Hbits.
      pose proof (collect_triangles_each this inRay mode creator v block tris Hstatic 0
                    (col_mCollector v)) as Heach.
      change (Z.of_nat 0) with 0 in Heach. cbn [Nat.add] in Heach. exact Heach. }
    assert (Hblocks : blocks_triangles (leaves ++ [(block, tris)])
                      = blocks_triangles leaves ++ imap (λ j t, (block, Z.of_nat j, t)) tris).
    { rewrite blocks_triangles_app. cbn. by rewrite app_nil_r. }
    split; [done|]. exists (leaves ++ [(block, tris)]). split_and!.
    + by rewrite Hleaf, Hblocks, collect_each_app, <- Hcol.
    + cbn [flat_map node_blocks] in Hsub. rewrite app_nil_r in Hsub.
      by rewrite <- app_assoc, (Permutation_app_comm [(block, tris)]).
    + intros visited rest Heq Hout.
      destruct rest as [|last rest _] using rev_ind; [by left|].
      rewrite app_assoc in Heq. apply app_inj_tail in Heq as [Heq _].
      destruct (Habort visited rest Heq Hout) as [->|Hroot]; [|by right].
      rewrite app_nil_r in Heq. subst visited. rewrite <- Hcol in Hout.
      destruct Hstart as [Hgo|(Hnone & Hzero & Hroot)]; [by rewrite Hgo in Hout|].
      right. rewrite Hzero in Hnode. rewrite Hroot in Hnode.
      split; [done|]. by exists block, tris.
    + intros Hcons. destruct (Hlower Hcons) as (Hbounds & Hdist & Hcovered).
      destruct Hcons as (Hmono & FO & Hroot). split.
      * intros i Hi. split; [apply Hbounds; lia|by apply Hdist].
      * intros x Hx Hcloser. rewrite Hleaf in Hcloser.
        assert (Hbefore : Float_lt (triangle_fraction inRay x)
                            (GetEarlyOutFraction (col_mCollector v)) = true).
        { destruct (Float_lt (triangle_fraction inRay x)
                      (GetEarlyOutFraction (col_mCollector v))) eqn:Hold; [done|].
          by rewrite (Float_ge_trans _ _ _ Hold
                        (collect_each_monotone _ Hmono FO (col_mCollector v))) in Hcloser. }
        destruct (Hcovered x Hx Hbefore) as [Hseen|(i & Hi & Hxi)].
        -- left. rewrite Hblocks. apply elem_of_app. by left.
        -- destruct (decide (i < mTop ctx)) as [Hlt|Hge];
          [right; exists i; split; [lia|done]|].
           assert (i = mTop ctx) as -> by lia. rewrite Hnode in Hxi.
           left. rewrite Hblocks. apply elem_of_app. by right.
  - cbn [fst snd]. split; [done|]. exists leaves. split_and!; [done| |done|].
    + cbn [flat_map node_blocks] in Hsub. by rewrite !app_nil_r in Hsub.
    + intros Hcons. destruct (Hlower Hcons) as (Hbounds & Hdist & Hcovered). split.
      * intros i Hi. split; [apply Hbounds; lia|by apply Hdist].
      * intros x Hx Hcloser.
        destruct (Hcovered x Hx Hcloser) as [Hseen|(i & Hi & Hxi)]; [by left|].
        destruct (decide (i < mTop ctx)) as [Hlt|Hge];
          [right; exists i; split; [lia|done]|].
        assert (i = mTop ctx) as -> by lia. rewrite Hnode in Hxi.
        by apply elem_of_nil in Hxi.
Qed.

Lemma CastRay_trace_step (ctx : DecodingContext) (v : CollectVisitor C) :
  0 ≤ mTop ctx →
  CastRay_trace_inv this inRay mode creator collector ctx v →
  let r := visit_node ctx v in
  let top := pop_nodes r.2 (Z.to_nat (mTop r.1)) in
  if ShouldAbort r.2 then CastRay_trace_post this inRay mode creator collector r.1 r.2
  else if 0 <=? top
       then CastRay_trace_inv this inRay mode creator collector
              (mkDecodingContext (mNodeStack r.1) top) r.2
       else CastRay_trace_post this inRay mode creator collector
              (mkDecodingContext (mNodeStack r.1) top) r.2.
Proof.
  intros Htop Hinv. cbn zeta.
  destruct (CastRay_trace_visit ctx v Htop Hinv)
    as (Hstatic & leaves & Hcol & Hsub & Habort & Hlower).
  destruct (visit_node_size ctx v CollectVisitor_ok Htop) as [Htop1 _].
  destruct (visit_node ctx v) as [ctx1 v1]. cbn [fst snd] in *.
  assert (Hleaves : leaves ⊆+ node_blocks (mRoot (mTree this))).
  { etrans; [|exact Hsub]. by apply submseteq_inserts_r. }
  cbn [ShouldAbort CollectVisitor_Visitor].
  destruct (ShouldEarlyOut (col_mCollector v1)) eqn:Hout.
  { exists leaves. split_and!; [done|done|done|]. intros _ Hgo. by rewrite Hout in Hgo. }
  set (top := pop_nodes v1 (Z.to_nat (mTop ctx1))).
  pose proof (pop_nodes_bounds v1 (Z.to_nat (mTop ctx1))) as [Hlo Hhi]. fold top in Hlo, Hhi.
  assert (Hcovered' : cast_conservative C this inRay →
            ∀ x, x ∈ node_triangles (mRoot (mTree this)) →
                 Float_lt (triangle_fraction inRay x)
                   (GetEarlyOutFraction (col_mCollector v1)) = true →
                 x ∈ blocks_triangles leaves ∨
                 ∃ i, 0 ≤ i ≤ top ∧ x ∈ node_triangles (mNodeStack ctx1 i)).
  { intros Hcons x Hx Hcloser. destruct (Hlower Hcons) as (Hentries & Hcovered).
    destruct Hcons as (Hmono & FO & Hroot).
    destruct (Hcovered x Hx Hcloser) as [Hseen|(i & Hi & Hxi)]; [by left|]. right.
    exists i. split; [|done]. destruct (decide (i ≤ top)) as [|Hskip]; [lia|]. exfalso.
    assert (Hskipped : ShouldVisitNode v1 i = false).
    { apply (pop_nodes_skipped v1 (Z.to_nat (mTop ctx1))). fold top. lia. }
    cbn [ShouldVisitNode CollectVisitor_Visitor] in Hskipped.
    destruct (Hentries i Hi) as [_ Hdist].
    by rewrite (Float_ge_trans _ _ _ (Hdist x Hxi) Hskipped) in Hcloser. }
  destruct (Z.leb_spec 0 top) as [Hge|Hneg].
  - split; [done|]. exists leaves. split_and!; [done| |done|by left|].
    + etrans; [|exact Hsub]. apply submseteq_skips_l.
      unfold pending_nodes. cbn [mNodeStack mTop].
      apply flat_map_stack_nodes_le. lia.
    + intros Hcons. destruct (Hlower Hcons) as (Hentries & _).
      cbn [mNodeStack mTop]. split_and!.
      * intros i Hi. apply Hentries. lia.
      * intros i Hi. apply Hentries. lia.
      * by apply Hcovered'.
  - exists leaves. split_and!; [done|done|done|].
    intros Hcons _ x Hx Hcloser.
    destruct (Hcovered' Hcons x Hx Hcloser) as [Hseen|(i & Hi & _)]; [done|lia].
Qed.

End CollectorTrace.


(** C8. The collector ray cast returns, and the collector it returns is
    the given one after the triangles of a list of leaves of the tree have
    been shown to it in order, no leaf more often than the tree holds it.
    A triangle that is shown is skipped exactly when the back face mode of
    the settings is [IgnoreBackFaces] and [((v2 - v0) x (v1 - v0)) . dir] is
    negative for the direction of the ray, so never with
    [CollideWithBackFaces]; a triangle that is not skipped and whose
    fraction for the ray is strictly below the early-out fraction the
    collector has at that moment is given to [AddHit], with the body of the
    collector's context, that fraction and the identifier of the triangle
    under the creator; any other triangle leaves the collector as it is.
    No leaf is visited after a leaf that left the collector with
    [ShouldEarlyOut] true (only a root that is itself a leaf is visited
    before the collector is asked).  And when floats are ordered, the child
    bounds are conservative for the ray and the collector does not raise its
    early-out fraction, a walk that was not aborted has shown the collector
    every triangle of the tree that is hit before the final early-out
    fraction. *)
Theorem CastRay_collector_back_faces_and_hits {C : Type}
    {HC : CollisionCollector RayCastResult C} (fuel : nat) (this : MeshShape)
    (distance_stack : Z → Float) (inRay : RayCast) (inRayCastSettings : RayCastSettings)
    (inSubShapeIDCreator : SubShapeIDCreator) (ioCollector : C) :
  (node_size (mRoot (mTree this)) ≤ fuel)%nat →
  let mode := mBackFaceMode inRayCastSettings in
  let shown := collect_each this inRay mode inSubShapeIDCreator ioCollector in
  ∃ leaves : list (Z * list EncodedTriangle),
    CastRay_collector fuel this distance_stack inRay inRayCastSettings inSubShapeIDCreator
      ioCollector
    = Some (shown (blocks_triangles leaves)) ∧
    leaves ⊆+ node_blocks (mRoot (mTree this)) ∧
    (∀ (before : list (Z * Z * EncodedTriangle)) (x : Z * Z * EncodedTriangle),
       let c := shown before in
       let negative :=
         Float_lt (Vec3_Dot (Vec3_Cross (Vec3_sub (tri_v2 x.2) (tri_v0 x.2))
                                        (Vec3_sub (tri_v1 x.2) (tri_v0 x.2)))
                            (mDirection inRay)) Float_zero in
       let fraction :=
         RayTriangle (mOrigin inRay) (mDirection inRay)
           (tri_v0 x.2) (tri_v1 x.2) (tri_v2 x.2) in
       let hit :=
         mkRayCastResult (sGetBodyID (GetContext c)) fraction
           (GetID (PushID (PushID inSubShapeIDCreator x.1.1
                             (sTriangleBlockIDBits (mTree this)))
                          x.1.2 NumTriangleBits)) in
       (mode = IgnoreBackFaces → negative = true → shown (before ++ [x]) = c) ∧
       (mode = CollideWithBackFaces ∨ negative = false →
          Float_lt fraction (GetEarlyOutFraction c) = true →
          shown (before ++ [x]) = AddHit c hit) ∧
       (Float_lt fraction (GetEarlyOutFraction c) = false → shown (before ++ [x]) = c)) ∧
    (∀ visited rest,
       leaves = visited ++ rest →
       ShouldEarlyOut (shown (blocks_triangles visited)) = true →
       rest = [] ∨
       (visited = [] ∧
        ∃ block_id triangles, mRoot (mTree this) = TriangleBlock block_id triangles)) ∧
    (collector_monotone C → FloatOrder G →
     ray_bounds_ok inRay (mRoot (mTree this)) = true →
     ShouldEarlyOut (shown (blocks_triangles leaves)) = false →
     ∀ x, x ∈ node_triangles (mRoot (mTree this)) →
          Float_lt (triangle_fraction inRay x)
            (GetEarlyOutFraction (shown (blocks_triangles leaves))) = true →
          x ∈ blocks_triangles leaves).
Proof.
  intros Hfuel mode shown. unfold CastRay_collector, MeshShape_WalkTree. cbn zeta.
  set (v := mkCollectVisitor _ _ _ _ _ _ _ _).
  destruct (WalkTree_invariant
              (CastRay_trace_inv this inRay mode inSubShapeIDCreator ioCollector)
              (CastRay_trace_post this inRay mode inSubShapeIDCreator ioCollector)
              CollectVisitor_ok
              (CastRay_trace_step this inRay mode inSubShapeIDCreator ioCollector))
    with (fuel := fuel) (ctx := DecodingContext_new (mTree this)) (v := v)
    as ([ctx' v'] & Hwalk & leaves & Hcol & Hsub & Habort & Hall).
  - cbn. lia.
  - unfold pending_nodes, DecodingContext_new, stack_nodes, nodes_size. simpl. lia.
  - split; [done|]. exists []. split_and!.
    + done.
    + change (pending_nodes (DecodingContext_new (mTree this))) with [mRoot (mTree this)].
      cbn [app flat_map]. by rewrite app_nil_r.
    + intros visited rest Heq _. left.
      symmetry in Heq. by apply app_eq_nil in Heq as [_ ->].
    + by right.
    + intros (_ & _ & Hbounds). cbn [DecodingContext_new mTop mNodeStack]. split_and!.
      * intros i Hi. done.
      * intros i Hi. lia.
      * intros x Hx _. right. exists 0. split; [lia|done].
  - cbn [fst snd] in *. exists leaves. split_and!.
    + rewrite Hwalk. cbn [fst snd fmap option_fmap option_map]. by rewrite Hcol.
    + done.
    + intros before x. cbv zeta. subst shown.
      unfold collect_each. rewrite foldl_snoc.
      fold (collect_each this inRay mode inSubShapeIDCreator ioCollector before).
      unfold reportable, is_back_facing, triangle_hit, triangle_fraction, triangle_id.
      split_and!.
      * intros -> ->. done.
      * intros Hshown ->. rewrite andb_true_r.
        destruct Hshown as [->| ->]; [done|]. by destruct mode.
      * intros ->. by rewrite andb_false_r.
    + exact Habort.
    + intros Hmono FO Hbounds Hgo x Hx Hcloser. fold shown in Hcol. rewrite <- Hcol in *.
      by apply Hall.
Qed.

End MeshShapeProperties.

(* ===================================================================== *)
(** * Part III: evaluation on concrete meshes                             *)
(* ===================================================================== *)

#[local] Existing Instance demo_constants.
#[local] Existing Instance demo_geometry.
#[local] Existing Instance demo_engine.
#[local] Existing Instance demo_builder.

(** ** The sanitizer *)

Example Sanitize_duplicate_and_degenerate :
  Sanitize [demo_T012; demo_T012; demo_T001] = [demo_T012].
Proof. vm_compute. reflexivity. Qed.

(** C1, as the spec states it, fails: of two triangles with the same
    canonical triple the first occurrence (position 0) is erased and the
    second one survives. *)
Lemma Sanitize_drops_first_occurrence :
  first_occurrence [demo_T012; demo_T120] 0 ∧
  [demo_T012; demo_T120] !! 0%nat = Some demo_T012 ∧
  canonical_triple demo_T120 = canonical_triple demo_T012 ∧
  demo_T120 ≠ demo_T012 ∧
  Sanitize [demo_T012; demo_T120] = [demo_T120].
Proof.
  split_and!.
  - exists demo_T012. split_and!; [reflexivity|reflexivity|]. intros j tri' Hj. lia.
  - reflexivity.
  - reflexivity.
  - discriminate.
  - vm_compute. reflexivity.
Qed.

Lemma Sanitize_keeps_last_occurrence_witness :
  let l := [demo_T012; demo_T120; demo_T001] in
  sublist (Sanitize l) l ∧
  Forall (λ tri, IsDegenerate tri = false) (Sanitize l) ∧
  NoDup (canonical_triple <$> Sanitize l) ∧
  ∃ kept : list nat,
    StronglySorted lt kept ∧
    Forall2 (λ i tri, l !! i = Some tri) kept (Sanitize l) ∧
    ∀ i, i ∈ kept ↔ last_occurrence l i.
Proof.
  apply (Sanitize_keeps_last_occurrence [demo_T012; demo_T120; demo_T001]).
  vm_compute. reflexivity.
Defined.

(** ** The constructor *)

Example MeshShape_new_square_flags :
  (FindActiveEdges (K := demo_constants) (G := demo_geometry)
     demo_vertices (mIndexedTriangles demo_square)).1
  = [mkIndexedTriangle 0 1 2 96; mkIndexedTriangle 0 2 3 192].
Proof. vm_compute. reflexivity. Qed.

Lemma MeshShape_new_rejects_full_material_table_witness :
  @MeshShape_new demo_constants demo_geometry demo_engine demo_builder demo_full_table
  = (ResultError (TooManyMaterials 8), []).
Proof.
  apply (@MeshShape_new_rejects_full_material_table
           demo_constants demo_geometry demo_engine demo_builder demo_full_table).
  - vm_compute. discriminate.
  - vm_compute. discriminate.
  - vm_compute. reflexivity.
  - vm_compute. reflexivity.
Defined.


(** ** Active edges *)

Lemma demo_square_triangles : mIndexedTriangles demo_square = [demo_T012; demo_T023].
Proof. vm_compute. reflexivity. Qed.

Lemma demo_fan_triangles :
  mIndexedTriangles demo_fan = [demo_T012; demo_T023; demo_T024].
Proof. vm_compute. reflexivity. Qed.

Lemma demo_triangles_typed :
  Forall IndexedTriangle_typed [demo_T012; demo_T023; demo_T024].
Proof. repeat constructor; simpl; lia. Qed.

Lemma demo_square_valid :
  @MeshShape_new demo_constants demo_geometry demo_engine demo_builder demo_square
  = (ResultValid
       (mkMeshShape
          (mkByteBuffer (G := demo_geometry) ((0, 0, 0), (1, 1, 0))
             (TriangleBlock (G := demo_geometry) 0
                [mkEncodedTriangle (G := demo_geometry) (0, 0, 0) (1, 0, 0) (1, 1, 0) 96;
                 mkEncodedTriangle (G := demo_geometry) (0, 0, 0) (1, 1, 0) (0, 1, 0) 192])
             2) []),
     []).
Proof. vm_compute. reflexivity. Qed.

(** On the split square the diagonal is shared by the two coplanar
    triangles: its bit (position 2 of the first triangle) stays clear. *)
Lemma FindActiveEdges_active_bits_witness :
  ∃ t', (FindActiveEdges (K := demo_constants) (G := demo_geometry)
           (mTriangleVertices demo_square) (mIndexedTriangles demo_square)).1 !! 0%nat
        = Some t' ∧
        same_indices demo_T012 t' ∧
        Z.testbit (mMaterialIndex t') (5 + 2) = false.
Proof.
  assert (Hty : Forall IndexedTriangle_typed (mIndexedTriangles demo_square)).
  { rewrite demo_square_triangles. repeat constructor; simpl; lia. }
  assert (Hlen : Z.of_nat (length (mIndexedTriangles demo_square)) < 2 ^ 31).
  { rewrite demo_square_triangles. reflexivity. }
  assert (Hk : mIndexedTriangles demo_square !! 0%nat = Some demo_T012).
  { rewrite demo_square_triangles. reflexivity. }
  destruct (@FindActiveEdges_active_bits demo_constants demo_geometry demo_engine
              demo_builder demo_square _ _
              (map_to_list (build_edge_to_triangle 0 (mIndexedTriangles demo_square) ∅))
              ltac:(simpl; lia) ltac:(simpl; lia) ltac:(simpl; lia) ltac:(simpl; lia)
              Hty Hlen demo_square_valid ltac:(reflexivity)
              0%nat demo_T012 2 Hk ltac:(lia))
    as (t' & Hk' & Hs & _ & Htwo & _).
  exists t'. split; [exact Hk'|]. split; [exact Hs|].
  cbv zeta in Htwo. rewrite demo_square_triangles in Htwo.
  apply (Htwo 0%nat 1%nat demo_T012 demo_T023 2 0); try reflexivity; lia.
Defined.

Lemma FindActiveEdges_assertions_hold_witness :
  (FindActiveEdges (K := demo_constants) (G := demo_geometry)
     demo_vertices (mIndexedTriangles demo_fan)).2 = [].
Proof.
  apply (@FindActiveEdges_assertions_hold demo_constants demo_geometry demo_engine
           demo_vertices [demo_T012; demo_T023; demo_T024] [5%nat; 6%nat]
           (map_to_list (build_edge_to_triangle 0 (mIndexedTriangles demo_fan) ∅))).
  - simpl; lia.
  - simpl; lia.
  - simpl; lia.
  - simpl; lia.
  - exact demo_triangles_typed.
  - reflexivity.
  - vm_compute. reflexivity.
  - reflexivity.
Defined.

Example FindActiveEdges_fan_flags :
  (FindActiveEdges (K := demo_constants) (G := demo_geometry)
     demo_vertices (mIndexedTriangles demo_fan)).1
  = [mkIndexedTriangle 0 1 2 224; mkIndexedTriangle 0 2 3 224; mkIndexedTriangle 0 2 4 225].
Proof. vm_compute. reflexivity. Qed.

(** ** Sub-shape identifiers and materials *)

Lemma DecodeSubShapeID_roundtrip_witness :
  let id := GetID (PushID (K := demo_constants)
                     (PushID (K := demo_constants) SubShapeIDCreator_new 0 2) 2 2) in
  (PopID (K := demo_constants) id 2).1 = 0 ∧
  (PopID (K := demo_constants) (PopID (K := demo_constants) id 2).2 2).1 = 2 ∧
  IsEmpty (K := demo_constants)
    (PopID (K := demo_constants) (PopID (K := demo_constants) id 2).2 2).2 = true ∧
  DecodeSubShapeID (K := demo_constants) demo_fan_shape id
  = (sGetTriangleBlockStart (mTree demo_fan_shape) 0, 2, [ReadTriangleBlock 0]).
Proof.
  apply (@DecodeSubShapeID_roundtrip demo_constants demo_geometry demo_engine
           demo_fan_shape 0 2);
    vm_compute; first [reflexivity | discriminate | split; [discriminate | reflexivity]].
Defined.

Example GetMaterial_fan :
  GetMaterial (K := demo_constants) demo_fan_shape
    (GetID (PushID (K := demo_constants)
              (PushID (K := demo_constants) SubShapeIDCreator_new 0 2) 2 2))
  = (Some 6%nat, [ReadTriangleBlock 0; ReadTriangleFlags 2]).
Proof. vm_compute. reflexivity. Qed.

(** ** Queries on a tree of three leaves *)

Lemma demo_FloatOrder : FloatOrder demo_geometry.
Proof.
  split; cbn.
  - intros a. apply Z.ltb_irrefl.
  - intros a b c Hab Hbc. apply Z.ltb_lt. apply Z.ltb_lt in Hab, Hbc. lia.
  - intros a b c Hab Hbc. apply Z.ltb_ge. apply Z.ltb_ge in Hab, Hbc. lia.
  - intros a b Hab. apply Z.ltb_ge. apply Z.leb_le in Hab. lia.
Qed.

Lemma CastRay_nearest_hit_witness :
  ∃ (returned : bool) hit,
    CastRay 5 demo_tree_shape (λ _, 0) demo_ray SubShapeIDCreator_new demo_hit
    = Some (returned, hit) ∧
    (returned = true ↔
       ∃ x, x ∈ node_triangles (mRoot (mTree demo_tree_shape)) ∧
            Float_lt (triangle_fraction demo_ray x) (mFraction demo_hit) = true) ∧
    (returned = false → hit = demo_hit).
Proof.
  destruct (@CastRay_nearest_hit demo_constants demo_geometry demo_engine demo_FloatOrder
              5%nat demo_tree_shape (λ _, 0) demo_ray SubShapeIDCreator_new demo_hit
              ltac:(vm_compute; reflexivity) ltac:(vm_compute; reflexivity)
              ltac:(simpl; lia))
    as (returned & hit & Hcast & Hiff & _ & Hfalse).
  exists returned, hit. split; [exact Hcast|]. split; [exact Hiff|exact Hfalse].
Defined.

(** The nearest triangle stands at x = 1: the first of block 1. *)
Example CastRay_demo :
  CastRay 5 demo_tree_shape (λ _, 0) demo_ray SubShapeIDCreator_new demo_hit
  = Some (true, mkRayCastResult 7 1 (GetID (PushID (PushID SubShapeIDCreator_new 1 2) 0 2))).
Proof. vm_compute. reflexivity. Qed.

(** A hit that is already closer than every triangle is left alone. *)
Example CastRay_demo_miss :
  CastRay 5 demo_tree_shape (λ _, 0) demo_ray SubShapeIDCreator_new
    (mkRayCastResult 7 1 (mkSubShapeID 0))
  = Some (false, mkRayCastResult 7 1 (mkSubShapeID 0)).
Proof. vm_compute. reflexivity. Qed.

(** With a direction that sees every triangle from behind, ignoring back
    faces reports nothing and colliding with them reports all nine. *)
Example CastRay_collector_demo :
  (rec_hits <$> CastRay_collector 5 demo_tree_shape (λ _, 0)
                  (mkRayCast (G := demo_geometry) (0, 0, 0) (1, 0, 1))
                  (mkRayCastSettings IgnoreBackFaces) SubShapeIDCreator_new HitRecorder_new)
  = Some [] ∧
  (length ∘ rec_hits <$> CastRay_collector 5 demo_tree_shape (λ _, 0)
                  (mkRayCast (G := demo_geometry) (0, 0, 0) (1, 0, 1))
                  (mkRayCastSettings CollideWithBackFaces) SubShapeIDCreator_new
                  HitRecorder_new)
  = Some 9%nat.
Proof. split; vm_compute; reflexivity. Qed.

(** Five triangles stand at or beyond x = 5, six at or beyond x = 4. *)
Example CollidePoint_demo :
  (point_hits <$> CollidePoint 5 demo_tree_shape (λ _, 0) (5, 0, 0) SubShapeIDCreator_new
                    (mkPointRecorder (Some 3) []))
  = Some [mkCollidePointResult 3 (GetID (PushID (PushID SubShapeIDCreator_new 0 2) 1 2))] ∧
  (point_hits <$> CollidePoint 5 demo_tree_shape (λ _, 0) (4, 0, 0) SubShapeIDCreator_new
                    (mkPointRecorder (Some 3) []))
  = Some [] ∧
  (point_hits <$> CollidePoint 5 demo_tree_shape (λ _, 0) (0, 0, 0) SubShapeIDCreator_new
                    (mkPointRecorder (Some 3) []))
  = Some [].
Proof. split_and!; vm_compute; reflexivity. Qed.

Lemma GetTrianglesNext_each_triangle_once_witness :
  let start := GetTrianglesStart demo_tree_shape ((0, 0, 0), (20, 20, 20)) (0, 0, 0) tt
                 (1, 1, 1) in
  ∃ context chunks,
    GetTriangles_calls 5 start [4; 4; 4; 4] true
    = Some (context, leaves_output start true <$> chunks) ∧
    concat chunks = [demo_leaf_3; demo_leaf_1; demo_leaf_0] ∧
    IsDoneWalking (mDecodeCtx context) = true.
Proof.
  intros start.
  destruct (@GetTrianglesNext_each_triangle_once demo_constants demo_geometry demo_engine
              5%nat demo_tree_shape ((0, 0, 0), (20, 20, 20)) (0, 0, 0) tt (1, 1, 1)
              [4; 4; 4; 4] true)
    as (context & chunks & remaining & Hcalls & Hfill & _ & _ & Hdone).
  - simpl. lia.
  - repeat constructor; simpl; lia.
  - simpl. lia.
  - exists context, chunks. split; [exact Hcalls|].
    assert (Hfill' : fill_buffers [4; 4; 4; 4]
                       (selected_leaves (mLocalBox start) (mMeshScale start)
                          (mRoot (mTree demo_tree_shape)))
                     = ([[demo_leaf_3]; [demo_leaf_1]; [demo_leaf_0]; []], []))
      by (vm_compute; reflexivity).
    fold start in Hfill. rewrite Hfill' in Hfill. injection Hfill as <- <-.
    split; [reflexivity|]. apply Hdone. discriminate.
Defined.

(** Buffers of four triangles: three, four and two triangles, then none. *)
Example GetTrianglesNext_demo :
  ((λ r : MSGetTrianglesContext * list GetTrianglesOutput, map out_count r.2) <$>
     GetTriangles_calls 5
       (GetTrianglesStart demo_tree_shape ((0, 0, 0), (20, 20, 20)) (0, 0, 0) tt (1, 1, 1))
       [4; 4; 4; 4] false)
  = Some [3; 4; 2; 0].
Proof. vm_compute. reflexivity. Qed.


(** ** The constructor's validation *)

Lemma MeshShape_new_valid_iff_witness :
  let shape :=
    mkMeshShape
      (mkByteBuffer (G := demo_geometry) ((0, 0, 0), (1, 1, 0))
         (TriangleBlock (G := demo_geometry) 0
            [mkEncodedTriangle (G := demo_geometry) (0, 0, 0) (1, 0, 0) (1, 1, 0) 96;
             mkEncodedTriangle (G := demo_geometry) (0, 0, 0) (1, 1, 0) (0, 1, 0) 192])
         2) [] in
  (@MeshShape_new demo_constants demo_geometry demo_engine demo_builder demo_square).1
  = ResultValid shape ↔
    mIndexedTriangles demo_square ≠ [] ∧
    Forall (λ t, IsDegenerate t = false ∧ mIdx_0 t < 5 ∧ mIdx_1 t < 5 ∧ mIdx_2 t < 5)
      (mIndexedTriangles demo_square) ∧
    materials_accepted (settings_mMaterials demo_square) (mIndexedTriangles demo_square) ∧
    Convert (mTriangleVertices demo_square)
      (FindActiveEdges (mTriangleVertices demo_square) (mIndexedTriangles demo_square)).1
    = inr (mTree shape) ∧
    sTriangleBlockIDBits (mTree shape) + NumTriangleBits ≤ MaxBits ∧
    mMaterials shape = settings_mMaterials demo_square.
Proof.
  intros shape.
  apply (@MeshShape_new_valid_iff demo_constants demo_geometry demo_engine demo_builder
           demo_square shape).
  vm_compute. reflexivity.
Defined.

(** Of a degenerate triangle in the middle and a sound one after it, the
    degenerate one is reported. *)
Lemma MeshShape_new_reports_last_bad_triangle_witness :
  @MeshShape_new demo_constants demo_geometry demo_engine demo_builder
    (@mkMeshShapeSettings demo_geometry demo_engine demo_vertices
       [demo_T012; demo_T001; demo_T023] [])
  = (ResultError (DegenerateTriangle 1), []).
Proof.
  apply (@MeshShape_new_reports_last_bad_triangle demo_constants demo_geometry demo_engine
           demo_builder
           (@mkMeshShapeSettings demo_geometry demo_engine demo_vertices
       [demo_T012; demo_T001; demo_T023] [])
           1%nat demo_T001).
  - vm_compute. reflexivity.
  - reflexivity.
  - reflexivity.
  - intros j t' Hj Hlookup. destruct j as [|[|[|j]]]; [lia|lia| |discriminate].
    injection Hlookup as <-. reflexivity.
Defined.

Lemma MeshShapeSettings_new_never_degenerate_witness :
  let inSettings :=
    @MeshShapeSettings_new demo_geometry demo_engine demo_vertices [demo_T001; demo_T001] [] in
  (∀ t, (@MeshShape_new demo_constants demo_geometry demo_engine demo_builder inSettings).1
        ≠ ResultError (DegenerateTriangle t)) ∧
  (Forall (λ t, IsDegenerate t = true) [demo_T001; demo_T001] →
   @MeshShape_new demo_constants demo_geometry demo_engine demo_builder inSettings
   = (ResultError EmptyInput, [])).
Proof.
  apply (@MeshShapeSettings_new_never_degenerate demo_constants demo_geometry demo_engine
           demo_builder demo_vertices [demo_T001; demo_T001] []).
  vm_compute. reflexivity.
Defined.

(** The third triangle of the fan keeps its material index 1 below the
    active-edge bits. *)
Lemma FindActiveEdges_keeps_material_index_witness :
  ∃ t', (FindActiveEdges_in_order (K := demo_constants) (G := demo_geometry)
           (mTriangleVertices demo_fan)
           (map_to_list (build_edge_to_triangle 0 (mIndexedTriangles demo_fan) ∅))
           (mIndexedTriangles demo_fan)).1 !! 2%nat = Some t' ∧
        Z.land (mMaterialIndex t') 31 = 1 ∧
        0 ≤ mMaterialIndex t' < 2 ^ 8.
Proof.
  apply (@FindActiveEdges_keeps_material_index demo_constants demo_geometry demo_engine
           demo_fan
           (map_to_list (build_edge_to_triangle 0 (mIndexedTriangles demo_fan) ∅))
           ltac:(simpl; lia) ltac:(simpl; lia) ltac:(reflexivity)
           demo_triangles_typed ltac:(vm_compute; reflexivity)
           ltac:(vm_compute; reflexivity) ltac:(reflexivity)
           2%nat demo_T024).
  reflexivity.
Defined.

(** ** The sanitizer, again *)

Lemma Sanitize_idempotent_witness :
  let l := [demo_T012; demo_T120; demo_T001] in
  (Forall (λ t, IsDegenerate t = false) l → NoDup (canonical_triple <$> l) →
   Sanitize l = l) ∧
  Sanitize (Sanitize l) = Sanitize l.
Proof.
  apply (Sanitize_idempotent [demo_T012; demo_T120; demo_T001]).
  vm_compute. reflexivity.
Defined.

(** ** The edge map *)

(** The diagonal of the split square is an edge of both triangles. *)
Lemma edge_to_triangle_lookup_witness :
  build_edge_to_triangle 0 [demo_T012; demo_T023] ∅ !! Edge_new 2 0 = Some [0%nat; 1%nat].
Proof.
  apply (edge_to_triangle_lookup [demo_T012; demo_T023] 2 0).
  - repeat constructor; simpl; lia.
  - repeat constructor.
  - lia.
  - lia.
Defined.

Lemma GetIndexInTriangle_roundtrip_iff_witness :
  (∀ p, 0 ≤ p ≤ 2 → GetIndexInTriangle (triangle_edge demo_T012 p) demo_T012 = p)
  ↔ IsDegenerate demo_T012 = false.
Proof.
  apply (GetIndexInTriangle_roundtrip_iff demo_T012).
  repeat split; simpl; lia.
Defined.

(** ** Identifiers of the triangles of a tree *)

Lemma demo_tree_ids_ok : tree_ids_ok (K := demo_constants) demo_tree.
Proof.
  split_and!.
  - apply (bool_decide_unpack _). vm_compute. exact I.
  - repeat constructor; cbn; lia.
  - repeat constructor; cbn; lia.
Qed.

Lemma demo_creator_wf : creator_wf (K := demo_constants) SubShapeIDCreator_new.
Proof. apply SubShapeIDCreator_new_wf. reflexivity. Qed.

Lemma demo_x12_in_tree : demo_x12 ∈ node_triangles (mRoot demo_tree).
Proof. apply list_elem_of_In. cbn. tauto. Qed.

Lemma demo_x31_in_tree : demo_x31 ∈ node_triangles (mRoot demo_tree).
Proof. apply list_elem_of_In. cbn. tauto. Qed.

Lemma GetMaterial_of_tree_triangle_witness :
  GetMaterial (K := demo_constants) demo_tree_materials
    (PopID (K := demo_constants)
       (triangle_id (K := demo_constants) demo_tree_materials SubShapeIDCreator_new demo_x12)
       0).2
  = (Some 5%nat, [ReadTriangleBlock 1; ReadTriangleFlags 2]).
Proof.
  apply (@GetMaterial_of_tree_triangle demo_constants demo_geometry demo_engine
           demo_tree_materials SubShapeIDCreator_new demo_x12).
  - reflexivity.
  - exact demo_creator_wf.
  - simpl. lia.
  - simpl. lia.
  - simpl. lia.
  - exact demo_tree_ids_ok.
  - discriminate.
  - exact demo_x12_in_tree.
Defined.

Lemma triangle_id_injective_witness :
  triangle_id (K := demo_constants) demo_tree_materials SubShapeIDCreator_new demo_x12
  ≠ triangle_id (K := demo_constants) demo_tree_materials SubShapeIDCreator_new demo_x31.
Proof.
  apply (@triangle_id_injective demo_constants demo_geometry demo_engine
           demo_tree_materials SubShapeIDCreator_new demo_x12 demo_x31).
  - reflexivity.
  - exact demo_creator_wf.
  - simpl. lia.
  - simpl. lia.
  - simpl. lia.
  - exact demo_tree_ids_ok.
  - exact demo_x12_in_tree.
  - exact demo_x31_in_tree.
  - discriminate.
Defined.

Lemma GetSurfaceNormal_of_tree_triangle_witness :
  GetSurfaceNormal (K := demo_constants) (N := demo_normalizer) demo_tree_materials
    (PopID (K := demo_constants)
       (triangle_id (K := demo_constants) demo_tree_materials SubShapeIDCreator_new demo_x12)
       0).2 (0, 0, 0)
  = (Some (0, 0, 1), [ReadTriangleBlock 1]).
Proof.
  apply (@GetSurfaceNormal_of_tree_triangle demo_constants demo_geometry demo_engine
           demo_normalizer demo_tree_materials SubShapeIDCreator_new demo_x12 (0, 0, 0)).
  - reflexivity.
  - exact demo_creator_wf.
  - simpl. lia.
  - simpl. lia.
  - simpl. lia.
  - exact demo_tree_ids_ok.
  - exact demo_x12_in_tree.
Defined.

(** The nearest hit of the demonstration ray is the first triangle of
    block 1, and its identifier leads to the material of that triangle. *)
Lemma CastRay_hit_material_witness :
  ∃ x, x ∈ node_triangles (mRoot (mTree demo_tree_materials)) ∧
       triangle_fraction demo_ray x = 1 ∧
       GetMaterial (K := demo_constants) demo_tree_materials
         (GetID (PushID (PushID SubShapeIDCreator_new 1 2) 0 2))
       = (mMaterials demo_tree_materials !! Z.to_nat (Z.land (tri_flags x.2) 31),
          [ReadTriangleBlock x.1.1; ReadTriangleFlags x.1.2]).
Proof.
  destruct (@CastRay_hit_material demo_constants demo_geometry demo_engine demo_FloatOrder
              5%nat demo_tree_materials (λ _, 0) demo_ray SubShapeIDCreator_new demo_hit
              (mkRayCastResult (G := demo_geometry) (E := demo_engine) 7 1
                 (GetID (PushID (PushID SubShapeIDCreator_new 1 2) 0 2)))
              ltac:(vm_compute; reflexivity) ltac:(vm_compute; reflexivity)
              ltac:(simpl; lia) ltac:(reflexivity) demo_creator_wf
              ltac:(simpl; lia) ltac:(simpl; lia) ltac:(simpl; lia)
              demo_tree_ids_ok ltac:(discriminate) ltac:(vm_compute; reflexivity))
    as (x & Hx & Hfraction & _ & Hmaterial).
  exists x. split; [exact Hx|]. split; [symmetry; exact Hfraction|exact Hmaterial].
Defined.


(** ** Statistics *)

(** The padding child of the hand-written tree has no valid bounds and no
    triangles: all nine triangles are counted. *)
Lemma GetStats_counts_valid_children_witness :
  mNumTriangles <$> GetStats (BA := demo_box_access) (L := demo_layout) 5 demo_tree_materials
  = Some 9.
Proof.
  destruct (GetStats_counts_valid_children (BA := demo_box_access) (L := demo_layout)
              5 demo_tree_materials ltac:(simpl; lia)) as (_ & Hall & _).
  apply Hall. cbn [populated_children_valid mRoot mTree demo_tree_materials demo_tree].
  split_and!; try exact I.
  - right. vm_compute. reflexivity.
  - right. vm_compute. reflexivity.
  - left. reflexivity.
  - right. vm_compute. reflexivity.
Defined.

Example GetStats_demo :
  GetStats (BA := demo_box_access) (L := demo_layout) 5 demo_tree_materials
  = Some (mkStats 160 9).
Proof. vm_compute. reflexivity. Qed.

(** ** Convex shape against mesh *)

(** The collector takes five triangles: the three of block 3 and the first
    two of block 1. *)
Lemma sCollideConvexVsMesh_collides_selected_witness :
  dc_calls <$> sCollideConvexVsMesh (K := demo_constants) (CT := demo_convex_vs_triangles)
                 5 demo_tree_materials demo_convex SubShapeIDCreator_new
  = Some ((λ x, (0, mValue (triangle_id (K := demo_constants) demo_tree_materials
                             SubShapeIDCreator_new x)))
            <$> [(3, 0, demo_triangle 9); (3, 1, demo_triangle 4); (3, 2, demo_triangle 8);
                 (1, 0, demo_triangle 1); (1, 1, demo_triangle 3)]).
Proof.
  rewrite (sCollideConvexVsMesh_collides_selected (K := demo_constants)
             (CT := demo_convex_vs_triangles) 5 demo_tree_materials demo_convex
             SubShapeIDCreator_new).
  - vm_compute. reflexivity.
  - intros base v0 v1 v2 edges id. split; reflexivity.
  - simpl. lia.
  - reflexivity.
Defined.

(** ** The collector cast and the point test *)

Lemma HitRecorder_steady : collector_steady (G := demo_geometry) (E := demo_engine) HitRecorder.
Proof. intros c hit. split_and!; reflexivity. Qed.

Lemma CastRay_collector_reports_every_hit_witness :
  ∃ hits,
    CastRay_collector 5 demo_tree_materials (λ _, 0) demo_ray
      (mkRayCastSettings CollideWithBackFaces) SubShapeIDCreator_new HitRecorder_new
    = Some (foldl AddHit HitRecorder_new hits) ∧
    hits ≡ₚ triangle_hit (K := demo_constants) demo_tree_materials demo_ray
              SubShapeIDCreator_new (sGetBodyID (GetContext HitRecorder_new))
             <$> filter (λ x, reportable demo_ray CollideWithBackFaces
                                (GetEarlyOutFraction HitRecorder_new) x = true)
                   (node_triangles (mRoot (mTree demo_tree_materials))).
Proof.
  apply (@CastRay_collector_reports_every_hit demo_constants demo_geometry demo_engine
           demo_FloatOrder HitRecorder _ 5%nat demo_tree_materials (λ _, 0) demo_ray
           (mkRayCastSettings CollideWithBackFaces) SubShapeIDCreator_new HitRecorder_new).
  - exact HitRecorder_steady.
  - reflexivity.
  - vm_compute. reflexivity.
  - simpl. lia.
Defined.

(** Five triangles stand at or beyond x = 5: the point is reported. *)
Lemma CollidePoint_counts_crossings_witness :
  length (crossings demo_tree_materials (5, 0, 0)) = 5%nat ∧
  ∃ x, x ∈ crossings demo_tree_materials (5, 0, 0) ∧
       CollidePoint 5 demo_tree_materials (λ _, 0) (5, 0, 0) SubShapeIDCreator_new
         (mkPointRecorder (Some 3) [])
       = Some (AddHit (mkPointRecorder (Some 3) [])
                 (mkCollidePointResult 3
                    (triangle_id (K := demo_constants) demo_tree_materials
                       SubShapeIDCreator_new x))).
Proof.
  split; [vm_compute; reflexivity|].
  destruct (@CollidePoint_counts_crossings demo_constants demo_geometry demo_engine
              demo_FloatOrder PointRecorder _ 5%nat demo_tree_materials (λ _, 0) (5, 0, 0)
              SubShapeIDCreator_new (mkPointRecorder (Some 3) [])
              ltac:(vm_compute; reflexivity) ltac:(reflexivity)
              ltac:(vm_compute; reflexivity) ltac:(simpl; lia)) as [_ Hodd].
  apply Hodd. vm_compute. reflexivity.
Defined.


(** ** Shape cast *)

Lemma CastShape_casts_each_triangle_at_most_once_witness :
  ∃ order,
    CastShape (K := demo_constants) (SG := demo_shape_cast_geometry) (CC := demo_convex_cast)
      5 demo_tree_materials (λ _, 0) demo_shape_cast demo_cast SubShapeIDCreator_new
    = Some (cast_each (K := demo_constants) (CC := demo_convex_cast) demo_tree_materials
              SubShapeIDCreator_new demo_cast order) ∧
    order ⊆+ node_triangles (mRoot (mTree demo_tree_materials)).
Proof.
  apply (CastShape_casts_each_triangle_at_most_once (K := demo_constants)
           (SG := demo_shape_cast_geometry) (CC := demo_convex_cast)
           5 demo_tree_materials (λ _, 0) demo_shape_cast demo_cast SubShapeIDCreator_new).
  - reflexivity.
  - simpl. lia.
Defined.

(** The enlarged boxes of the three blocks all contain the centre of the
    cast shape: the three triangles of block 3 and two of block 1 are cast
    against before the collector wants out. *)
Example CastShape_demo :
  dcast_calls <$>
    CastShape (K := demo_constants) (SG := demo_shape_cast_geometry) (CC := demo_convex_cast)
      5 demo_tree_materials (λ _, 0) demo_shape_cast demo_cast SubShapeIDCreator_new
  = Some ((λ x, (0, mValue (triangle_id (K := demo_constants) demo_tree_materials
                             SubShapeIDCreator_new x)))
            <$> [(3, 0, demo_triangle 9); (3, 1, demo_triangle 4); (3, 2, demo_triangle 8);
                 (1, 0, demo_triangle 1); (1, 1, demo_triangle 3)]).
Proof. vm_compute. reflexivity. Qed.


(** ** The collector cast, whatever the collector *)

Lemma CastRay_collector_reports_no_triangle_twice_witness :
  ∃ order,
    CastRay_collector 5 demo_tree_materials (λ _, 0) demo_ray
      (mkRayCastSettings IgnoreBackFaces) SubShapeIDCreator_new HitRecorder_new
    = Some (collect_each (K := demo_constants) demo_tree_materials demo_ray IgnoreBackFaces
              SubShapeIDCreator_new HitRecorder_new order) ∧
    order ⊆+ node_triangles (mRoot (mTree demo_tree_materials)).
Proof.
  apply (@CastRay_collector_reports_no_triangle_twice demo_constants demo_geometry
           demo_engine HitRecorder _ 5%nat demo_tree_materials (λ _, 0) demo_ray
           (mkRayCastSettings IgnoreBackFaces) SubShapeIDCreator_new HitRecorder_new).
  simpl. lia.
Defined.


(** ** The collector cast with a closest-hit collector *)

Lemma ClosestRecorder_monotone :
  collector_monotone (G := demo_geometry) (E := demo_engine) ClosestRecorder.
Proof.
  intros c hit Hcloser. cbn in *. apply Z.ltb_ge. apply Z.ltb_lt in Hcloser. lia.
Qed.

Lemma HitRecorder_monotone :
  collector_monotone (G := demo_geometry) (E := demo_engine) HitRecorder.
Proof. intros c hit _. cbn. apply Z.ltb_irrefl. Qed.

(** With the recorder that gathers all hits every triangle of the tree is
    shown; with the closest-hit collector every triangle before the final
    early-out fraction 1 is. *)
Lemma CastRay_collector_back_faces_and_hits_witness :
  (∃ leaves,
     CastRay_collector 5 demo_tree_materials (λ _, 0) demo_ray
       (mkRayCastSettings CollideWithBackFaces) SubShapeIDCreator_new HitRecorder_new
     = Some (collect_each (K := demo_constants) demo_tree_materials demo_ray
               CollideWithBackFaces SubShapeIDCreator_new HitRecorder_new
               (blocks_triangles leaves)) ∧
     leaves ⊆+ node_blocks (mRoot (mTree demo_tree_materials)) ∧
     ∀ x, x ∈ node_triangles (mRoot (mTree demo_tree_materials)) →
          x ∈ blocks_triangles leaves) ∧
  (∃ leaves,
     CastRay_collector 5 demo_tree_materials (λ _, 0) demo_ray
       (mkRayCastSettings CollideWithBackFaces) SubShapeIDCreator_new ClosestRecorder_new
     = Some (collect_each (K := demo_constants) demo_tree_materials demo_ray
               CollideWithBackFaces SubShapeIDCreator_new ClosestRecorder_new
               (blocks_triangles leaves)) ∧
     leaves ⊆+ node_blocks (mRoot (mTree demo_tree_materials)) ∧
     ∀ x, x ∈ node_triangles (mRoot (mTree demo_tree_materials)) →
          Float_lt (triangle_fraction demo_ray x) 1 = true →
          x ∈ blocks_triangles leaves).
Proof.
  split.
  - destruct (@CastRay_collector_back_faces_and_hits demo_constants demo_geometry
                demo_engine HitRecorder _ 5%nat demo_tree_materials (λ _, 0) demo_ray
                (mkRayCastSettings CollideWithBackFaces) SubShapeIDCreator_new
                HitRecorder_new ltac:(simpl; lia))
      as (leaves & Hcast & Hleaves & _ & _ & Hall).
    cbn [mBackFaceMode] in Hcast, Hall.
    assert (Hfinal : collect_each (K := demo_constants) demo_tree_materials demo_ray
                       CollideWithBackFaces SubShapeIDCreator_new HitRecorder_new
                       (blocks_triangles leaves)
                     = default HitRecorder_new
                         (CastRay_collector 5 demo_tree_materials (λ _, 0) demo_ray
                            (mkRayCastSettings CollideWithBackFaces) SubShapeIDCreator_new
                            HitRecorder_new)).
    { by rewrite Hcast. }
    exists leaves. split; [exact Hcast|]. split; [exact Hleaves|].
    intros x Hx. apply Hall.
    + exact HitRecorder_monotone.
    + exact demo_FloatOrder.
    + vm_compute. reflexivity.
    + rewrite Hfinal. vm_compute. reflexivity.
    + exact Hx.
    + rewrite Hfinal.
      assert (Hfraction : GetEarlyOutFraction
                            (default HitRecorder_new
                               (CastRay_collector 5 demo_tree_materials (λ _, 0) demo_ray
                                  (mkRayCastSettings CollideWithBackFaces)
                                  SubShapeIDCreator_new HitRecorder_new))
                          = demo_FLT_MAX) by (vm_compute; reflexivity).
      rewrite Hfraction.
      assert (Hevery : forallb (λ y, Float_lt (triangle_fraction demo_ray y) demo_FLT_MAX)
                         (node_triangles (mRoot (mTree demo_tree_materials))) = true)
        by (vm_compute; reflexivity).
      rewrite forallb_forall in Hevery. apply Hevery. by apply list_elem_of_In.
  - destruct (@CastRay_collector_back_faces_and_hits demo_constants demo_geometry
                demo_engine ClosestRecorder _ 5%nat demo_tree_materials (λ _, 0) demo_ray
                (mkRayCastSettings CollideWithBackFaces) SubShapeIDCreator_new
                ClosestRecorder_new ltac:(simpl; lia))
      as (leaves & Hcast & Hleaves & _ & _ & Hall).
    cbn [mBackFaceMode] in Hcast, Hall.
    assert (Hfinal : collect_each (K := demo_constants) demo_tree_materials demo_ray
                       CollideWithBackFaces SubShapeIDCreator_new ClosestRecorder_new
                       (blocks_triangles leaves)
                     = default ClosestRecorder_new
                         (CastRay_collector 5 demo_tree_materials (λ _, 0) demo_ray
                            (mkRayCastSettings CollideWithBackFaces) SubShapeIDCreator_new
                            ClosestRecorder_new)).
    { by rewrite Hcast. }
    exists leaves. split; [exact Hcast|]. split; [exact Hleaves|].
    intros x Hx Hcloser. apply Hall.
    + exact ClosestRecorder_monotone.
    + exact demo_FloatOrder.
    + vm_compute. reflexivity.
    + rewrite Hfinal. vm_compute. reflexivity.
    + exact Hx.
    + rewrite Hfinal. exact Hcloser.
Defined.

(** The closest leaf is visited first: the closest-hit collector is given
    the triangle at x = 1 of block 1, and nothing after it is closer. *)
Example CastRay_collector_closest_demo :
  (map mFraction ∘ closest_hits) <$>
    CastRay_collector 5 demo_tree_materials (λ _, 0) demo_ray
      (mkRayCastSettings CollideWithBackFaces) SubShapeIDCreator_new ClosestRecorder_new
  = Some [1].
Proof. vm_compute. reflexivity. Qed.

(** ** Material lookup, again *)

Lemma GetMaterial_spec_witness :
  GetMaterial (K := demo_constants) demo_fan_shape
    (GetID (PushID (K := demo_constants)
              (PushID (K := demo_constants) SubShapeIDCreator_new 0 2) 2 2))
  = (Some 6%nat, [ReadTriangleBlock 0; ReadTriangleFlags 2]) ∧
  GetMaterial (K := demo_constants) demo_tree_shape (mkSubShapeID 12345)
  = (Some 0%nat, []).
Proof.
  split.
  - destruct (@GetMaterial_spec demo_constants demo_geometry demo_engine demo_fan_shape
                (GetID (PushID (K := demo_constants)
                          (PushID (K := demo_constants) SubShapeIDCreator_new 0 2) 2 2)))
      as [_ Htable].
    destruct (Htable ltac:(vm_compute; discriminate)) as [_ Htriangle].
    apply (Htriangle 0 2
             [mkEncodedTriangle (G := demo_geometry) (0, 0, 0) (1, 0, 0) (1, 1, 0) 224;
              mkEncodedTriangle (G := demo_geometry) (0, 0, 0) (1, 1, 0) (0, 1, 0) 224;
              mkEncodedTriangle (G := demo_geometry) (0, 0, 0) (1, 1, 0) (0, 0, 1) 225]
             (mkEncodedTriangle (G := demo_geometry) (0, 0, 0) (1, 1, 0) (0, 0, 1) 225));
      vm_compute; first [reflexivity | discriminate | split; [discriminate | reflexivity]].
  - apply (@GetMaterial_spec demo_constants demo_geometry demo_engine demo_tree_shape
             (mkSubShapeID 12345)).
    reflexivity.
Defined.
